(** * Modular decomposition (sage/graphs/graph_decompositions/modular_decomposition.py)

    A shallow embedding of the decomposition-tree utilities, of the
    Habib-Maurer decomposer and of the intrusive-tree machinery of the
    Tedder decomposer, together with the properties stated about them. *)

From Stdlib Require Import ZArith Lia.
From stdpp Require Import base option list relations gmap.

Set Default Proof Using "Type".
Local Open Scope Z_scope.

(** ** Outcomes of Python code *)

(** The exceptions the modelled code can raise.  [IllTyped] is not a Python
    exception: it marks a value that leaves the typed fragment of the
    embedding (Python would carry on with an object the tree type below
    cannot hold). *)
Inductive exn : Type :=
| ValueError
| KeyError
| IndexError
| AttributeError
| AssertionError
| IllTyped.

Inductive result (A : Type) : Type :=
| Ok (a : A)
| Raise (e : exn)
| OutOfFuel.
Arguments Ok {A} a.
Arguments Raise {A} e.
Arguments OutOfFuel {A}.

#[global] Instance exn_eq_dec : EqDecision exn.
Proof. solve_decision. Defined.

#[global] Instance result_ret : MRet result := fun A a => Ok a.
#[global] Instance result_bind : MBind result := fun A B f m =>
  match m with
  | Ok a => f a
  | Raise e => Raise e
  | OutOfFuel => OutOfFuel
  end.
#[global] Instance result_fmap : FMap result := fun A B f m =>
  match m with
  | Ok a => Ok (f a)
  | Raise e => Raise e
  | OutOfFuel => OutOfFuel
  end.

Definition is_Ok {A} (r : result A) : Prop := ∃ a, r = Ok a.

(** [[f(x) for x in l]] where [f] may raise: the first exception wins. *)
Fixpoint result_mapM {A B} (f : A → result B) (l : list A) : result (list B) :=
  match l with
  | [] => Ok []
  | x :: l' => y ← f x; ys ← result_mapM f l'; Ok (y :: ys)
  end.

(** ** Node types *)

Inductive NodeType : Type := PRIME | SERIES | PARALLEL | NORMAL | FOREST.

#[global] Instance NodeType_eq_dec : EqDecision NodeType.
Proof. solve_decision. Defined.

Definition is_degenerate (t : NodeType) : bool :=
  match t with
  | PARALLEL | SERIES => true
  | _ => false
  end.

Inductive NodeSplit : Type := LEFT_SPLIT | RIGHT_SPLIT | BOTH_SPLIT | NO_SPLIT.

#[global] Instance NodeSplit_eq_dec : EqDecision NodeSplit.
Proof. solve_decision. Defined.

(** [Node.set_node_split], [Node.has_left_split] and [Node.has_right_split]
    read and write the field [node_split] only; they are given as functions
    of its value.  [set_node_split] returns the value the field has after
    the call. *)
Definition set_node_split (self_node_split node_split : NodeSplit) : NodeSplit :=
  if bool_decide (self_node_split = NO_SPLIT) then node_split
  else if bool_decide (self_node_split = LEFT_SPLIT ∧ node_split = RIGHT_SPLIT) ||
          bool_decide (self_node_split = RIGHT_SPLIT ∧ node_split = LEFT_SPLIT)
       then BOTH_SPLIT
       else self_node_split.

Definition has_left_split (self_node_split : NodeSplit) : bool :=
  bool_decide (self_node_split = LEFT_SPLIT) || bool_decide (self_node_split = BOTH_SPLIT).

Definition has_right_split (self_node_split : NodeSplit) : bool :=
  bool_decide (self_node_split = RIGHT_SPLIT) || bool_decide (self_node_split = BOTH_SPLIT).

(** ** Decomposition trees (class [Node])

    A [Node] object has a [node_type] and a list [children].  A node built by
    [create_normal_node] has type [NORMAL] and holds its vertex as the only
    entry of [children]; every other node holds [Node] objects.  The two
    shapes are the two constructors: [Normal v] is [Node(NORMAL)] with
    [children = [v]], and [Inner t cs] is [Node(t)] with [children = cs],
    where [t] is not [NORMAL].  The fields [node_split], [index_in_root],
    [comp_num] and [is_separated] keep the value [__init__] gives them on
    every path modelled here and are left out. *)
#[local] Unset Elimination Schemes.
Inductive Node (V : Type) : Type :=
| Normal (vertex : V)
| Inner (t : NodeType) (children : list (Node V)).
#[local] Set Elimination Schemes.
Arguments Normal {V} vertex.
Arguments Inner {V} t children.

Section node.
Context {V : Type}.

Definition node_type (n : Node V) : NodeType :=
  match n with
  | Normal _ => NORMAL
  | Inner t _ => t
  end.

(** [len(node.children)] *)
Definition num_children (n : Node V) : nat :=
  match n with
  | Normal _ => 1%nat
  | Inner _ cs => length cs
  end.

Definition create_prime_node : Node V := Inner PRIME [].
Definition create_parallel_node : Node V := Inner PARALLEL [].
Definition create_series_node : Node V := Inner SERIES [].
Definition create_normal_node (vertex : V) : Node V := Normal vertex.

(** A tree whose inner nodes are not typed [NORMAL]: the trees the
    representation stands for. *)
Fixpoint node_wf (n : Node V) : bool :=
  match n with
  | Normal _ => true
  | Inner t cs => negb (bool_decide (t = NORMAL)) && forallb node_wf cs
  end.

(** [get_vertices]: the inner [recurse_component] appends to one shared
    list, left to right. *)
Fixpoint get_vertices (component_root : Node V) : list V :=
  match component_root with
  | Normal v => [v]
  | Inner _ cs => concat (map get_vertices cs)
  end.

(** [itertools.product(vs1, vs2)] *)
Definition product (vs1 vs2 : list V) : list (V * V) :=
  flat_map (λ v1, map (λ v2, (v1, v2)) vs2) vs1.

(** [itertools.combinations(l, 2)] *)
Fixpoint combinations {A} (l : list A) : list (A * A) :=
  match l with
  | [] => []
  | x :: l' => map (λ y, (x, y)) l' ++ combinations l'
  end.

(** [tree_to_vertices_and_edges], the inner function of [md_tree_to_graph]:
    the vertices and the edges of a graph that has the given tree.  The
    children of a [PRIME] node are joined along a path, those of a [SERIES]
    node pairwise; any other node adds no edge. *)
Fixpoint tree_to_vertices_and_edges (root : Node V) : list V * list (V * V) :=
  match root with
  | Normal v => ([v], [])
  | Inner t cs =>
      let children_ve := map tree_to_vertices_and_edges cs in
      let vertices := concat (map fst children_ve) in
      let edges := concat (map snd children_ve) in
      let vertex_lists := map fst children_ve in
      let joined :=
        match t with
        | PRIME => zip vertex_lists (tail vertex_lists)
        | SERIES => combinations vertex_lists
        | _ => []
        end in
      (vertices, edges ++ flat_map (λ p, product p.1 p.2) joined)
  end.

(** An induction principle that reaches the children. *)
Lemma Node_ind' (P : Node V → Prop) :
  (∀ v, P (Normal v)) →
  (∀ t cs, Forall P cs → P (Inner t cs)) →
  ∀ n, P n.
Proof.
  intros Hn Hi. fix IH 1. intros [v | t cs]; [apply Hn |].
  apply Hi. induction cs as [| c cs IHcs]; constructor; [apply IH | apply IHcs].
Qed.
End node.

(** ** Nested tuples *)

(** The Python values a nested tuple is made of.  Vertex identifiers are such
    values too. *)
#[local] Unset Elimination Schemes.
Inductive pyval : Type :=
| PInt (n : Z)
| PType (t : NodeType)
| PTuple (items : list pyval)
| PList (items : list pyval).
#[local] Set Elimination Schemes.

Section pyval_eq.
Fixpoint pyval_eqb (a b : pyval) {struct a} : bool :=
  let fix all2 (l1 l2 : list pyval) {struct l1} : bool :=
    match l1, l2 with
    | [], [] => true
    | x :: l1', y :: l2' => pyval_eqb x y && all2 l1' l2'
    | _, _ => false
    end in
  match a, b with
  | PInt n, PInt m => bool_decide (n = m)
  | PType t, PType u => bool_decide (t = u)
  | PTuple l1, PTuple l2 => all2 l1 l2
  | PList l1, PList l2 => all2 l1 l2
  | _, _ => false
  end.

Lemma pyval_ind' (P : pyval → Prop) :
  (∀ n, P (PInt n)) → (∀ t, P (PType t)) →
  (∀ l, Forall P l → P (PTuple l)) →
  (∀ l, Forall P l → P (PList l)) →
  ∀ v, P v.
Proof.
  intros H1 H2 H3 H4. fix IH 1.
  intros [n | t | l | l]; [apply H1 | apply H2 | apply H3 | apply H4];
    induction l as [| x l IHl]; constructor; solve [apply IH | apply IHl].
Qed.

Lemma pyval_eqb_spec a b : pyval_eqb a b = true ↔ a = b.
Proof.
  assert (Hlist : ∀ l : list pyval,
    Forall (λ x, ∀ y, pyval_eqb x y = true ↔ x = y) l →
    ∀ l2, (fix all2 (l1 l2 : list pyval) {struct l1} : bool :=
             match l1, l2 with
             | [], [] => true
             | x :: l1', y :: l2' => pyval_eqb x y && all2 l1' l2'
             | _, _ => false
             end) l l2 = true ↔ l = l2).
  { intros l IH. induction IH as [| x l Hx _ IHl]; intros [| y l2];
      try (split; [discriminate | congruence]); [done |].
    rewrite andb_true_iff, Hx, IHl. split; [intros [-> ->] | intros [= -> ->]]; done. }
  revert b. induction a as [n | t | l IH | l IH] using pyval_ind';
    intros [m | u | l2 | l2]; simpl; try (split; [discriminate | congruence]).
  - rewrite bool_decide_eq_true. split; congruence.
  - rewrite bool_decide_eq_true. split; congruence.
  - rewrite (Hlist l IH l2). split; congruence.
  - rewrite (Hlist l IH l2). split; congruence.
Qed.
End pyval_eq.

#[global] Instance pyval_eq_dec : EqDecision pyval.
Proof.
  intros a b. destruct (pyval_eqb a b) eqn:E.
  - left. by apply pyval_eqb_spec.
  - right. intros H. apply pyval_eqb_spec in H. congruence.
Defined.

(** [tree_to_nested_tuple]: a leaf gives its vertex, any other node the pair
    [(root.node_type, [...])] whose second component is a Python list. *)
Fixpoint tree_to_nested_tuple (root : Node pyval) : pyval :=
  match root with
  | Normal v => v
  | Inner t cs => PTuple [PType t; PList (map tree_to_nested_tuple cs)]
  end.

(** [nested_tuple_to_tree]: anything that is not a tuple becomes a leaf; a
    tuple gives [Node(nest[0])] with one child per entry of [nest[1:]].
    [nest[0]] of the empty tuple raises [IndexError]; a head that is not a
    node type, or is [NORMAL], has no counterpart in [Node]. *)
Fixpoint nested_tuple_to_tree (nest : pyval) : result (Node pyval) :=
  match nest with
  | PTuple items =>
      match items with
      | [] => Raise IndexError
      | PType t :: rest =>
          if bool_decide (t = NORMAL) then Raise IllTyped
          else
            children ← (fix go (l : list pyval) : result (list (Node pyval)) :=
                          match l with
                          | [] => Ok []
                          | n :: l' =>
                              c ← nested_tuple_to_tree n; cs ← go l'; Ok (c :: cs)
                          end) rest;
            Ok (Inner t children)
      | _ :: _ => Raise IllTyped
      end
  | _ => Ok (create_normal_node nest)
  end.

(** ** Tree equivalence and relabelling *)

Section equivalence.
Context {V : Type} `{EqDecision V}.

(** Equality of two [frozenset]s given by their elements. *)
Definition frozenset_eqb (l1 l2 : list V) : bool :=
  forallb (λ x, bool_decide (x ∈ l2)) l1 && forallb (λ x, bool_decide (x ∈ l1)) l2.

(** [node_id(root) = (root.node_type, frozenset(get_vertices(root)))] *)
Definition node_id (root : Node V) : NodeType * list V :=
  (node_type root, get_vertices root).

Definition node_id_eqb (i1 i2 : NodeType * list V) : bool :=
  bool_decide (i1.1 = i2.1) && frozenset_eqb i1.2 i2.2.

(** [child_map]: filled by [child_map[node_id(node)] = node] over
    [root2.children], so a later child replaces an earlier one of the same
    id; looking an id up returns the last child that carries it. *)
Fixpoint child_map_lookup (id : NodeType * list V) (children2 : list (Node V))
  : option (Node V) :=
  match children2 with
  | [] => None
  | node :: rest =>
      match child_map_lookup id rest with
      | Some n => Some n
      | None => if node_id_eqb (node_id node) id then Some node else None
      end
  end.

Fixpoint equivalent_trees (root1 root2 : Node V) {struct root1} : bool :=
  if negb (bool_decide (node_type root1 = node_type root2)) then false
  else if negb (bool_decide (num_children root1 = num_children root2)) then false
  else
    match root1, root2 with
    | Normal v1, Normal v2 => bool_decide (v1 = v2)
    | Inner _ cs1, Inner _ cs2 =>
        forallb (λ node,
            match child_map_lookup (node_id node) cs2 with
            | None => false
            | Some node2 => equivalent_trees node node2
            end) cs1
    | _, _ => false
    end.

(** [relabel_tree]: the relabelling is turned into a dictionary first, and
    the tree is rebuilt with every leaf looked up in it.  Two of the forms
    of [perm] are modelled: a dictionary, which is used as it is, and a
    callable (a permutation of the vertices is one), from which the
    dictionary [{i: perm(i) for i in get_vertices(root)}] is built.  The
    forms [None], list and [PermutationGroupElement] number the vertices
    and are left out. *)
Inductive perm_arg (V : Type) : Type :=
| PermDict (d : list (V * V))
| PermCallable (f : V → V).
#[global] Arguments PermDict {V} d.
#[global] Arguments PermCallable {V} f.

(** [perm[v]] *)
Fixpoint perm_lookup (d : list (V * V)) (v : V) : result V :=
  match d with
  | [] => Raise KeyError
  | (k, x) :: d' => if bool_decide (v = k) then Ok x else perm_lookup d' v
  end.

Fixpoint relabel_with (d : list (V * V)) (root : Node V) : result (Node V) :=
  match root with
  | Normal v => v' ← perm_lookup d v; Ok (create_normal_node v')
  | Inner t cs =>
      children ← (fix go (l : list (Node V)) : result (list (Node V)) :=
                    match l with
                    | [] => Ok []
                    | c :: l' => c' ← relabel_with d c; cs' ← go l'; Ok (c' :: cs')
                    end) cs;
      Ok (Inner t children)
  end.

Definition relabel_tree (root : Node V) (perm : perm_arg V) : result (Node V) :=
  match perm with
  | PermDict d => relabel_with d root
  | PermCallable f => relabel_with (map (λ i, (i, f i)) (get_vertices root)) root
  end.
End equivalence.

(** ** Graphs

    The host graph type is not part of this module; the decomposers reach it
    through a handful of queries.  Vertices are iterated in the order of
    [vertices]; adjacency is a boolean function. *)

(** Modelled from the spec: the graph capability surface of section 6
    (vertex iteration, neighbor query, edge iteration, order, directedness
    check, induced subgraph, connected components, complement).  The host
    [Graph] class itself is missing from the sources. *)
Record Graph (V : Type) : Type := mkGraph {
  is_directed : bool;
  vertices : list V;
  has_edge : V → V → bool
}.
Arguments mkGraph {V} _ _ _.
Arguments is_directed {V} _.
Arguments vertices {V} _.
Arguments has_edge {V} _ _ _.

Section graph.
Context {V : Type} `{EqDecision V}.
Implicit Types (G graph : Graph V) (u v w : V).

Definition mem (v : V) (l : list V) : bool := bool_decide (v ∈ l).

(** Modelled from the spec: [graph.order()], the number of vertices. *)
Definition order G : nat := length (vertices G).

(** Modelled from the spec: [graph.neighbors(v)], in the order of the
    vertices. *)
Definition neighbors G v : list V := filter (λ w, has_edge G v w = true) (vertices G).

(** Modelled from the spec: [graph.subgraph(vertices=vs)], the induced
    subgraph. *)
Definition subgraph G (vs : list V) : Graph V :=
  mkGraph (is_directed G)
          (filter (λ v, v ∈ vs) (vertices G))
          (λ u v, mem u vs && mem v vs && has_edge G u v).

(** Modelled from the spec: [graph.subgraph(edges=es)], all the vertices,
    and the edges of the graph that are listed (in either direction). *)
Definition subgraph_edges G (es : list (V * V)) : Graph V :=
  mkGraph (is_directed G)
          (vertices G)
          (λ u v, has_edge G u v &&
                  (bool_decide ((u, v) ∈ es) || bool_decide ((v, u) ∈ es))).

(** Modelled from the spec: [graph.complement()]. *)
Definition complement G : Graph V :=
  mkGraph (is_directed G)
          (vertices G)
          (λ u v, mem u (vertices G) && mem v (vertices G) &&
                  negb (bool_decide (u = v)) && negb (has_edge G u v)).

(** Modelled from the spec: [graph.edge_iterator(labels=False)], every edge
    once, as a pair. *)
Fixpoint edges_from (G : Graph V) (vs : list V) : list (V * V) :=
  match vs with
  | [] => []
  | u :: vs' => map (λ v, (u, v)) (filter (λ v, has_edge G u v = true) vs') ++ edges_from G vs'
  end.
Definition edge_list G : list (V * V) := edges_from G (vertices G).

(** One round of a breadth-first search: the vertices adjacent to the set
    found so far are appended to it. *)
Definition reach_step G (found : list V) : list V :=
  found ++ filter (λ w, (w ∉ found) ∧ (existsb (λ u, has_edge G u w) found = true)) (vertices G).

(** The vertices reachable from [v]. *)
Definition reach G v : list V := Nat.iter (order G) (reach_step G) [v].

Fixpoint components_aux (fuel : nat) G (todo : list V) : list (list V) :=
  match fuel with
  | O => []
  | S fuel' =>
      match todo with
      | [] => []
      | v :: _ =>
          let c := reach G v in
          c :: components_aux fuel' G (filter (λ w, w ∉ c) todo)
      end
  end.

(** Modelled from the spec: [graph.connected_components()], each component
    found by a search from its first vertex. *)
Definition connected_components G : list (list V) :=
  components_aux (order G) G (vertices G).

(** Modelled from the spec: [graph.is_connected()]; the graph without
    vertices counts as connected. *)
Definition is_connected G : bool :=
  bool_decide (length (connected_components G) ≤ 1)%nat.

(** A finite simple undirected graph. *)
Record simple_graph G : Prop := {
  sg_undirected : is_directed G = false;
  sg_nodup : NoDup (vertices G);
  sg_sym : ∀ u v, has_edge G u v = has_edge G v u;
  sg_irrefl : ∀ u, has_edge G u u = false;
  sg_closed : ∀ u v, has_edge G u v = true → u ∈ vertices G ∧ v ∈ vertices G
}.

(** ** Gamma classes *)

(** [frozenset(e)] for an edge [e]: a pair up to the order of its ends. *)
Definition edge_eqb (e f : V * V) : bool :=
  bool_decide (e = f) || bool_decide (e = (f.2, f.1)).

Definition edge_in (e : V * V) (cls : list (V * V)) : bool :=
  existsb (edge_eqb e) cls.

(** Modelled from the spec: the union-find mentioned in section 4.2.  The
    [DisjointSet] class itself is missing from the sources.  Every element
    carries the number of its set; [union e f] gives the elements of the set
    of [f] the number of the set of [e]; iterating yields the sets. *)
Definition ds_init (es : list (V * V)) : list ((V * V) * nat) :=
  zip es (seq 0 (length es)).

Definition ds_find (e : V * V) (pieces : list ((V * V) * nat)) : option nat :=
  snd <$> List.find (λ p, edge_eqb e p.1) pieces.

Definition ds_union (e f : V * V) (pieces : list ((V * V) * nat)) : list ((V * V) * nat) :=
  match ds_find e pieces, ds_find f pieces with
  | Some i, Some j => map (λ p, (p.1, if bool_decide (p.2 = j) then i else p.2)) pieces
  | _, _ => pieces
  end.

Definition ds_sets (pieces : list ((V * V) * nat)) : list (list (V * V)) :=
  map (λ i, map fst (filter (λ p, p.2 = i) pieces)) (remove_dups (map snd pieces)).

(** A dictionary keyed by frozensets of vertices, in insertion order;
    assigning to an existing key replaces its value. *)
Fixpoint fdict_set {A} (k : list V) (a : A) (d : list (list V * A)) : list (list V * A) :=
  match d with
  | [] => [(k, a)]
  | (k', a') :: d' =>
      if frozenset_eqb k k' then (k', a) :: d' else (k', a') :: fdict_set k a d'
  end.

Fixpoint fdict_get {A} (k : list V) (d : list (list V * A)) : option A :=
  match d with
  | [] => None
  | (k', a') :: d' => if frozenset_eqb k k' then Some a' else fdict_get k d'
  end.

(** [chain.from_iterable(loe)]: the ends of the edges of a class. *)
Definition class_vertices (loe : list (V * V)) : list V :=
  flat_map (λ e, [e.1; e.2]) loe.

(** The unions [gamma_classes] performs for one vertex [v].  A component is
    never empty, so [component[0]] does not raise; the first case below is
    not reached. *)
Definition gamma_unions_at G v (pieces : list ((V * V) * nat)) : list ((V * V) * nat) :=
  let neighborhood := subgraph G (neighbors G v) in
  foldl (λ pieces component,
           match component with
           | [] => pieces
           | v1 :: rest =>
               let e := (v1, v) in
               foldl (λ pieces vi, ds_union e (vi, v) pieces) pieces rest
           end)
        pieces (connected_components (complement neighborhood)).

Definition gamma_pieces G : list ((V * V) * nat) :=
  foldl (λ pieces v, gamma_unions_at G v pieces) (ds_init (edge_list G)) (vertices G).

Definition gamma_classes G : list (list V * list (V * V)) :=
  foldl (λ d loe, fdict_set (class_vertices loe) loe d) [] (ds_sets (gamma_pieces G)).

(** ** The Habib-Maurer decomposer *)

(** [defaultdict(list)] keyed by vertices: [d[k].append(x)]. *)
Fixpoint vdict_append (k x : V) (d : list (V * list V)) : list (V * list V) :=
  match d with
  | [] => [(k, [x])]
  | (k', l) :: d' =>
      if bool_decide (k = k') then (k', l ++ [x]) :: d' else (k', l) :: vdict_append k x d'
  end.

(** [defaultdict(list)] keyed by frozensets: [d1[frozenset(k)].append(x)]. *)
Fixpoint sdict_append (k : list V) (x : V) (d : list (list V * list V))
  : list (list V * list V) :=
  match d with
  | [] => [(k, [x])]
  | (k', l) :: d' =>
      if frozenset_eqb k k' then (k', l ++ [x]) :: d' else (k', l) :: sdict_append k x d'
  end.

(** The buckets of the prime case: the vertices of [sub] grouped by their
    set of neighbours in [sub]. *)
Definition prime_buckets (sub : Graph V) : list (list V) :=
  let d := foldl (λ d v, foldl (λ d v1, vdict_append v1 v d) d (neighbors sub v))
                 [] (vertices sub) in
  let d1 := foldl (λ d1 kv, sdict_append kv.2 kv.1 d1) [] d in
  map snd d1.

Fixpoint habib_maurer_algorithm (fuel : nat) (graph : Graph V)
    (g_classes : option (list (list V * list (V * V)))) : result (Node V) :=
  match fuel with
  | O => OutOfFuel
  | S fuel' =>
      if is_directed graph then Raise ValueError
      else
        match vertices graph with
        | [] => Ok create_prime_node
        | [v] => Ok (create_normal_node v)
        | _ =>
            if negb (is_connected graph) then
              children ← result_mapM
                (λ sg, habib_maurer_algorithm fuel' (subgraph graph sg) g_classes)
                (connected_components graph);
              Ok (Inner PARALLEL children)
            else
              let g_comp := complement graph in
              if is_connected g_comp then
                let g_classes :=
                  match g_classes with
                  | None => gamma_classes graph
                  | Some g => g
                  end in
                match fdict_get (vertices graph) g_classes with
                | None => Raise KeyError
                | Some edges =>
                    let sub := subgraph_edges graph edges in
                    children ← result_mapM
                      (λ sg, habib_maurer_algorithm fuel' (subgraph graph sg)
                               (Some g_classes))
                      (prime_buckets sub);
                    Ok (Inner PRIME children)
                end
              else
                children ← result_mapM
                  (λ sg, habib_maurer_algorithm fuel' (subgraph graph sg) g_classes)
                  (connected_components g_comp);
                Ok (Inner SERIES children)
        end
  end.

(** The recursion goes down to strictly smaller graphs, so the order of the
    graph bounds its depth. *)
Definition habib_maurer (graph : Graph V) : result (Node V) :=
  habib_maurer_algorithm (S (order graph)) graph None.

(** [either_connected_or_not_connected]; [vertices_in_module[0]] raises on
    the empty list. *)
Definition either_connected_or_not_connected (v : V) (vertices_in_module : list V)
    (graph : Graph V) : result bool :=
  match vertices_in_module with
  | [] => Raise IndexError
  | u0 :: _ =>
      let connected := has_edge graph u0 v in
      Ok (forallb (λ u, bool_decide (has_edge graph u v = connected)) vertices_in_module)
  end.

(** ** The checkers *)

(** [get_module_type] *)
Definition get_module_type graph : NodeType :=
  if negb (is_connected graph) then PARALLEL
  else if is_connected (complement graph) then PRIME
  else SERIES.

(** [children_node_type]: [all(node.node_type == node_type for node in
    module.children)].  The only child of a [NORMAL] node is a vertex, not a
    node, and reading its [node_type] fails. *)
Definition children_node_type (module : Node V) (ty : NodeType) : result bool :=
  match module with
  | Normal _ => Raise AttributeError
  | Inner _ cs => Ok (forallb (λ node, bool_decide (node_type node = ty)) cs)
  end.

(** The last loop of [test_module], over the vertices outside the module. *)
Fixpoint test_outside (vertices_outside vertices_in_module : list V) graph : result bool :=
  match vertices_outside with
  | [] => Ok true
  | v :: rest =>
      b ← either_connected_or_not_connected v vertices_in_module graph;
      if (b : bool) then test_outside rest vertices_in_module graph else Ok false
  end.

(** [test_module].  The vertices outside the module are a Python set turned
    into a list; they are taken in the order of the vertices of the graph. *)
Definition test_module (module : Node V) graph : result bool :=
  if bool_decide (node_type module = NORMAL) then Ok true
  else
    let vertices_in_module := get_vertices module in
    let vertices_outside :=
      filter (λ v, v ∉ vertices_in_module) (remove_dups (vertices graph)) in
    if bool_decide (num_children module = 1%nat) then Ok false
    else
      series ← (if bool_decide (node_type module = SERIES)
                then children_node_type module SERIES else Ok false);
      if (series : bool) then Ok false
      else
        parallel ← (if bool_decide (node_type module = PARALLEL)
                    then children_node_type module PARALLEL else Ok false);
        if (parallel : bool) then Ok false
        else test_outside vertices_outside vertices_in_module graph.

(** [get_vertices(tree_root.children[index])] for an index that is not
    negative.  The only child of a [NORMAL] node is a vertex, which
    [get_vertices] cannot read. *)
Definition child_vertices (tree_root : Node V) (index : nat) : result (list V) :=
  match tree_root with
  | Normal _ => if bool_decide (index = 0%nat) then Raise AttributeError else Raise IndexError
  | Inner _ cs =>
      match cs !! index with
      | Some c => Ok (get_vertices c)
      | None => Raise IndexError
      end
  end.

Definition children_of (tree_root : Node V) : list (Node V) :=
  match tree_root with
  | Normal _ => []
  | Inner _ cs => cs
  end.

(** The sets of [form_module] are lists without repetition: [set(l)] is
    [remove_dups l], [update] is [list_union], [difference_update] is
    [list_difference], [intersection_update] is [list_intersection], and two
    sets are compared with [frozenset_eqb]. *)

(** The loop [for v in vertices] of [form_module]; the pair holds
    [all_neighbors] and [common_neighbors]. *)
Definition form_module_scan graph (verts : list V) (acc : list V * list V)
    : list V * list V :=
  foldl (λ (acc : list V * list V) v,
           let neighbor_list := list_difference (remove_dups (neighbors graph v)) verts in
           (list_union acc.1 neighbor_list, list_intersection acc.2 neighbor_list))
        acc verts.

(** The loop [for v in (all_neighbors - common_neighbors)]: the first child
    that holds [v] is added. *)
Definition form_module_grow (cs : list (Node V)) (verts uncommon : list V) : list V :=
  foldl (λ verts v,
           match List.find (λ c, bool_decide (v ∈ get_vertices c)) cs with
           | Some c => list_union verts (remove_dups (get_vertices c))
           | None => verts
           end)
        verts uncommon.

(** The loop [while True] of [form_module], at most [fuel] rounds of it. *)
Fixpoint form_module_loop (fuel : nat) graph (cs : list (Node V))
    (verts common_neighbors all_neighbors : list V) : result (bool * list V) :=
  match fuel with
  | O => OutOfFuel
  | S fuel' =>
      let all_neighbors := list_difference all_neighbors verts in
      let common_neighbors := list_difference common_neighbors verts in
      let acc := form_module_scan graph verts (all_neighbors, common_neighbors) in
      let all_neighbors := acc.1 in
      let common_neighbors := acc.2 in
      if frozenset_eqb all_neighbors common_neighbors then
        if bool_decide (length verts = order graph) then Ok (false, verts)
        else Ok (true, verts)
      else
        form_module_loop fuel' graph cs
          (form_module_grow cs verts (list_difference all_neighbors common_neighbors))
          common_neighbors all_neighbors
  end.

Definition form_module (fuel index other_index : nat) (tree_root : Node V) graph
    : result (bool * list V) :=
  v1 ← child_vertices tree_root index;
  v2 ← child_vertices tree_root other_index;
  form_module_loop fuel graph (children_of tree_root)
    (list_union (remove_dups v1) (remove_dups v2)) [] [].

(** The pairs [(index, other_index)] of [test_maximal_modules], in the order
    of its two loops. *)
Definition index_pairs (n : nat) : list (nat * nat) :=
  flat_map (λ index, map (λ other_index, (index, other_index))
                         (seq (S index) (n - S index)))
           (seq 0 n).

Fixpoint test_pairs (fuel : nat) (pairs : list (nat * nat)) (tree_root : Node V) graph
    : result bool :=
  match pairs with
  | [] => Ok true
  | (index, other_index) :: rest =>
      module_formed ← form_module fuel index other_index tree_root graph;
      if (module_formed : bool * list V).1 then
        let mod_type := get_module_type (subgraph graph module_formed.2) in
        if bool_decide (mod_type = node_type tree_root) &&
           (bool_decide (node_type tree_root = PARALLEL) ||
            bool_decide (node_type tree_root = SERIES))
        then test_pairs fuel rest tree_root graph
        else Ok false
      else test_pairs fuel rest tree_root graph
  end.

(** [test_maximal_modules].  A round of the loop of [form_module] that does
    not return adds a child to the set or changes nothing, so one round more
    than there are children is all the loop can use. *)
Definition test_maximal_modules (tree_root : Node V) graph : result bool :=
  if bool_decide (node_type tree_root = NORMAL) then Ok true
  else test_pairs (S (num_children tree_root)) (index_pairs (num_children tree_root))
                  tree_root graph.

(** [test_modular_decomposition] *)
Fixpoint test_modular_decomposition (tree_root : Node V) graph : result bool :=
  match tree_root with
  | Normal _ => Ok true
  | Inner t cs =>
      if bool_decide (t = NORMAL) then Ok true
      else
        b ← (fix go (l : list (Node V)) : result bool :=
               match l with
               | [] => Ok true
               | module :: l' =>
                   b1 ← test_module module graph;
                   if negb (b1 : bool) then Ok false
                   else
                     b2 ← test_modular_decomposition module
                            (subgraph graph (get_vertices module));
                     if negb (b2 : bool) then Ok false else go l'
               end) cs;
        if negb (b : bool) then Ok false
        else
          b3 ← test_maximal_modules tree_root graph;
          if negb (b3 : bool) then Ok false else Ok true
  end.

(** One round of [test_gamma_modules], for the graph [g] the round draws:
    every vertex outside the vertex set of a class is tested against it. *)
Definition test_gamma_modules_round (g : Graph V) : result unit :=
  let g_classes := gamma_classes g in
  foldl (λ (r : result unit) (kv : list V * list (V * V)),
           foldl (λ (r : result unit) v,
                    _ ← r;
                    if bool_decide (v ∈ kv.1) then Ok tt
                    else
                      b ← either_connected_or_not_connected v (remove_dups kv.1) g;
                      if (b : bool) then Ok tt else Raise AssertionError)
                 r (vertices g))
        (Ok tt) g_classes.

End graph.

(** ** The Tedder decomposer: objects on a heap

    The linear-time decomposer works on objects that point at each other
    ([parent], [first_child], [left_sibling], [right_sibling]) and are
    rewired in place.  An object is its class and its attribute dictionary; a
    reference is an index into the heap.  Reading an attribute the object
    does not have, or any attribute of [None], raises [AttributeError]. *)

Definition loc := nat.

Inductive tclass : Type :=
| TedderTreeNode
| TedderMDNode
| TedderMDLeafNode
| TedderFactPermElement
| TedderSubProblem.

#[global] Instance tclass_eq_dec : EqDecision tclass.
Proof. solve_decision. Defined.

Inductive field : Type :=
| F_parent | F_first_child | F_left_sibling | F_right_sibling | F_num_children
| F_type | F_comp_number | F_tree_number | F_num_marks | F_split_type
| F_alpha | F_neighbors | F_visited | F_vertex
| F_index | F_mu | F_has_right_comp_fragment | F_has_left_co_comp_fragment
| F_has_right_layer_neighbor
| F_connected | F_active | F_pivot.

#[global] Instance field_eq_dec : EqDecision field.
Proof. solve_decision. Defined.

Inductive value (V : Type) : Type :=
| VNone
| VRef (l : loc)
| VInt (z : Z)
| VBool (b : bool)
| VList (l : list loc)
| VType (t : NodeType)
| VSplit (s : NodeSplit)
| VVertex (v : V).
Arguments VNone {V}.
Arguments VRef {V} l.
Arguments VInt {V} z.
Arguments VBool {V} b.
Arguments VList {V} l.
Arguments VType {V} t.
Arguments VSplit {V} s.
Arguments VVertex {V} v.

Record object (V : Type) : Type := mkObject {
  obj_class : tclass;
  obj_fields : list (field * value V)
}.
Arguments mkObject {V} _ _.
Arguments obj_class {V} _.
Arguments obj_fields {V} _.

Definition heap (V : Type) : Type := list (object V).

(** Computations on the heap that may raise. *)
Definition M (V A : Type) : Type := heap V → result (A * heap V).

Definition M_ret {V A} (a : A) : M V A := λ h, Ok (a, h).
Definition M_bind {V A B} (m : M V A) (f : A → M V B) : M V B := λ h,
  match m h with
  | Ok (a, h') => f a h'
  | Raise e => Raise e
  | OutOfFuel => OutOfFuel
  end.

Declare Scope heap_scope.
Delimit Scope heap_scope with heap.
Notation "x ← y ; z" := (M_bind y (λ x, z))
  (at level 20, y at level 100, z at level 200, only parsing) : heap_scope.
Notation "' x ← y ; z" := (M_bind y (λ x, z))
  (at level 20, x pattern, y at level 100, z at level 200, only parsing) : heap_scope.
Notation "x ;; z" := (M_bind x (λ _, z))
  (at level 100, z at level 200, only parsing, right associativity) : heap_scope.

Section tedder.
Context {V : Type} `{EqDecision V}.
Local Open Scope heap_scope.
Abbreviation M := (M V).
Abbreviation mret := M_ret.

Definition raise {A} (e : exn) : M A := λ _, Raise e.
Definition out_of_fuel {A} : M A := λ _, OutOfFuel.

Definition when (b : bool) (m : M unit) : M unit := if b then m else mret tt.

(** A [while] loop: [step] either continues with a new state or leaves with
    a result. *)
Fixpoint loop {S R} (fuel : nat) (step : S → M (S + R)) (s : S) : M R :=
  match fuel with
  | O => out_of_fuel
  | Datatypes.S fuel' =>
      r ← step s;
      match r with
      | inl s' => loop fuel' step s'
      | inr r => mret r
      end
  end.

(** [for x in l: body(x)] over a list that the body leaves alone. *)
Fixpoint for_each {A} (l : list A) (body : A → M unit) : M unit :=
  match l with
  | [] => mret tt
  | x :: l' => body x;; for_each l' body
  end.

Fixpoint assoc_get {A} (f : field) (l : list (field * A)) : option A :=
  match l with
  | [] => None
  | (g, a) :: l' => if bool_decide (f = g) then Some a else assoc_get f l'
  end.

Fixpoint assoc_set {A} (f : field) (a : A) (l : list (field * A)) : list (field * A) :=
  match l with
  | [] => [(f, a)]
  | (g, b) :: l' => if bool_decide (f = g) then (g, a) :: l' else (g, b) :: assoc_set f a l'
  end.

Definition alloc (o : object V) : M loc := λ h, Ok (length h, h ++ [o]).

Definition class_of (l : loc) : M tclass := λ h,
  match h !! l with
  | Some o => Ok (obj_class o, h)
  | None => Raise IllTyped
  end.

(** [l.f] *)
Definition getattr (l : loc) (f : field) : M (value V) := λ h : heap V,
  match h !! l with
  | Some o =>
      match assoc_get f (obj_fields o) with
      | Some v => Ok (v, h)
      | None => Raise AttributeError
      end
  | None => Raise IllTyped
  end.

(** [l.f = v] *)
Definition setattr (l : loc) (f : field) (v : value V) : M unit := λ h,
  match h !! l with
  | Some o => Ok (tt, <[l := mkObject (obj_class o) (assoc_set f v (obj_fields o))]> h)
  | None => Raise IllTyped
  end.

(** The object behind a variable that may hold [None]. *)
Definition deref (x : option loc) : M loc :=
  match x with
  | Some l => mret l
  | None => raise AttributeError
  end.

Definition to_value (x : option loc) : value V :=
  match x with
  | Some l => VRef l
  | None => VNone
  end.

Definition get_ref (l : loc) (f : field) : M (option loc) :=
  v ← getattr l f;
  match v with
  | VNone => mret None
  | VRef r => mret (Some r)
  | _ => raise IllTyped
  end.

Definition get_int (l : loc) (f : field) : M Z :=
  v ← getattr l f;
  match v with
  | VInt z => mret z
  | _ => raise IllTyped
  end.

Definition get_bool (l : loc) (f : field) : M bool :=
  v ← getattr l f;
  match v with
  | VBool b => mret b
  | _ => raise IllTyped
  end.

Definition get_list (l : loc) (f : field) : M (list loc) :=
  v ← getattr l f;
  match v with
  | VList x => mret x
  | _ => raise IllTyped
  end.

Definition get_type (l : loc) : M NodeType :=
  v ← getattr l F_type;
  match v with
  | VType t => mret t
  | _ => raise IllTyped
  end.

Definition get_split (l : loc) : M NodeSplit :=
  v ← getattr l F_split_type;
  match v with
  | VSplit t => mret t
  | _ => raise IllTyped
  end.

Definition set_ref (l : loc) (f : field) (x : option loc) : M unit := setattr l f (to_value x).
Definition set_int (l : loc) (f : field) (z : Z) : M unit := setattr l f (VInt z).
Definition set_bool (l : loc) (f : field) (b : bool) : M unit := setattr l f (VBool b).
Definition set_list (l : loc) (f : field) (x : list loc) : M unit := setattr l f (VList x).

(** [x is y] for two variables holding objects or [None]. *)
Definition same (x y : option loc) : bool := bool_decide (x = y).

(** [isinstance(l, _TedderMDNode)] *)
Definition is_md (l : loc) : M bool :=
  c ← class_of l;
  mret (bool_decide (c = TedderMDNode) || bool_decide (c = TedderMDLeafNode)).

Definition is_leaf (l : loc) : M bool :=
  c ← class_of l; mret (bool_decide (c = TedderMDLeafNode)).

(** A method of [_TedderMDNode] is looked up on [l]. *)
Definition md_method (l : loc) : M unit :=
  b ← is_md l; if b then mret tt else raise AttributeError.

(** *** [_TedderTreeNode] *)

Definition tree_fields : list (field * value V) :=
  [(F_parent, VNone); (F_first_child, VNone); (F_left_sibling, VNone);
   (F_right_sibling, VNone); (F_num_children, VInt 0)].

Definition remove (self : loc) : M unit :=
  p ← get_ref self F_parent;
  match p with
  | Some p' => n ← get_int p' F_num_children; set_int p' F_num_children (n - 1)
  | None => mret tt
  end;;
  ls ← get_ref self F_left_sibling;
  match ls with
  | Some l' => rs ← getattr self F_right_sibling; setattr l' F_right_sibling rs
  | None => mret tt
  end;;
  rs ← get_ref self F_right_sibling;
  match rs with
  | Some r' => ls ← getattr self F_left_sibling; setattr r' F_left_sibling ls
  | None => mret tt
  end;;
  p ← get_ref self F_parent;
  match p with
  | Some p' =>
      fc ← get_ref p' F_first_child;
      when (same fc (Some self))
           (rs ← getattr self F_right_sibling; setattr p' F_first_child rs)
  | None => mret tt
  end;;
  set_ref self F_parent None;;
  set_ref self F_left_sibling None;;
  set_ref self F_right_sibling None.

Definition add_child (self child : loc) : M unit :=
  remove child;;
  fc ← get_ref self F_first_child;
  match fc with
  | Some c =>
      set_ref c F_left_sibling (Some child);;
      fc' ← getattr self F_first_child;
      setattr child F_right_sibling fc'
  | None => mret tt
  end;;
  set_ref self F_first_child (Some child);;
  set_ref child F_parent (Some self);;
  n ← get_int self F_num_children;
  set_int self F_num_children (n + 1).

Definition has_no_children (self : loc) : M bool :=
  n ← get_int self F_num_children; mret (bool_decide (n = 0)).

Definition has_only_one_child (self : loc) : M bool :=
  n ← get_int self F_num_children; mret (bool_decide (n = 1)).

Definition replace_with (self replacement : loc) : M unit :=
  remove replacement;;
  ls ← getattr self F_left_sibling; setattr replacement F_left_sibling ls;;
  rs ← getattr self F_right_sibling; setattr replacement F_right_sibling rs;;
  ls ← get_ref self F_left_sibling;
  match ls with
  | Some l' => set_ref l' F_right_sibling (Some replacement)
  | None => mret tt
  end;;
  rs ← get_ref self F_right_sibling;
  match rs with
  | Some r' => set_ref r' F_left_sibling (Some replacement)
  | None => mret tt
  end;;
  p ← getattr self F_parent; setattr replacement F_parent p;;
  p ← get_ref self F_parent;
  match p with
  | Some p' =>
      fc ← get_ref p' F_first_child;
      when (same fc (Some self)) (set_ref p' F_first_child (Some replacement))
  | None => mret tt
  end;;
  set_ref self F_parent None;;
  set_ref self F_left_sibling None;;
  set_ref self F_right_sibling None.

Definition insert_before (self just_before : loc) : M unit :=
  remove self;;
  ls ← getattr just_before F_left_sibling; setattr self F_left_sibling ls;;
  ls ← get_ref just_before F_left_sibling;
  match ls with
  | Some l' => set_ref l' F_right_sibling (Some self)
  | None => mret tt
  end;;
  set_ref self F_right_sibling (Some just_before);;
  set_ref just_before F_left_sibling (Some self);;
  p ← getattr just_before F_parent; setattr self F_parent p;;
  p ← get_ref just_before F_parent;
  match p with
  | Some p' =>
      n ← get_int p' F_num_children; set_int p' F_num_children (n + 1);;
      fc ← get_ref p' F_first_child;
      when (same fc (Some just_before))
           (sp ← get_ref self F_parent; sp' ← deref sp;
            set_ref sp' F_first_child (Some self))
  | None => mret tt
  end.

Definition insert_after (self just_after : loc) : M unit :=
  remove self;;
  rs ← getattr just_after F_right_sibling; setattr self F_right_sibling rs;;
  rs ← get_ref just_after F_right_sibling;
  match rs with
  | Some r' => set_ref r' F_left_sibling (Some self)
  | None => mret tt
  end;;
  set_ref self F_left_sibling (Some just_after);;
  set_ref just_after F_right_sibling (Some self);;
  p ← getattr just_after F_parent; setattr self F_parent p;;
  p ← get_ref just_after F_parent;
  match p with
  | Some p' => n ← get_int p' F_num_children; set_int p' F_num_children (n + 1)
  | None => mret tt
  end.

Definition make_first_child (self : loc) : M unit :=
  p ← get_ref self F_parent;
  match p with
  | Some p' =>
      fc ← get_ref p' F_first_child;
      if negb (same fc (Some self)) then
        remove self;;
        new_right_sibling ← deref fc;
        insert_before self new_right_sibling
      else mret tt
  | None => mret tt
  end.

(** [current = start; while current is not None: next = current.right_sibling;
    body(current); current = next] *)
Definition for_siblings_saved (fuel : nat) (start : option loc) (body : loc → M unit) : M unit :=
  loop fuel (λ current : option loc,
    match current with
    | None => mret (inr tt)
    | Some c =>
        next ← get_ref c F_right_sibling;
        body c;;
        mret (inl next)
    end) start.

(** [current = start; while current is not None: body(current);
    current = current.right_sibling] *)
Definition for_siblings (fuel : nat) (start : option loc) (body : loc → M unit) : M unit :=
  loop fuel (λ current : option loc,
    match current with
    | None => mret (inr tt)
    | Some c =>
        body c;;
        next ← get_ref c F_right_sibling;
        mret (inl next)
    end) start.

Fixpoint get_leaves (fuel : nat) (self : loc) : M (list loc) :=
  match fuel with
  | O => out_of_fuel
  | S fuel' =>
      b ← is_leaf self;
      if b then mret [self]
      else
        fc ← get_ref self F_first_child;
        loop fuel (λ st : (list loc * option loc)%type,
          match st.2 with
          | None => mret (inr st.1)
          | Some c =>
              ls ← get_leaves fuel' c;
              next ← get_ref c F_right_sibling;
              mret (inl (st.1 ++ ls, next))
          end) ([], fc)
  end.

Definition add_children_from (fuel : nat) (self parent : loc) : M unit :=
  fc ← get_ref parent F_first_child;
  for_siblings_saved fuel fc (λ current_child, add_child self current_child).

Definition replace_this_by_its_children (fuel : nat) (self : loc) : M unit :=
  fc ← get_ref self F_first_child;
  for_siblings_saved fuel fc (λ current_child, insert_before current_child self);;
  remove self.

Definition replace_children_with (fuel : nat) (self replacement : loc) : M unit :=
  fc ← get_ref self F_first_child;
  for_siblings_saved fuel fc (λ current_child, remove current_child);;
  add_child self replacement.

(** [is_root]: [_TedderMDNode] overrides the method of [_TedderTreeNode]. *)
Definition is_root (self : loc) : M bool :=
  b ← is_md self;
  p ← get_ref self F_parent;
  if b then
    match p with
    | None => mret true
    | Some p' => c ← class_of p'; mret (negb (bool_decide (c = TedderMDNode)))
    end
  else mret (bool_decide (p = None)).

(** *** [_TedderMDNode] *)

Definition md_fields (node_type : NodeType) : list (field * value V) :=
  tree_fields ++
  [(F_type, VType node_type); (F_comp_number, VInt (-1)); (F_tree_number, VInt (-1));
   (F_num_marks, VInt 0); (F_split_type, VSplit NO_SPLIT)].

Definition new_MDNode (node_type : NodeType) : M loc :=
  alloc (mkObject TedderMDNode (md_fields node_type)).

Definition md_copy (self copy : loc) : M unit :=
  md_method self;;
  v ← getattr copy F_type; setattr self F_type v;;
  v ← getattr copy F_comp_number; setattr self F_comp_number v;;
  v ← getattr copy F_tree_number; setattr self F_tree_number v;;
  v ← getattr copy F_num_marks; setattr self F_num_marks v;;
  v ← getattr copy F_split_type; setattr self F_split_type v.

Definition is_fully_marked (self : loc) : M bool :=
  md_method self;;
  m ← get_int self F_num_marks; n ← get_int self F_num_children;
  mret (bool_decide (m = n)).

(** [clear_marks] and [is_marked] exist on MD nodes and on permutation
    elements. *)
Definition marks_method (l : loc) : M unit :=
  c ← class_of l;
  if bool_decide (c = TedderMDNode) || bool_decide (c = TedderMDLeafNode)
     || bool_decide (c = TedderFactPermElement)
  then mret tt else raise AttributeError.

Definition clear_marks (self : loc) : M unit :=
  marks_method self;; set_int self F_num_marks 0.

Definition is_marked (self : loc) : M bool :=
  marks_method self;; m ← get_int self F_num_marks; mret (bool_decide (m > 0)).

Fixpoint set_comp_number_for_subtree (fuel : nat) (self : loc) (comp_number : Z) : M unit :=
  match fuel with
  | O => out_of_fuel
  | S fuel' =>
      md_method self;;
      set_int self F_comp_number comp_number;;
      fc ← get_ref self F_first_child;
      for_siblings fuel fc (λ current_child,
        set_comp_number_for_subtree fuel' current_child comp_number)
  end.

Fixpoint set_tree_number_for_subtree (fuel : nat) (self : loc) (tree_number : Z) : M unit :=
  match fuel with
  | O => out_of_fuel
  | S fuel' =>
      md_method self;;
      set_int self F_tree_number tree_number;;
      fc ← get_ref self F_first_child;
      for_siblings fuel fc (λ current_child,
        set_tree_number_for_subtree fuel' current_child tree_number)
  end.

Definition number_comps (fuel : nat) (self : loc) (comp_number : Z) (by_type : NodeType) : M Z :=
  md_method self;;
  let orig_comp_number := comp_number in
  t ← get_type self;
  comp_number ←
    (if bool_decide (t = by_type) then
       fc ← get_ref self F_first_child;
       loop fuel (λ st : (option loc * Z)%type,
         match st.1 with
         | None => mret (inr st.2)
         | Some current_child =>
             set_comp_number_for_subtree fuel current_child st.2;;
             next ← get_ref current_child F_right_sibling;
             mret (inl (next, st.2 + 1))
         end) (fc, comp_number)
     else
       set_comp_number_for_subtree fuel self comp_number;;
       mret comp_number);
  mret (comp_number - orig_comp_number).

Fixpoint add_split_mark (fuel : nat) (self : loc) (split_type : NodeSplit) : M unit :=
  match fuel with
  | O => out_of_fuel
  | S fuel' =>
      md_method self;;
      st ← get_split self;
      when (negb (bool_decide (st = split_type)))
           (if bool_decide (st = NO_SPLIT) then setattr self F_split_type (VSplit split_type)
            else setattr self F_split_type (VSplit BOTH_SPLIT));;
      t ← get_type self;
      when (bool_decide (t = PRIME))
           (* mark_children_by_split *)
           (fc ← get_ref self F_first_child;
            for_siblings fuel fc (λ current_child,
              add_split_mark fuel' current_child split_type))
  end.

Definition mark_children_by_split (fuel : nat) (self : loc) (split_type : NodeSplit) : M unit :=
  md_method self;;
  fc ← get_ref self F_first_child;
  for_siblings fuel fc (λ current_child, add_split_mark fuel current_child split_type).

Fixpoint mark_ancestors_by_split (fuel : nat) (self : loc) (split_type : NodeSplit) : M unit :=
  match fuel with
  | O => out_of_fuel
  | S fuel' =>
      md_method self;;
      r ← is_root self;
      if negb r then
        p ← get_ref self F_parent;
        parent ← deref p;
        add_split_mark fuel parent split_type;;
        mark_ancestors_by_split fuel' parent split_type
      else mret tt
  end.

Definition is_split_marked (self : loc) (split_type : NodeSplit) : M bool :=
  md_method self;;
  st ← get_split self;
  mret (bool_decide (st = BOTH_SPLIT) || bool_decide (st = split_type)).

Fixpoint clear_split_marks_for_subtree (fuel : nat) (self : loc) : M unit :=
  match fuel with
  | O => out_of_fuel
  | S fuel' =>
      md_method self;;
      setattr self F_split_type (VSplit NO_SPLIT);;
      fc ← get_ref self F_first_child;
      for_siblings fuel fc (λ current_child, clear_split_marks_for_subtree fuel' current_child)
  end.

Fixpoint promote (fuel : nat) (self : loc) (split_type : NodeSplit) : M unit :=
  match fuel with
  | O => out_of_fuel
  | S fuel' =>
      md_method self;;
      fc ← get_ref self F_first_child;
      for_siblings_saved fuel fc (λ to_promote,
        st ← get_split to_promote;
        when (bool_decide (st = split_type))
             (p ← get_ref to_promote F_parent;
              parent ← deref p;
              (if bool_decide (split_type = LEFT_SPLIT) then insert_before to_promote parent
               else insert_after to_promote parent);;
              promote fuel' to_promote split_type));;
      none ← has_no_children self;
      leaf ← is_leaf self;
      if none && negb leaf then remove self
      else
        one ← has_only_one_child self;
        when one (fc ← get_ref self F_first_child; c ← deref fc; replace_with self c)
  end.

Fixpoint remove_degenerate_duplicates_from_subtree (fuel : nat) (self : loc) : M unit :=
  match fuel with
  | O => out_of_fuel
  | S fuel' =>
      md_method self;;
      fc ← get_ref self F_first_child;
      for_siblings_saved fuel fc (λ current_child,
        remove_degenerate_duplicates_from_subtree fuel' current_child;;
        ct ← get_type current_child;
        t ← get_type self;
        when (bool_decide (ct = t) && is_degenerate t)
             (add_children_from fuel self current_child;;
              remove current_child))
  end.

(** [clear_all]: the leaf class overrides it, calls the method of
    [_TedderMDNode] and empties [alpha]. *)
Fixpoint clear_all (fuel : nat) (self : loc) : M unit :=
  match fuel with
  | O => out_of_fuel
  | S fuel' =>
      md_method self;;
      set_int self F_comp_number (-1);;
      set_int self F_tree_number (-1);;
      set_int self F_num_marks 0;;
      setattr self F_split_type (VSplit NO_SPLIT);;
      fc ← get_ref self F_first_child;
      for_siblings fuel fc (λ current_child, clear_all fuel' current_child);;
      leaf ← is_leaf self;
      when leaf (set_list self F_alpha [])
  end.

(** *** [_TedderMDLeafNode] *)

Definition new_MDLeafNode (vertex : V) : M loc :=
  alloc (mkObject TedderMDLeafNode
           (md_fields PRIME ++
            [(F_alpha, VList []); (F_neighbors, VList []); (F_visited, VBool false);
             (F_vertex, VVertex vertex)])).

(** *** [_TedderFactPermElement] *)

Definition new_FactPermElement (index : Z) : M loc :=
  alloc (mkObject TedderFactPermElement
           (tree_fields ++
            [(F_index, VInt index); (F_mu, VNone);
             (F_has_right_comp_fragment, VBool false);
             (F_has_left_co_comp_fragment, VBool false);
             (F_has_right_layer_neighbor, VBool false);
             (F_num_marks, VInt 0); (F_neighbors, VList [])])).

(** *** [_TedderSubProblem] *)

Definition new_SubProblem (leaf : option loc) : M loc :=
  self ← alloc (mkObject TedderSubProblem
                  (tree_fields ++
                   [(F_connected, VBool false); (F_active, VBool false); (F_pivot, VNone)]));
  match leaf with
  | Some l => add_child self l
  | None => mret tt
  end;;
  mret self.

Definition sub_method (l : loc) : M unit :=
  c ← class_of l;
  if bool_decide (c = TedderSubProblem) then mret tt else raise AttributeError.

Definition sub_copy (self copy : loc) : M unit :=
  v ← getattr copy F_connected; setattr self F_connected v;;
  v ← getattr copy F_active; setattr self F_active v;;
  v ← getattr copy F_pivot; setattr self F_pivot v.

Definition clear_attributes (self : loc) : M unit :=
  set_bool self F_connected false;;
  set_bool self F_active false;;
  set_ref self F_pivot None.

Definition is_pivot_layer (self : loc) : M bool :=
  sub_method self;;
  p ← get_ref self F_parent;
  parent ← deref p;
  piv ← get_ref parent F_pivot;
  fc ← get_ref self F_first_child;
  mret (same piv fc).

Definition pull_forward (self leaf : loc) : M unit :=
  current_layer ← get_ref leaf F_parent;
  stop ← match current_layer with
          | Some cl => get_bool cl F_connected
          | None => mret false
          end;
  if stop then mret tt
  else
    cl ← deref current_layer;
    prev_layer ← get_ref cl F_left_sibling;
    fresh ← match prev_layer with
             | Some pl =>
                 a ← get_bool pl F_active;
                 if a then mret true else is_pivot_layer pl
             | None => mret false
             end;
    prev_layer ← (if fresh then
                    pl ← new_SubProblem None;
                    insert_before pl cl;;
                    set_bool pl F_connected true;;
                    mret (Some pl)
                  else mret prev_layer);
    match prev_layer with
    | Some pl => c ← get_bool pl F_connected; when c (add_child pl leaf)
    | None => mret tt
    end;;
    none ← has_no_children cl;
    when none (remove cl).

Definition process_neighbors (self pivot : loc) : M loc :=
  piv_neighs_list ← get_list pivot F_neighbors;
  neighbor_problem ← new_SubProblem None;
  for_each piv_neighs_list (λ current_neighbor,
    visited ← get_bool current_neighbor F_visited;
    if visited then
      a ← get_list current_neighbor F_alpha;
      set_list current_neighbor F_alpha (a ++ [pivot])
    else
      np ← get_ref current_neighbor F_parent;
      pp ← get_ref pivot F_parent;
      if same np pp then add_child neighbor_problem current_neighbor
      else pull_forward self current_neighbor);;
  mret neighbor_problem.

Definition pivot_problem (self : loc) : M loc :=
  fc ← get_ref self F_first_child;
  pivot ← deref fc;
  set_bool pivot F_visited true;;
  neighbor_problem ← process_neighbors self pivot;
  remove pivot;;
  pivot_problem ← new_SubProblem (Some pivot);
  set_bool pivot_problem F_connected true;;
  replacement ← new_SubProblem None;
  sub_copy replacement self;;
  replace_with self replacement;;
  set_ref replacement F_pivot (Some pivot);;
  none ← has_no_children self;
  when (negb none) (clear_attributes self;; add_child replacement self);;
  add_child replacement pivot_problem;;
  none ← has_no_children neighbor_problem;
  when (negb none)
       (set_bool neighbor_problem F_connected true;;
        add_child replacement neighbor_problem);;
  mret replacement.

Definition clear_all_but_visited (fuel : nat) (self : loc) : M unit :=
  fc ← get_ref self F_first_child; c ← deref fc; clear_all fuel c.

Definition remove_degenerate_duplicates (fuel : nat) (self : loc) : M unit :=
  fc ← get_ref self F_first_child; c ← deref fc;
  remove_degenerate_duplicates_from_subtree fuel c.

Definition merge_components (fuel : nat) (self : loc) (new_components : option loc) : M unit :=
  first_component ← get_ref self F_first_child;
  match new_components with
  | None => mret tt
  | Some nc =>
      t ← get_type nc;
      if bool_decide (t = PARALLEL) then
        fcomp ← deref first_component;
        ft ← get_type fcomp;
        (if bool_decide (ft = PARALLEL) then add_children_from fuel nc fcomp
         else add_child nc fcomp);;
        add_child self nc
      else
        new_root ← new_MDNode PARALLEL;
        fcomp ← deref first_component;
        add_child new_root fcomp;;
        add_child new_root nc;;
        add_child self new_root
  end.

Definition remove_extra_components (fuel : nat) (self : loc) : M (option loc) :=
  fc ← get_ref self F_first_child;
  current_sub_problem ← loop fuel (λ current : option loc,
    match current with
    | None => mret (inr None)
    | Some c =>
        conn ← get_bool c F_connected;
        if conn then next ← get_ref c F_right_sibling; mret (inl next)
        else mret (inr (Some c))
    end) fc;
  match current_sub_problem with
  | Some c =>
      remove c;;
      root ← get_ref c F_first_child;
      r ← deref root;
      remove r;;
      mret (Some r)
  | None => mret None
  end.

Definition remove_layers (fuel : nat) (self : loc) : M unit :=
  fc ← get_ref self F_first_child;
  for_siblings_saved fuel fc (λ current_layer,
    c ← get_ref current_layer F_first_child;
    c' ← deref c;
    replace_with current_layer c').

Definition number_by_tree (fuel : nat) (self : loc) : M unit :=
  fc ← get_ref self F_first_child;
  loop fuel (λ st : (option loc * Z)%type,
    match st.1 with
    | None => mret (inr tt)
    | Some current_root =>
        set_tree_number_for_subtree fuel current_root st.2;;
        next ← get_ref current_root F_right_sibling;
        mret (inl (next, st.2 + 1))
    end) (fc, 0).

Definition number_by_comp (fuel : nat) (self : loc) : M unit :=
  fc ← get_ref self F_first_child;
  loop fuel (λ st : (option loc * Z * bool)%type,
    let '(current, comp_number, after_pivot) := st in
    match current with
    | None => mret (inr tt)
    | Some current_root =>
        piv ← get_ref self F_pivot;
        let after_pivot := if same (Some current_root) piv then true else after_pivot in
        k ← number_comps fuel current_root comp_number
              (if after_pivot then PARALLEL else SERIES);
        next ← get_ref current_root F_right_sibling;
        mret (inl (next, comp_number + k, after_pivot))
    end) (fc, 0, false).

(** The loop [while i < len(l)] that drops the entries already marked and
    marks the others. *)
Fixpoint drop_marked (l : list loc) : M (list loc) :=
  match l with
  | [] => mret []
  | x :: l' =>
      m ← is_marked x;
      if m then drop_marked l'
      else
        n ← get_int x F_num_marks; set_int x F_num_marks (n + 1);;
        r ← drop_marked l';
        mret (x :: r)
  end.

Definition complete_alpha_lists (fuel : nat) (self : loc) : M unit :=
  leaves_list ← get_leaves fuel self;
  for_each leaves_list (λ leaf,
    (* [for alpha_node in leaf.alpha], by position in the live list *)
    loop fuel (λ i : nat,
      alpha_list ← get_list leaf F_alpha;
      match alpha_list !! i with
      | None => mret (inr tt)
      | Some alpha_node =>
          a ← get_list alpha_node F_alpha;
          set_list alpha_node F_alpha (a ++ [leaf]);;
          mret (inl (S i))
      end) 0%nat);;
  for_each leaves_list (λ leaf,
    alpha_list ← get_list leaf F_alpha;
    alpha_list ← drop_marked alpha_list;
    set_list leaf F_alpha alpha_list;;
    for_each alpha_list clear_marks).

(** [get_max_subtrees]: one pass of the inner loop over [active].  Every
    entry is taken out and discharged; a parent that becomes fully marked is
    put back, so what is left of [active] after the pass is these parents,
    in order. *)
Fixpoint max_subtrees_pass (active : list loc) (discharged : list loc)
  : M (list loc * list loc) :=
  match active with
  | [] => mret ([], discharged)
  | current :: rest =>
      r ← is_root current;
      kept ← (if negb r then
                p ← get_ref current F_parent;
                current_parent ← deref p;
                n ← get_int current_parent F_num_marks;
                set_int current_parent F_num_marks (n + 1);;
                full ← is_fully_marked current_parent;
                mret (if full then [current_parent] else [])
              else mret []);
      '(active', discharged') ← max_subtrees_pass rest (discharged ++ [current]);
      mret (kept ++ active', discharged')
  end.

(** The second loop of [get_max_subtrees], which clears the marks and keeps
    the roots of the maximal subtrees. *)
Fixpoint max_subtrees_roots (discharged : list loc) : M (list loc) :=
  match discharged with
  | [] => mret []
  | current :: rest =>
      clear_marks current;;
      r ← is_root current;
      if negb r then
        p ← get_ref current F_parent;
        current_parent ← deref p;
        full ← is_fully_marked current_parent;
        if full then max_subtrees_roots rest
        else
          clear_marks current_parent;;
          l ← max_subtrees_roots rest;
          mret (current :: l)
      else
        l ← max_subtrees_roots rest;
        mret (current :: l)
  end.

Definition get_max_subtrees (fuel : nat) (self : loc) (leaves : list loc) : M (list loc) :=
  discharged ← loop fuel (λ st : (list loc * list loc)%type,
    match st.1 with
    | [] => mret (inr st.2)
    | _ => st' ← max_subtrees_pass st.1 st.2; mret (inl st')
    end) (leaves, []);
  max_subtrees_roots discharged.

(** The loop of [group_sibling_nodes] that takes the parents with a single
    marked child out of [parents]. *)
Fixpoint single_marked_parents (parents : list loc) (sibling_groups : list loc)
  : M (list loc * list loc) :=
  match parents with
  | [] => mret ([], sibling_groups)
  | current :: rest =>
      n ← get_int current F_num_marks;
      if bool_decide (n = 1) then
        clear_marks current;;
        fc ← get_ref current F_first_child;
        c ← deref fc;
        clear_marks c;;
        single_marked_parents rest (sibling_groups ++ [c])
      else
        '(ps, sg) ← single_marked_parents rest sibling_groups;
        mret (current :: ps, sg)
  end.

Definition group_sibling_nodes (fuel : nat) (self : loc) (nodes : list loc) : M (list loc) :=
  parents ← (fix go (nodes parents : list loc) : M (list loc) :=
    match nodes with
    | [] => mret parents
    | node :: rest =>
        n ← get_int node F_num_marks; set_int node F_num_marks (n + 1);;
        r ← is_root node;
        parents ← (if negb r then
                     make_first_child node;;
                     p ← get_ref node F_parent;
                     current_parent ← deref p;
                     m ← is_marked current_parent;
                     k ← get_int current_parent F_num_marks;
                     set_int current_parent F_num_marks (k + 1);;
                     mret (if m then parents else parents ++ [current_parent])
                   else mret parents);
        go rest parents
    end) nodes [];
  sibling_groups ← (fix go (nodes sibling_groups : list loc) : M (list loc) :=
    match nodes with
    | [] => mret sibling_groups
    | node :: rest =>
        r ← is_root node;
        if r then clear_marks node;; go rest (sibling_groups ++ [node])
        else go rest sibling_groups
    end) nodes [];
  '(parents, sibling_groups) ← single_marked_parents parents sibling_groups;
  (fix go (parents sibling_groups : list loc) : M (list loc) :=
    match parents with
    | [] => mret sibling_groups
    | current_parent :: rest =>
        clear_marks current_parent;;
        grouped_children ← new_MDNode PRIME;
        md_copy grouped_children current_parent;;
        fc ← get_ref current_parent F_first_child;
        loop fuel (λ current : option loc,
          match current with
          | None => mret (inr tt)
          | Some current_child =>
              m ← is_marked current_child;
              if m then
                next_child ← get_ref current_child F_right_sibling;
                clear_marks current_child;;
                add_child grouped_children current_child;;
                mret (inl next_child)
              else mret (inr tt)
          end) fc;;
        add_child current_parent grouped_children;;
        go rest (sibling_groups ++ [grouped_children])
    end) parents sibling_groups.

Definition refine_with (fuel : nat) (self refiner : loc) : M unit :=
  alpha ← get_list refiner F_alpha;
  sub_tree_roots ← get_max_subtrees fuel self alpha;
  sibling_groups ← group_sibling_nodes fuel self sub_tree_roots;
  sibling_groups ← (fix go (l : list loc) : M (list loc) :=
    match l with
    | [] => mret []
    | x :: l' =>
        r ← is_root x;
        l'' ← go l';
        mret (if r then l'' else x :: l'')
    end) sibling_groups;
  for_each sibling_groups (λ current,
    piv ← get_ref self F_pivot;
    pivot ← deref piv;
    pivot_tree_number ← get_int pivot F_tree_number;
    refiner_tree_number ← get_int refiner F_tree_number;
    current_tree_number ← get_int current F_tree_number;
    let split_type :=
      if bool_decide (current_tree_number < pivot_tree_number)
         || bool_decide (refiner_tree_number < current_tree_number)
      then LEFT_SPLIT else RIGHT_SPLIT in
    p ← get_ref current F_parent;
    current_parent ← deref p;
    r ← is_root current_parent;
    new_sibling ←
      (if r then
         (if bool_decide (split_type = LEFT_SPLIT) then insert_before current current_parent
          else insert_after current current_parent);;
         one ← has_only_one_child current_parent;
         when one (replace_this_by_its_children fuel current_parent);;
         none ← has_no_children current_parent;
         when none (remove current_parent);;
         mret (Some current_parent)
       else
         remove current;;
         one ← has_only_one_child current_parent;
         if one then
           fc ← get_ref current_parent F_first_child;
           add_child current_parent current;;
           mret fc
         else
           replacement ← new_MDNode PRIME;
           md_copy replacement current_parent;;
           replace_with current_parent replacement;;
           add_child replacement current;;
           add_child replacement current_parent;;
           mret (Some current_parent));
    add_split_mark fuel current split_type;;
    ns ← deref new_sibling;
    add_split_mark fuel ns split_type;;
    mark_ancestors_by_split fuel current split_type;;
    mark_ancestors_by_split fuel ns split_type).

Definition refinement (fuel : nat) (self : loc) : M unit :=
  leaf_list ← get_leaves fuel self;
  for_each leaf_list (λ leaf, refine_with fuel self leaf).

Definition promote_one_direction (fuel : nat) (self : loc) (split_type : NodeSplit) : M unit :=
  fc ← get_ref self F_first_child;
  for_siblings_saved fuel fc (λ current, promote fuel current split_type).

Definition clear_split_marks (fuel : nat) (self : loc) : M unit :=
  fc ← get_ref self F_first_child;
  for_siblings_saved fuel fc (λ current, clear_split_marks_for_subtree fuel current).

Definition promotion (fuel : nat) (self : loc) : M unit :=
  promote_one_direction fuel self LEFT_SPLIT;;
  promote_one_direction fuel self RIGHT_SPLIT;;
  clear_split_marks fuel self.

(** [l[i]] for a Python list: a negative index counts from the end. *)
Definition py_index {A} (l : list A) (i : Z) : M A :=
  let n := Z.of_nat (length l) in
  let j := if bool_decide (i < 0) then i + n else i in
  if bool_decide (0 ≤ j < n) then
    match l !! Z.to_nat j with
    | Some a => mret a
    | None => raise IndexError
    end
  else raise IndexError.

Definition build_permutation (fuel : nat) (self : loc) : M unit :=
  fc ← get_ref self F_first_child;
  loop fuel (λ st : (option loc * Z)%type,
    match st.1 with
    | None => mret (inr tt)
    | Some current =>
        next_node ← get_ref current F_right_sibling;
        new_element ← new_FactPermElement st.2;
        insert_before new_element current;;
        add_child new_element current;;
        mret (inl (next_node, st.2 + 1))
    end) (fc, 0).

Definition determine_left_co_comp_fragments (fuel : nat) (self : loc) : M unit :=
  fc ← get_ref self F_first_child;
  loop fuel (λ st : (option loc * Z)%type,
    let '(current, last_comp_num) := st in
    cur ← deref current;
    c ← get_ref cur F_first_child;
    piv ← get_ref self F_pivot;
    if negb (same c piv) then
      c ← get_ref cur F_first_child;
      c' ← deref c;
      current_comp_num ← get_int c' F_comp_number;
      when (negb (bool_decide (last_comp_num = -1))
            && bool_decide (last_comp_num = current_comp_num))
           (set_bool cur F_has_left_co_comp_fragment true);;
      next ← get_ref cur F_right_sibling;
      mret (inl (next, current_comp_num))
    else mret (inr tt)) (fc, -1).

Definition determine_right_comp_fragments (fuel : nat) (self : loc) : M unit :=
  piv ← get_ref self F_pivot;
  pivot ← deref piv;
  pp ← get_ref pivot F_parent;
  pivot_element ← deref pp;
  start ← get_ref pivot_element F_right_sibling;
  loop fuel (λ st : (option loc * option loc * Z)%type,
    let '(current, last, last_comp_num) := st in
    match current with
    | None => mret (inr tt)
    | Some cur =>
        c ← get_ref cur F_first_child;
        c' ← deref c;
        current_comp_num ← get_int c' F_comp_number;
        when (negb (bool_decide (last_comp_num = -1))
              && bool_decide (last_comp_num = current_comp_num))
             (l ← deref last; set_bool l F_has_right_comp_fragment true);;
        next ← get_ref cur F_right_sibling;
        mret (inl (next, Some cur, current_comp_num))
    end) (start, None, -1).

Definition determine_right_layer_neighbor (fuel : nat) (self : loc) : M unit :=
  piv ← get_ref self F_pivot;
  pivot ← deref piv;
  pp ← get_ref pivot F_parent;
  pivot_element ← deref pp;
  start ← get_ref pivot_element F_right_sibling;
  for_siblings fuel start (λ current,
    c ← get_ref current F_first_child;
    current_tree ← deref c;
    current_tree_num ← get_int current_tree F_tree_number;
    current_leaves_list ← get_leaves fuel current_tree;
    for_each current_leaves_list (λ leaf,
      alpha_list ← get_list leaf F_alpha;
      for_each alpha_list (λ alpha,
        tn ← get_int alpha F_tree_number;
        when (bool_decide (tn > current_tree_num))
             (set_bool current F_has_right_layer_neighbor true)))).

Definition build_fact_perm_list (fuel : nat) (self : loc) : M (list loc) :=
  fc ← get_ref self F_first_child;
  loop fuel (λ st : (list loc * option loc)%type,
    match st.2 with
    | None => mret (inr st.1)
    | Some current_element =>
        next ← get_ref current_element F_right_sibling;
        mret (inl (st.1 ++ [current_element], next))
    end) ([], fc).

(** The loop of [compute_fact_perm_edges] that counts the entries of a
    neighbour list and drops the repeated ones. *)
Fixpoint count_neighbors (neighbors_list : list loc) : M (list loc) :=
  match neighbors_list with
  | [] => mret []
  | current_neighbor :: rest =>
      m ← is_marked current_neighbor;
      n ← get_int current_neighbor F_num_marks;
      set_int current_neighbor F_num_marks (n + 1);;
      r ← count_neighbors rest;
      mret (if m then r else current_neighbor :: r)
  end.

Definition compute_fact_perm_edges (fuel : nat) (self : loc) : M unit :=
  fc ← get_ref self F_first_child;
  for_siblings fuel fc (λ current_element,
    leaves_list ← get_leaves fuel current_element;
    for_each leaves_list (λ leaf,
      v ← getattr current_element F_index;
      setattr leaf F_comp_number v));;
  fact_perm_list ← build_fact_perm_list fuel self;
  element_sizes ← (fix go (l : list loc) : M (list Z) :=
    match l with
    | [] => mret []
    | element :: l' =>
        ls ← get_leaves fuel element;
        r ← go l';
        mret (Z.of_nat (length ls) :: r)
    end) fact_perm_list;
  fc ← get_ref self F_first_child;
  for_siblings fuel fc (λ current_element,
    leaves_list ← get_leaves fuel current_element;
    for_each leaves_list (λ leaf,
      alpha_list ← get_list leaf F_alpha;
      for_each alpha_list (λ alpha_element,
        k ← get_int alpha_element F_comp_number;
        e ← py_index fact_perm_list k;
        ns ← get_list current_element F_neighbors;
        set_list current_element F_neighbors (ns ++ [e]))));;
  fc ← get_ref self F_first_child;
  for_siblings fuel fc (λ current_element,
    neighbors_list ← get_list current_element F_neighbors;
    neighbors_list ← count_neighbors neighbors_list;
    set_list current_element F_neighbors neighbors_list;;
    new_neighbors ← (fix go (l : list loc) : M (list loc) :=
      match l with
      | [] => mret []
      | neighbor :: l' =>
          ci ← get_int current_element F_index;
          my_size ← py_index element_sizes ci;
          ni ← get_int neighbor F_index;
          neighbor_size ← py_index element_sizes ni;
          marks ← get_int neighbor F_num_marks;
          clear_marks neighbor;;
          r ← go l';
          mret (if bool_decide (my_size * neighbor_size = marks) then neighbor :: r else r)
      end) neighbors_list;
    set_list current_element F_neighbors new_neighbors).

Definition compute_mu (fuel : nat) (self : loc) : M unit :=
  first_element ← get_ref self F_first_child;
  piv ← get_ref self F_pivot;
  pivot ← deref piv;
  pivot_element ← get_ref pivot F_parent;
  for_siblings fuel first_element (λ current, set_ref current F_mu first_element);;
  start ← get_ref self F_first_child;
  loop fuel (λ current : option loc,
    if negb (same current pivot_element) then
      cur ← deref current;
      next_element ← get_ref cur F_right_sibling;
      neighbor_list ← get_list cur F_neighbors;
      for_each neighbor_list (λ neighbor,
        m ← get_ref neighbor F_mu; m' ← deref m;
        mi ← get_int m' F_index;
        ci ← get_int cur F_index;
        when (bool_decide (mi = ci)) (set_ref neighbor F_mu next_element);;
        ni ← get_int neighbor F_index;
        cm ← get_ref cur F_mu; cm' ← deref cm;
        cmi ← get_int cm' F_index;
        when (bool_decide (ni > cmi)) (set_ref cur F_mu (Some neighbor)));;
      mret (inl next_element)
    else mret (inr tt)) start.

(** [x.mu.index] *)
Definition mu_index (x : loc) : M Z :=
  m ← get_ref x F_mu; m' ← deref m; get_int m' F_index.

(** The state of [delineate]: the two scan positions and the boundaries of
    the module formed last. *)
Record dstate : Type := mkDstate {
  d_left : option loc;
  d_right : option loc;
  d_left_last_in : option loc;
  d_right_last_in : option loc
}.

(** [while True: left_queue.append(left); left_last_in = left;
    left = left.left_sibling; if not left_last_in.has_left_co_comp_fragment: break] *)
Definition take_left (fuel : nat) (st : dstate) (left_queue : list (option loc))
  : M (dstate * list (option loc)) :=
  loop fuel (λ s : (dstate * list (option loc))%type,
    let '(st, q) := s in
    let q := q ++ [d_left st] in
    l ← deref (d_left st);
    next ← get_ref l F_left_sibling;
    let st := mkDstate next (d_right st) (Some l) (d_right_last_in st) in
    frag ← get_bool l F_has_left_co_comp_fragment;
    if negb frag then mret (inr (st, q)) else mret (inl (st, q))) (st, left_queue).

(** The same towards the right; it also records a right layer neighbour. *)
Definition take_right (fuel : nat) (st : dstate) (right_queue : list (option loc))
    (has_right_edge : bool) : M (dstate * list (option loc) * bool) :=
  loop fuel (λ s : (dstate * list (option loc) * bool)%type,
    let '(st, q, hre) := s in
    let q := q ++ [d_right st] in
    r ← deref (d_right st);
    next ← get_ref r F_right_sibling;
    let st := mkDstate (d_left st) next (d_left_last_in st) (Some r) in
    rln ← get_bool r F_has_right_layer_neighbor;
    let hre := if rln then true else hre in
    frag ← get_bool r F_has_right_comp_fragment;
    if negb frag then mret (inr (st, q, hre)) else mret (inl (st, q, hre)))
    (st, right_queue, has_right_edge).

Definition delineate (fuel : nat) (self : loc) : M unit :=
  piv ← get_ref self F_pivot;
  pivot ← deref piv;
  pp ← get_ref pivot F_parent;
  pivot_element ← deref pp;
  last_element ← loop fuel (λ last_element : loc,
    rs ← get_ref last_element F_right_sibling;
    match rs with
    | Some r => mret (inl r)
    | None => mret (inr last_element)
    end) pivot_element;
  first_element ← get_ref self F_first_child;
  left ← get_ref pivot_element F_left_sibling;
  right ← get_ref pivot_element F_right_sibling;
  loop fuel (λ st : dstate,
    match d_left st, d_right st with
    | None, None => mret (inr tt)
    | _, _ =>
        (* a series module, if possible *)
        '(st, series_module_formed) ← loop fuel (λ s : (dstate * bool)%type,
          let '(st, formed) := s in
          match d_left st with
          | None => mret (inr s)
          | Some l =>
              mi ← mu_index l;
              rli ← deref (d_right_last_in st);
              ri ← get_int rli F_index;
              if bool_decide (mi ≤ ri) then
                frag ← get_bool l F_has_left_co_comp_fragment;
                if negb frag then
                  next ← get_ref l F_left_sibling;
                  mret (inl (mkDstate next (d_right st) (Some l) (d_right_last_in st), true))
                else mret (inr s)
              else mret (inr s)
          end) (st, false);
        (* a parallel module, if possible *)
        '(st, parallel_module_formed) ← loop fuel (λ s : (dstate * bool)%type,
          let '(st, formed) := s in
          if series_module_formed then mret (inr s)
          else
            match d_right st with
            | None => mret (inr s)
            | Some r =>
                mi ← mu_index r;
                lli ← deref (d_left_last_in st);
                li ← get_int lli F_index;
                if bool_decide (mi >= li) then
                  frag ← get_bool r F_has_right_comp_fragment;
                  if negb frag then
                    rln ← get_bool r F_has_right_layer_neighbor;
                    if negb rln then
                      next ← get_ref r F_right_sibling;
                      mret (inl (mkDstate (d_left st) next (d_left_last_in st) (Some r), true))
                    else mret (inr s)
                  else mret (inr s)
                else mret (inr s)
            end) (st, false);
        '(st, left_queue) ←
          (if negb series_module_formed && negb parallel_module_formed
           then take_left fuel st []
           else mret (st, []));
        (* the forcing rule of a prime module *)
        '(st, has_right_edge) ← loop fuel
          (λ s : (dstate * list (option loc) * list (option loc) * bool)%type,
            let '(st, left_queue, right_queue, hre) := s in
            match left_queue, right_queue with
            | [], [] => mret (inr (st, hre))
            | _, _ =>
                '(st, right_queue, hre) ←
                  (fix go (left_queue : list (option loc))
                          (acc : dstate * list (option loc) * bool)
                     : M (dstate * list (option loc) * bool) :=
                     match left_queue with
                     | [] => mret acc
                     | current_left :: rest =>
                         acc ← loop fuel (λ a : (dstate * list (option loc) * bool)%type,
                           let '(st, rq, hre) := a in
                           cl ← deref current_left;
                           mi ← mu_index cl;
                           rli ← deref (d_right_last_in st);
                           ri ← get_int rli F_index;
                           if bool_decide (mi > ri) then
                             a' ← take_right fuel st rq hre; mret (inl a')
                           else mret (inr a)) acc;
                         go rest acc
                     end) left_queue (st, right_queue, hre);
                '(st, left_queue) ←
                  (fix go (right_queue : list (option loc))
                          (acc : dstate * list (option loc))
                     : M (dstate * list (option loc)) :=
                     match right_queue with
                     | [] => mret acc
                     | current_right :: rest =>
                         acc ← loop fuel (λ a : (dstate * list (option loc))%type,
                           let '(st, lq) := a in
                           cr ← deref current_right;
                           mi ← mu_index cr;
                           lli ← deref (d_left_last_in st);
                           li ← get_int lli F_index;
                           if bool_decide (mi < li) then
                             a' ← take_left fuel st lq; mret (inl a')
                           else mret (inr a)) acc;
                         go rest acc
                     end) right_queue (st, []);
                mret (inl (st, left_queue, [], hre))
            end) (st, left_queue, [], false);
        let st := if has_right_edge
                  then mkDstate None None first_element (Some last_element)
                  else st in
        left_boundary ← new_FactPermElement (-1);
        right_boundary ← new_FactPermElement (-1);
        lli ← deref (d_left_last_in st);
        insert_before left_boundary lli;;
        rli ← deref (d_right_last_in st);
        insert_after right_boundary rli;;
        mret (inl st)
    end) (mkDstate left right (Some pivot_element) (Some pivot_element)).

Definition delineation (fuel : nat) (self : loc) : M unit :=
  build_permutation fuel self;;
  determine_left_co_comp_fragments fuel self;;
  determine_right_comp_fragments fuel self;;
  determine_right_layer_neighbor fuel self;;
  compute_fact_perm_edges fuel self;;
  compute_mu fuel self;;
  delineate fuel self.

Definition assemble_tree (fuel : nat) (self : loc) : M unit :=
  piv ← get_ref self F_pivot;
  pivot ← deref piv;
  pp ← get_ref pivot F_parent;
  pivot_element ← deref pp;
  left_ ← get_ref pivot_element F_left_sibling;
  right_ ← get_ref pivot_element F_right_sibling;
  last_module ← loop fuel (λ st : (option loc * option loc * loc)%type,
    let '(left_, right_, last_module) := st in
    match left_, right_ with
    | None, None => mret (inr last_module)
    | _, _ =>
        new_module ← new_MDNode PRIME;
        add_child new_module last_module;;
        (* the subtrees of the new module from N(x) *)
        '(left_, added_pivot_neighbors) ← loop fuel (λ s : (option loc * bool)%type,
          l ← deref s.1;
          i ← get_int l F_index;
          if negb (bool_decide (i = -1)) then
            add_children_from fuel new_module l;;
            next ← get_ref l F_left_sibling;
            remove l;;
            mret (inl (next, true))
          else mret (inr s)) (left_, false);
        (* and from the non-neighbours *)
        '(right_, added_pivot_non_neighbors) ← loop fuel (λ s : (option loc * bool)%type,
          r ← deref s.1;
          i ← get_int r F_index;
          if negb (bool_decide (i = -1)) then
            add_children_from fuel new_module r;;
            next ← get_ref r F_right_sibling;
            remove r;;
            mret (inl (next, true))
          else mret (inr s)) (right_, false);
        setattr new_module F_type
          (VType (if added_pivot_neighbors && added_pivot_non_neighbors then PRIME
                  else if added_pivot_neighbors then SERIES
                  else PARALLEL));;
        l ← deref left_;
        left_ ← get_ref l F_left_sibling;
        r ← deref right_;
        right_ ← get_ref r F_right_sibling;
        mret (inl (left_, right_, new_module))
    end) (left_, right_, pivot);
  replace_children_with fuel self last_module.

Fixpoint solve (fuel : nat) (self : loc) : M (option loc) :=
  match fuel with
  | O => out_of_fuel
  | S fuel' =>
      set_bool self F_active true;;
      one ← has_only_one_child self;
      if one then
        fc ← getattr self F_first_child;
        setattr self F_pivot fc;;
        piv ← get_ref self F_pivot;
        pivot ← deref piv;
        process_neighbors self pivot;;
        piv ← get_ref self F_pivot;
        pivot ← deref piv;
        set_bool pivot F_visited true;;
        get_ref self F_first_child
      else
        this_problem ← pivot_problem self;
        fc ← get_ref this_problem F_first_child;
        loop fuel (λ current_sub_problem : option loc,
          match current_sub_problem with
          | None => mret (inr tt)
          | Some c =>
              solved_root ← solve fuel' c;
              sr ← deref solved_root;
              p ← get_ref sr F_parent;
              p' ← deref p;
              next ← get_ref p' F_right_sibling;
              mret (inl next)
          end) fc;;
        extra_components ← remove_extra_components fuel this_problem;
        remove_layers fuel this_problem;;
        complete_alpha_lists fuel this_problem;;
        number_by_comp fuel this_problem;;
        number_by_tree fuel this_problem;;
        refinement fuel this_problem;;
        promotion fuel this_problem;;
        delineation fuel this_problem;;
        assemble_tree fuel this_problem;;
        remove_degenerate_duplicates fuel this_problem;;
        merge_components fuel this_problem extra_components;;
        clear_all_but_visited fuel this_problem;;
        get_ref this_problem F_first_child
  end.

(** [_recursive_tedder_to_md] *)
Fixpoint recursive_tedder_to_md (fuel : nat) (root : option loc) : M (Node V) :=
  match fuel with
  | O => out_of_fuel
  | S fuel' =>
      match root with
      | None => raise AssertionError
      | Some r =>
          leaf ← is_leaf r;
          if leaf then
            v ← getattr r F_vertex;
            match v with
            | VVertex x => mret (create_normal_node x)
            | _ => raise IllTyped
            end
          else
            md ← is_md r;
            if negb md then raise AssertionError
            else
              t ← get_type r;
              fc ← get_ref r F_first_child;
              children ← loop fuel (λ st : (list (Node V) * option loc)%type,
                match st.2 with
                | None => mret (inr st.1)
                | Some current_child =>
                    n ← recursive_tedder_to_md fuel' (Some current_child);
                    next ← get_ref current_child F_right_sibling;
                    mret (inl (st.1 ++ [n], next))
                end) ([], fc);
              mret (Inner t children)
      end
  end.

(** [vertex_dictionary[v]] *)
Fixpoint vertex_dictionary_get (d : list (V * loc)) (v : V) : M loc :=
  match d with
  | [] => raise KeyError
  | (u, l) :: d' => if bool_decide (u = v) then mret l else vertex_dictionary_get d' v
  end.

Definition tedder_main (fuel : nat) (graph : Graph V) : M (Node V) :=
  let vertex_list := vertices graph in
  vertex_dictionary ← (fix go (l : list V) : M (list (V * loc)) :=
    match l with
    | [] => mret []
    | vertex :: l' =>
        node ← new_MDLeafNode vertex;
        d ← go l';
        mret ((vertex, node) :: d)
    end) vertex_list;
  main_problem ← new_SubProblem None;
  for_each vertex_list (λ vertex,
    node ← vertex_dictionary_get vertex_dictionary vertex;
    for_each (neighbors graph vertex) (λ neighbor,
      n ← vertex_dictionary_get vertex_dictionary neighbor;
      ns ← get_list node F_neighbors;
      set_list node F_neighbors (ns ++ [n]));;
    add_child main_problem node);;
  tedder_root ← solve fuel main_problem;
  recursive_tedder_to_md fuel tedder_root.

Definition tedder_algorithm_fuel (fuel : nat) (graph : Graph V) : result (Node V) :=
  if is_directed graph then Raise ValueError
  else
    match vertices graph with
    | [] => Ok create_prime_node
    | _ =>
        match tedder_main fuel graph [] with
        | Ok (t, _) => Ok t
        | Raise e => Raise e
        | OutOfFuel => OutOfFuel
        end
    end.

(** The loops and the recursion of the decomposer walk sibling chains and
    subtrees of objects allocated for one graph; a bound linear in the order
    of the graph covers them on the graphs evaluated below. *)
Definition tedder_algorithm (graph : Graph V) : result (Node V) :=
  tedder_algorithm_fuel (8 * order graph + 8) graph.

(** Running a heap computation from the empty heap, keeping its value. *)
Definition run {A} (m : M A) : result A :=
  match m [] with
  | Ok (a, _) => Ok a
  | Raise e => Raise e
  | OutOfFuel => OutOfFuel
  end.

End tedder.

(** Graphs on numbered vertices, from a list of edges, for examples. *)
Definition graph_of_edges (n : nat) (es : list (nat * nat)) : Graph nat :=
  mkGraph false (seq 0 n)
          (λ u v, bool_decide ((u, v) ∈ es) || bool_decide ((v, u) ∈ es)).

(** * Properties

    ** Reachability and connected components *)

Section reach_facts.
Context {V : Type} `{EqDecision V}.
Implicit Types (G : Graph V) (u v w : V).

(** A walk along the edges of [G]. *)
Definition edge_to G (a b : V) : Prop := has_edge G a b = true ∧ b ∈ vertices G.
Definition path G : V → V → Prop := rtc (edge_to G).

Lemma reach_step_incl G found : found ⊆ reach_step G found.
Proof. intros x Hx. unfold reach_step. apply elem_of_app. by left. Qed.

Lemma elem_of_reach_step G found w :
  w ∈ reach_step G found ↔
  w ∈ found ∨ (w ∈ vertices G ∧ (w ∉ found) ∧ ∃ u, u ∈ found ∧ has_edge G u w = true).
Proof.
  unfold reach_step. rewrite elem_of_app, list_elem_of_filter, existsb_exists.
  setoid_rewrite <- list_elem_of_In.
  split.
  - intros [? | [[? (u & ? & ?)] ?]]; [by left | right; eauto].
  - intros [? | (? & ? & u & ? & ?)]; [by left | right; eauto].
Qed.

Lemma reach_step_NoDup G found :
  NoDup (vertices G) → NoDup found → NoDup (reach_step G found).
Proof.
  intros Hv Hf. unfold reach_step. apply NoDup_app. split; [done |]. split.
  - intros x Hx Hx'. apply list_elem_of_filter in Hx' as [[Hn _] _]. done.
  - by apply NoDup_filter.
Qed.

Lemma iter_reach_NoDup G v k :
  NoDup (vertices G) → NoDup (Nat.iter k (reach_step G) [v]).
Proof.
  intros Hv. induction k as [| k IH]; simpl.
  - apply NoDup_singleton.
  - by apply reach_step_NoDup.
Qed.

Lemma iter_reach_subset G v k w :
  v ∈ vertices G → w ∈ Nat.iter k (reach_step G) [v] → w ∈ vertices G.
Proof.
  intros Hv. revert w. induction k as [| k IH]; simpl; intros w Hw.
  - apply list_elem_of_singleton in Hw. by subst.
  - apply elem_of_reach_step in Hw as [Hw | [Hw _]]; auto.
Qed.

Lemma iter_reach_start G v k : v ∈ Nat.iter k (reach_step G) [v].
Proof.
  induction k as [| k IH]; simpl; [apply list_elem_of_singleton; done |].
  by apply reach_step_incl.
Qed.

Lemma iter_reach_path G v k w :
  w ∈ Nat.iter k (reach_step G) [v] → path G v w.
Proof.
  revert w. induction k as [| k IH]; simpl; intros w Hw.
  - apply list_elem_of_singleton in Hw. subst. apply rtc_refl.
  - apply elem_of_reach_step in Hw as [Hw | (Hw & _ & u & Hu & Hadj)]; [auto |].
    eapply rtc_r; [apply IH, Hu |]. split; done.
Qed.

Lemma iter_reach_grow G v k :
  reach_step G (Nat.iter k (reach_step G) [v]) = Nat.iter k (reach_step G) [v]
  ∨ (k + 1 ≤ length (Nat.iter k (reach_step G) [v]))%nat.
Proof.
  induction k as [| k IH]; [right; simpl; lia |].
  simpl. destruct IH as [IH | IH].
  - left. by rewrite !IH.
  - set (S := Nat.iter k (reach_step G) [v]) in *.
    destruct (filter (λ w, (w ∉ S) ∧ (existsb (λ u, has_edge G u w) S = true)) (vertices G))
      as [| x new] eqn:E.
    + left. assert (reach_step G S = S) as Hfix.
      { unfold reach_step. fold S. rewrite E. apply app_nil_r. }
      by rewrite !Hfix.
    + right. unfold reach_step at 1. rewrite E, length_app. simpl. lia.
Qed.

Lemma reach_fixed G v :
  NoDup (vertices G) → v ∈ vertices G → reach_step G (reach G v) = reach G v.
Proof.
  intros Hnd Hv. unfold reach. destruct (iter_reach_grow G v (order G)) as [Hf | Hl]; [done |].
  exfalso.
  assert (length (Nat.iter (order G) (reach_step G) [v]) ≤ length (vertices G))%nat.
  { apply submseteq_length, NoDup_submseteq; [by apply iter_reach_NoDup |].
    intros w Hw. by eapply iter_reach_subset. }
  unfold order in *. lia.
Qed.

Lemma reach_closed G v u w :
  NoDup (vertices G) → v ∈ vertices G →
  u ∈ reach G v → w ∈ vertices G → has_edge G u w = true → w ∈ reach G v.
Proof.
  intros Hnd Hv Hu Hw Hadj.
  destruct (decide (w ∈ reach G v)) as [| Hn]; [done |].
  assert (w ∈ reach_step G (reach G v)) as Hin.
  { apply elem_of_reach_step. right. eauto. }
  by rewrite reach_fixed in Hin.
Qed.

Lemma elem_of_reach G v w :
  NoDup (vertices G) → v ∈ vertices G → w ∈ reach G v ↔ path G v w.
Proof.
  intros Hnd Hv. split; [apply iter_reach_path |].
  revert w. apply (rtc_ind_r (λ w, w ∈ reach G v)).
  - apply iter_reach_start.
  - intros b c _ [Hbc Hc] IH. eapply reach_closed; eauto.
Qed.

Lemma reach_subset G v w : v ∈ vertices G → w ∈ reach G v → w ∈ vertices G.
Proof. apply iter_reach_subset. Qed.

Lemma reach_NoDup G v : NoDup (vertices G) → NoDup (reach G v).
Proof. apply iter_reach_NoDup. Qed.

Lemma reach_start G v : v ∈ reach G v.
Proof. apply iter_reach_start. Qed.


Lemma path_vertex G u w : u ∈ vertices G → path G u w → w ∈ vertices G.
Proof.
  intros Hu Hp. apply rtc_inv_r in Hp as [<- | (y & _ & _ & Hw)]; done.
Qed.

Lemma path_sym G u w :
  simple_graph G → u ∈ vertices G → path G u w → path G w u.
Proof.
  intros HG Hu. revert w. apply (rtc_ind_r (λ w, path G w u)).
  - apply rtc_refl.
  - intros b c Hub [Hbc Hc] IH. eapply rtc_l; [| apply IH].
    split; [by rewrite (sg_sym _ HG) |]. exact (path_vertex G u b Hu Hub).
Qed.

Lemma reach_sym G v w :
  simple_graph G → v ∈ vertices G → w ∈ reach G v → v ∈ reach G w.
Proof.
  intros HG Hv Hw. pose proof (sg_nodup _ HG) as Hnd.
  assert (w ∈ vertices G) by (by eapply reach_subset).
  apply elem_of_reach; [done .. |]. apply path_sym; [done .. |].
  by apply elem_of_reach.
Qed.

Lemma reach_trans G v w x :
  simple_graph G → v ∈ vertices G → w ∈ reach G v → x ∈ reach G w → x ∈ reach G v.
Proof.
  intros HG Hv Hw Hx. pose proof (sg_nodup _ HG) as Hnd.
  assert (w ∈ vertices G) by (by eapply reach_subset).
  apply elem_of_reach; [done .. |]. etrans; [by apply elem_of_reach |].
  by apply elem_of_reach.
Qed.

(** [todo] is a union of whole components. *)
Definition reach_closed_set G (todo : list V) : Prop :=
  ∀ v w, v ∈ todo → w ∈ reach G v → w ∈ todo.

Lemma components_aux_spec G fuel todo :
  simple_graph G → todo ⊆ vertices G → NoDup todo → reach_closed_set G todo →
  (length todo ≤ fuel)%nat →
  concat (components_aux fuel G todo) ≡ₚ todo ∧
  Forall (λ c, ∃ v, v ∈ todo ∧ c = reach G v) (components_aux fuel G todo).
Proof.
  intros HG. pose proof (sg_nodup _ HG) as Hnd.
  revert todo. induction fuel as [| fuel IH]; intros todo Hsub Hndt Hcl Hlen.
  { destruct todo; [| simpl in Hlen; lia]. simpl. split; [done | constructor]. }
  destruct todo as [| v todo']; [simpl; split; [done | constructor] |].
  set (todo := v :: todo') in *.
  assert (v ∈ todo) as Hvt by (left).
  assert (v ∈ vertices G) as Hv by (by apply Hsub).
  change (components_aux (S fuel) G todo)
    with (reach G v :: components_aux fuel G (filter (λ w, w ∉ reach G v) todo)).
  set (c := reach G v). set (rest := filter (λ w, w ∉ c) todo).
  assert (c ≡ₚ filter (λ w, w ∈ c) todo) as Hc.
  { apply NoDup_Permutation; [by apply reach_NoDup | by apply NoDup_filter |].
    intros x. rewrite list_elem_of_filter. split; [| by intros []].
    intros Hx. split; [done |]. by eapply Hcl. }
  destruct (IH rest) as [IH1 IH2].
  - intros x Hx. apply list_elem_of_filter in Hx as [_ Hx]. by apply Hsub.
  - by apply NoDup_filter.
  - intros a b Ha Hb. apply list_elem_of_filter in Ha as [Hac Ha].
    apply list_elem_of_filter. split; [| by eapply Hcl].
    intros Hbc. apply Hac. unfold c in *.
    eapply reach_trans; [done .. | exact Hbc |].
    eapply reach_sym; [done | by apply Hsub | done].
  - assert (length rest < length todo)%nat; [| simpl in *; lia].
    unfold rest, todo. rewrite filter_cons_False by (intros Hn; apply Hn, reach_start).
    simpl. pose proof (length_filter (λ w, w ∉ c) todo'). lia.
  - split.
    + simpl. rewrite IH1, Hc. apply filter_app_complement.
    + constructor; [by exists v |].
      eapply Forall_impl; [exact IH2 |]. intros x (a & Ha & ->).
      exists a. split; [| done]. by apply list_elem_of_filter in Ha as [_ Ha].
Qed.

Lemma connected_components_spec G :
  simple_graph G →
  concat (connected_components G) ≡ₚ vertices G ∧
  Forall (λ c, ∃ v, v ∈ vertices G ∧ c = reach G v) (connected_components G).
Proof.
  intros HG. apply components_aux_spec; [done | done | by apply sg_nodup | | done].
  intros v w Hv Hw. by eapply reach_subset.
Qed.

End reach_facts.

(** ** Gamma classes as edge classes *)

Section gamma_theory.
Context {V : Type} `{EqDecision V}.
Implicit Types (G : Graph V) (u v w x y a b c : V) (e f : V * V) (C : list (V * V)).

Lemma edge_eqb_true e f : edge_eqb e f = true ↔ e = f ∨ e = (f.2, f.1).
Proof.
  unfold edge_eqb. rewrite orb_true_iff, !bool_decide_eq_true. done.
Qed.

Lemma edge_eqb_refl e : edge_eqb e e = true.
Proof. apply edge_eqb_true. by left. Qed.

Lemma edge_eqb_sym e f : edge_eqb e f = true → edge_eqb f e = true.
Proof.
  rewrite !edge_eqb_true. destruct e, f. simpl. intros [[= -> ->] | [= -> ->]]; auto.
Qed.

Lemma edge_eqb_trans e f g :
  edge_eqb e f = true → edge_eqb f g = true → edge_eqb e g = true.
Proof.
  rewrite !edge_eqb_true. destruct e, f, g. simpl.
  intros [[= -> ->] | [= -> ->]] [[= -> ->] | [= -> ->]]; auto.
Qed.

Lemma edge_eqb_swap u v : edge_eqb (u, v) (v, u) = true.
Proof. apply edge_eqb_true. by right. Qed.

(** [u] and [w] are joined by an edge of the class [C]. *)
Definition cadj C u w : Prop := edge_in (u, w) C = true.

Lemma cadj_iff C u w : cadj C u w ↔ (u, w) ∈ C ∨ (w, u) ∈ C.
Proof.
  unfold cadj, edge_in. rewrite existsb_exists. setoid_rewrite <- list_elem_of_In.
  setoid_rewrite edge_eqb_true. split.
  - intros ([p q] & Hin & [[= -> ->] | [= -> ->]]); auto.
  - intros [Hin | Hin]; eexists; (split; [exact Hin |]); simpl; auto.
Qed.

Lemma cadj_sym C u w : cadj C u w → cadj C w u.
Proof. rewrite !cadj_iff. tauto. Qed.

Lemma elem_of_class_vertices C v : v ∈ class_vertices C ↔ ∃ w, cadj C v w.
Proof.
  unfold class_vertices. rewrite list_elem_of_In, in_flat_map.
  setoid_rewrite <- list_elem_of_In. setoid_rewrite cadj_iff. split.
  - intros ([p q] & Hin & Hv). simpl in Hv.
    rewrite !elem_of_cons, elem_of_nil in Hv.
    destruct Hv as [-> | [-> | []]]; eauto.
  - intros (w & [Hin | Hin]); eexists; (split; [exact Hin |]); simpl;
      rewrite !elem_of_cons; auto.
Qed.

(** One step of the relation between edges: two edges at a common vertex
    whose other ends are not adjacent. *)
Definition gamma_step G e f : Prop :=
  ∃ v x y, edge_eqb e (v, x) = true ∧ edge_eqb f (v, y) = true ∧
           has_edge G v x = true ∧ has_edge G v y = true ∧ has_edge G x y = false.

(** A class of edges: made of edges of [G], connected by steps, and closed
    under steps. *)
Record gclass G C : Prop := {
  gc_edges : ∀ u w, cadj C u w → has_edge G u w = true;
  gc_conn : ∀ e f, e ∈ C → f ∈ C → rtc (gamma_step G) e f;
  gc_closed : ∀ v x y, cadj C v x → has_edge G v y = true → has_edge G x y = false →
              cadj C v y
}.

Lemma cadj_eqb C e u w : e ∈ C → edge_eqb e (u, w) = true → cadj C u w.
Proof.
  intros Hin He. apply cadj_iff. apply edge_eqb_true in He as [-> | ->]; auto.
Qed.

Lemma gclass_step G C e f :
  simple_graph G → gclass G C → edge_in e C = true → gamma_step G e f →
  edge_in f C = true.
Proof.
  intros HG HC He (v & x & y & Hev & Hfv & Hvx & Hvy & Hxy).
  assert (cadj C v y) as Hc.
  { eapply (gc_closed _ _ HC); [| done | done].
    destruct e as [p q]. change (cadj C p q) in He.
    apply edge_eqb_true in Hev as [[= -> ->] | [= -> ->]]; [done | by apply cadj_sym]. }
  destruct f as [p q]. change (cadj C p q).
  apply edge_eqb_true in Hfv as [[= -> ->] | [= -> ->]]; [done | by apply cadj_sym].
Qed.

(** Induction along a class: a symmetric property of pairs that holds on one
    edge of the class and passes from an edge to the edges one step away
    holds on every edge of the class. *)
Lemma gclass_ind G C (P : V → V → Prop) u0 w0 :
  simple_graph G → gclass G C →
  (∀ u w, P u w → P w u) →
  (∀ v x y, cadj C v x → cadj C v y → has_edge G x y = false → P v x → P v y) →
  cadj C u0 w0 → P u0 w0 →
  ∀ u w, cadj C u w → P u w.
Proof.
  intros HG HC Hsym Hstep H0 HP0 u w Huw.
  assert (∀ e f, rtc (gamma_step G) e f → edge_in e C = true → P e.1 e.2 →
                 edge_in f C = true ∧ P f.1 f.2) as Hchain.
  { intros e f Hrtc. induction Hrtc as [e | e g f Hs _ IH]; [done |].
    intros He HPe. apply IH.
    - by eapply gclass_step.
    - destruct Hs as (v & x & y & Hev & Hgv & Hvx & Hvy & Hxy).
      assert (cadj C v x) as Hcx.
      { destruct e as [p q]. change (cadj C p q) in He.
        apply edge_eqb_true in Hev as [[= -> ->] | [= -> ->]]; [done | by apply cadj_sym]. }
      assert (P v x) as HPx.
      { destruct e as [p q]. simpl in HPe.
        apply edge_eqb_true in Hev as [[= -> ->] | [= -> ->]]; [done | by apply Hsym]. }
      assert (P v y) as HPy.
      { eapply Hstep; [exact Hcx | | done | done]. by eapply (gc_closed _ _ HC). }
      destruct g as [p q]. simpl.
      apply edge_eqb_true in Hgv as [[= -> ->] | [= -> ->]]; [done | by apply Hsym]. }
  apply cadj_iff in H0, Huw.
  assert (∃ e0, e0 ∈ C ∧ P e0.1 e0.2) as (e0 & He0 & HPe0).
  { destruct H0; [exists (u0, w0) | exists (w0, u0)]; split; simpl; auto. }
  assert (∃ e1, e1 ∈ C ∧ (P e1.1 e1.2 → P u w)) as (e1 & He1 & HPe1).
  { destruct Huw; [exists (u, w) | exists (w, u)]; split; simpl; auto. }
  apply HPe1. apply (Hchain e0 e1); [by apply (gc_conn _ _ HC) | | done].
  unfold edge_in. apply existsb_exists. exists e0.
  split; [by apply list_elem_of_In | apply edge_eqb_refl].
Qed.

(** The triangle lemma: a vertex adjacent to both ends of an edge of the
    class by edges outside the class is adjacent to every vertex of the
    class, by edges outside the class. *)
Lemma gclass_triangle G C a b c :
  simple_graph G → gclass G C →
  cadj C b c → has_edge G a b = true → has_edge G a c = true →
  ¬ cadj C a b → ¬ cadj C a c →
  ∀ u w, cadj C u w →
    has_edge G a u = true ∧ has_edge G a w = true ∧ ¬ cadj C a u ∧ ¬ cadj C a w.
Proof.
  intros HG HC Hbc Hab Hac Hnb Hnc.
  apply (gclass_ind G C (λ u w, has_edge G a u = true ∧ has_edge G a w = true ∧
                               ¬ cadj C a u ∧ ¬ cadj C a w) b c); try done.
  - tauto.
  - intros v x y Hvx Hvy Hxy (Hav & Hax & Hnv & Hnx).
    assert (has_edge G v y = true) as Hvy' by (by apply (gc_edges _ _ HC)).
    assert (has_edge G a y = true) as Hay.
    { destruct (has_edge G a y) eqn:E; [done |]. exfalso. apply Hnv, cadj_sym.
      eapply (gc_closed _ _ HC); [exact Hvy | by rewrite (sg_sym _ HG) |].
      by rewrite (sg_sym _ HG). }
    repeat split; try done.
    intros Hcy. apply Hnx. eapply (gc_closed _ _ HC); [exact Hcy | done |].
    by rewrite (sg_sym _ HG).
Qed.

Lemma gclass_triangle_span G C a b c :
  simple_graph G → gclass G C →
  cadj C b c → has_edge G a b = true → has_edge G a c = true →
  ¬ cadj C a b → ¬ cadj C a c → a ∉ class_vertices C.
Proof.
  intros HG HC Hbc Hab Hac Hnb Hnc Ha.
  apply elem_of_class_vertices in Ha as [w Haw].
  destruct (gclass_triangle G C a b c HG HC Hbc Hab Hac Hnb Hnc w a (cadj_sym _ _ _ Haw))
    as (_ & Haa & _).
  by rewrite (sg_irrefl _ HG) in Haa.
Qed.

(** A vertex outside the span sees both ends of an edge of the class alike. *)
Lemma gclass_uniform_edge G C p q x :
  simple_graph G → gclass G C → cadj C p q → x ∉ class_vertices C →
  has_edge G p x = has_edge G q x.
Proof.
  intros HG HC Hpq Hx.
  destruct (has_edge G p x) eqn:Ep, (has_edge G q x) eqn:Eq; try done; exfalso; apply Hx.
  - apply elem_of_class_vertices. exists p. apply cadj_sym.
    eapply (gc_closed _ _ HC); [exact Hpq | done | done].
  - apply elem_of_class_vertices. exists q. apply cadj_sym.
    eapply (gc_closed _ _ HC); [apply cadj_sym, Hpq | done | done].
Qed.

(** The span of a class is a module. *)
Lemma gclass_span_module G C x u u' :
  simple_graph G → gclass G C → x ∉ class_vertices C →
  u ∈ class_vertices C → u' ∈ class_vertices C →
  has_edge G u x = has_edge G u' x.
Proof.
  intros HG HC Hx Hu Hu'.
  apply elem_of_class_vertices in Hu as [w Huw], Hu' as [w' Huw'].
  assert (∀ p q, cadj C p q →
    has_edge G p x = has_edge G u x ∧ has_edge G q x = has_edge G u x) as Hall.
  { apply (gclass_ind G C (λ p q, has_edge G p x = has_edge G u x ∧
                                  has_edge G q x = has_edge G u x) u w); try done.
    - tauto.
    - intros v z y Hvz Hvy _ [Hv _]. split; [done |].
      rewrite <- Hv. symmetry. by eapply gclass_uniform_edge.
    - split; [done |]. symmetry. by eapply gclass_uniform_edge. }
  symmetry. by apply (Hall u' w').
Qed.


Lemma cadj_dec C u w : {cadj C u w} + {¬ cadj C u w}.
Proof. unfold cadj. destruct (edge_in (u, w) C); [by left | by right]. Qed.

(** Two classes that share an edge have the same edges. *)
Lemma gclass_share G C1 C2 u0 w0 :
  simple_graph G → gclass G C1 → gclass G C2 →
  cadj C1 u0 w0 → cadj C2 u0 w0 → ∀ u w, cadj C1 u w → cadj C2 u w.
Proof.
  intros HG H1 H2 Hc1 Hc2.
  apply (gclass_ind G C1 (λ u w, cadj C2 u w) u0 w0); try done.
  - apply cadj_sym.
  - intros v x y _ Hvy Hxy Hvx.
    eapply (gc_closed _ _ H2); [exact Hvx | by apply (gc_edges _ _ H1) | done].
Qed.

(** Two classes with the same span share an edge. *)
Lemma gclass_same_span G C1 C2 v u :
  simple_graph G → gclass G C1 → gclass G C2 → cadj C1 v u →
  (∀ z, z ∈ class_vertices C1 ↔ z ∈ class_vertices C2) →
  ∃ p q, cadj C1 p q ∧ cadj C2 p q.
Proof.
  intros HG H1 H2 Hvu Hspan.
  assert (v ∈ class_vertices C2) as Hv.
  { apply Hspan, elem_of_class_vertices. eauto. }
  apply elem_of_class_vertices in Hv as [x Hvx].
  destruct (cadj_dec C2 v u) as [| Hn2]; [by eauto |].
  destruct (cadj_dec C1 v x) as [| Hn1]; [by eauto |].
  assert (has_edge G v u = true) as Evu by (by apply (gc_edges _ _ H1)).
  assert (has_edge G v x = true) as Evx by (by apply (gc_edges _ _ H2)).
  assert (has_edge G x u = true) as Exu.
  { destruct (has_edge G x u) eqn:E; [done |]. exfalso. apply Hn2.
    eapply (gc_closed _ _ H2); [exact Hvx | done | done]. }
  assert (has_edge G u x = true) as Eux by (by rewrite (sg_sym _ HG)).
  assert (has_edge G x v = true) as Exv by (by rewrite (sg_sym _ HG)).
  assert (has_edge G u v = true) as Euv by (by rewrite (sg_sym _ HG)).
  destruct (cadj_dec C1 u x) as [H1ux | H1ux].
  - destruct (cadj_dec C2 u x) as [| H2ux]; [by eauto |].
    exfalso. assert (u ∉ class_vertices C2) as Hu.
    { eapply (gclass_triangle_span G C2 u v x); try done.
      intros Hc. by apply Hn2, cadj_sym. }
    apply Hu, Hspan, elem_of_class_vertices. exists v. by apply cadj_sym.
  - exfalso. assert (x ∉ class_vertices C1) as Hx.
    { eapply (gclass_triangle_span G C1 x v u); try done.
      - intros Hc. by apply Hn1, cadj_sym.
      - intros Hc. by apply H1ux, cadj_sym. }
    apply Hx, Hspan, elem_of_class_vertices. exists v. by apply cadj_sym.
Qed.

(** Vertices with the same neighbours along the class. *)
Definition same_nbrs C u u' : Prop := ∀ w, cadj C u w ↔ cadj C u' w.

Lemma gclass_bucket_aux G C u u' x :
  simple_graph G → gclass G C → u ∈ class_vertices C → same_nbrs C u u' →
  has_edge G u x = true → has_edge G u' x = false → same_nbrs C x u.
Proof.
  intros HG HC Hu Hs Hux Hu'x.
  assert (¬ cadj C u x) as Hn.
  { intros Hc. apply Hs in Hc. apply (gc_edges _ _ HC) in Hc. congruence. }
  assert (has_edge G x u = true) as Hxu by (by rewrite (sg_sym _ HG)).
  intros z. split.
  - intros Hxz. destruct (cadj_dec C u z) as [| Hnz]; [done | exfalso].
    assert (has_edge G u z = true) as Huz.
    { rewrite (sg_sym _ HG). destruct (has_edge G z u) eqn:E; [done |]. exfalso.
      apply Hn, cadj_sym. eapply (gc_closed _ _ HC); [exact Hxz | done | done]. }
    by apply (gclass_triangle_span G C u x z HG HC).
  - intros Huz.
    assert (has_edge G z x = true) as Hzx.
    { destruct (has_edge G z x) eqn:E; [done |]. exfalso. apply Hn.
      eapply (gc_closed _ _ HC); [exact Huz | done | done]. }
    apply cadj_sym. eapply (gc_closed _ _ HC); [| exact Hzx | exact Hu'x].
    apply cadj_sym. by apply Hs.
Qed.

(** The vertices that have the same neighbours along a class form a set
    that every other vertex of the span sees alike. *)
Lemma gclass_bucket_module G C u u' x :
  simple_graph G → gclass G C → u ∈ class_vertices C → same_nbrs C u u' →
  ¬ same_nbrs C x u → has_edge G u x = has_edge G u' x.
Proof.
  intros HG HC Hu Hs Hx.
  assert (u' ∈ class_vertices C) as Hu'.
  { apply elem_of_class_vertices in Hu as [w Hw]. apply elem_of_class_vertices.
    exists w. by apply Hs. }
  destruct (has_edge G u x) eqn:E1, (has_edge G u' x) eqn:E2; try done; exfalso; apply Hx.
  - by apply (gclass_bucket_aux G C u u' x).
  - assert (same_nbrs C x u') as Hx'.
    { apply (gclass_bucket_aux G C u' u x HG HC Hu'); [| done | done].
      intros w. symmetry. apply Hs. }
    intros w. rewrite (Hx' w). symmetry. apply Hs.
Qed.

(** A set of vertices that every outside vertex sees alike. *)
Definition module G (M : list V) : Prop :=
  ∀ x u u', x ∈ vertices G → x ∉ M → u ∈ M → u' ∈ M →
            has_edge G u x = has_edge G u' x.

(** [H] is the subgraph of [A] induced by its own vertices. *)
Definition induced (A H : Graph V) : Prop :=
  (∀ v, v ∈ vertices H → v ∈ vertices A) ∧
  (∀ u v, u ∈ vertices H → v ∈ vertices H → has_edge H u v = has_edge A u v).

Lemma gclass_inside G C M u0 w0 :
  simple_graph G → gclass G C → module G M →
  cadj C u0 w0 → u0 ∈ M → w0 ∈ M → ∀ u w, cadj C u w → u ∈ M ∧ w ∈ M.
Proof.
  intros HG HC HM H0 Hu0 Hw0.
  apply (gclass_ind G C (λ u w, u ∈ M ∧ w ∈ M) u0 w0); try done.
  - tauto.
  - intros v x y Hvx Hvy Hxy [Hv Hx]. split; [done |].
    destruct (decide (y ∈ M)) as [| Hy]; [done | exfalso].
    assert (has_edge G v y = true) as E by (by apply (gc_edges _ _ HC)).
    assert (y ∈ vertices G) as Hyv by (by apply (sg_closed _ HG) in E as []).
    pose proof (HM y v x Hyv Hy Hv Hx). congruence.
Qed.

(** A class of [A] with an edge inside the module [vertices H] is a class of
    the induced subgraph [H]. *)
Lemma gclass_restrict A H C u0 w0 :
  simple_graph A → simple_graph H → induced A H → module A (vertices H) →
  gclass A C → cadj C u0 w0 → u0 ∈ vertices H → w0 ∈ vertices H →
  gclass H C.
Proof.
  intros HA HH [Hsub Hedge] HM HC H0 Hu0 Hw0.
  pose proof (gclass_inside A C (vertices H) u0 w0 HA HC HM H0 Hu0 Hw0) as Hin.
  split.
  - intros u w Huw. destruct (Hin u w Huw). rewrite Hedge by done.
    by apply (gc_edges _ _ HC).
  - intros e f He Hf.
    assert (∀ e f, rtc (gamma_step A) e f → edge_in e C = true →
                   rtc (gamma_step H) e f) as Hchain.
    { clear e f He Hf. intros e f Hrtc.
      induction Hrtc as [e | e g f Hs _ IH]; [intros; apply rtc_refl |].
      intros He.
      assert (edge_in g C = true) as Hg by (exact (gclass_step A C e g HA HC He Hs)).
      eapply rtc_l; [| by apply IH].
      destruct Hs as (v & x & y & Hev & Hgv & Hvx & Hvy & Hxy).
      assert (cadj C v x) as Hcx.
      { destruct e as [p q]. change (cadj C p q) in He.
        apply edge_eqb_true in Hev as [[= -> ->] | [= -> ->]]; [done | by apply cadj_sym]. }
      assert (cadj C v y) as Hcy.
      { destruct g as [p q]. change (cadj C p q) in Hg.
        apply edge_eqb_true in Hgv as [[= -> ->] | [= -> ->]]; [done | by apply cadj_sym]. }
      destruct (Hin v x Hcx), (Hin v y Hcy).
      exists v, x, y. rewrite !Hedge by done. done. }
    apply Hchain; [by apply (gc_conn _ _ HC) |].
    unfold edge_in. apply existsb_exists. exists e.
    split; [by apply list_elem_of_In | apply edge_eqb_refl].
  - intros v x y Hvx Hvy Hxy. destruct (Hin v x Hvx) as [Hv Hx].
    assert (y ∈ vertices H) as Hy by (by apply (sg_closed _ HH) in Hvy as []).
    rewrite Hedge in Hvy, Hxy by done.
    by eapply (gc_closed _ _ HC).
Qed.

End gamma_theory.

(** ** Derived graphs *)

Section derived_graphs.
Context {V : Type} `{EqDecision V}.
Implicit Types (G : Graph V) (u v w x y a b c : V) (e f : V * V).

Lemma mem_true v (l : list V) : mem v l = true ↔ v ∈ l.
Proof. unfold mem. apply bool_decide_eq_true. Qed.

Lemma elem_of_neighbors G v w :
  w ∈ neighbors G v ↔ has_edge G v w = true ∧ w ∈ vertices G.
Proof. unfold neighbors. by rewrite list_elem_of_filter. Qed.

Lemma vertices_subgraph G vs v : v ∈ vertices (subgraph G vs) ↔ v ∈ vs ∧ v ∈ vertices G.
Proof. simpl. by rewrite list_elem_of_filter. Qed.

Lemma has_edge_subgraph G vs u v :
  has_edge (subgraph G vs) u v = true ↔ u ∈ vs ∧ v ∈ vs ∧ has_edge G u v = true.
Proof. simpl. rewrite !andb_true_iff, !mem_true. tauto. Qed.

Lemma simple_subgraph G vs : simple_graph G → simple_graph (subgraph G vs).
Proof.
  intros HG. split.
  - apply (sg_undirected _ HG).
  - simpl. apply NoDup_filter, (sg_nodup _ HG).
  - intros u v. simpl. rewrite (sg_sym _ HG u v).
    destruct (mem u vs), (mem v vs); done.
  - intros u. simpl. rewrite (sg_irrefl _ HG). by rewrite andb_false_r.
  - intros u v Huv. apply has_edge_subgraph in Huv as (Hu & Hv & Huv).
    apply (sg_closed _ HG) in Huv as [? ?]. rewrite !vertices_subgraph. done.
Qed.

Lemma has_edge_complement G u v :
  has_edge (complement G) u v = true ↔
  u ∈ vertices G ∧ v ∈ vertices G ∧ u ≠ v ∧ has_edge G u v = false.
Proof.
  simpl. rewrite !andb_true_iff, !mem_true, !negb_true_iff, bool_decide_eq_false. tauto.
Qed.

Lemma simple_complement G : simple_graph G → simple_graph (complement G).
Proof.
  intros HG. split.
  - apply (sg_undirected _ HG).
  - apply (sg_nodup _ HG).
  - intros u v. apply eq_true_iff_eq. rewrite !has_edge_complement.
    rewrite (sg_sym _ HG v u). split; intros (? & ? & ? & ?); auto.
  - intros u. apply not_true_iff_false. rewrite has_edge_complement.
    intros (_ & _ & Hne & _). by apply Hne.
  - intros u v Huv. apply has_edge_complement in Huv. simpl. tauto.
Qed.

Lemma has_edge_subgraph_edges G es u v :
  has_edge (subgraph_edges G es) u v = true ↔
  has_edge G u v = true ∧ edge_in (u, v) es = true.
Proof.
  simpl. rewrite andb_true_iff, orb_true_iff, !bool_decide_eq_true.
  change (edge_in (u, v) es = true) with (cadj es u v). rewrite cadj_iff. tauto.
Qed.

Lemma simple_subgraph_edges G es : simple_graph G → simple_graph (subgraph_edges G es).
Proof.
  intros HG. split.
  - apply (sg_undirected _ HG).
  - apply (sg_nodup _ HG).
  - intros u v. apply eq_true_iff_eq. rewrite !has_edge_subgraph_edges.
    rewrite (sg_sym _ HG v u).
    change (edge_in (u, v) es = true) with (cadj es u v).
    change (edge_in (v, u) es = true) with (cadj es v u).
    split; intros [? ?]; (split; [done | by apply cadj_sym]).
  - intros u. apply not_true_iff_false. rewrite has_edge_subgraph_edges.
    rewrite (sg_irrefl _ HG). by intros [? _].
  - intros u v Huv. apply has_edge_subgraph_edges in Huv as [Huv _].
    by apply (sg_closed _ HG).
Qed.

(** *** The list of edges *)

Lemma elem_of_edges_from G (vs : list V) a u v :
  (u, v) ∈ edges_from G (a :: vs) ↔
  (u = a ∧ v ∈ vs ∧ has_edge G a v = true) ∨ (u, v) ∈ edges_from G vs.
Proof.
  simpl. rewrite elem_of_app, list_elem_of_fmap.
  setoid_rewrite list_elem_of_filter. split.
  - intros [(y & [= -> ->] & Hy & Hin) | ?]; auto.
  - intros [(-> & Hin & Hv) | ?]; [left; exists v | right]; auto.
Qed.

Lemma edges_from_inv G (vs : list V) u v :
  (u, v) ∈ edges_from G vs → u ∈ vs ∧ v ∈ vs ∧ has_edge G u v = true.
Proof.
  induction vs as [| a vs IH]; [by intros ?%elem_of_nil |].
  rewrite elem_of_edges_from. intros [(-> & Hin & Hv) | Hin].
  - rewrite !elem_of_cons. auto.
  - destruct (IH Hin) as (? & ? & ?). rewrite !elem_of_cons. auto.
Qed.

Lemma edges_from_NoDup G (vs : list V) : NoDup vs → NoDup (edges_from G vs).
Proof.
  induction 1 as [| a vs Ha Hnd IH]; [constructor |].
  simpl. apply NoDup_app. split; [| split; [| done]].
  - apply NoDup_fmap_2; [intros x y [= ->]; done |]. by apply NoDup_filter.
  - intros [u v] Hin Hin'. apply list_elem_of_fmap in Hin as (y & [= -> ->] & _).
    apply edges_from_inv in Hin' as (? & _). done.
Qed.

Lemma edges_from_flip G (vs : list V) u v :
  NoDup vs → (u, v) ∈ edges_from G vs → (v, u) ∉ edges_from G vs.
Proof.
  induction 1 as [| a vs Ha Hnd IH]; [by intros ?%elem_of_nil |].
  rewrite !elem_of_edges_from. intros [(-> & Hin & Hv) | Hin] [(-> & Hin' & Hv') | Hin'].
  - done.
  - apply edges_from_inv in Hin' as (_ & ? & _). done.
  - apply edges_from_inv in Hin as (_ & ? & _). done.
  - by apply IH in Hin.
Qed.

Lemma edges_from_complete G (vs : list V) u v :
  (∀ x y, has_edge G x y = has_edge G y x) →
  u ∈ vs → v ∈ vs → u ≠ v → has_edge G u v = true →
  (u, v) ∈ edges_from G vs ∨ (v, u) ∈ edges_from G vs.
Proof.
  intros Hsym. induction vs as [| a vs IH]; [by intros ?%elem_of_nil |].
  rewrite !elem_of_cons, !elem_of_edges_from.
  intros [-> | Hu] [-> | Hv] Hne Huv; try done.
  - auto.
  - right. left. rewrite Hsym. auto.
  - destruct (IH Hu Hv Hne Huv); auto.
Qed.

Lemma edge_list_inv G u v :
  (u, v) ∈ edge_list G → u ∈ vertices G ∧ v ∈ vertices G ∧ has_edge G u v = true.
Proof. apply edges_from_inv. Qed.

Lemma edge_list_complete G u v :
  simple_graph G → has_edge G u v = true → cadj (edge_list G) u v.
Proof.
  intros HG Huv. apply cadj_iff.
  destruct (sg_closed _ HG _ _ Huv) as [Hu Hv].
  apply edges_from_complete; try done; [apply (sg_sym _ HG) |].
  intros ->. by rewrite (sg_irrefl _ HG) in Huv.
Qed.

(** No edge is listed twice, in either direction. *)
Lemma edge_list_uniq G e f :
  simple_graph G → e ∈ edge_list G → f ∈ edge_list G → edge_eqb e f = true → e = f.
Proof.
  intros HG He Hf Heq. apply edge_eqb_true in Heq as [-> | ->]; [done |].
  destruct f as [u v]. simpl in He.
  by apply edges_from_flip in Hf; [| apply (sg_nodup _ HG)].
Qed.

End derived_graphs.

(** ** The union-find of [gamma_classes] *)

Section ds_facts.
Context {V : Type} `{EqDecision V}.
Implicit Types (G : Graph V) (u v w x y a b c : V) (e f : V * V)
  (ds : list ((V * V) * nat)).

Lemma gamma_step_sym G e f : simple_graph G → gamma_step G e f → gamma_step G f e.
Proof.
  intros HG (v & x & y & He & Hf & Hx & Hy & Hxy).
  exists v, y, x. rewrite (sg_sym _ HG y x). done.
Qed.

Lemma rtc_gamma_sym G e f :
  simple_graph G → rtc (gamma_step G) e f → rtc (gamma_step G) f e.
Proof.
  intros HG. revert f. apply (rtc_ind_r (λ f, rtc (gamma_step G) f e)).
  - apply rtc_refl.
  - intros g f _ Hs IH. eapply rtc_l; [by apply gamma_step_sym | done].
Qed.

(** An edge is one step away from itself, however its ends are ordered. *)
Lemma gamma_step_eqb G e e' :
  simple_graph G → has_edge G e.1 e.2 = true → edge_eqb e e' = true → gamma_step G e e'.
Proof.
  intros HG He Heq. exists e.1, e.2, e.2. destruct e as [p q]. simpl in *.
  rewrite edge_eqb_refl, (sg_irrefl _ HG). repeat split; try done.
  by apply edge_eqb_sym.
Qed.

Lemma edge_eqb_compat e e' f :
  edge_eqb e e' = true → edge_eqb e f = edge_eqb e' f.
Proof.
  intros Heq. apply eq_true_iff_eq. split; intros Hf.
  - eapply edge_eqb_trans; [by apply edge_eqb_sym | done].
  - by eapply edge_eqb_trans.
Qed.

Lemma ds_find_Some ds e i :
  ds_find e ds = Some i → ∃ p, p ∈ ds ∧ edge_eqb e p.1 = true ∧ p.2 = i.
Proof.
  unfold ds_find. destruct (List.find _ ds) as [p |] eqn:E; [| done].
  intros [= <-]. apply find_some in E as [Hin Heq]. exists p.
  split; [by apply list_elem_of_In | done].
Qed.

Lemma ds_find_is_Some ds e p :
  p ∈ ds → edge_eqb e p.1 = true → is_Some (ds_find e ds).
Proof.
  intros Hin Heq. unfold ds_find.
  destruct (List.find _ ds) as [q |] eqn:E; [by eexists |].
  apply list_elem_of_In in Hin. pose proof (find_none _ _ E p Hin) as Hn.
  simpl in Hn. congruence.
Qed.

Lemma ds_find_eqb ds e e' : edge_eqb e e' = true → ds_find e ds = ds_find e' ds.
Proof.
  intros Heq. unfold ds_find. f_equal.
  induction ds as [| p ds IH]; [done |]. simpl.
  rewrite (edge_eqb_compat e e' p.1 Heq). by rewrite IH.
Qed.

Lemma ds_find_relabel ds e (h : nat → nat) :
  ds_find e (map (λ p, (p.1, h p.2)) ds) = h <$> ds_find e ds.
Proof.
  unfold ds_find. induction ds as [| p ds IH]; [done |]. simpl.
  destruct (edge_eqb e p.1); [done | apply IH].
Qed.

(** No edge occurs twice in the structure, in either direction. *)
Definition ds_uniq ds : Prop :=
  ∀ p q, p ∈ ds → q ∈ ds → edge_eqb p.1 q.1 = true → p = q.

Lemma ds_find_elem ds e p :
  ds_uniq ds → p ∈ ds → edge_eqb e p.1 = true → ds_find e ds = Some p.2.
Proof.
  intros Hu Hin Heq. destruct (ds_find_is_Some ds e p Hin Heq) as [i Hi].
  rewrite Hi. apply ds_find_Some in Hi as (q & Hq & Heq' & <-).
  f_equal. f_equal. apply Hu; [done | done |].
  eapply edge_eqb_trans; [apply edge_eqb_sym, Heq' | done].
Qed.

(** Two edges are in the same set. *)
Definition same_id ds e f : Prop :=
  ∃ i, ds_find e ds = Some i ∧ ds_find f ds = Some i.

Lemma same_id_sym ds e f : same_id ds e f → same_id ds f e.
Proof. intros (i & ? & ?). by exists i. Qed.

Lemma same_id_trans ds e f g : same_id ds e f → same_id ds f g → same_id ds e g.
Proof. intros (i & ? & ?) (j & ? & ?). exists i. split; [done | congruence]. Qed.

Lemma same_id_relabel ds e f (h : nat → nat) :
  same_id ds e f → same_id (map (λ p, (p.1, h p.2)) ds) e f.
Proof.
  intros (i & He & Hf). exists (h i). rewrite !ds_find_relabel, He, Hf. done.
Qed.

Lemma map_relabel_id ds : ds = map (λ p, (p.1, id p.2)) ds.
Proof. induction ds as [| [e i] ds IH]; simpl; [done | by f_equal]. Qed.

Definition ds_merge (i j k : nat) : nat := if bool_decide (k = j) then i else k.

Lemma ds_union_Some ds e f i j :
  ds_find e ds = Some i → ds_find f ds = Some j →
  ds_union e f ds = map (λ p, (p.1, ds_merge i j p.2)) ds.
Proof. intros Hi Hj. unfold ds_union. by rewrite Hi, Hj. Qed.

Lemma ds_union_relabel ds e f :
  ∃ h : nat → nat, ds_union e f ds = map (λ p, (p.1, h p.2)) ds.
Proof.
  destruct (ds_find e ds) as [i |] eqn:Hi; [| exists id; unfold ds_union; rewrite Hi; apply map_relabel_id].
  destruct (ds_find f ds) as [j |] eqn:Hj; [| exists id; unfold ds_union; rewrite Hi, Hj; apply map_relabel_id].
  exists (ds_merge i j). by apply ds_union_Some.
Qed.

Lemma same_id_union_mono ds e f e1 e2 :
  same_id ds e1 e2 → same_id (ds_union e f ds) e1 e2.
Proof.
  intros Hab. destruct (ds_union_relabel ds e f) as [h ->]. by apply same_id_relabel.
Qed.

Lemma same_id_union ds e f :
  is_Some (ds_find e ds) → is_Some (ds_find f ds) → same_id (ds_union e f ds) e f.
Proof.
  intros [i Hi] [j Hj]. rewrite (ds_union_Some ds e f i j Hi Hj).
  exists i. rewrite !ds_find_relabel, Hi, Hj. simpl. unfold ds_merge.
  split; f_equal; by repeat case_bool_decide.
Qed.

(** The structure holds the edges of [G], and edges of one set are linked
    by steps. *)
Record ds_inv G ds : Prop := {
  ds_edges : map fst ds = edge_list G;
  ds_sound : ∀ p q, p ∈ ds → q ∈ ds → p.2 = q.2 → rtc (gamma_step G) p.1 q.1
}.

Lemma NoDup_fst_inj {A B} (l : list (A * B)) p q :
  NoDup (map fst l) → p ∈ l → q ∈ l → p.1 = q.1 → p = q.
Proof.
  induction l as [| r l IH]; [by intros _ ?%elem_of_nil |].
  simpl. rewrite NoDup_cons, !elem_of_cons. intros [Hr Hnd] [-> | Hp] [-> | Hq] Heq.
  - done.
  - exfalso. apply Hr. rewrite Heq. by apply list_elem_of_fmap_2.
  - exfalso. apply Hr. rewrite <- Heq. by apply list_elem_of_fmap_2.
  - by apply IH.
Qed.

Lemma ds_inv_uniq G ds : simple_graph G → ds_inv G ds → ds_uniq ds.
Proof.
  intros HG [Hed _] p q Hp Hq Heq.
  assert (p.1 ∈ edge_list G) by (rewrite <- Hed; by apply list_elem_of_fmap_2).
  assert (q.1 ∈ edge_list G) by (rewrite <- Hed; by apply list_elem_of_fmap_2).
  apply (NoDup_fst_inj ds); [| done | done |].
  - rewrite Hed. apply edges_from_NoDup, (sg_nodup _ HG).
  - by apply (edge_list_uniq G).
Qed.

Lemma ds_inv_edge G ds p :
  ds_inv G ds → p ∈ ds → has_edge G p.1.1 p.1.2 = true.
Proof.
  intros [Hed _] Hp.
  assert (p.1 ∈ edge_list G) as Hin by (rewrite <- Hed; by apply list_elem_of_fmap_2).
  destruct p as [[u w] i]. by apply edge_list_inv in Hin as (_ & _ & ?).
Qed.

Lemma ds_find_edge G ds u w :
  simple_graph G → ds_inv G ds → has_edge G u w = true → is_Some (ds_find (u, w) ds).
Proof.
  intros HG Hinv Huw. pose proof (edge_list_complete G u w HG Huw) as Hc.
  unfold cadj, edge_in in Hc. apply existsb_exists in Hc as (e & Hin & Heq).
  apply list_elem_of_In in Hin. rewrite <- (ds_edges _ _ Hinv) in Hin.
  apply list_elem_of_fmap in Hin as (p & -> & Hp).
  by eapply ds_find_is_Some.
Qed.

Lemma ds_union_inv G ds e f :
  simple_graph G → ds_inv G ds → rtc (gamma_step G) e f → ds_inv G (ds_union e f ds).
Proof.
  intros HG Hinv Hef. unfold ds_union.
  destruct (ds_find e ds) as [i |] eqn:Hi; [| done].
  destruct (ds_find f ds) as [j |] eqn:Hj; [| done].
  apply ds_find_Some in Hi as (pe & Hpe & Heqe & <-).
  apply ds_find_Some in Hj as (pf & Hpf & Heqf & <-).
  assert (rtc (gamma_step G) pe.1 pf.1) as Hlink.
  { eapply rtc_l; [apply gamma_step_eqb; [done | by eapply ds_inv_edge |
                   by apply edge_eqb_sym] |].
    etrans; [exact Hef |]. apply rtc_once, gamma_step_sym; [done |].
    apply gamma_step_eqb; [done | by eapply ds_inv_edge | by apply edge_eqb_sym]. }
  split.
  - rewrite <- (ds_edges _ _ Hinv). rewrite map_map. done.
  - intros p' q' Hp' Hq' Heq.
    apply list_elem_of_fmap in Hp' as (p & -> & Hp), Hq' as (q & -> & Hq).
    simpl in *. pose proof (ds_sound _ _ Hinv) as Hs.
    repeat case_bool_decide.
    + apply Hs; [done | done | congruence].
    + etrans; [apply (Hs p pf); done |].
      etrans; [by apply rtc_gamma_sym |]. by apply Hs.
    + etrans; [apply (Hs p pe); done |].
      etrans; [exact Hlink |]. apply Hs; [done | done | congruence].
    + by apply Hs.
Qed.


Lemma elem_of_zip_seq (es : list (V * V)) k p :
  p ∈ zip es (seq k (length es)) → ∃ i, es !! i = Some p.1 ∧ p.2 = (k + i)%nat.
Proof.
  revert k. induction es as [| e es IH]; intros k; simpl; [by intros ?%elem_of_nil |].
  rewrite elem_of_cons. intros [-> | Hin].
  - exists 0%nat. simpl. split; [done | lia].
  - apply IH in Hin as (i & Hi & ->). exists (S i). simpl. split; [done | lia].
Qed.

Lemma ds_init_inv G : ds_inv G (ds_init (edge_list G)).
Proof.
  split.
  - unfold ds_init. apply (fst_zip (edge_list G)). by rewrite length_seq.
  - intros p q Hp Hq Heq. unfold ds_init in *.
    apply elem_of_zip_seq in Hp as (i & Hi & Hpi), Hq as (j & Hj & Hqj).
    assert (i = j) as -> by lia. rewrite Hi in Hj. injection Hj as ->. apply rtc_refl.
Qed.

Lemma elem_of_concat {T} (t : T) (ls : list (list T)) :
  t ∈ concat ls ↔ ∃ l, t ∈ l ∧ l ∈ ls.
Proof.
  induction ls as [| l0 ls IH]; simpl.
  - rewrite elem_of_nil. split; [done | by intros (l & _ & ?%elem_of_nil)].
  - rewrite elem_of_app, IH. split.
    + intros [Hl | (l & Hl & Hin)]; [exists l0; split; [done | by left] |].
      exists l. split; [done | by right].
    + intros (l & Hl & [-> | Hin]%elem_of_cons); [by left | right; by exists l].
Qed.

Lemma foldl_inv {S T} (step : S → T → S) (I : S → Prop) (Q : T → S → Prop)
    (l : list T) (s0 : S) :
  I s0 →
  (∀ s t, t ∈ l → I s → I (step s t) ∧ Q t (step s t)) →
  (∀ s t t', t' ∈ l → I s → Q t s → Q t (step s t')) →
  I (foldl step s0 l) ∧ ∀ t, t ∈ l → Q t (foldl step s0 l).
Proof.
  intros Ha. induction l as [| t l IH] using rev_ind; intros Hstep Hkeep.
  - split; [done | by intros t ?%elem_of_nil].
  - rewrite foldl_app. simpl.
    destruct IH as [HI HQ].
    { intros s' t' Ht'. apply Hstep, elem_of_app. by left. }
    { intros s' t1 t2 Ht2. apply Hkeep, elem_of_app. by left. }
    destruct (Hstep (foldl step s0 l) t) as [HI' HQ']; [apply elem_of_app; right; by left | done |].
    split; [done |]. intros t' [Ht' | Ht']%elem_of_app.
    + apply Hkeep; [apply elem_of_app; right; by left | done | by apply HQ].
    + apply list_elem_of_singleton in Ht' as ->. done.
Qed.

Lemma reach_head G v : ∃ l, reach G v = v :: l.
Proof.
  unfold reach. induction (order G) as [| n [l IH]]; simpl; [by eexists |].
  rewrite IH. unfold reach_step. simpl. by eexists.
Qed.

(** A path through the non-edges among the neighbours of [v] links the
    corresponding edges at [v]. *)
Lemma co_path_gamma G v r x :
  simple_graph G →
  path (complement (subgraph G (neighbors G v))) r x →
  rtc (gamma_step G) (r, v) (x, v).
Proof.
  intros HG. revert x. apply (rtc_ind_r (λ x, rtc (gamma_step G) (r, v) (x, v))).
  - apply rtc_refl.
  - intros b c _ [Hbc _] IH. eapply rtc_r; [exact IH |].
    apply has_edge_complement in Hbc as (Hb & Hc & Hne & Hnon).
    apply vertices_subgraph in Hb as [Hb _], Hc as [Hc _].
    pose proof Hb as Hb'. pose proof Hc as Hc'.
    apply elem_of_neighbors in Hb' as [Hvb _], Hc' as [Hvc _].
    exists v, b, c. rewrite !edge_eqb_swap. repeat split; try done.
    destruct (has_edge G b c) eqn:E; [| done].
    rewrite <- Hnon. symmetry. by apply has_edge_subgraph.
Qed.

Definition ds_mono ds ds' : Prop := ∀ e1 e2, same_id ds e1 e2 → same_id ds' e1 e2.

Lemma ds_union_fold G ds v r (rest : list V) :
  simple_graph G → ds_inv G ds → has_edge G r v = true →
  (∀ x, x ∈ rest → has_edge G x v = true ∧ rtc (gamma_step G) (r, v) (x, v)) →
  let ds' := foldl (λ pieces vi, ds_union (r, v) (vi, v) pieces) ds rest in
  (ds_inv G ds' ∧ ds_mono ds ds') ∧ ∀ x, x ∈ rest → same_id ds' (r, v) (x, v).
Proof.
  intros HG Hinv Hr Hrest. simpl.
  apply (foldl_inv _ (λ d, ds_inv G d ∧ ds_mono ds d) (λ x d, same_id d (r, v) (x, v))).
  - split; [done | by intros ??].
  - intros d x Hx [Hd Hm]. destruct (Hrest x Hx) as [Hxv Hlink]. split; [split |].
    + by apply ds_union_inv.
    + intros e1 e2 H12. by apply same_id_union_mono, Hm.
    + apply same_id_union; by eapply ds_find_edge.
  - intros d x x' _ _ Hq. by apply same_id_union_mono.
Qed.

Definition done_at G ds v : Prop :=
  ∀ x y, has_edge G v x = true → has_edge G v y = true → has_edge G x y = false →
         same_id ds (x, v) (y, v).

Lemma gamma_unions_at_spec G ds v :
  simple_graph G → ds_inv G ds →
  ds_inv G (gamma_unions_at G v ds) ∧ ds_mono ds (gamma_unions_at G v ds) ∧
  done_at G (gamma_unions_at G v ds) v.
Proof.
  intros HG Hinv. unfold gamma_unions_at.
  set (G' := complement (subgraph G (neighbors G v))).
  assert (simple_graph G') as HG' by by apply simple_complement, simple_subgraph.
  destruct (connected_components_spec G' HG') as [Hperm Hall].
  rewrite Forall_forall in Hall.
  assert (∀ x, x ∈ vertices G' → has_edge G x v = true) as Hnb.
  { intros x Hx. apply vertices_subgraph in Hx as [Hx _].
    apply elem_of_neighbors in Hx as [Hx _]. by rewrite (sg_sym _ HG). }
  match goal with |- ds_inv G (foldl ?f _ _) ∧ _ => set (step := f) end.
  destruct (foldl_inv step (λ d, ds_inv G d ∧ ds_mono ds d)
              (λ cc d, ∀ x, x ∈ cc → ∀ y, y ∈ cc → same_id d (x, v) (y, v))
              (connected_components G') ds) as [[HI Hm] HQ].
  - split; [done | by intros ??].
  - intros d cc Hc [Hd Hm]. destruct (Hall cc Hc) as (r0 & Hr0 & ->).
    destruct (reach_head G' r0) as [rest Hrest]. unfold step. rewrite Hrest.
    destruct (ds_union_fold G d v r0 rest HG Hd (Hnb r0 Hr0)) as [[Hd' Hm'] Hsame].
    { intros x Hx. assert (x ∈ reach G' r0) as Hx' by (rewrite Hrest; by right).
      split; [by eapply Hnb, reach_subset |].
      apply co_path_gamma; [done |]. by apply elem_of_reach; [apply (sg_nodup _ HG') | |]. }
    split; [split; [done | intros e1 e2 H12; by apply Hm', Hm] |].
    assert (∀ x, x ∈ r0 :: rest →
      same_id (foldl (λ pieces vi, ds_union (r0, v) (vi, v) pieces) d rest) (r0, v) (x, v))
      as Hall'.
    { intros x [-> | Hx]%elem_of_cons; [| by apply Hsame].
      destruct (ds_find_edge G _ r0 v HG Hd' (Hnb r0 Hr0)) as [i Hi]. by exists i. }
    intros x Hx y Hy. eapply same_id_trans; [apply same_id_sym |]; by apply Hall'.
  - intros d cc cc' Hc' [Hd Hm] Hq x Hx y Hy. destruct (Hall cc' Hc') as (r0 & Hr0 & ->).
    destruct (reach_head G' r0) as [rest Hrest]. unfold step. rewrite Hrest.
    destruct (ds_union_fold G d v r0 rest HG Hd (Hnb r0 Hr0)) as [[Hd' Hm'] Hsame].
    { intros z Hz. assert (z ∈ reach G' r0) as Hz' by (rewrite Hrest; by right).
      split; [by eapply Hnb, reach_subset |].
      apply co_path_gamma; [done |]. by apply elem_of_reach; [apply (sg_nodup _ HG') | |]. }
    by apply Hm', Hq.
  - split; [done |]. split; [done |].
    intros x y Hx Hy Hxy.
    assert (∀ z, has_edge G v z = true → z ∈ vertices G') as Hin.
    { intros z Hz. apply vertices_subgraph.
      destruct (sg_closed _ HG _ _ Hz) as [_ Hzv].
      split; [by apply elem_of_neighbors | done]. }
    pose proof (Hin x Hx) as Hx'. pose proof (Hin y Hy) as Hy'.
    rewrite <- Hperm in Hx'. apply elem_of_concat in Hx' as (cc & Hxc & Hc).
    apply (HQ cc Hc); [done |].
    destruct (Hall cc Hc) as (r0 & Hr0 & ->).
    destruct (decide (x = y)) as [<- | Hne]; [done |].
    eapply (reach_closed G' r0 x y); [apply (sg_nodup _ HG') | done | done | done |].
    apply has_edge_complement. repeat split; try done; [by apply Hin |].
    destruct (has_edge (subgraph G (neighbors G v)) x y) eqn:E; [| done].
    apply has_edge_subgraph in E as (_ & _ & E). congruence.
Qed.

Lemma gamma_pieces_spec G :
  simple_graph G →
  ds_inv G (gamma_pieces G) ∧
  ∀ e f, gamma_step G e f → same_id (gamma_pieces G) e f.
Proof.
  intros HG. unfold gamma_pieces.
  destruct (foldl_inv (λ pieces v, gamma_unions_at G v pieces) (ds_inv G)
              (λ v d, done_at G d v) (vertices G) (ds_init (edge_list G))) as [HI HQ].
  - apply ds_init_inv.
  - intros d v _ Hd. destruct (gamma_unions_at_spec G d v HG Hd) as (? & ? & ?). done.
  - intros d v v' _ Hd Hq x y Hx Hy Hxy.
    destruct (gamma_unions_at_spec G d v' HG Hd) as (_ & Hm & _). by apply Hm, Hq.
  - split; [done |]. intros e f (v & x & y & He & Hf & Hx & Hy & Hxy).
    destruct (sg_closed _ HG _ _ Hx) as [Hv _].
    destruct (HQ v Hv x y Hx Hy Hxy) as (i & Hi & Hj). exists i.
    rewrite (ds_find_eqb _ e (x, v)), (ds_find_eqb _ f (y, v)); [done | |].
    + eapply edge_eqb_trans; [exact Hf | apply edge_eqb_swap].
    + eapply edge_eqb_trans; [exact He | apply edge_eqb_swap].
Qed.


(** *** The sets of the structure are the classes *)

Definition ds_class ds (i : nat) : list (V * V) := map fst (filter (λ p, p.2 = i) ds).

Lemma ds_sets_unfold ds : ds_sets ds = map (ds_class ds) (remove_dups (map snd ds)).
Proof. done. Qed.

Lemma elem_of_ds_sets ds (C : list (V * V)) :
  C ∈ ds_sets ds ↔ ∃ i, i ∈ map snd ds ∧ C = ds_class ds i.
Proof.
  rewrite ds_sets_unfold, list_elem_of_fmap. split.
  - intros (i & -> & Hi). exists i. by rewrite elem_of_remove_dups in Hi.
  - intros (i & Hi & ->). exists i. by rewrite elem_of_remove_dups.
Qed.

Lemma elem_of_ds_class ds i e : e ∈ ds_class ds i ↔ (e, i) ∈ ds.
Proof.
  unfold ds_class. rewrite list_elem_of_fmap. split.
  - intros ([e' j] & -> & Hp). apply list_elem_of_filter in Hp as [Hj Hp].
    simpl in *. by subst.
  - intros Hin. exists (e, i). split; [done |]. by apply list_elem_of_filter.
Qed.

Lemma ds_class_cadj ds i u w :
  ds_uniq ds → cadj (ds_class ds i) u w ↔ ds_find (u, w) ds = Some i.
Proof.
  intros Hu. split.
  - intros Hc. unfold cadj, edge_in in Hc. apply existsb_exists in Hc as (e & Hin & Heq).
    apply list_elem_of_In, elem_of_ds_class in Hin.
    by apply (ds_find_elem ds (u, w) (e, i)).
  - intros Hf. apply ds_find_Some in Hf as ([e j] & Hin & Heq & Hj). simpl in *. subst j.
    apply (cadj_eqb _ e); [by apply elem_of_ds_class | by apply edge_eqb_sym].
Qed.

Section classes.
Context (G : Graph V) (HG : simple_graph G).
Let ds := gamma_pieces G.

Lemma gamma_pieces_uniq : ds_uniq ds.
Proof using HG. eapply ds_inv_uniq; [done | by apply gamma_pieces_spec]. Qed.

Lemma ds_class_gclass i : gclass G (ds_class ds i).
Proof using HG.
  destruct (gamma_pieces_spec G HG) as [Hinv Hcomplete].
  pose proof gamma_pieces_uniq as Hu.
  assert (∀ u w, cadj (ds_class ds i) u w → has_edge G u w = true) as Hedges.
  { intros u w Hc. apply ds_class_cadj in Hc; [| done].
    apply ds_find_Some in Hc as (p & Hp & Heq & _).
    pose proof (ds_inv_edge G _ p Hinv Hp) as He.
    apply edge_eqb_true in Heq as [Heq | Heq]; destruct p as [[a b] j];
      simpl in *; injection Heq as -> ->; [done | by rewrite (sg_sym _ HG)]. }
  split.
  - exact Hedges.
  - intros e f He Hf. apply elem_of_ds_class in He, Hf.
    by apply (ds_sound _ _ Hinv (e, i) (f, i)).
  - intros v x y Hc Hy Hxy. pose proof (Hedges _ _ Hc) as Hx.
    apply ds_class_cadj in Hc; [| done]. apply ds_class_cadj; [done |].
    destruct (Hcomplete (v, x) (v, y)) as (j & Hj1 & Hj2).
    { exists v, x, y. by rewrite !edge_eqb_refl. }
    fold ds in Hj1, Hj2. congruence.
Qed.

Lemma ds_sets_gclass (C : list (V * V)) : C ∈ ds_sets ds → gclass G C ∧ C ≠ [].
Proof using HG.
  intros (i & Hi & ->)%elem_of_ds_sets. split; [apply ds_class_gclass |].
  apply list_elem_of_fmap in Hi as ([e j] & -> & Hp). simpl.
  apply elem_of_ds_class in Hp. intros Hnil. rewrite Hnil in Hp. by apply elem_of_nil in Hp.
Qed.

Lemma ds_sets_cover u w :
  has_edge G u w = true → ∃ C, C ∈ ds_sets ds ∧ cadj C u w.
Proof using HG.
  intros Huw. destruct (gamma_pieces_spec G HG) as [Hinv _].
  destruct (ds_find_edge G ds u w HG Hinv Huw) as [i Hi].
  exists (ds_class ds i). split; [| by apply ds_class_cadj; [apply gamma_pieces_uniq |]].
  apply elem_of_ds_sets. exists i. split; [| done].
  apply ds_find_Some in Hi as (p & Hp & _ & <-). by apply list_elem_of_fmap_2.
Qed.

Lemma ds_sets_share (C1 C2 : list (V * V)) u w :
  C1 ∈ ds_sets ds → C2 ∈ ds_sets ds → cadj C1 u w → cadj C2 u w → C1 = C2.
Proof using HG.
  intros (i & _ & ->)%elem_of_ds_sets (j & _ & ->)%elem_of_ds_sets H1 H2.
  apply ds_class_cadj in H1, H2; try apply gamma_pieces_uniq. congruence.
Qed.

End classes.

Lemma filter_filter_ne (l : list ((V * V) * nat)) (i k : nat) :
  i ≠ k →
  filter (λ p, p.2 = i) (filter (λ p, p.2 ≠ k) l) = filter (λ p, p.2 = i) l.
Proof.
  intros Hne. induction l as [| p l IH]; [done |].
  rewrite !filter_cons. repeat case_decide; rewrite ?filter_cons; repeat case_decide;
    try congruence; by rewrite IH.
Qed.

Lemma group_by_number (ks : list nat) (l : list ((V * V) * nat)) :
  NoDup ks → (∀ p, p ∈ l → p.2 ∈ ks) →
  concat (map (λ i, filter (λ p, p.2 = i) l) ks) ≡ₚ l.
Proof.
  revert l. induction ks as [| k ks IH]; intros l Hnd Hall.
  - destruct l as [| p l]; [done |]. specialize (Hall p ltac:(by left)).
    by apply elem_of_nil in Hall.
  - apply NoDup_cons in Hnd as [Hk Hnd]. simpl.
    etrans; [| apply (filter_app_complement (λ p, p.2 = k) l)].
    apply Permutation_app; [done |].
    assert (map (λ i, filter (λ p, p.2 = i) l) ks =
            map (λ i, filter (λ p, p.2 = i) (filter (λ p, p.2 ≠ k) l)) ks) as ->.
    { apply map_ext_in. intros i Hi%list_elem_of_In.
      symmetry. apply filter_filter_ne. by intros ->. }
    apply IH; [done |].
    intros p [Hp Hin]%list_elem_of_filter. specialize (Hall p Hin).
    apply elem_of_cons in Hall as [? | ?]; done.
Qed.

Lemma ds_sets_perm ds : concat (ds_sets ds) ≡ₚ map fst ds.
Proof.
  rewrite ds_sets_unfold. unfold ds_class.
  rewrite <- (map_map (λ i, filter (λ p, p.2 = i) ds) (map fst)), <- concat_map.
  apply Permutation_map, group_by_number; [apply NoDup_remove_dups |].
  intros p Hp. apply elem_of_remove_dups. by apply list_elem_of_fmap_2.
Qed.

Lemma ds_sets_edge_list G : simple_graph G → concat (ds_sets (gamma_pieces G)) ≡ₚ edge_list G.
Proof.
  intros HG. rewrite ds_sets_perm. by rewrite (ds_edges G _ (proj1 (gamma_pieces_spec G HG))).
Qed.

End ds_facts.

(** ** The dictionary of classes *)

Section class_dictionary.
Context {V : Type} `{EqDecision V}.
Implicit Types (G : Graph V) (u v w x y : V) (e f : V * V) (C : list (V * V))
  (k : list V).

Lemma frozenset_eqb_true (l1 l2 : list V) :
  frozenset_eqb l1 l2 = true ↔ ∀ x, x ∈ l1 ↔ x ∈ l2.
Proof.
  unfold frozenset_eqb. rewrite andb_true_iff, !forallb_forall. split.
  - intros [H1 H2] x. split; intros Hx%list_elem_of_In.
    + by apply (bool_decide_eq_true_1 _ (H1 x Hx)).
    + by apply (bool_decide_eq_true_1 _ (H2 x Hx)).
  - intros Heq. split; intros x Hx%list_elem_of_In; apply bool_decide_eq_true_2;
      by apply Heq.
Qed.

Lemma frozenset_eqb_refl (l : list V) : frozenset_eqb l l = true.
Proof. by apply frozenset_eqb_true. Qed.

Lemma fdict_set_fresh {A} k (a : A) (d : list (list V * A)) :
  (∀ kv, kv ∈ d → frozenset_eqb k kv.1 = false) → fdict_set k a d = d ++ [(k, a)].
Proof.
  induction d as [| [k' a'] d IH]; intros Hfresh; [done |]. simpl.
  pose proof (Hfresh (k', a') ltac:(by left)) as Hk. simpl in Hk. rewrite Hk.
  f_equal. apply IH.
  intros kv Hkv. apply Hfresh. by right.
Qed.

Lemma fdict_fold_fresh {A} (key : A → list V) (l : list A) (d : list (list V * A)) :
  NoDup l →
  (∀ a1 a2, a1 ∈ l → a2 ∈ l → frozenset_eqb (key a1) (key a2) = true → a1 = a2) →
  (∀ a kv, a ∈ l → kv ∈ d → frozenset_eqb (key a) kv.1 = false) →
  foldl (λ d a, fdict_set (key a) a d) d l = d ++ map (λ a, (key a, a)) l.
Proof.
  revert d. induction l as [| a l IH]; intros d Hnd Hinj Hfresh; simpl.
  - by rewrite app_nil_r.
  - apply NoDup_cons in Hnd as [Ha Hnd].
    rewrite fdict_set_fresh by (intros kv Hkv; apply Hfresh; [by left | done]).
    rewrite IH, <- app_assoc; [done | done | |].
    + intros a1 a2 H1 H2. apply Hinj; by right.
    + intros a' kv Ha' [Hkv | Hkv]%elem_of_app.
      * apply Hfresh; [by right | done].
      * apply list_elem_of_singleton in Hkv as ->. simpl.
        destruct (frozenset_eqb (key a') (key a)) eqn:E; [| done].
        exfalso. apply Ha. rewrite <- (Hinj a' a); [done | by right | by left | done].
Qed.

Lemma fdict_get_Some {A} k (d : list (list V * A)) (a : A) :
  fdict_get k d = Some a → ∃ k', (k', a) ∈ d ∧ frozenset_eqb k k' = true.
Proof.
  induction d as [| [k' a'] d IH]; simpl; [done |].
  destruct (frozenset_eqb k k') eqn:E.
  - intros [= ->]. exists k'. split; [by left | done].
  - intros (k'' & Hin & Heq)%IH. exists k''. split; [by right | done].
Qed.

Lemma fdict_get_is_Some {A} k (d : list (list V * A)) k' (a : A) :
  (k', a) ∈ d → frozenset_eqb k k' = true → is_Some (fdict_get k d).
Proof.
  induction d as [| [k1 a1] d IH]; simpl; [by intros ?%elem_of_nil |].
  intros [[= <- <-] | Hin]%elem_of_cons Heq.
  - rewrite Heq. by eexists.
  - destruct (frozenset_eqb k k1); [by eexists | by apply IH].
Qed.

Section classes_of_graph.
Context (G : Graph V) (HG : simple_graph G).

Lemma ds_sets_NoDup : NoDup (ds_sets (gamma_pieces G)).
Proof using HG.
  rewrite ds_sets_unfold. apply NoDup_fmap_2_strong; [| apply NoDup_remove_dups].
  intros i j Hi Hj Heq. rewrite elem_of_remove_dups in Hi.
  apply list_elem_of_fmap in Hi as ([e i'] & -> & Hp). simpl in *.
  assert (e ∈ ds_class (gamma_pieces G) j) as Hin by (rewrite <- Heq; by apply elem_of_ds_class).
  apply elem_of_ds_class in Hin.
  assert ((e, i') = (e, j)) as [= ->]; [| done].
  apply (gamma_pieces_uniq G HG); [done | done | apply edge_eqb_refl].
Qed.

Lemma ds_sets_same_span C1 C2 :
  C1 ∈ ds_sets (gamma_pieces G) → C2 ∈ ds_sets (gamma_pieces G) →
  frozenset_eqb (class_vertices C1) (class_vertices C2) = true → C1 = C2.
Proof using HG.
  intros H1 H2 Heq. rewrite frozenset_eqb_true in Heq.
  destruct (ds_sets_gclass G HG C1 H1) as [Hg1 Hne].
  destruct (ds_sets_gclass G HG C2 H2) as [Hg2 _].
  destruct C1 as [| [a b] C1]; [done |].
  assert (cadj ((a, b) :: C1) a b) as Hab by (apply cadj_iff; left; by left).
  destruct (gclass_same_span G _ C2 a b HG Hg1 Hg2 Hab Heq) as (p & q & Hp & Hq).
  by apply (ds_sets_share G HG _ _ p q).
Qed.

Lemma gamma_classes_eq :
  gamma_classes G = map (λ C, (class_vertices C, C)) (ds_sets (gamma_pieces G)).
Proof using HG.
  unfold gamma_classes.
  rewrite (fdict_fold_fresh class_vertices); [done | apply ds_sets_NoDup | |].
  - intros C1 C2. apply ds_sets_same_span.
  - by intros C kv _ ?%elem_of_nil.
Qed.

Lemma elem_of_gamma_classes k C :
  (k, C) ∈ gamma_classes G ↔ k = class_vertices C ∧ C ∈ ds_sets (gamma_pieces G).
Proof using HG.
  rewrite gamma_classes_eq, list_elem_of_fmap. split.
  - by intros (C' & [= -> ->] & Hin).
  - intros [-> Hin]. by exists C.
Qed.

Lemma gamma_classes_gclass k C : (k, C) ∈ gamma_classes G → gclass G C ∧ C ≠ [].
Proof using HG. intros [_ Hin]%elem_of_gamma_classes. by apply ds_sets_gclass. Qed.

(** Looking a vertex set up finds the class that spans it, when there is one. *)
Lemma gamma_classes_lookup k C0 :
  gclass G C0 → C0 ≠ [] → (∀ x, x ∈ k ↔ x ∈ class_vertices C0) →
  ∃ C, fdict_get k (gamma_classes G) = Some C ∧ gclass G C ∧
       ∀ u w, cadj C u w ↔ cadj C0 u w.
Proof using HG.
  intros Hg0 Hne Hk. destruct C0 as [| [a b] C0]; [done |].
  assert (cadj ((a, b) :: C0) a b) as Hab by (apply cadj_iff; left; by left).
  pose proof (gc_edges _ _ Hg0 a b Hab) as Hedge.
  destruct (ds_sets_cover G HG a b Hedge) as (C1 & HC1 & Hab1).
  destruct (ds_sets_gclass G HG C1 HC1) as [Hg1 _].
  assert (∀ u w, cadj C1 u w ↔ cadj ((a, b) :: C0) u w) as Hsame.
  { intros u w. split; by apply (gclass_share G _ _ a b). }
  assert (∀ x, x ∈ class_vertices C1 ↔ x ∈ class_vertices ((a, b) :: C0)) as Hspan.
  { intros x. rewrite !elem_of_class_vertices. by setoid_rewrite Hsame. }
  destruct (fdict_get_is_Some k (gamma_classes G) (class_vertices C1) C1) as [C HC].
  { by apply elem_of_gamma_classes. }
  { apply frozenset_eqb_true. intros x. by rewrite Hk, Hspan. }
  exists C. split; [done |].
  apply fdict_get_Some in HC as (k' & Hin & Heq).
  apply elem_of_gamma_classes in Hin as [-> HC'].
  assert (C = C1) as ->; [| done].
  apply ds_sets_same_span; [done | done |].
  apply frozenset_eqb_true. intros x. rewrite frozenset_eqb_true in Heq.
  by rewrite <- Heq, Hk, Hspan.
Qed.

End classes_of_graph.
End class_dictionary.

(** ** Connected graphs *)

Section connectivity.
Context {V : Type} `{EqDecision V}.
Implicit Types (G H : Graph V) (u v w x y : V) (A : list V).

(** Every two vertices are joined by a path. *)
Definition conn G : Prop := ∀ u w, u ∈ vertices G → w ∈ vertices G → path G u w.

Lemma components_aux_nil fuel G : components_aux fuel G [] = [].
Proof. by destruct fuel. Qed.

Lemma filter_none {T} (P : T → Prop) `{∀ t, Decision (P t)} (l : list T) :
  (∀ t, t ∈ l → ¬ P t) → filter P l = [].
Proof.
  induction l as [| t l IH]; intros Hl; [done |].
  rewrite filter_cons. destruct (decide (P t)) as [Hp | _].
  - exfalso. apply (Hl t); [by left | done].
  - apply IH. intros t' Ht'. apply Hl. by right.
Qed.

Lemma filter_length_lt {T} (P : T → Prop) `{∀ t, Decision (P t)} (l : list T) t :
  t ∈ l → ¬ P t → (length (filter P l) < length l)%nat.
Proof.
  induction l as [| t' l IH]; [by intros ?%elem_of_nil |].
  intros [-> | Hin]%elem_of_cons Hn; rewrite filter_cons.
  - destruct (decide (P t')); [done |]. simpl.
    pose proof (length_filter P l). lia.
  - specialize (IH Hin Hn). destruct (decide (P t')); simpl; lia.
Qed.

Lemma is_connected_conn G : simple_graph G → is_connected G = true → conn G.
Proof.
  intros HG Hc u w Hu Hw. unfold is_connected in Hc. apply bool_decide_eq_true_1 in Hc.
  destruct (connected_components_spec G HG) as [Hperm Hall].
  destruct (connected_components G) as [| cc [| cc' l]]; simpl in *; [| | lia].
  - rewrite <- Hperm in Hu. by apply elem_of_nil in Hu.
  - apply Forall_cons in Hall as [(r & Hr & ->) _].
    rewrite app_nil_r in Hperm. rewrite <- Hperm in Hu, Hw.
    apply elem_of_reach in Hu, Hw; try done; try apply (sg_nodup _ HG).
    etrans; [| exact Hw]. by apply path_sym.
Qed.

Lemma conn_is_connected G : simple_graph G → conn G → is_connected G = true.
Proof.
  intros HG Hc. unfold is_connected. apply bool_decide_eq_true_2.
  unfold connected_components, order.
  destruct (vertices G) as [| v0 rest] eqn:E; [simpl; lia |]. simpl.
  rewrite filter_none; [rewrite components_aux_nil; simpl; lia |].
  intros t Ht Hn. apply Hn. apply elem_of_reach; [apply (sg_nodup _ HG) | |].
  - rewrite E. by left.
  - apply Hc; rewrite E; [by left | done].
Qed.

(** A connected graph has an edge across every cut. *)
Lemma conn_cut G A a b :
  conn G → a ∈ vertices G → b ∈ vertices G → a ∈ A → b ∉ A →
  ∃ u w, u ∈ A ∧ (w ∉ A) ∧ w ∈ vertices G ∧ has_edge G u w = true.
Proof using Type*.
  intros Hc Ha Hb HaA. specialize (Hc a b Ha Hb). revert b Hc Hb.
  apply (rtc_ind_r (λ b, b ∈ vertices G → b ∉ A →
     ∃ u w, u ∈ A ∧ (w ∉ A) ∧ w ∈ vertices G ∧ has_edge G u w = true)).
  - done.
  - intros c b Hac [Hcb Hb'] IH Hb HbA.
    destruct (decide (c ∈ A)) as [HcA | HcA].
    + by exists c, b.
    + apply IH; [| done]. exact (path_vertex G a c Ha Hac).
Qed.

Lemma path_ext G H u w :
  (∀ v, v ∈ vertices G → v ∈ vertices H) →
  (∀ a b, has_edge G a b = true → has_edge H a b = true) →
  path G u w → path H u w.
Proof.
  intros Hv He. revert w. apply (rtc_ind_r (λ w, path H u w)).
  - apply rtc_refl.
  - intros b c _ [Hbc Hc] IH. eapply rtc_r; [exact IH |]. split; [by apply He | by apply Hv].
Qed.

Lemma conn_ext G H :
  (∀ v, v ∈ vertices G ↔ v ∈ vertices H) →
  (∀ a b, has_edge G a b = true → has_edge H a b = true) →
  conn G → conn H.
Proof.
  intros Hv He Hc u w Hu Hw. apply (path_ext G); [by intros v ?%Hv | done |].
  apply Hc; by apply Hv.
Qed.

Lemma path_in_component G v w :
  simple_graph G → v ∈ vertices G → path G v w → path (subgraph G (reach G v)) v w.
Proof.
  intros HG Hv Hp. pose proof (sg_nodup _ HG) as Hnd.
  assert (path G v w ∧ path (subgraph G (reach G v)) v w) as [_ ?]; [| done].
  revert w Hp.
  apply (rtc_ind_r (λ w, path G v w ∧ path (subgraph G (reach G v)) v w)).
  - split; apply rtc_refl.
  - intros b c _ [Hbc Hc] [Hvb IH].
    assert (path G v c) as Hvc by (eapply rtc_r; [exact Hvb | by split]).
    split; [done |]. eapply rtc_r; [exact IH |].
    apply elem_of_reach in Hvb, Hvc; try done.
    split; [by apply has_edge_subgraph | by apply vertices_subgraph].
Qed.

Lemma component_conn G v :
  simple_graph G → v ∈ vertices G → conn (subgraph G (reach G v)).
Proof.
  intros HG Hv u w [Hu Hu']%vertices_subgraph [Hw Hw']%vertices_subgraph.
  pose proof (sg_nodup _ HG) as Hnd.
  apply elem_of_reach in Hu, Hw; try done.
  assert (v ∈ vertices (subgraph G (reach G v))) as Hv'.
  { apply vertices_subgraph. split; [apply reach_start | done]. }
  etrans; [| by apply path_in_component].
  apply path_sym; [by apply simple_subgraph | done | by apply path_in_component].
Qed.

Lemma sub_co_edge G A a b :
  has_edge (subgraph (complement G) A) a b = true →
  has_edge (complement (subgraph G A)) a b = true.
Proof.
  intros (Ha & Hb & Hab)%has_edge_subgraph.
  apply has_edge_complement in Hab as (Ha' & Hb' & Hne & Hnon).
  apply has_edge_complement. rewrite !vertices_subgraph. repeat split; try done.
  destruct (has_edge (subgraph G A) a b) eqn:E; [| done].
  apply has_edge_subgraph in E as (_ & _ & E). congruence.
Qed.

Lemma co_component_conn G v :
  simple_graph G → v ∈ vertices G →
  conn (complement (subgraph G (reach (complement G) v))).
Proof.
  intros HG Hv.
  apply (conn_ext (subgraph (complement G) (reach (complement G) v))).
  - done.
  - apply sub_co_edge.
  - apply (component_conn (complement G)); [by apply simple_complement | done].
Qed.

(** A component of a graph that is not connected leaves a vertex out. *)
Lemma component_proper G v :
  simple_graph G → is_connected G = false → v ∈ vertices G →
  ∃ x, x ∈ vertices G ∧ x ∉ reach G v.
Proof.
  intros HG Hn Hv.
  destruct (decide (Forall (λ x, x ∈ reach G v) (vertices G))) as [Hall | Hex].
  - exfalso. rewrite Forall_forall in Hall.
    rewrite conn_is_connected in Hn; [done | done |].
    intros u w Hu Hw. pose proof (sg_nodup _ HG) as Hnd.
    pose proof (Hall u Hu) as Hu'. pose proof (Hall w Hw) as Hw'.
    apply elem_of_reach in Hu', Hw'; try done.
    etrans; [| exact Hw']. by apply path_sym.
  - apply not_Forall_Exists in Hex; [| apply _].
    apply Exists_exists in Hex as (x & Hx & Hnx). by exists x.
Qed.

Lemma subgraph_order_lt G A x :
  x ∈ vertices G → x ∉ A → (order (subgraph G A) < order G)%nat.
Proof. intros Hx Hn. unfold order. simpl. by apply (filter_length_lt _ _ x). Qed.

(** Components and co-components are modules. *)
Lemma component_module G v :
  simple_graph G → v ∈ vertices G → module G (reach G v).
Proof.
  intros HG Hv x u u' Hx Hnx Hu Hu'. pose proof (sg_nodup _ HG) as Hnd.
  assert (∀ z, z ∈ reach G v → has_edge G z x = false) as Hno.
  { intros z Hz. destruct (has_edge G z x) eqn:E; [| done].
    exfalso. apply Hnx. by apply (reach_closed G v z x). }
  by rewrite !Hno.
Qed.

Lemma co_component_module G v :
  simple_graph G → v ∈ vertices G → module G (reach (complement G) v).
Proof.
  intros HG Hv x u u' Hx Hnx Hu Hu'.
  pose proof (simple_complement G HG) as HG'. pose proof (sg_nodup _ HG') as Hnd.
  assert (∀ z, z ∈ reach (complement G) v → has_edge G z x = true) as Hall.
  { intros z Hz. destruct (has_edge G z x) eqn:E; [done |].
    exfalso. apply Hnx. apply (reach_closed (complement G) v z x); try done.
    apply has_edge_complement. repeat split; try done.
    - by apply (reach_subset (complement G) v).
    - by intros ->. }
  by rewrite !Hall.
Qed.

Lemma module_trans G A B :
  simple_graph G → module G A → A ⊆ vertices G →
  module (subgraph G A) B → B ⊆ A → module G B.
Proof.
  intros HG HA HAv HB HBA x u u' Hx Hnx Hu Hu'.
  destruct (decide (x ∈ A)) as [HxA | HxA].
  - assert (has_edge (subgraph G A) u x = has_edge (subgraph G A) u' x) as Heq.
    { apply HB; try done. by apply vertices_subgraph. }
    simpl in Heq. unfold mem in Heq.
    rewrite !bool_decide_eq_true_2 in Heq by auto. done.
  - apply HA; auto.
Qed.

End connectivity.

(** ** The class that spans a connected and co-connected graph *)

Section spanning_class.
Context {V : Type} `{EqDecision V}.
Implicit Types (G : Graph V) (u v w x y s : V) (C : list (V * V)).

Lemma filter_length_mono_lt {T} (P Q : T → Prop) `{∀ t, Decision (P t)}
    `{∀ t, Decision (Q t)} (l : list T) t0 :
  (∀ t, Q t → P t) → t0 ∈ l → P t0 → ¬ Q t0 →
  (length (filter Q l) < length (filter P l))%nat.
Proof.
  intros Himp. induction l as [| t l IH]; [by intros ?%elem_of_nil |].
  assert (length (filter Q l) ≤ length (filter P l))%nat as Hle.
  { clear IH. induction l as [| t' l IHl]; [done |]. rewrite !filter_cons.
    destruct (decide (Q t')) as [Hq | Hq], (decide (P t')) as [Hp | Hp]; simpl; try lia.
    by apply Himp in Hq. }
  intros [-> | Hin]%elem_of_cons Hp Hq; rewrite !filter_cons.
  - destruct (decide (Q t)) as [Hq' | Hq'], (decide (P t)) as [Hp' | Hp']; simpl; try lia;
      done.
  - specialize (IH Hin Hp Hq).
    destruct (decide (Q t)) as [Hq' | Hq'], (decide (P t)) as [Hp' | Hp']; simpl; try lia.
    by apply Himp in Hq'.
Qed.

Lemma class_vertices_in_graph G C x :
  simple_graph G → gclass G C → x ∈ class_vertices C → x ∈ vertices G.
Proof.
  intros HG Hg (w & Hw)%elem_of_class_vertices.
  apply (gc_edges _ _ Hg), (sg_closed _ HG) in Hw. tauto.
Qed.

Section grow.
Context (G : Graph V) (HG : simple_graph G) (Hc : conn G) (Hco : conn (complement G)).

Lemma class_grow C x0 :
  C ∈ ds_sets (gamma_pieces G) → x0 ∈ vertices G → x0 ∉ class_vertices C →
  ∃ C' y, C' ∈ ds_sets (gamma_pieces G) ∧
          (∀ z, z ∈ class_vertices C → z ∈ class_vertices C') ∧
          y ∈ vertices G ∧ y ∈ class_vertices C' ∧ y ∉ class_vertices C.
Proof using HG Hc Hco EqDecision0.
  intros HC Hx0 Hx0S. destruct (ds_sets_gclass G HG C HC) as [Hg Hne].
  set (S := class_vertices C) in *.
  assert (∀ z u u', z ∉ S → u ∈ S → u' ∈ S → has_edge G u z = has_edge G u' z) as Hmod.
  { intros z u u'. by apply gclass_span_module. }
  assert (∃ s0, s0 ∈ S) as [s0 Hs0].
  { destruct C as [| [a b] C]; [done |]. exists a. subst S. simpl. by left. }
  assert (s0 ∈ vertices G) as Hs0v by by eapply class_vertices_in_graph.
  (* a vertex outside that is adjacent to nothing in the span *)
  destruct (conn_cut (complement G) S s0 x0 Hco Hs0v Hx0 Hs0 Hx0S)
    as (u1 & y1 & Hu1 & Hy1 & Hy1v & He1).
  apply has_edge_complement in He1 as (_ & _ & _ & He1).
  assert (has_edge G s0 y1 = false) as Hs0y1 by (by rewrite (Hmod y1 s0 u1)).
  (* an edge from the vertices of that kind to the others *)
  set (Y := filter (λ z, (z ∉ S) ∧ has_edge G s0 z = false) (vertices G)).
  assert (y1 ∈ Y) as Hy1Y by (by apply list_elem_of_filter).
  assert (s0 ∉ Y) as Hs0Y by (intros [[? _] _]%list_elem_of_filter; done).
  destruct (conn_cut G Y y1 s0 Hc Hy1v Hs0v Hy1Y Hs0Y) as (y & x & Hy & Hx & Hxv & Hyx).
  apply list_elem_of_filter in Hy as [[HyS Hs0y] Hyv].
  assert (x ∉ S) as HxS.
  { intros HxS. rewrite (sg_sym _ HG), (Hmod y x s0) in Hyx by done. congruence. }
  assert (has_edge G s0 x = true) as Hs0x.
  { destruct (has_edge G s0 x) eqn:E; [done |]. exfalso. apply Hx.
    by apply list_elem_of_filter. }
  assert (has_edge G x s0 = true) as Hxs0 by by rewrite (sg_sym _ HG).
  destruct (ds_sets_cover G HG x s0 Hxs0) as (C' & HC' & Hxs0').
  destruct (ds_sets_gclass G HG C' HC') as [Hg' _].
  assert (cadj C' x y) as Hxy.
  { apply (gc_closed _ _ Hg' x s0 y); [done | by rewrite (sg_sym _ HG) | done]. }
  exists C', y. split; [done |]. split; [| split; [done | split; [| done]]].
  - intros z Hz. apply elem_of_class_vertices. exists x. apply cadj_sym.
    apply (gc_closed _ _ Hg' x y z); [done | |].
    + by rewrite (sg_sym _ HG), (Hmod x z s0).
    + by rewrite (sg_sym _ HG), (Hmod y z s0).
  - apply elem_of_class_vertices. exists x. by apply cadj_sym.
Qed.

Lemma spanning_class_from (n : nat) C :
  C ∈ ds_sets (gamma_pieces G) →
  (length (filter (λ x, x ∉ class_vertices C) (vertices G)) ≤ n)%nat →
  ∃ C', C' ∈ ds_sets (gamma_pieces G) ∧ ∀ x, x ∈ vertices G ↔ x ∈ class_vertices C'.
Proof using HG Hc Hco EqDecision0.
  revert C. induction n as [| n IH]; intros C HC Hlen.
  - exists C. split; [done |]. intros x. split.
    + intros Hx. destruct (decide (x ∈ class_vertices C)) as [| Hn]; [done |].
      assert (x ∈ filter (λ x, x ∉ class_vertices C) (vertices G)) as Hin
        by by apply list_elem_of_filter.
      destruct (filter _ (vertices G)); [by apply elem_of_nil in Hin | simpl in Hlen; lia].
    + apply class_vertices_in_graph; [done | by apply ds_sets_gclass].
  - destruct (decide (Forall (λ x, x ∈ class_vertices C) (vertices G))) as [Hall | Hex].
    + exists C. split; [done |]. rewrite Forall_forall in Hall. intros x. split; [apply Hall |].
      apply class_vertices_in_graph; [done | by apply ds_sets_gclass].
    + apply not_Forall_Exists in Hex; [| apply _].
      apply Exists_exists in Hex as (x0 & Hx0 & Hnx0).
      destruct (class_grow C x0 HC Hx0 Hnx0) as (C' & y & HC' & Hsub & Hyv & Hy & Hny).
      apply (IH C' HC').
      pose proof (filter_length_mono_lt (λ x, x ∉ class_vertices C)
                    (λ x, x ∉ class_vertices C') (vertices G) y) as Hlt.
      simpl in Hlt. cut (length (filter (λ x, x ∉ class_vertices C') (vertices G)) <
                         length (filter (λ x, x ∉ class_vertices C) (vertices G)))%nat; [lia |].
      apply Hlt; [| done | done | by intros Hn; apply Hn].
      intros t Ht Ht'. by apply Ht, Hsub.
Qed.

Lemma spanning_class :
  (2 ≤ order G)%nat →
  ∃ C, C ∈ ds_sets (gamma_pieces G) ∧ ∀ x, x ∈ vertices G ↔ x ∈ class_vertices C.
Proof using HG Hc Hco EqDecision0.
  intros Hord. unfold order in Hord. pose proof (sg_nodup _ HG) as Hnd.
  destruct (vertices G) as [| v0 [| v1 rest]] eqn:E; simpl in Hord; [lia | lia |].
  assert (v0 ≠ v1) as Hne.
  { apply NoDup_cons in Hnd as [Hn _]. intros ->. apply Hn. by left. }
  destruct (conn_cut G [v0] v0 v1 Hc) as (u & w & Hu & Hw & Hwv & Huw).
  { rewrite E. by left. }
  { rewrite E. right. by left. }
  { by left. }
  { by intros ->%list_elem_of_singleton. }
  destruct (ds_sets_cover G HG u w Huw) as (C & HC & _).
  rewrite <- E. by apply (spanning_class_from (length (vertices G)) C), length_filter.
Qed.

End grow.
End spanning_class.

(** ** Dictionaries of lists *)

(** Both [defaultdict(list)]s of the prime case append to the list stored
    under a key; they differ in how keys are compared. *)
Section gdict.
Context {K X : Type} (eqb : K → K → bool).
Context (eqb_refl : ∀ k, eqb k k = true).
Context (eqb_sym : ∀ k1 k2, eqb k1 k2 = true → eqb k2 k1 = true).
Context (eqb_trans : ∀ k1 k2 k3, eqb k1 k2 = true → eqb k2 k3 = true → eqb k1 k3 = true).

Fixpoint gdict_append (k : K) (x : X) (d : list (K * list X)) : list (K * list X) :=
  match d with
  | [] => [(k, [x])]
  | (k', l) :: d' =>
      if eqb k k' then (k', l ++ [x]) :: d' else (k', l) :: gdict_append k x d'
  end.

Definition gdict_of (ps : list (K * X)) : list (K * list X) :=
  foldl (λ d p, gdict_append p.1 p.2 d) [] ps.

Fixpoint keys_apart (d : list (K * list X)) : Prop :=
  match d with
  | [] => True
  | (k, _) :: d' => (∀ e, e ∈ d' → eqb k e.1 = false) ∧ keys_apart d'
  end.

(** What a dictionary built from the pairs [ps] holds. *)
Record gdict_inv (ps : list (K * X)) (d : list (K * list X)) : Prop := {
  gd_apart : keys_apart d;
  gd_key : ∀ k l, (k, l) ∈ d → ∃ p, p ∈ ps ∧ p.1 = k;
  gd_mem : ∀ k l x, (k, l) ∈ d → x ∈ l ↔ ∃ p, p ∈ ps ∧ p.2 = x ∧ eqb p.1 k = true;
  gd_all : ∀ p, p ∈ ps → ∃ k l, (k, l) ∈ d ∧ eqb p.1 k = true
}.

Lemma gdict_append_perm k x d :
  concat (map snd (gdict_append k x d)) ≡ₚ x :: concat (map snd d).
Proof.
  induction d as [| [k' l] d IH]; simpl; [done |].
  destruct (eqb k k'); simpl.
  - rewrite <- app_assoc. simpl. by rewrite <- Permutation_middle.
  - rewrite IH. by rewrite <- Permutation_middle.
Qed.

Lemma gdict_of_snoc ps p : gdict_of (ps ++ [p]) = gdict_append p.1 p.2 (gdict_of ps).
Proof. unfold gdict_of. by rewrite foldl_app. Qed.

Lemma gdict_of_perm ps : concat (map snd (gdict_of ps)) ≡ₚ map snd ps.
Proof.
  induction ps as [| p ps IH] using rev_ind; [done |].
  rewrite gdict_of_snoc, gdict_append_perm, map_app, IH. simpl.
  by rewrite <- Permutation_cons_append.
Qed.

(** The two shapes of the result of an append. *)
Lemma gdict_append_cases k x d :
  keys_apart d →
  (∃ d1 k' l d2, d = d1 ++ (k', l) :: d2 ∧ eqb k k' = true ∧
     (∀ e, e ∈ d1 ++ d2 → eqb k e.1 = false) ∧
     gdict_append k x d = d1 ++ (k', l ++ [x]) :: d2) ∨
  ((∀ e, e ∈ d → eqb k e.1 = false) ∧ gdict_append k x d = d ++ [(k, [x])]).
Proof using eqb_sym eqb_trans.
  induction d as [| [k' l] d IH]; intros Hap; simpl.
  - right. split; [by intros e ?%elem_of_nil | done].
  - destruct Hap as [Hk' Hap]. destruct (eqb k k') eqn:E.
    + left. exists [], k', l, d. repeat split; try done.
      intros e He. simpl in He. destruct (eqb k e.1) eqn:E'; [| done].
      rewrite <- (Hk' e He). symmetry. apply (eqb_trans k' k e.1); [by apply eqb_sym | done].
    + destruct (IH Hap) as [(d1 & k1 & l1 & d2 & -> & Hk1 & Hoth & ->) | [Hnone ->]].
      * left. exists ((k', l) :: d1), k1, l1, d2. repeat split; try done.
        intros e [-> | He]%elem_of_cons; [done | by apply Hoth].
      * right. split; [| done]. intros e [-> | He]%elem_of_cons; [done | by apply Hnone].
Qed.

Lemma keys_apart_app d1 d2 :
  keys_apart (d1 ++ d2) ↔
  keys_apart d1 ∧ keys_apart d2 ∧ ∀ e1 e2, e1 ∈ d1 → e2 ∈ d2 → eqb e1.1 e2.1 = false.
Proof.
  induction d1 as [| [k l] d1 IH]; simpl.
  - split; [intros ?; repeat split; [done |]; by intros ?? ?%elem_of_nil | tauto].
  - rewrite IH. split.
    + intros (Hk & H1 & H2 & H12). repeat split; try done.
      * intros e He. apply Hk, elem_of_app. by left.
      * intros e1 e2 [-> | He1]%elem_of_cons He2; [| by apply H12].
        apply Hk, elem_of_app. by right.
    + intros ([Hk H1] & H2 & H12). repeat split; try done.
      * intros e [He | He]%elem_of_app; [by apply Hk |].
        apply (H12 (k, l) e); [by left | done].
      * intros e1 e2 He1 He2. apply H12; [by right | done].
Qed.

Lemma gdict_append_inv ps k x d :
  gdict_inv ps d → gdict_inv (ps ++ [(k, x)]) (gdict_append k x d).
Proof using eqb_refl eqb_sym eqb_trans.
  intros [Hap Hkey Hmem Hall].
  destruct (gdict_append_cases k x d Hap)
    as [(d1 & k1 & l1 & d2 & -> & Hk1 & Hoth & ->) | [Hnone ->]].
  - apply keys_apart_app in Hap as (Hap1 & [Hk1' Hap2] & H12).
    assert (∀ k' l', (k', l') ∈ d1 ++ (k1, l1 ++ [x]) :: d2 →
              ((k', l') ∈ d1 ++ (k1, l1) :: d2 ∧ eqb k k' = false) ∨
              (k' = k1 ∧ l' = l1 ++ [x])) as Hsplit.
    { intros k' l' [Hin | [[= -> ->] | Hin]%elem_of_cons]%elem_of_app.
      - left. split; [apply elem_of_app; by left |].
        apply (Hoth (k', l')), elem_of_app. by left.
      - by right.
      - left. split; [apply elem_of_app; right; by right |].
        apply (Hoth (k', l')), elem_of_app. by right. }
    split.
    + apply keys_apart_app. repeat split; try done.
      intros e1 e2 He1 [-> | He2]%elem_of_cons; [| apply H12; [done | by right]].
      apply (H12 e1 (k1, l1)); [done | by left].
    + intros k' l' [[Hin _] | [-> ->]]%Hsplit.
      * destruct (Hkey k' l' Hin) as (p & Hp & <-). exists p. split; [| done].
        apply elem_of_app. by left.
      * destruct (Hkey k1 l1) as (p & Hp & <-); [apply elem_of_app; right; by left |].
        exists p. split; [| done]. apply elem_of_app. by left.
    + intros k' l' y [[Hin Hne] | [-> ->]]%Hsplit.
      * rewrite (Hmem k' l' y Hin). split.
        -- intros (p & Hp & Hpy & Hpk). exists p. split; [| done]. apply elem_of_app. by left.
        -- intros (p & [Hp | ->%list_elem_of_singleton]%elem_of_app & Hpy & Hpk).
           ++ by exists p.
           ++ simpl in Hpk. congruence.
      * rewrite elem_of_app, list_elem_of_singleton.
        rewrite (Hmem k1 l1 y) by (apply elem_of_app; right; by left). split.
        -- intros [(p & Hp & Hpy & Hpk) | ->].
           ++ exists p. split; [| done]. apply elem_of_app. by left.
           ++ exists (k, x). split; [| done]. apply elem_of_app. right. by left.
        -- intros (p & [Hp | ->%list_elem_of_singleton]%elem_of_app & Hpy & Hpk).
           ++ left. by exists p.
           ++ by right.
    + intros p [Hp | ->%list_elem_of_singleton]%elem_of_app.
      * destruct (Hall p Hp) as (k' & l' & [Hin | [[= -> ->] | Hin]%elem_of_cons]%elem_of_app & Hpk).
        -- exists k', l'. split; [| done]. apply elem_of_app. by left.
        -- exists k1, (l1 ++ [x]). split; [| done]. apply elem_of_app. right. by left.
        -- exists k', l'. split; [| done]. apply elem_of_app. right. by right.
      * exists k1, (l1 ++ [x]). split; [| done]. apply elem_of_app. right. by left.
  - split.
    + apply keys_apart_app. repeat split; try done.
      * by intros e ?%elem_of_nil.
      * intros e1 e2 He1 ->%list_elem_of_singleton. simpl.
        destruct (eqb e1.1 k) eqn:E; [| done].
        rewrite <- (Hnone e1 He1). symmetry. by apply eqb_sym.
    + intros k' l' [Hin | [= -> ->]%list_elem_of_singleton]%elem_of_app.
      * destruct (Hkey k' l' Hin) as (p & Hp & <-). exists p. split; [| done].
        apply elem_of_app. by left.
      * exists (k, x). split; [| done]. apply elem_of_app. right. by left.
    + intros k' l' y [Hin | [= -> ->]%list_elem_of_singleton]%elem_of_app.
      * rewrite (Hmem k' l' y Hin). split.
        -- intros (p & Hp & Hpy & Hpk). exists p. split; [| done]. apply elem_of_app. by left.
        -- intros (p & [Hp | ->%list_elem_of_singleton]%elem_of_app & Hpy & Hpk).
           ++ by exists p.
           ++ simpl in Hpk. pose proof (Hnone (k', l') Hin) as Hn. simpl in Hn. congruence.
      * rewrite list_elem_of_singleton. split.
        -- intros ->. exists (k, x). split; [| by rewrite eqb_refl].
           apply elem_of_app. right. by left.
        -- intros (p & [Hp | ->%list_elem_of_singleton]%elem_of_app & Hpy & Hpk); [| done].
           exfalso. destruct (Hall p Hp) as (k' & l' & Hin & Hpk').
           pose proof (Hnone (k', l') Hin) as Hn. simpl in Hn.
           rewrite (eqb_trans k p.1 k') in Hn; [done | by apply eqb_sym | done].
    + intros p [Hp | ->%list_elem_of_singleton]%elem_of_app.
      * destruct (Hall p Hp) as (k' & l' & Hin & Hpk).
        exists k', l'. split; [| done]. apply elem_of_app. by left.
      * exists k, [x]. split; [| by apply eqb_refl]. apply elem_of_app. right. by left.
Qed.

Lemma gdict_of_inv ps : gdict_inv ps (gdict_of ps).
Proof using eqb_refl eqb_sym eqb_trans.
  induction ps as [| [k x] ps IH] using rev_ind.
  - split; simpl; try done.
    + by intros k l ?%elem_of_nil.
    + by intros k l x ?%elem_of_nil.
    + by intros p ?%elem_of_nil.
  - rewrite gdict_of_snoc. by apply gdict_append_inv.
Qed.

End gdict.

(** ** The buckets of the prime case *)

Section buckets.
Context {V : Type} `{EqDecision V}.
Implicit Types (G H sub : Graph V) (u v w x y : V) (C : list (V * V)) (b : list V).

Definition eqV (a b : V) : bool := bool_decide (a = b).

Lemma vdict_append_gdict (k x : V) (d : list (V * list V)) :
  vdict_append k x d = gdict_append eqV k x d.
Proof.
  induction d as [| [k' l] d IH]; simpl; [done |]. unfold eqV at 1. by rewrite IH.
Qed.

Lemma sdict_append_gdict (k : list V) (x : V) (d : list (list V * list V)) :
  sdict_append k x d = gdict_append frozenset_eqb k x d.
Proof. induction d as [| [k' l] d IH]; simpl; [done |]. by rewrite IH. Qed.

Lemma frozenset_eqb_sym (l1 l2 : list V) :
  frozenset_eqb l1 l2 = true → frozenset_eqb l2 l1 = true.
Proof. rewrite !frozenset_eqb_true. intros Heq x. by rewrite Heq. Qed.

Lemma frozenset_eqb_trans (l1 l2 l3 : list V) :
  frozenset_eqb l1 l2 = true → frozenset_eqb l2 l3 = true → frozenset_eqb l1 l3 = true.
Proof. rewrite !frozenset_eqb_true. intros H1 H2 x. by rewrite H1, H2. Qed.

(** The pairs (neighbour, vertex) in the order the loops visit them. *)
Definition nb_pairs sub : list (V * V) :=
  flat_map (λ v, map (λ v1, (v1, v)) (neighbors sub v)) (vertices sub).

Lemma elem_of_nb_pairs sub k v :
  (k, v) ∈ nb_pairs sub ↔ v ∈ vertices sub ∧ k ∈ neighbors sub v.
Proof.
  unfold nb_pairs. rewrite list_elem_of_In, in_flat_map. split.
  - intros (v' & Hv'%list_elem_of_In & Hin%list_elem_of_In).
    apply list_elem_of_fmap in Hin as (k' & [= -> ->] & Hk'). done.
  - intros [Hv Hk]. exists v. split; [by apply list_elem_of_In |].
    apply list_elem_of_In, list_elem_of_fmap. by exists k.
Qed.

Lemma vdict_fold sub (vs : list V) (d : list (V * list V)) :
  foldl (λ d v, foldl (λ d v1, vdict_append v1 v d) d (neighbors sub v)) d vs =
  foldl (λ d p, gdict_append eqV p.1 p.2 d) d
        (flat_map (λ v, map (λ v1, (v1, v)) (neighbors sub v)) vs).
Proof.
  revert d. induction vs as [| v vs IH]; intros d; simpl; [done |].
  rewrite foldl_app, IH. f_equal.
  generalize (neighbors sub v). intros l. revert d.
  induction l as [| v1 l IHl]; intros d; simpl; [done |].
  by rewrite IHl, vdict_append_gdict.
Qed.

Lemma sdict_fold (l : list (V * list V)) (d1 : list (list V * list V)) :
  foldl (λ d1 kv, sdict_append kv.2 kv.1 d1) d1 l =
  foldl (λ d p, gdict_append frozenset_eqb p.1 p.2 d) d1 (map (λ kv, (kv.2, kv.1)) l).
Proof.
  revert d1. induction l as [| kv l IH]; intros d1; simpl; [done |].
  by rewrite IH, sdict_append_gdict.
Qed.

Lemma prime_buckets_eq sub :
  prime_buckets sub =
  map snd (gdict_of frozenset_eqb
             (map (λ kv, (kv.2, kv.1)) (gdict_of eqV (nb_pairs sub)))).
Proof. unfold prime_buckets. by rewrite vdict_fold, sdict_fold. Qed.

Lemma keys_apart_NoDup {X} (d : list (V * list X)) :
  keys_apart eqV d → NoDup (map fst d).
Proof.
  induction d as [| [k l] d IH]; simpl; [constructor |].
  intros [Hk Hap]. constructor; [| by apply IH].
  intros (e & -> & He)%list_elem_of_fmap. specialize (Hk e He).
  unfold eqV in Hk. by rewrite bool_decide_eq_true_2 in Hk.
Qed.

Lemma vdict_inv {X} (ps : list (V * X)) : gdict_inv eqV ps (gdict_of eqV ps).
Proof.
  apply gdict_of_inv; unfold eqV.
  - intros a. by apply bool_decide_eq_true_2.
  - intros a1 a2 ->%bool_decide_eq_true_1. by apply bool_decide_eq_true_2.
  - by intros a1 a2 a3 ->%bool_decide_eq_true_1.
Qed.

Lemma sdict_inv {X} (ps : list (list V * X)) :
  gdict_inv frozenset_eqb ps (gdict_of frozenset_eqb ps).
Proof.
  apply gdict_of_inv;
    [apply frozenset_eqb_refl | apply frozenset_eqb_sym | apply frozenset_eqb_trans].
Qed.

Section prime.
Context (H : Graph V) (C : list (V * V)).
Context (HH : simple_graph H) (HC : gclass H C).
Context (Hspan : ∀ x, x ∈ vertices H ↔ x ∈ class_vertices C).

Lemma nb_pairs_cadj k v : (k, v) ∈ nb_pairs (subgraph_edges H C) ↔ cadj C v k.
Proof using HH HC.
  rewrite elem_of_nb_pairs, elem_of_neighbors, has_edge_subgraph_edges. simpl. split.
  - intros (_ & [_ Hc] & _). done.
  - intros Hc. pose proof (gc_edges _ _ HC v k Hc) as He.
    destruct (sg_closed _ HH _ _ He). done.
Qed.

Lemma nb_dict_mem k l x :
  (k, l) ∈ gdict_of eqV (nb_pairs (subgraph_edges H C)) → x ∈ l ↔ cadj C x k.
Proof using HH HC.
  intros Hin. rewrite (gd_mem _ _ _ (vdict_inv _) k l x Hin). split.
  - intros ([k' x'] & Hp & Hx & Hk). simpl in *. unfold eqV in Hk.
    apply bool_decide_eq_true_1 in Hk. subst. by apply nb_pairs_cadj.
  - intros Hc. exists (k, x). split; [by apply nb_pairs_cadj |]. split; [done |].
    unfold eqV. by apply bool_decide_eq_true_2.
Qed.

Lemma nb_dict_key x :
  x ∈ vertices H → ∃ l, (x, l) ∈ gdict_of eqV (nb_pairs (subgraph_edges H C)).
Proof using HH HC Hspan.
  intros (w & Hw)%Hspan%elem_of_class_vertices.
  destruct (gd_all _ _ _ (vdict_inv (nb_pairs (subgraph_edges H C))) (x, w))
    as (k & l & Hin & Hk).
  { apply nb_pairs_cadj. by apply cadj_sym. }
  unfold eqV in Hk. apply bool_decide_eq_true_1 in Hk. simpl in Hk. subst k. by exists l.
Qed.

Lemma nb_dict_keys : map fst (gdict_of eqV (nb_pairs (subgraph_edges H C))) ≡ₚ vertices H.
Proof using HH HC Hspan.
  apply NoDup_Permutation.
  - apply keys_apart_NoDup, (gd_apart _ _ _ (vdict_inv _)).
  - apply (sg_nodup _ HH).
  - intros x. split.
    + intros ([k l] & -> & Hin)%list_elem_of_fmap. simpl.
      destruct (gd_key _ _ _ (vdict_inv _) k l Hin) as ([k' v] & Hp & <-).
      apply nb_pairs_cadj in Hp. apply Hspan, elem_of_class_vertices. exists v.
      by apply cadj_sym.
    + intros (l & Hl)%nb_dict_key. apply list_elem_of_fmap. by exists (x, l).
Qed.

Lemma prime_buckets_perm : concat (prime_buckets (subgraph_edges H C)) ≡ₚ vertices H.
Proof using HH HC Hspan.
  rewrite prime_buckets_eq, gdict_of_perm, map_map. simpl. apply nb_dict_keys.
Qed.

Lemma prime_buckets_mem b :
  b ∈ prime_buckets (subgraph_edges H C) →
  ∃ K : list V, ∀ y, y ∈ b ↔ y ∈ vertices H ∧ ∀ w, cadj C w y ↔ w ∈ K.
Proof using HH HC Hspan.
  rewrite prime_buckets_eq. intros ([K b'] & -> & Hin)%list_elem_of_fmap. simpl.
  exists K. intros y. rewrite (gd_mem _ _ _ (sdict_inv _) K b' y Hin). split.
  - intros ([l y'] & Hp & Hy & Hl). simpl in *. subst y'.
    apply list_elem_of_fmap in Hp as ([k l'] & Heq & Hd). simpl in Heq.
    injection Heq as <- <-. split.
    + rewrite <- nb_dict_keys. apply list_elem_of_fmap. by exists (y, l).
    + intros w. rewrite <- (nb_dict_mem y l w Hd). rewrite frozenset_eqb_true in Hl. apply Hl.
  - intros [Hy Hw]. destruct (nb_dict_key y Hy) as [l Hl].
    exists (l, y). split; [| split; [done |]].
    + apply list_elem_of_fmap. by exists (y, l).
    + simpl. apply frozenset_eqb_true. intros w. by rewrite (nb_dict_mem y l w Hl).
Qed.

(** Every bucket is a module that leaves a vertex out. *)
Lemma prime_bucket_module b :
  b ∈ prime_buckets (subgraph_edges H C) →
  module H b ∧ (∀ y, y ∈ b → y ∈ vertices H) ∧
  ((1 ≤ order H)%nat → ∃ x, x ∈ vertices H ∧ x ∉ b).
Proof using HH HC Hspan.
  intros (K & HK)%prime_buckets_mem. split; [| split].
  - intros x u u' Hx Hnx [Hu HuK]%HK [Hu' Hu'K]%HK.
    apply (gclass_bucket_module H C); [done | done | by apply Hspan | |].
    + intros w. split; intros Hc%cadj_sym; apply cadj_sym.
      * by apply Hu'K, HuK.
      * by apply HuK, Hu'K.
    + intros Hsame. apply Hnx, HK. split; [done |]. intros w. rewrite <- HuK.
      split; intros Hc%cadj_sym; apply cadj_sym; by apply Hsame.
  - by intros y [? _]%HK.
  - intros Hord.
    assert (∃ v0, v0 ∈ vertices H) as [v0 Hv0'].
    { unfold order in Hord. destruct (vertices H) as [| v0 vs]; [simpl in Hord; lia |].
      exists v0. by left. }
    destruct (decide (v0 ∈ b)) as [Hin | Hn]; [| by exists v0].
    apply HK in Hin as [Hv0 Hv0K].
    apply Hspan, elem_of_class_vertices in Hv0' as (w & Hw).
    exists w. split.
    + apply (gc_edges _ _ HC), (sg_closed _ HH) in Hw. tauto.
    + intros [_ HwK]%HK. apply cadj_sym in Hw. apply Hv0K, HwK in Hw.
      apply (gc_edges _ _ HC) in Hw. by rewrite (sg_irrefl _ HH) in Hw.
Qed.

End prime.
End buckets.

(** ** The trees of the Habib-Maurer decomposer *)

Section trees.
Context {V : Type}.

(** A node and all the nodes below it. *)
Fixpoint subtrees (t : Node V) : list (Node V) :=
  t :: match t with
       | Normal _ => []
       | Inner _ cs => concat (map subtrees cs)
       end.

(** No [SERIES] node under a [SERIES] node, no [PARALLEL] node under a
    [PARALLEL] node. *)
Definition no_degenerate_nesting (t : Node V) : Prop :=
  ∀ ty cs c, Inner ty cs ∈ subtrees t → c ∈ cs →
    (ty = SERIES → node_type c ≠ SERIES) ∧ (ty = PARALLEL → node_type c ≠ PARALLEL).

Lemma subtrees_self (t : Node V) : t ∈ subtrees t.
Proof. destruct t; by left. Qed.

Lemma elem_of_subtrees_Inner (n : Node V) ty cs :
  n ∈ subtrees (Inner ty cs) ↔ n = Inner ty cs ∨ ∃ c, c ∈ cs ∧ n ∈ subtrees c.
Proof.
  simpl. rewrite elem_of_cons, elem_of_concat. split.
  - intros [-> | (l & Hn & (c & -> & Hc)%list_elem_of_fmap)]; [by left |].
    right. by exists c.
  - intros [-> | (c & Hc & Hn)]; [by left |]. right. exists (subtrees c).
    split; [done |]. by apply list_elem_of_fmap_2.
Qed.

Lemma subtrees_vertices (t n : Node V) :
  n ∈ subtrees t → ∀ v, v ∈ get_vertices n → v ∈ get_vertices t.
Proof.
  revert n. induction t as [v0 | ty cs IH] using Node_ind'; intros n.
  - simpl. by intros ->%list_elem_of_singleton.
  - intros [-> | (c & Hc & Hn)]%elem_of_subtrees_Inner v Hv; [done |].
    rewrite Forall_forall in IH. simpl. apply elem_of_concat.
    exists (get_vertices c). split; [by apply (IH c Hc n) | by apply list_elem_of_fmap_2].
Qed.

Lemma result_mapM_Ok {A B} (f : A → result B) (P : A → B → Prop) (l : list A) :
  (∀ x, x ∈ l → ∃ y, f x = Ok y ∧ P x y) →
  ∃ ys, result_mapM f l = Ok ys ∧ Forall2 P l ys.
Proof.
  induction l as [| x l IH]; intros Hl; simpl.
  - exists []. by split.
  - destruct (Hl x) as (y & Hy & HP); [by left |].
    destruct IH as (ys & Hys & HF); [intros x' Hx'; apply Hl; by right |].
    exists (y :: ys). rewrite Hy, Hys. split; [done | by constructor].
Qed.

Lemma concat_perm {T} (l1 l2 : list (list T)) :
  Forall2 (≡ₚ) l1 l2 → concat l1 ≡ₚ concat l2.
Proof. induction 1 as [| a b l1 l2 Hab _ IH]; simpl; [done | by rewrite Hab, IH]. Qed.

Lemma NoDup_concat_elem {T} (ls : list (list T)) (l : list T) :
  NoDup (concat ls) → l ∈ ls → NoDup l.
Proof.
  induction ls as [| l0 ls IH]; simpl; [by intros _ ?%elem_of_nil |].
  intros [H0 [_ Hls]]%NoDup_app [-> | Hin]%elem_of_cons; [done | by apply IH].
Qed.

End trees.

Section decomposer.
Context {V : Type} `{EqDecision V}.
Implicit Types (G H A : Graph V) (u v w x y : V) (C : list (V * V)) (t n : Node V)
  (sg : list V).

(** Every inner node spans a module of [G]. *)
Definition modules_of G t : Prop :=
  ∀ ty cs, Inner ty cs ∈ subtrees t → module G (get_vertices (Inner ty cs)).

Lemma module_ext G (M M' : list V) : (∀ x, x ∈ M ↔ x ∈ M') → module G M → module G M'.
Proof.
  intros Heq HM x u u' Hx Hnx Hu Hu'. apply HM; [done | | |]; rewrite ?Heq; done.
Qed.

Lemma filter_in_perm (sg l : list V) :
  NoDup sg → NoDup l → (∀ x, x ∈ sg → x ∈ l) → filter (λ v, v ∈ sg) l ≡ₚ sg.
Proof.
  intros Hsg Hl Hsub. apply NoDup_Permutation; [by apply NoDup_filter | done |].
  intros x. rewrite list_elem_of_filter. split; [tauto | auto].
Qed.

Lemma induced_refl G : induced G G.
Proof. by split. Qed.

Lemma induced_subgraph A H sg : induced A H → induced A (subgraph H sg).
Proof.
  intros [Hv He]. split.
  - intros v [_ Hv']%vertices_subgraph. by apply Hv.
  - intros u v [Hu Hu']%vertices_subgraph [Hv0 Hv']%vertices_subgraph.
    rewrite <- He by done. simpl. unfold mem. by rewrite !bool_decide_eq_true_2.
Qed.

Lemma module_subgraph A H sg :
  induced A H → module A (vertices H) → module H sg →
  module A (vertices (subgraph H sg)).
Proof.
  intros [Hv He] HA Hsg x u u' Hx Hnx [Hu Hu0]%vertices_subgraph [Hu' Hu0']%vertices_subgraph.
  destruct (decide (x ∈ vertices H)) as [HxH | HxH].
  - rewrite <- !He by done. apply Hsg; try done.
    intros Hxsg. apply Hnx. by apply vertices_subgraph.
  - by apply HA.
Qed.

(** A class of an induced subgraph on a module is a class of the graph. *)
Lemma gclass_extend A H C :
  simple_graph A → simple_graph H → induced A H → module A (vertices H) →
  gclass H C → gclass A C.
Proof.
  intros HA HH [Hv He] HM HC.
  assert (∀ u w, cadj C u w → u ∈ vertices H ∧ w ∈ vertices H) as Hin.
  { intros u w Hc. apply (gc_edges _ _ HC), (sg_closed _ HH) in Hc. done. }
  split.
  - intros u w Hc. destruct (Hin u w Hc). rewrite <- He by done. by apply (gc_edges _ _ HC).
  - intros e f Hef Hf. pose proof (gc_conn _ _ HC e f Hef Hf) as Hrtc.
    eapply rtc_subrel; [| exact Hrtc].
    intros e1 e2 (v & x & y & H1 & H2 & Hx & Hy & Hxy).
    destruct (sg_closed _ HH _ _ Hx), (sg_closed _ HH _ _ Hy).
    exists v, x, y. rewrite <- !He by done. done.
  - intros v x y Hc Hy Hxy. destruct (Hin v x Hc) as [Hv' Hx'].
    destruct (decide (y ∈ vertices H)) as [HyH | HyH].
    + apply (gc_closed _ _ HC v x y); [done | |]; by rewrite He.
    + exfalso. destruct (sg_closed _ HA _ _ Hy) as [_ HyA].
      rewrite (HM y v x HyA HyH Hv' Hx') in Hy. congruence.
Qed.


(** What the decomposer is called with: a simple graph and, when classes
    are passed down, the classes of a graph of which it is the subgraph
    induced by a module. *)
Definition hm_inv H (gc : option (list (list V * list (V * V)))) : Prop :=
  simple_graph H ∧
  match gc with
  | None => True
  | Some g => ∃ A, simple_graph A ∧ g = gamma_classes A ∧ induced A H ∧
                   module A (vertices H)
  end.

(** What it returns. *)
Definition hm_spec H t : Prop :=
  get_vertices t ≡ₚ vertices H ∧ modules_of H t ∧ no_degenerate_nesting t ∧
  (node_type t = PARALLEL → is_connected H = false) ∧
  (node_type t = SERIES → is_connected (complement H) = false).

Lemma hm_unfold fuel H gc :
  is_directed H = false → (2 ≤ order H)%nat →
  habib_maurer_algorithm (S fuel) H gc =
  if negb (is_connected H) then
    children ← result_mapM (λ sg, habib_maurer_algorithm fuel (subgraph H sg) gc)
                 (connected_components H);
    Ok (Inner PARALLEL children)
  else
    if is_connected (complement H) then
      let g := match gc with None => gamma_classes H | Some g => g end in
      match fdict_get (vertices H) g with
      | None => Raise KeyError
      | Some edges =>
          children ← result_mapM
            (λ sg, habib_maurer_algorithm fuel (subgraph H sg) (Some g))
            (prime_buckets (subgraph_edges H edges));
          Ok (Inner PRIME children)
      end
    else
      children ← result_mapM (λ sg, habib_maurer_algorithm fuel (subgraph H sg) gc)
                   (connected_components (complement H));
      Ok (Inner SERIES children).
Proof.
  intros Hd Hord. unfold order in Hord. simpl. rewrite Hd.
  destruct (vertices H) as [| v0 [| v1 rest]] eqn:E; simpl in Hord; [lia | lia |].
  done.
Qed.

Lemma children_spec H (L : list (list V)) (ts : list (Node V)) ty :
  simple_graph H → concat L ≡ₚ vertices H → (∀ sg, sg ∈ L → module H sg) →
  Forall2 (λ sg t, hm_spec (subgraph H sg) t) L ts →
  (∀ t, t ∈ ts → (ty = SERIES → node_type t ≠ SERIES) ∧
                 (ty = PARALLEL → node_type t ≠ PARALLEL)) →
  get_vertices (Inner ty ts) ≡ₚ vertices H ∧ modules_of H (Inner ty ts) ∧
  no_degenerate_nesting (Inner ty ts).
Proof.
  intros HH Hperm Hmod HF Hty. pose proof (sg_nodup _ HH) as Hnd.
  assert (NoDup (concat L)) as HndL by by rewrite Hperm.
  assert (∀ sg, sg ∈ L → vertices (subgraph H sg) ≡ₚ sg) as Hsgv.
  { intros sg Hsg. simpl. apply filter_in_perm; [by eapply NoDup_concat_elem | done |].
    intros x Hx. rewrite <- Hperm. apply elem_of_concat. by exists sg. }
  assert (get_vertices (Inner ty ts) ≡ₚ vertices H) as Hgv.
  { rewrite <- Hperm. simpl. apply concat_perm.
    clear Hty Hmod HndL Hperm. revert Hsgv.
    induction HF as [| sg t L' ts' Hst _ IH]; intros Hsgv; simpl; constructor.
    - destruct Hst as [-> _]. apply Hsgv. by left.
    - apply IH. intros sg' Hsg'. apply Hsgv. by right. }
  assert (∀ t, t ∈ ts → ∃ sg, sg ∈ L ∧ hm_spec (subgraph H sg) t) as Hchild.
  { intros t Ht. apply list_elem_of_lookup in Ht as [i Hi].
    destruct (Forall2_lookup_r _ _ _ _ _ HF Hi) as (sg & Hsg & Hst).
    exists sg. split; [by eapply list_elem_of_lookup_2 | done]. }
  split; [done |]. split.
  - intros ty' cs' [[= -> ->] | (c & Hc & Hn)]%elem_of_subtrees_Inner.
    + intros x u u' Hx Hnx. exfalso. apply Hnx. by rewrite Hgv.
    + destruct (Hchild c Hc) as (sg & Hsg & Hgvc & Hmc & _).
      assert (∀ x, x ∈ sg → x ∈ vertices H) as Hsub.
      { intros x Hx. rewrite <- Hperm. apply elem_of_concat. by exists sg. }
      apply (module_trans H sg); [done | by apply Hmod | done | by apply Hmc |].
      intros x Hx. apply (subtrees_vertices c _ Hn) in Hx.
      rewrite Hgvc in Hx. by apply vertices_subgraph in Hx as [? _].
  - intros ty' cs' c' [[= -> ->] | (c & Hc & Hn)]%elem_of_subtrees_Inner Hc'.
    + by apply Hty.
    + destruct (Hchild c Hc) as (sg & Hsg & _ & _ & Hnest & _).
      by apply (Hnest ty' cs' c').
Qed.


(** The classes handed to the children of a prime node. *)
Lemma hm_inv_child H gc sg :
  hm_inv H gc → module H sg → hm_inv (subgraph H sg) gc.
Proof.
  intros [HH Hgc] Hsg. split; [by apply simple_subgraph |].
  destruct gc as [g |]; [| done].
  destruct Hgc as (A & HA & -> & Hind & HM). exists A.
  split; [done |]. split; [done |]. split; [by apply induced_subgraph |].
  by apply module_subgraph.
Qed.

Lemma hm_inv_child_own H sg :
  simple_graph H → module H sg → hm_inv (subgraph H sg) (Some (gamma_classes H)).
Proof.
  intros HH Hsg. apply (hm_inv_child H (Some (gamma_classes H))); [| done].
  split; [done |]. exists H. split; [done |]. split; [done |].
  split; [apply induced_refl |]. intros x u u' Hx Hnx. done.
Qed.

(** The class the prime case looks up. *)
Lemma hm_prime_lookup H gc :
  hm_inv H gc → conn H → conn (complement H) → (2 ≤ order H)%nat →
  ∃ C, fdict_get (vertices H) (match gc with None => gamma_classes H | Some g => g end)
       = Some C ∧
       gclass H C ∧ ∀ x, x ∈ vertices H ↔ x ∈ class_vertices C.
Proof.
  intros [HH Hgc] Hc Hco Hord.
  destruct (spanning_class H HH Hc Hco Hord) as (C0 & HC0 & Hspan0).
  destruct (ds_sets_gclass H HH C0 HC0) as [Hg0 Hne0].
  assert (∃ a b, cadj C0 a b ∧ a ∈ vertices H ∧ b ∈ vertices H) as (a & b & Hab & Ha & Hb).
  { destruct C0 as [| [a b] C0]; [done |]. exists a, b.
    assert (cadj ((a, b) :: C0) a b) as Hab by (apply cadj_iff; left; by left).
    split; [done |]. by apply (gc_edges _ _ Hg0), (sg_closed _ HH) in Hab. }
  destruct gc as [g |].
  - destruct Hgc as (A & HA & -> & Hind & HM).
    pose proof (gclass_extend A H C0 HA HH Hind HM Hg0) as HgA.
    destruct (gamma_classes_lookup A HA (vertices H) C0 HgA Hne0 Hspan0)
      as (C & Hget & HgC & Hsame).
    exists C. split; [done |]. split.
    + apply (gclass_restrict A H C a b); try done. by apply Hsame.
    + intros x. rewrite Hspan0, !elem_of_class_vertices. by setoid_rewrite Hsame.
  - destruct (gamma_classes_lookup H HH (vertices H) C0 Hg0 Hne0 Hspan0)
      as (C & Hget & HgC & Hsame).
    exists C. split; [done |]. split; [done |].
    intros x. rewrite Hspan0, !elem_of_class_vertices. by setoid_rewrite Hsame.
Qed.


Lemma Forall2_child {S T} (P : S → T → Prop) (l : list S) (k : list T) (t0 : T) :
  Forall2 P l k → t0 ∈ k → ∃ s0, s0 ∈ l ∧ P s0 t0.
Proof.
  intros HF Hb. apply list_elem_of_lookup in Hb as [i Hi].
  destruct (Forall2_lookup_r _ _ _ _ _ HF Hi) as (s0 & Ha & HP).
  exists s0. split; [by eapply list_elem_of_lookup_2 | done].
Qed.

(** The decomposer returns a tree, and the tree is as it should be. *)
Lemma hm_main (fuel : nat) :
  ∀ H gc, (order H < fuel)%nat → hm_inv H gc →
    ∃ t, habib_maurer_algorithm fuel H gc = Ok t ∧ hm_spec H t.
Proof.
  induction fuel as [| fuel IH]; intros H gc Hord Hinv; [lia |].
  pose proof Hinv as [HH Hgc].
  assert (vertices H = [] ∨ (∃ v, vertices H = [v]) ∨ (2 ≤ order H)%nat) as Hcases.
  { unfold order. destruct (vertices H) as [| v0 [| v1 rest]]; simpl; eauto with lia. }
  destruct Hcases as [E | [[v E] | Hbig]].
  - exists (Inner PRIME []). split; [simpl; by rewrite (sg_undirected _ HH), E |].
    split; [by rewrite E |]. split; [| split; [| done]].
    + intros ty cs Hin x u u' _ _ Hu. simpl in Hin.
      apply list_elem_of_singleton in Hin. injection Hin as -> ->. by apply elem_of_nil in Hu.
    + intros ty cs c Hin Hc. simpl in Hin.
      apply list_elem_of_singleton in Hin. injection Hin as -> ->. by apply elem_of_nil in Hc.
  - exists (Normal v). split; [simpl; by rewrite (sg_undirected _ HH), E |].
    split; [by rewrite E |]. split; [| split; [| done]].
    + intros ty cs Hin. simpl in Hin. by apply list_elem_of_singleton in Hin.
    + intros ty cs c Hin. simpl in Hin. by apply list_elem_of_singleton in Hin.
  - rewrite (hm_unfold fuel H gc (sg_undirected _ HH) Hbig).
    destruct (is_connected H) eqn:Hcon; simpl.
    + pose proof (simple_complement H HH) as HHc.
      destruct (is_connected (complement H)) eqn:Hcoc.
      * (* prime *)
        destruct (hm_prime_lookup H gc Hinv) as (C & Hget & HgC & Hspan);
          [by apply is_connected_conn | by apply is_connected_conn | done |].
        simpl. rewrite Hget.
        pose proof (prime_bucket_module H C HH HgC Hspan) as Hbuckets.
        destruct (result_mapM_Ok
          (λ sg, habib_maurer_algorithm fuel (subgraph H sg)
                   (Some (match gc with None => gamma_classes H | Some g => g end)))
          (λ sg t, hm_spec (subgraph H sg) t)
          (prime_buckets (subgraph_edges H C))) as (ts & Hts & HF).
        { intros b Hb. destruct (Hbuckets b Hb) as (Hmod & Hsub & Hprop).
          destruct Hprop as (x & Hx & Hnx); [lia |]. apply IH.
          - pose proof (subgraph_order_lt H b x Hx Hnx). lia.
          - destruct gc as [g |]; [by apply hm_inv_child | by apply hm_inv_child_own]. }
        rewrite Hts. simpl. eexists. split; [done |].
        destruct (children_spec H _ ts PRIME HH (prime_buckets_perm H C HH HgC Hspan))
          as (Hgv & Hm & Hn); [| exact HF | | done].
        { intros sg Hsg. by destruct (Hbuckets sg Hsg). }
        { by intros t Ht. }
      * (* series *)
        destruct (connected_components_spec (complement H) HHc) as [Hperm Hall].
        rewrite Forall_forall in Hall.
        destruct (result_mapM_Ok
          (λ sg, habib_maurer_algorithm fuel (subgraph H sg) gc)
          (λ sg t, hm_spec (subgraph H sg) t)
          (connected_components (complement H))) as (ts & Hts & HF).
        { intros cc Hcc. destruct (Hall cc Hcc) as (r & Hr & ->). apply IH.
          - destruct (component_proper (complement H) r HHc Hcoc Hr) as (x & Hx & Hnx).
            pose proof (subgraph_order_lt H (reach (complement H) r) x Hx Hnx). lia.
          - apply hm_inv_child; [done | by apply co_component_module]. }
        rewrite Hts. simpl. eexists. split; [done |].
        destruct (children_spec H _ ts SERIES HH Hperm) as (Hgv & Hm & Hn); [| exact HF | | done].
        { intros sg Hsg. destruct (Hall sg Hsg) as (r & Hr & ->). by apply co_component_module. }
        { intros t Ht. split; [| done]. intros _ Hser.
          destruct (Forall2_child _ _ _ t HF Ht) as (sg & Hsg & Hst).
          destruct (Hall sg Hsg) as (r & Hr & ->).
          destruct Hst as (_ & _ & _ & _ & Hs). specialize (Hs Hser).
          rewrite conn_is_connected in Hs; [done | | by apply co_component_conn].
          by apply simple_complement, simple_subgraph. }
    + (* parallel *)
      destruct (connected_components_spec H HH) as [Hperm Hall].
      rewrite Forall_forall in Hall.
      destruct (result_mapM_Ok
        (λ sg, habib_maurer_algorithm fuel (subgraph H sg) gc)
        (λ sg t, hm_spec (subgraph H sg) t)
        (connected_components H)) as (ts & Hts & HF).
      { intros cc Hcc. destruct (Hall cc Hcc) as (r & Hr & ->). apply IH.
        - destruct (component_proper H r HH Hcon Hr) as (x & Hx & Hnx).
          pose proof (subgraph_order_lt H (reach H r) x Hx Hnx). lia.
        - apply hm_inv_child; [done | by apply component_module]. }
      rewrite Hts. simpl. eexists. split; [done |].
      destruct (children_spec H _ ts PARALLEL HH Hperm) as (Hgv & Hm & Hn); [| exact HF | | done].
      { intros sg Hsg. destruct (Hall sg Hsg) as (r & Hr & ->). by apply component_module. }
      { intros t Ht. split; [done |]. intros _ Hpar.
        destruct (Forall2_child _ _ _ t HF Ht) as (sg & Hsg & Hst).
        destruct (Hall sg Hsg) as (r & Hr & ->).
        destruct Hst as (_ & _ & _ & Hp & _). specialize (Hp Hpar).
        rewrite conn_is_connected in Hp; [done | by apply simple_subgraph |
                                          by apply component_conn]. }
Qed.

End decomposer.

(** ** Graphs without edges and complete graphs *)

Section base_cases.
Context {V : Type} `{EqDecision V}.
Implicit Types (G : Graph V) (u v w x y : V).

Definition edgeless G : Prop := ∀ u v, has_edge G u v = false.

Definition complete G : Prop :=
  ∀ u v, u ∈ vertices G → v ∈ vertices G → u ≠ v → has_edge G u v = true.

Lemma reach_step_edgeless G (found : list V) : edgeless G → reach_step G found = found.
Proof.
  intros He. unfold reach_step. rewrite filter_none; [by rewrite app_nil_r |].
  intros w _ [_ Hex]. apply existsb_exists in Hex as (u & _ & Hu). by rewrite He in Hu.
Qed.

Lemma reach_edgeless G v : edgeless G → reach G v = [v].
Proof.
  intros He. unfold reach. induction (order G) as [| n IH]; simpl; [done |].
  by rewrite IH, reach_step_edgeless.
Qed.

Lemma components_aux_edgeless G fuel (todo : list V) :
  edgeless G → NoDup todo → (length todo ≤ fuel)%nat →
  components_aux fuel G todo = map (λ v, [v]) todo.
Proof.
  intros He. revert todo. induction fuel as [| fuel IH]; intros todo Hnd Hlen.
  - destruct todo; [done | simpl in Hlen; lia].
  - destruct todo as [| v todo]; [done |]. simpl.
    apply NoDup_cons in Hnd as [Hv Hnd]. rewrite reach_edgeless by done.
    rewrite filter_cons, decide_False by (intros Hn; apply Hn; by left).
    f_equal. rewrite <- (IH todo) by (simpl in Hlen; done || lia).
    f_equal. clear IH Hlen Hnd. induction todo as [| w todo IHt]; [done |].
    rewrite filter_cons. rewrite decide_True.
    + f_equal. apply IHt. intros Hin. apply Hv. by right.
    + intros ->%list_elem_of_singleton. apply Hv. by left.
Qed.

Lemma connected_components_edgeless G :
  edgeless G → NoDup (vertices G) →
  connected_components G = map (λ v, [v]) (vertices G).
Proof. intros He Hnd. by apply components_aux_edgeless. Qed.

Lemma is_connected_edgeless G :
  edgeless G → NoDup (vertices G) → (2 ≤ order G)%nat → is_connected G = false.
Proof.
  intros He Hnd Hord. unfold is_connected. apply bool_decide_eq_false_2.
  rewrite connected_components_edgeless, length_map by done. unfold order in Hord. lia.
Qed.

Lemma complement_complete_edgeless G : complete G → edgeless (complement G).
Proof.
  intros Hc u v. destruct (has_edge (complement G) u v) eqn:E; [| done].
  apply has_edge_complement in E as (Hu & Hv & Hne & Hnon).
  by rewrite Hc in Hnon.
Qed.

Lemma conn_complete G : complete G → conn G.
Proof using Type*.
  intros Hc u w Hu Hw. destruct (decide (u = w)) as [-> | Hne]; [apply rtc_refl |].
  apply rtc_once. split; [by apply Hc | done].
Qed.

Lemma result_mapM_singletons {T} (f : list V → result T) (g : V → T) (l : list V) :
  (∀ v, v ∈ l → f [v] = Ok (g v)) →
  result_mapM f (map (λ v, [v]) l) = Ok (map g l).
Proof.
  induction l as [| v l IH]; intros Hf; simpl; [done |].
  rewrite Hf by by left. rewrite IH; [done |]. intros w Hw. apply Hf. by right.
Qed.

Lemma hm_singleton_child G fuel gc v :
  simple_graph G → v ∈ vertices G →
  habib_maurer_algorithm (S fuel) (subgraph G [v]) gc = Ok (Normal v).
Proof.
  intros HG Hv. simpl. rewrite (sg_undirected _ HG).
  assert (filter (λ w, w ∈ [v]) (vertices G) = [v]) as ->; [| done].
  pose proof (sg_nodup _ HG) as Hnd. revert Hv Hnd.
  induction (vertices G) as [| w l IH]; [by intros ?%elem_of_nil |].
  intros Hv [Hw Hnd]%NoDup_cons. rewrite filter_cons.
  destruct (decide (w ∈ [v])) as [->%list_elem_of_singleton | Hne].
  - f_equal. apply filter_none. intros t Ht ->%list_elem_of_singleton. done.
  - apply IH; [| done]. apply elem_of_cons in Hv as [-> | ?]; [| done].
    exfalso. apply Hne. by left.
Qed.

Lemma hm_empty G :
  is_directed G = false → vertices G = [] → habib_maurer G = Ok (Inner PRIME []).
Proof. intros Hd E. unfold habib_maurer. simpl. by rewrite Hd, E. Qed.

Lemma hm_single G v :
  is_directed G = false → vertices G = [v] → habib_maurer G = Ok (Normal v).
Proof. intros Hd E. unfold habib_maurer. simpl. by rewrite Hd, E. Qed.

Lemma hm_edgeless G :
  simple_graph G → edgeless G → (2 ≤ order G)%nat →
  habib_maurer G = Ok (Inner PARALLEL (map Normal (vertices G))).
Proof.
  intros HG He Hord. unfold habib_maurer.
  rewrite (hm_unfold _ G None (sg_undirected _ HG) Hord).
  rewrite is_connected_edgeless by (done || apply (sg_nodup _ HG)). simpl.
  rewrite connected_components_edgeless by (done || apply (sg_nodup _ HG)).
  rewrite (result_mapM_singletons _ Normal); [done |].
  intros v Hv. destruct (order G) as [| n] eqn:E; [lia |]. by apply hm_singleton_child.
Qed.

Lemma hm_complete G :
  simple_graph G → complete G → (2 ≤ order G)%nat →
  habib_maurer G = Ok (Inner SERIES (map Normal (vertices G))).
Proof.
  intros HG Hc Hord. unfold habib_maurer.
  rewrite (hm_unfold _ G None (sg_undirected _ HG) Hord).
  rewrite conn_is_connected by (done || by apply conn_complete). simpl.
  pose proof (complement_complete_edgeless G Hc) as Hce.
  rewrite is_connected_edgeless by (done || apply (sg_nodup _ HG)).
  rewrite connected_components_edgeless by (done || apply (sg_nodup _ HG)). simpl.
  rewrite (result_mapM_singletons _ Normal); [done |].
  intros v Hv. destruct (order G) as [| n] eqn:E; [lia |]. by apply hm_singleton_child.
Qed.

End base_cases.

(** ** Relabelled graphs *)

Section relabelling.
Context {V : Type} `{EqDecision V} (π : V → V).
Implicit Types (G H : Graph V) (u v w x y r : V) (sg : list V) (C : list (V * V)).

(** [H'] is [H] with every vertex [v] renamed to [π v]; nothing is said
    about the order in which [H'] lists its vertices. *)
Record relabels (H H' : Graph V) : Prop := {
  rl_inj : ∀ u v, u ∈ vertices H → v ∈ vertices H → π u = π v → u = v;
  rl_vertices : ∀ x, x ∈ vertices H' ↔ ∃ u, u ∈ vertices H ∧ x = π u;
  rl_edges : ∀ u v, u ∈ vertices H → v ∈ vertices H →
             has_edge H' (π u) (π v) = has_edge H u v
}.

(** [sg'] holds the new names of the vertices in [sg]. *)
Definition image (sg sg' : list V) : Prop := ∀ x, x ∈ sg' ↔ ∃ u, u ∈ sg ∧ x = π u.

Section one_graph.
Context (H H' : Graph V) (HH : simple_graph H) (HH' : simple_graph H').
Context (Hrl : relabels H H').

Lemma rl_vertex u : u ∈ vertices H → π u ∈ vertices H'.
Proof using Hrl. intros Hu. apply (rl_vertices _ _ Hrl). by exists u. Qed.

Lemma rl_perm : vertices H' ≡ₚ map π (vertices H).
Proof using HH HH' Hrl.
  apply NoDup_Permutation; [apply (sg_nodup _ HH') | |].
  - apply NoDup_fmap_2_strong; [| apply (sg_nodup _ HH)].
    intros u v Hu Hv. by apply (rl_inj _ _ Hrl).
  - intros x. rewrite (rl_vertices _ _ Hrl), list_elem_of_fmap. split.
    + intros (u & Hu & ->). by exists u.
    + intros (u & -> & Hu). by exists u.
Qed.

Lemma rl_order : order H' = order H.
Proof using HH HH' Hrl. unfold order. by rewrite rl_perm, length_map. Qed.

Lemma rl_path u w : u ∈ vertices H → path H u w → path H' (π u) (π w).
Proof using Hrl.
  intros Hu Hp.
  assert (w ∈ vertices H ∧ path H' (π u) (π w)) as [_ ?]; [| done].
  revert w Hp. apply (rtc_ind_r (λ w, w ∈ vertices H ∧ path H' (π u) (π w))).
  - split; [done | apply rtc_refl].
  - intros b c _ [Hbc Hc] [Hb IH]. split; [done |].
    eapply rtc_r; [exact IH |]. split; [| by apply rl_vertex].
    by rewrite (rl_edges _ _ Hrl).
Qed.

Lemma rl_path_inv u y :
  u ∈ vertices H → path H' (π u) y → ∃ w, y = π w ∧ w ∈ vertices H ∧ path H u w.
Proof using Hrl.
  intros Hu. revert y.
  apply (rtc_ind_r (λ y, ∃ w, y = π w ∧ w ∈ vertices H ∧ path H u w)).
  - exists u. split; [done |]. split; [done | apply rtc_refl].
  - intros b c _ [Hbc Hc] (w & -> & Hw & IH).
    apply (rl_vertices _ _ Hrl) in Hc as (z & Hz & ->).
    exists z. split; [done |]. split; [done |].
    eapply rtc_r; [exact IH |]. split; [| done]. by rewrite <- (rl_edges _ _ Hrl).
Qed.

Lemma rl_conn : conn H ↔ conn H'.
Proof using Hrl.
  split.
  - intros Hc x y (u & Hu & ->)%(rl_vertices _ _ Hrl) (w & Hw & ->)%(rl_vertices _ _ Hrl).
    apply rl_path; [done | by apply Hc].
  - intros Hc u w Hu Hw.
    destruct (rl_path_inv u (π w) Hu) as (z & Hz & Hzv & Hp).
    { apply Hc; by apply rl_vertex. }
    by rewrite (rl_inj _ _ Hrl w z Hw Hzv Hz).
Qed.

Lemma rl_is_connected : is_connected H' = is_connected H.
Proof using HH HH' Hrl.
  destruct (is_connected H) eqn:E.
  - apply conn_is_connected; [done |]. apply rl_conn. by apply is_connected_conn.
  - destruct (is_connected H') eqn:E'; [| done].
    rewrite conn_is_connected in E; [done | done |].
    apply rl_conn. by apply is_connected_conn.
Qed.

Lemma rl_reach r : r ∈ vertices H → image (reach H r) (reach H' (π r)).
Proof using HH HH' Hrl.
  intros Hr x. pose proof (rl_vertex r Hr) as Hr'.
  rewrite elem_of_reach by (apply (sg_nodup _ HH') || done). split.
  - intros (w & -> & Hw & Hp)%rl_path_inv; [| done]. exists w. split; [| done].
    by apply elem_of_reach; [apply (sg_nodup _ HH) | |].
  - intros (w & Hw & ->). apply rl_path; [done |].
    by apply elem_of_reach in Hw; [| apply (sg_nodup _ HH) |].
Qed.

Lemma rl_complement : relabels (complement H) (complement H').
Proof using Hrl.
  split; simpl.
  - apply (rl_inj _ _ Hrl).
  - apply (rl_vertices _ _ Hrl).
  - intros u v Hu Hv. unfold mem.
    rewrite (bool_decide_eq_true_2 (π u ∈ vertices H')) by by apply rl_vertex.
    rewrite (bool_decide_eq_true_2 (π v ∈ vertices H')) by by apply rl_vertex.
    rewrite (bool_decide_eq_true_2 (u ∈ vertices H)) by done.
    rewrite (bool_decide_eq_true_2 (v ∈ vertices H)) by done. simpl.
    rewrite (rl_edges _ _ Hrl) by done. f_equal. f_equal.
    apply bool_decide_ext. split; [by apply (rl_inj _ _ Hrl) | by intros ->].
Qed.

Lemma rl_subgraph sg sg' :
  image sg sg' → (∀ u, u ∈ sg → u ∈ vertices H) →
  relabels (subgraph H sg) (subgraph H' sg').
Proof using Hrl.
  intros Him Hsub. split.
  - intros u v [_ Hu]%vertices_subgraph [_ Hv]%vertices_subgraph.
    by apply (rl_inj _ _ Hrl).
  - intros x. rewrite vertices_subgraph. split.
    + intros [(u & Hu & ->)%Him Hx]. exists u. split; [| done].
      apply vertices_subgraph. auto.
    + intros (u & [Hu Huv]%vertices_subgraph & ->). split; [| by apply rl_vertex].
      apply Him. by exists u.
  - intros u v [Hu Huv]%vertices_subgraph [Hv Hvv]%vertices_subgraph. simpl. unfold mem.
    rewrite (bool_decide_eq_true_2 (π u ∈ sg')) by (apply Him; by exists u).
    rewrite (bool_decide_eq_true_2 (π v ∈ sg')) by (apply Him; by exists v).
    rewrite (bool_decide_eq_true_2 (u ∈ sg)) by done.
    rewrite (bool_decide_eq_true_2 (v ∈ sg)) by done.
    simpl. by apply (rl_edges _ _ Hrl).
Qed.

End one_graph.

(** *** Relabelled trees *)

(** What [relabel_tree] returns for a callable. *)
Fixpoint relabel (t : Node V) : Node V :=
  match t with
  | Normal v => Normal (π v)
  | Inner ty cs => Inner ty (map relabel cs)
  end.

Lemma perm_lookup_callable (l : list V) v :
  v ∈ l → perm_lookup (map (λ i, (i, π i)) l) v = Ok (π v).
Proof.
  induction l as [| a l IH]; [by intros ?%elem_of_nil |]. simpl.
  intros Hv. case_bool_decide as E; [by subst |].
  apply IH. apply elem_of_cons in Hv as [? | ?]; done.
Qed.

Lemma relabel_with_callable (l : list V) (t : Node V) :
  (∀ v, v ∈ get_vertices t → v ∈ l) →
  relabel_with (map (λ i, (i, π i)) l) t = Ok (relabel t).
Proof.
  induction t as [v | ty cs IH] using Node_ind'; intros Hl.
  - simpl. rewrite perm_lookup_callable; [done |]. apply Hl. by left.
  - simpl.
    assert ((fix go (l0 : list (Node V)) : result (list (Node V)) :=
               match l0 with
               | [] => Ok []
               | c :: l' =>
                   c' ← relabel_with (map (λ i, (i, π i)) l) c; cs' ← go l'; Ok (c' :: cs')
               end) cs = Ok (map relabel cs)) as ->; [| done].
    simpl in Hl. induction cs as [| c cs IHcs]; [done |].
    apply Forall_cons in IH as [Hc Hcs]. simpl in Hl.
    rewrite Hc by (intros v Hv; apply Hl, elem_of_app; by left). simpl.
    rewrite IHcs; [done | done |]. intros v Hv. apply Hl, elem_of_app. by right.
Qed.

Lemma relabel_tree_callable (t : Node V) :
  relabel_tree t (PermCallable π) = Ok (relabel t).
Proof. unfold relabel_tree. by apply relabel_with_callable. Qed.

Lemma get_vertices_relabel (t : Node V) :
  get_vertices (relabel t) = map π (get_vertices t).
Proof.
  induction t as [v | ty cs IH] using Node_ind'; [done |]. simpl.
  rewrite map_map, concat_map, map_map. f_equal.
  induction cs as [| c cs IHcs]; [done |]. apply Forall_cons in IH as [Hc Hcs].
  simpl. by rewrite Hc, IHcs.
Qed.



(** *** Blocks of vertices that correspond *)

Definition blocks_match (L L' : list (list V)) : Prop :=
  (∀ sg, sg ∈ L → ∃ sg', sg' ∈ L' ∧ image sg sg') ∧
  (∀ sg', sg' ∈ L' → ∃ sg, sg ∈ L ∧ image sg sg').

Lemma reach_same G v w :
  simple_graph G → v ∈ vertices G → w ∈ reach G v →
  ∀ x, x ∈ reach G w ↔ x ∈ reach G v.
Proof.
  intros HG Hv Hw x. pose proof (reach_subset G v w Hv Hw) as Hwv. split.
  - intros Hx. by apply (reach_trans G v w x).
  - intros Hx. apply (reach_trans G w v x); [done | done | | done].
    by apply reach_sym.
Qed.

Lemma component_of G v :
  simple_graph G → v ∈ vertices G →
  ∃ cc, cc ∈ connected_components G ∧ ∀ x, x ∈ cc ↔ x ∈ reach G v.
Proof.
  intros HG Hv. destruct (connected_components_spec G HG) as [Hperm Hall].
  rewrite Forall_forall in Hall. pose proof Hv as Hv'.
  rewrite <- Hperm in Hv'. apply elem_of_concat in Hv' as (cc & Hvc & Hcc).
  exists cc. split; [done |]. destruct (Hall cc Hcc) as (r & Hr & ->).
  intros x. symmetry. by apply reach_same.
Qed.

Lemma components_match (H H' : Graph V) :
  simple_graph H → simple_graph H' → relabels H H' →
  blocks_match (connected_components H) (connected_components H').
Proof.
  intros HH HH' Hrl.
  destruct (connected_components_spec H HH) as [_ Hall].
  destruct (connected_components_spec H' HH') as [_ Hall'].
  rewrite Forall_forall in Hall, Hall'. split.
  - intros cc Hcc. destruct (Hall cc Hcc) as (r & Hr & ->).
    destruct (component_of H' (π r) HH' (rl_vertex H H' Hrl r Hr)) as (cc' & Hcc' & Heq).
    exists cc'. split; [done |]. intros x. rewrite Heq. by apply rl_reach.
  - intros cc' Hcc'. destruct (Hall' cc' Hcc') as (r' & Hr' & ->).
    apply (rl_vertices _ _ Hrl) in Hr' as (r & Hr & ->).
    destruct (component_of H r HH Hr) as (cc & Hcc & Heq).
    exists cc. split; [done |]. intros x.
    rewrite (rl_reach H H' HH HH' Hrl r Hr x). by setoid_rewrite Heq.
Qed.

(** *** The spanning classes correspond *)

Definition image_class C : list (V * V) := map (λ e, (π e.1, π e.2)) C.

Section classes.
Context (H H' : Graph V) (HH : simple_graph H) (HH' : simple_graph H').
Context (Hrl : relabels H H').
Context (C : list (V * V)) (HC : gclass H C).

Lemma cadj_in_graph u w : cadj C u w → u ∈ vertices H ∧ w ∈ vertices H.
Proof using HH HC. intros Hc. by apply (gc_edges _ _ HC), (sg_closed _ HH) in Hc. Qed.

Lemma elem_of_image_class x y :
  (x, y) ∈ image_class C ↔ ∃ u w, (u, w) ∈ C ∧ x = π u ∧ y = π w.
Proof.
  unfold image_class. rewrite list_elem_of_fmap. split.
  - intros ([u w] & [= -> ->] & Hin). by exists u, w.
  - intros (u & w & Hin & -> & ->). by exists (u, w).
Qed.

Lemma cadj_image_class_inv x y :
  cadj (image_class C) x y → ∃ u w, cadj C u w ∧ x = π u ∧ y = π w.
Proof.
  intros [(u & w & Hin & -> & ->)%elem_of_image_class |
          (u & w & Hin & -> & ->)%elem_of_image_class]%cadj_iff.
  - exists u, w. split; [apply cadj_iff; by left | done].
  - exists w, u. split; [apply cadj_iff; by right | done].
Qed.

Lemma cadj_image_class u w : cadj C u w → cadj (image_class C) (π u) (π w).
Proof.
  intros [Hin | Hin]%cadj_iff; apply cadj_iff; [left | right];
    apply elem_of_image_class; by eexists _, _.
Qed.

Lemma cadj_image_class_iff u w :
  u ∈ vertices H → w ∈ vertices H →
  cadj (image_class C) (π u) (π w) ↔ cadj C u w.
Proof using HH HC Hrl.
  intros Hu Hw. split; [| apply cadj_image_class].
  intros (u' & w' & Hc & Hu' & Hw')%cadj_image_class_inv.
  destruct (cadj_in_graph u' w' Hc) as [Hu'v Hw'v].
  apply (rl_inj _ _ Hrl) in Hu', Hw'; try done. by subst.
Qed.

Lemma gamma_step_image e f :
  gamma_step H e f → gamma_step H' (π e.1, π e.2) (π f.1, π f.2).
Proof using HH Hrl.
  intros (v & x & y & He & Hf & Hx & Hy & Hxy).
  destruct (sg_closed _ HH _ _ Hx) as [Hv Hxv], (sg_closed _ HH _ _ Hy) as [_ Hyv].
  exists (π v), (π x), (π y). rewrite !(rl_edges _ _ Hrl) by done.
  repeat split; try done.
  - apply edge_eqb_true in He as [-> | ->]; simpl; [apply edge_eqb_refl | apply edge_eqb_swap].
  - apply edge_eqb_true in Hf as [-> | ->]; simpl; [apply edge_eqb_refl | apply edge_eqb_swap].
Qed.

Lemma gclass_image : gclass H' (image_class C).
Proof using HH HH' HC Hrl.
  split.
  - intros x y (u & w & Hc & -> & ->)%cadj_image_class_inv.
    destruct (cadj_in_graph u w Hc). rewrite (rl_edges _ _ Hrl) by done.
    by apply (gc_edges _ _ HC).
  - intros e' f' ([u w] & -> & He)%list_elem_of_fmap ([a b] & -> & Hf)%list_elem_of_fmap.
    apply (rtc_congruence (R := gamma_step H) (λ e : V * V, (π e.1, π e.2))).
    + intros e f. apply gamma_step_image.
    + by apply (gc_conn _ _ HC).
  - intros v' x' y' (v & x & Hc & -> & ->)%cadj_image_class_inv Hy Hxy.
    destruct (cadj_in_graph v x Hc) as [Hv Hx].
    destruct (sg_closed _ HH' _ _ Hy) as [_ Hy'].
    apply (rl_vertices _ _ Hrl) in Hy' as (y & Hyv & ->).
    rewrite (rl_edges _ _ Hrl) in Hy, Hxy by done.
    apply cadj_image_class. by apply (gc_closed _ _ HC v x y).
Qed.

Context (Hspan : ∀ x, x ∈ vertices H ↔ x ∈ class_vertices C).
Context (C' : list (V * V)) (HC' : gclass H' C').
Context (Hspan' : ∀ x, x ∈ vertices H' ↔ x ∈ class_vertices C').
Context (Hne : vertices H ≠ []).

Lemma image_class_span x : x ∈ class_vertices (image_class C) ↔ x ∈ vertices H'.
Proof using HH HH' HC Hrl Hspan.
  rewrite elem_of_class_vertices. split.
  - intros (w & Hw). apply (gc_edges _ _ gclass_image), (sg_closed _ HH') in Hw. tauto.
  - intros (u & Hu & ->)%(rl_vertices _ _ Hrl).
    apply Hspan, elem_of_class_vertices in Hu as (w & Hw).
    exists (π w). by apply cadj_image_class.
Qed.

(** The class that spans the relabelled graph is the image of the class
    that spans the graph. *)
Lemma spanning_class_image x y : cadj C' x y ↔ cadj (image_class C) x y.
Proof using HH HH' HC HC' Hrl Hspan Hspan' Hne.
  assert (∃ a b, cadj C' a b) as (a & b & Hab).
  { destruct (vertices H) as [| v0 l] eqn:E; [done |].
    assert (π v0 ∈ vertices H') as Hv0 by (apply (rl_vertex H H' Hrl); rewrite E; by left).
    apply Hspan', elem_of_class_vertices in Hv0 as (w & Hw). by eexists _, _. }
  destruct (gclass_same_span H' C' (image_class C) a b HH' HC' gclass_image Hab)
    as (p & q & Hp & Hq).
  { intros z. by rewrite <- Hspan', image_class_span. }
  split.
  - by apply (gclass_share H' C' (image_class C) p q HH' HC' gclass_image).
  - by apply (gclass_share H' (image_class C) C' p q HH' gclass_image HC').
Qed.

Lemma spanning_class_cadj u w :
  u ∈ vertices H → w ∈ vertices H → cadj C' (π u) (π w) ↔ cadj C u w.
Proof using HH HH' HC HC' Hrl Hspan Hspan' Hne.
  intros Hu Hw. by rewrite spanning_class_image, cadj_image_class_iff.
Qed.

End classes.

(** *** The buckets correspond *)

Lemma prime_bucket_nonempty (H : Graph V) C (b : list V) :
  b ∈ prime_buckets (subgraph_edges H C) → b ≠ [].
Proof.
  rewrite prime_buckets_eq. intros ([K b'] & -> & Hin)%list_elem_of_fmap. simpl.
  destruct (gd_key _ _ _ (sdict_inv _) K b' Hin) as (p & Hp & HpK).
  assert (p.2 ∈ b') as Hmem.
  { apply (gd_mem _ _ _ (sdict_inv _) K b' p.2 Hin). exists p. split; [done |].
    split; [done |]. rewrite HpK. apply frozenset_eqb_refl. }
  intros ->. by apply elem_of_nil in Hmem.
Qed.

Lemma prime_bucket_class (H : Graph V) C (b : list V) u :
  simple_graph H → gclass H C → (∀ x, x ∈ vertices H ↔ x ∈ class_vertices C) →
  b ∈ prime_buckets (subgraph_edges H C) → u ∈ b →
  ∀ y, y ∈ b ↔ y ∈ vertices H ∧ same_nbrs C y u.
Proof.
  intros HH HC Hspan Hb Hu.
  destruct (prime_buckets_mem H C HH HC Hspan b Hb) as (Ks & HK).
  destruct (proj1 (HK u) Hu) as [Huv HuK]. intros y. rewrite HK. split.
  - intros [Hy HyK]. split; [done |]. intros w.
    split; intros Hc%cadj_sym; apply cadj_sym.
    + by apply HuK, HyK.
    + by apply HyK, HuK.
  - intros [Hy Hsame]. split; [done |]. intros w. rewrite <- HuK.
    split; intros Hc%cadj_sym; apply cadj_sym; by apply Hsame.
Qed.

Lemma buckets_match (H H' : Graph V) C C' :
  simple_graph H → simple_graph H' → relabels H H' →
  gclass H C → (∀ x, x ∈ vertices H ↔ x ∈ class_vertices C) →
  gclass H' C' → (∀ x, x ∈ vertices H' ↔ x ∈ class_vertices C') →
  blocks_match (prime_buckets (subgraph_edges H C))
               (prime_buckets (subgraph_edges H' C')).
Proof.
  intros HH HH' Hrl HC Hspan HC' Hspan'.
  assert (∀ b b' u, b ∈ prime_buckets (subgraph_edges H C) →
            b' ∈ prime_buckets (subgraph_edges H' C') → u ∈ b → π u ∈ b' →
            image b b') as Himage.
  { intros b b' u Hb Hb' Hu Hu' x.
    pose proof (prime_bucket_class H C b u HH HC Hspan Hb Hu) as Hcl.
    pose proof (prime_bucket_class H' C' b' (π u) HH' HC' Hspan' Hb' Hu') as Hcl'.
    assert (u ∈ vertices H) as Huv by (by apply Hcl in Hu as [? _]).
    assert (vertices H ≠ []) as Hne by (intros E; rewrite E in Huv; by apply elem_of_nil in Huv).
    pose proof (spanning_class_cadj H H' HH HH' Hrl C HC Hspan C' HC' Hspan' Hne) as Hcadj.
    rewrite Hcl'. split.
    - intros [(y & Hy & ->)%(rl_vertices _ _ Hrl) Hsame]. exists y. split; [| done].
      apply Hcl. split; [done |]. intros w. split; intros Hc.
      + destruct (cadj_in_graph H HH C HC y w Hc) as [_ Hw].
        apply Hcadj; [done | done |]. apply Hsame. by apply Hcadj.
      + destruct (cadj_in_graph H HH C HC u w Hc) as [_ Hw].
        apply Hcadj; [done | done |]. apply Hsame. by apply Hcadj.
    - intros (y & [Hy Hsame]%Hcl & ->). split; [by apply (rl_vertex H H' Hrl) |].
      intros w'. split; intros Hc.
      + destruct (cadj_in_graph H' HH' C' HC' _ _ Hc) as [_ Hw'].
        apply (rl_vertices _ _ Hrl) in Hw' as (w & Hw & ->).
        apply Hcadj; [done | done |]. apply Hsame. by apply Hcadj.
      + destruct (cadj_in_graph H' HH' C' HC' _ _ Hc) as [_ Hw'].
        apply (rl_vertices _ _ Hrl) in Hw' as (w & Hw & ->).
        apply Hcadj; [done | done |]. apply Hsame. by apply Hcadj. }
  pose proof (prime_buckets_perm H C HH HC Hspan) as Hperm.
  pose proof (prime_buckets_perm H' C' HH' HC' Hspan') as Hperm'.
  split.
  - intros b Hb. pose proof (prime_bucket_nonempty H C b Hb) as Hne.
    destruct b as [| u b0]; [done |].
    assert (u ∈ vertices H) as Hu.
    { rewrite <- Hperm. apply elem_of_concat. exists (u :: b0). split; [by left | done]. }
    pose proof (rl_vertex H H' Hrl u Hu) as Hu'.
    rewrite <- Hperm' in Hu'. apply elem_of_concat in Hu' as (b' & Hub' & Hb').
    exists b'. split; [done |]. apply (Himage _ _ u); [done | done | by left | done].
  - intros b' Hb'. pose proof (prime_bucket_nonempty H' C' b' Hb') as Hne.
    destruct b' as [| u' b0]; [done |].
    assert (u' ∈ vertices H') as Hu'.
    { rewrite <- Hperm'. apply elem_of_concat. exists (u' :: b0). split; [by left | done]. }
    apply (rl_vertices _ _ Hrl) in Hu' as (u & Hu & ->).
    pose proof Hu as Hu2. rewrite <- Hperm in Hu2.
    apply elem_of_concat in Hu2 as (b & Hub & Hb).
    exists b. split; [done |]. apply (Himage _ _ u); [done | done | done | by left].
Qed.


(** *** Trees whose children correspond *)

Lemma blocks_disjoint {T} (L : list (list T)) (i j : nat) (a b : list T) (t : T) :
  NoDup (concat L) → L !! i = Some a → L !! j = Some b → t ∈ a → t ∈ b → i = j.
Proof.
  revert i j. induction L as [| l0 L IH]; intros i j Hnd Hi Hj Ha Hb; [done |].
  simpl in Hnd. apply NoDup_app in Hnd as (_ & Hdis & Hnd).
  destruct i as [| i], j as [| j]; simpl in *.
  - done.
  - injection Hi as ->. exfalso. apply (Hdis t Ha), elem_of_concat.
    exists b. split; [done | by eapply list_elem_of_lookup_2].
  - injection Hj as ->. exfalso. apply (Hdis t Hb), elem_of_concat.
    exists a. split; [done | by eapply list_elem_of_lookup_2].
  - f_equal. by apply IH.
Qed.

Lemma blocks_NoDup {T} (L : list (list T)) :
  NoDup (concat L) → (∀ l, l ∈ L → l ≠ []) → NoDup L.
Proof.
  intros Hnd Hne. apply NoDup_alt. intros i j l Hi Hj.
  assert (l ≠ []) as Hl by (apply Hne; by eapply list_elem_of_lookup_2).
  destruct l as [| t l]; [done |].
  apply (blocks_disjoint L i j (t :: l) (t :: l) t); try done; by left.
Qed.

Lemma blocks_same {T} (L : list (list T)) (a b : list T) (t : T) :
  NoDup (concat L) → a ∈ L → b ∈ L → t ∈ a → t ∈ b → a = b.
Proof.
  intros Hnd [i Hi]%list_elem_of_lookup [j Hj]%list_elem_of_lookup Ha Hb.
  assert (i = j) as -> by by eapply blocks_disjoint. congruence.
Qed.

Lemma blocks_length (H H' : Graph V) (L L' : list (list V)) :
  simple_graph H → simple_graph H' → relabels H H' →
  concat L ≡ₚ vertices H → concat L' ≡ₚ vertices H' →
  (∀ sg, sg ∈ L → sg ≠ []) → (∀ sg, sg ∈ L' → sg ≠ []) →
  blocks_match L L' → length L = length L'.
Proof using Type*.
  intros HH HH' Hrl Hperm Hperm' Hne Hne' [Hm Hm'].
  pose proof (sg_nodup _ HH) as Hnd. pose proof (sg_nodup _ HH') as Hnd'.
  assert (NoDup (concat L)) as HndL by by rewrite Hperm.
  assert (NoDup (concat L')) as HndL' by by rewrite Hperm'.
  assert (∀ sg x, sg ∈ L → x ∈ sg → x ∈ vertices H) as Hsub.
  { intros sg x Hsg Hx. rewrite <- Hperm. apply elem_of_concat. by exists sg. }
  assert (∀ sg x, sg ∈ L' → x ∈ sg → x ∈ vertices H') as Hsub'.
  { intros sg x Hsg Hx. rewrite <- Hperm'. apply elem_of_concat. by exists sg. }
  set (k := λ sg : list V, filter (λ x, x ∈ map π sg) (vertices H')).
  set (k' := λ sg : list V, filter (λ x, x ∈ sg) (vertices H')).
  assert (∀ sg sg', image sg sg' → k sg = k' sg') as Hk.
  { intros sg sg' Him. unfold k, k'. apply list_filter_iff. intros x.
    rewrite list_elem_of_fmap. split.
    - intros (u & -> & Hu). apply Him. by exists u.
    - intros (u & Hu & ->)%Him. by exists u. }
  rewrite <- (length_map k L), <- (length_map k' L').
  apply Permutation_length, NoDup_Permutation.
  - apply NoDup_fmap_2_strong; [| by apply blocks_NoDup].
    intros a b Ha Hb Hab. pose proof (Hne a Ha) as Hna.
    destruct a as [| x a0]; [done |].
    assert (x ∈ vertices H) as Hx by (apply (Hsub _ x Ha); by left).
    assert (π x ∈ k (x :: a0)) as Hin.
    { apply list_elem_of_filter. split; [| by apply (rl_vertex H H' Hrl)].
      apply list_elem_of_fmap_2. by left. }
    rewrite Hab in Hin. apply list_elem_of_filter in Hin as [Hin _].
    apply list_elem_of_fmap in Hin as (u & Hu & Hub).
    apply (rl_inj _ _ Hrl) in Hu; [| done | by eapply Hsub]. subst u.
    apply (blocks_same L _ _ x); try done. by left.
  - apply NoDup_fmap_2_strong; [| by apply blocks_NoDup].
    intros a b Ha Hb Hab. pose proof (Hne' a Ha) as Hna.
    destruct a as [| x a0]; [done |].
    assert (x ∈ k' (x :: a0)) as Hin.
    { apply list_elem_of_filter. split; [by left |]. apply (Hsub' _ x Ha). by left. }
    rewrite Hab in Hin. apply list_elem_of_filter in Hin as [Hin _].
    apply (blocks_same L' _ _ x); try done. by left.
  - intros y. rewrite !list_elem_of_fmap. split.
    + intros (sg & -> & Hsg). destruct (Hm sg Hsg) as (sg' & Hsg' & Him).
      exists sg'. split; [by apply Hk | done].
    + intros (sg' & -> & Hsg'). destruct (Hm' sg' Hsg') as (sg & Hsg & Him).
      exists sg. split; [symmetry; by apply Hk | done].
Qed.

Lemma child_map_lookup_elem (id : NodeType * list V) (cs : list (Node V)) n :
  child_map_lookup id cs = Some n →
  ∃ j, cs !! j = Some n ∧ node_id_eqb (node_id n) id = true.
Proof.
  induction cs as [| c cs IH]; simpl; [done |].
  destruct (child_map_lookup id cs) as [n' |].
  - intros [= ->]. destruct IH as (j & Hj & Hid); [done |]. by exists (S j).
  - destruct (node_id_eqb (node_id c) id) eqn:E; [| done].
    intros [= ->]. by exists 0%nat.
Qed.

Lemma child_map_lookup_unique (id : NodeType * list V) (cs : list (Node V))
    (j : nat) (n : Node V) :
  cs !! j = Some n → node_id_eqb (node_id n) id = true →
  (∀ j2 n2, cs !! j2 = Some n2 → node_id_eqb (node_id n2) id = true → j2 = j) →
  child_map_lookup id cs = Some n.
Proof.
  revert j. induction cs as [| c cs IH]; intros j Hj Hid Huniq; [done |].
  simpl. destruct j as [| j]; simpl in Hj.
  - injection Hj as ->. destruct (child_map_lookup id cs) as [n' |] eqn:E.
    + apply child_map_lookup_elem in E as (j2 & Hj2 & Hid2).
      by specialize (Huniq (S j2) n' Hj2 Hid2).
    + by rewrite Hid.
  - rewrite (IH j Hj Hid); [done |]. intros j2 n2 Hj2 Hid2.
    specialize (Huniq (S j2) n2 Hj2 Hid2). by injection Huniq.
Qed.

Lemma equivalent_trees_type (a b : Node V) :
  equivalent_trees a b = true → node_type a = node_type b.
Proof.
  destruct a, b; simpl; intros Heq; by case_bool_decide.
Qed.

Lemma equivalent_trees_Inner ty (cs1 cs2 : list (Node V)) :
  length cs1 = length cs2 →
  (∀ c, c ∈ cs1 → ∃ c2, child_map_lookup (node_id c) cs2 = Some c2 ∧
                        equivalent_trees c c2 = true) →
  equivalent_trees (Inner ty cs1) (Inner ty cs2) = true.
Proof.
  intros Hlen Hc. simpl. rewrite !bool_decide_eq_true_2 by done. simpl.
  apply forallb_forall. intros c Hin%list_elem_of_In.
  destruct (Hc c Hin) as (c2 & -> & Heq). done.
Qed.

End relabelling.

(** ** The decomposer on a relabelled graph *)

Section relabel_decomposer.
Context {V : Type} `{EqDecision V}.
Implicit Types (G H : Graph V) (u v w x y r : V) (sg : list V) (C : list (V * V))
  (t : Node V).

(** The children of the root, and the calls that return them. *)
Definition hm_children (fuel : nat) H gc1 (L : list (list V)) (ts : list (Node V)) : Prop :=
  concat L ≡ₚ vertices H ∧
  (∀ sg, sg ∈ L → sg ≠ [] ∧ (order (subgraph H sg) < fuel)%nat ∧
                  hm_inv (subgraph H sg) gc1) ∧
  Forall2 (λ sg t, habib_maurer_algorithm fuel (subgraph H sg) gc1 = Ok t ∧
                   hm_spec (subgraph H sg) t) L ts.

(** How the root is chosen. *)
Definition hm_root H ty (L : list (list V)) : Prop :=
  (ty = PARALLEL ∧ is_connected H = false ∧ L = connected_components H) ∨
  (ty = SERIES ∧ is_connected H = true ∧ is_connected (complement H) = false ∧
   L = connected_components (complement H)) ∨
  (ty = PRIME ∧ is_connected H = true ∧ is_connected (complement H) = true ∧
   ∃ C, gclass H C ∧ (∀ x, x ∈ vertices H ↔ x ∈ class_vertices C) ∧
        L = prime_buckets (subgraph_edges H C)).

Lemma reach_nonempty G v : reach G v ≠ [].
Proof. destruct (reach_head G v) as [l ->]. done. Qed.

Lemma hm_step fuel H gc :
  (order H < S fuel)%nat → hm_inv H gc → (2 ≤ order H)%nat →
  ∃ ty L gc1 ts, habib_maurer_algorithm (S fuel) H gc = Ok (Inner ty ts) ∧
                 hm_children fuel H gc1 L ts ∧ hm_root H ty L.
Proof.
  intros Hord Hinv Hbig. pose proof Hinv as [HH Hgc].
  rewrite (hm_unfold fuel H gc (sg_undirected _ HH) Hbig).
  destruct (is_connected H) eqn:Hcon; simpl.
  - pose proof (simple_complement H HH) as HHc.
    destruct (is_connected (complement H)) eqn:Hcoc.
    + destruct (hm_prime_lookup H gc Hinv) as (C & Hget & HgC & Hspan);
        [by apply is_connected_conn | by apply is_connected_conn | done |].
      simpl. rewrite Hget.
      pose proof (prime_bucket_module H C HH HgC Hspan) as Hbuckets.
      set (gc1 := Some (match gc with None => gamma_classes H | Some g => g end)).
      assert (∀ sg, sg ∈ prime_buckets (subgraph_edges H C) →
                sg ≠ [] ∧ (order (subgraph H sg) < fuel)%nat ∧
                hm_inv (subgraph H sg) gc1) as Hkids.
      { intros b Hb. destruct (Hbuckets b Hb) as (Hmod & Hsub & Hprop).
        destruct Hprop as (x & Hx & Hnx); [lia |].
        split; [by eapply prime_bucket_nonempty |]. split.
        - pose proof (subgraph_order_lt H b x Hx Hnx). lia.
        - unfold gc1. destruct gc as [g |]; [by apply hm_inv_child | by apply hm_inv_child_own]. }
      destruct (result_mapM_Ok
        (λ sg, habib_maurer_algorithm fuel (subgraph H sg) gc1)
        (λ sg t, habib_maurer_algorithm fuel (subgraph H sg) gc1 = Ok t ∧
                 hm_spec (subgraph H sg) t)
        (prime_buckets (subgraph_edges H C))) as (ts & Hts & HF).
      { intros b Hb. destruct (Hkids b Hb) as (_ & Hlt & Hi).
        destruct (hm_main fuel _ gc1 Hlt Hi) as (t & Ht & Hs). by exists t. }
      rewrite Hts. simpl. exists PRIME, (prime_buckets (subgraph_edges H C)), gc1, ts.
      split; [done |]. split.
      * split; [by apply prime_buckets_perm |]. done.
      * right. right. repeat split; try done. by exists C.
    + destruct (connected_components_spec (complement H) HHc) as [Hperm Hall].
      rewrite Forall_forall in Hall.
      assert (∀ sg, sg ∈ connected_components (complement H) →
                sg ≠ [] ∧ (order (subgraph H sg) < fuel)%nat ∧
                hm_inv (subgraph H sg) gc) as Hkids.
      { intros cc Hcc. destruct (Hall cc Hcc) as (r & Hr & ->).
        split; [apply reach_nonempty |]. split.
        - destruct (component_proper (complement H) r HHc Hcoc Hr) as (x & Hx & Hnx).
          pose proof (subgraph_order_lt H (reach (complement H) r) x Hx Hnx). lia.
        - apply hm_inv_child; [done | by apply co_component_module]. }
      destruct (result_mapM_Ok
        (λ sg, habib_maurer_algorithm fuel (subgraph H sg) gc)
        (λ sg t, habib_maurer_algorithm fuel (subgraph H sg) gc = Ok t ∧
                 hm_spec (subgraph H sg) t)
        (connected_components (complement H))) as (ts & Hts & HF).
      { intros b Hb. destruct (Hkids b Hb) as (_ & Hlt & Hi).
        destruct (hm_main fuel _ gc Hlt Hi) as (t & Ht & Hs). by exists t. }
      rewrite Hts. simpl. exists SERIES, (connected_components (complement H)), gc, ts.
      split; [done |]. split; [done |]. right. left. done.
  - destruct (connected_components_spec H HH) as [Hperm Hall].
    rewrite Forall_forall in Hall.
    assert (∀ sg, sg ∈ connected_components H →
              sg ≠ [] ∧ (order (subgraph H sg) < fuel)%nat ∧
              hm_inv (subgraph H sg) gc) as Hkids.
    { intros cc Hcc. destruct (Hall cc Hcc) as (r & Hr & ->).
      split; [apply reach_nonempty |]. split.
      - destruct (component_proper H r HH Hcon Hr) as (x & Hx & Hnx).
        pose proof (subgraph_order_lt H (reach H r) x Hx Hnx). lia.
      - apply hm_inv_child; [done | by apply component_module]. }
    destruct (result_mapM_Ok
      (λ sg, habib_maurer_algorithm fuel (subgraph H sg) gc)
      (λ sg t, habib_maurer_algorithm fuel (subgraph H sg) gc = Ok t ∧
               hm_spec (subgraph H sg) t)
      (connected_components H)) as (ts & Hts & HF).
    { intros b Hb. destruct (Hkids b Hb) as (_ & Hlt & Hi).
      destruct (hm_main fuel _ gc Hlt Hi) as (t & Ht & Hs). by exists t. }
    rewrite Hts. simpl. exists PARALLEL, (connected_components H), gc, ts.
    split; [done |]. split; [done |]. left. done.
Qed.


Section with_relabelling.
Context (π : V → V).

Lemma children_equiv H H' (L L' : list (list V)) (ts ts' : list (Node V)) ty :
  simple_graph H → simple_graph H' → relabels π H H' →
  concat L ≡ₚ vertices H → concat L' ≡ₚ vertices H' →
  (∀ sg, sg ∈ L → sg ≠ []) → (∀ sg, sg ∈ L' → sg ≠ []) →
  blocks_match π L L' →
  Forall2 (λ sg t, get_vertices t ≡ₚ vertices (subgraph H sg)) L ts →
  Forall2 (λ sg t, get_vertices t ≡ₚ vertices (subgraph H' sg)) L' ts' →
  (∀ i j sg sg' t t', L !! i = Some sg → ts !! i = Some t →
     L' !! j = Some sg' → ts' !! j = Some t' → image π sg sg' →
     equivalent_trees (relabel π t) t' = true) →
  equivalent_trees (relabel π (Inner ty ts)) (Inner ty ts') = true.
Proof.
  intros HH HH' Hrl Hperm Hperm' Hne Hne' Hmatch HF HF' Hpair.
  assert (NoDup (concat L')) as HndL' by (rewrite Hperm'; apply (sg_nodup _ HH')).
  assert (∀ sg x, sg ∈ L → x ∈ sg → x ∈ vertices H) as Hsub.
  { intros sg x Hsg Hx. rewrite <- Hperm. apply elem_of_concat. by exists sg. }
  assert (∀ sg x, sg ∈ L' → x ∈ sg → x ∈ vertices H') as Hsub'.
  { intros sg x Hsg Hx. rewrite <- Hperm'. apply elem_of_concat. by exists sg. }
  simpl. apply equivalent_trees_Inner.
  - rewrite length_map, <- (Forall2_length _ _ _ HF), <- (Forall2_length _ _ _ HF').
    by apply (blocks_length π H H').
  - intros c (t & -> & Ht)%list_elem_of_fmap.
    apply list_elem_of_lookup in Ht as [i Hi].
    destruct (Forall2_lookup_r _ _ _ _ _ HF Hi) as (sg & Hsg & Hgv).
    assert (sg ∈ L) as HsgL by by eapply list_elem_of_lookup_2.
    destruct (proj1 Hmatch sg HsgL) as (sg' & Hsg' & Him).
    apply list_elem_of_lookup in Hsg' as [j Hj].
    assert (sg' ∈ L') as Hsg'L by by eapply list_elem_of_lookup_2.
    destruct (Forall2_lookup_l _ _ _ _ _ HF' Hj) as (t' & Ht' & Hgv').
    pose proof (Hpair i j sg sg' t t' Hsg Hi Hj Ht' Him) as Heq.
    assert (∀ x, x ∈ get_vertices (relabel π t) ↔ x ∈ sg') as Hset.
    { intros x. rewrite get_vertices_relabel, list_elem_of_fmap, (Him x). split.
      - intros (u & -> & Hu). rewrite Hgv in Hu. apply vertices_subgraph in Hu as [Hu _].
        by exists u.
      - intros (u & Hu & ->). exists u. split; [done |]. rewrite Hgv.
        apply vertices_subgraph. split; [done | by eapply Hsub]. }
    assert (∀ j2 sg2 t2, L' !! j2 = Some sg2 → ts' !! j2 = Some t2 →
              ∀ x, x ∈ get_vertices t2 ↔ x ∈ sg2) as Hset'.
    { intros j2 sg2 t2 Hj2 Ht2 x.
      destruct (Forall2_lookup_l _ _ _ _ _ HF' Hj2) as (t2' & Ht2' & Hgv2).
      assert (t2' = t2) as -> by congruence. rewrite Hgv2, vertices_subgraph.
      split; [tauto |]. intros Hx. split; [done |].
      eapply Hsub'; [by eapply list_elem_of_lookup_2 | done]. }
    exists t'. split; [| done].
    apply (child_map_lookup_unique _ _ j); [done | |].
    + unfold node_id_eqb, node_id. simpl.
      rewrite bool_decide_eq_true_2 by (symmetry; by apply equivalent_trees_type).
      simpl. apply frozenset_eqb_true. intros x.
      by rewrite (Hset' j sg' t' Hj Ht'), Hset.
    + intros j2 t2 Ht2 Hid. unfold node_id_eqb, node_id in Hid. simpl in Hid.
      apply andb_true_iff in Hid as [_ Hfs]. rewrite frozenset_eqb_true in Hfs.
      destruct (Forall2_lookup_r _ _ _ _ _ HF' Ht2) as (sg2 & Hsg2 & _).
      pose proof (Hne' sg' Hsg'L) as Hn. destruct sg' as [| x0 sg0]; [done |].
      apply (blocks_disjoint L' j2 j sg2 (x0 :: sg0) x0); try done; [| by left].
      apply (Hset' j2 sg2 t2 Hsg2 Ht2), Hfs, Hset. by left.
Qed.

(** The trees of a graph and of a relabelling of it are equivalent once
    the first is relabelled. *)
Lemma hm_relabel (fuel : nat) :
  ∀ H H' gc gc', (order H < fuel)%nat → hm_inv H gc → hm_inv H' gc' →
    relabels π H H' →
    ∃ t t', habib_maurer_algorithm fuel H gc = Ok t ∧
            habib_maurer_algorithm fuel H' gc' = Ok t' ∧
            equivalent_trees (relabel π t) t' = true.
Proof.
  induction fuel as [| fuel IH]; intros H H' gc gc' Hord Hinv Hinv' Hrl; [lia |].
  pose proof Hinv as [HH _]. pose proof Hinv' as [HH' _].
  pose proof (rl_perm π H H' HH HH' Hrl) as Hperm.
  pose proof (rl_order π H H' HH HH' Hrl) as Hord'.
  assert (vertices H = [] ∨ (∃ v, vertices H = [v]) ∨ (2 ≤ order H)%nat) as Hcases.
  { unfold order. destruct (vertices H) as [| v0 [| v1 rest]]; simpl; eauto with lia. }
  destruct Hcases as [E | [[v E] | Hbig]].
  - rewrite E in Hperm. apply Permutation_nil_r in Hperm.
    exists (Inner PRIME []), (Inner PRIME []). simpl.
    rewrite (sg_undirected _ HH), (sg_undirected _ HH'), E, Hperm. done.
  - rewrite E in Hperm. simpl in Hperm. apply Permutation_singleton_r in Hperm.
    exists (Normal v), (Normal (π v)). simpl.
    rewrite (sg_undirected _ HH), (sg_undirected _ HH'), E, Hperm.
    split; [done |]. split; [done |]. by rewrite !bool_decide_eq_true_2.
  - destruct (hm_step fuel H gc Hord Hinv Hbig)
      as (ty & L & gc1 & ts & Hrun & (HpL & Hkids & HF) & Hroot).
    destruct (hm_step fuel H' gc') as (ty' & L' & gc1' & ts' & Hrun' & (HpL' & Hkids' & HF') & Hroot');
      [lia | done | lia |].
    exists (Inner ty ts), (Inner ty' ts'). split; [done |]. split; [done |].
    pose proof (rl_is_connected π H H' HH HH' Hrl) as Hc.
    pose proof (rl_is_connected π _ _ (simple_complement H HH) (simple_complement H' HH')
                  (rl_complement π H H' Hrl)) as Hcc.
    assert (ty' = ty ∧ blocks_match π L L') as [-> Hmatch].
    { destruct Hroot as [(-> & H1 & ->) | [(-> & H1 & H2 & ->) | (-> & H1 & H2 & C & HC & Hs & ->)]];
      destruct Hroot' as [(-> & H1' & ->) | [(-> & H1' & H2' & ->) |
                          (-> & H1' & H2' & C' & HC' & Hs' & ->)]];
        try congruence.
      - split; [done |]. by apply components_match.
      - split; [done |]. apply components_match;
          [by apply simple_complement | by apply simple_complement | by apply rl_complement].
      - split; [done |]. by apply buckets_match. }
    apply (children_equiv H H' L L'); try done.
    + intros sg Hsg. by destruct (Hkids sg Hsg).
    + intros sg Hsg. by destruct (Hkids' sg Hsg).
    + eapply Forall2_impl; [exact HF |]. by intros sg t [_ [? _]].
    + eapply Forall2_impl; [exact HF' |]. by intros sg t [_ [? _]].
    + intros i j sg sg' t t' Hi Hti Hj Htj Him.
      assert (sg ∈ L) as HsgL by by eapply list_elem_of_lookup_2.
      assert (sg' ∈ L') as HsgL' by by eapply list_elem_of_lookup_2.
      destruct (Hkids sg HsgL) as (_ & Hlt & Hi1).
      destruct (Hkids' sg' HsgL') as (_ & _ & Hi1').
      destruct (IH (subgraph H sg) (subgraph H' sg') gc1 gc1' Hlt Hi1 Hi1')
        as (t0 & t0' & Ht0 & Ht0' & Heq).
      { apply rl_subgraph; [done | done |]. intros u Hu. rewrite <- HpL.
        apply elem_of_concat. by exists sg. }
      destruct (Forall2_lookup_lr _ _ _ _ _ _ HF Hi Hti) as [Hcall _].
      destruct (Forall2_lookup_lr _ _ _ _ _ _ HF' Hj Htj) as [Hcall' _].
      congruence.
Qed.

End with_relabelling.
End relabel_decomposer.

(** ** The two decomposers on the smallest graphs *)

Definition edgeless_graph (n : nat) : Graph nat := graph_of_edges n [].

Definition complete_graph (n : nat) : Graph nat :=
  graph_of_edges n (flat_map (λ u, map (λ v, (u, v)) (seq (S u) (n - S u))) (seq 0 n)).

(** A root of type [ty] over [n] leaves. *)
Definition flat_tree (ty : NodeType) (n : nat) (r : result (Node nat)) : bool :=
  match r with
  | Ok (Inner ty' cs) =>
      bool_decide (ty' = ty) && bool_decide (length cs = n) &&
      forallb (λ c, match c with Normal _ => true | Inner _ _ => false end) cs
  | _ => false
  end.

Lemma tedder_empty {V} `{EqDecision V} (G : Graph V) :
  is_directed G = false → vertices G = [] → tedder_algorithm G = Ok (Inner PRIME []).
Proof. intros Hd E. unfold tedder_algorithm, tedder_algorithm_fuel. by rewrite Hd, E. Qed.

(** The linear decomposer on the graph with one vertex, and on the edgeless
    and the complete graphs with 2 to 11 vertices. *)
Lemma tedder_small_base_cases :
  tedder_algorithm (edgeless_graph 1) = Ok (Normal 0%nat) ∧
  forallb (λ n, flat_tree PARALLEL n (tedder_algorithm (edgeless_graph n)) &&
                flat_tree SERIES n (tedder_algorithm (complete_graph n)))
          (seq 2 10) = true.
Proof. split; vm_compute; reflexivity. Qed.

(** The reference decomposer never nests two nodes of one degenerate type. *)
Lemma habib_maurer_no_degenerate_nesting {V} `{EqDecision V} (G : Graph V) :
  simple_graph G → ∃ t, habib_maurer G = Ok t ∧ no_degenerate_nesting t.
Proof.
  intros HG. destruct (hm_main (S (order G)) G None) as (t & Ht & _ & _ & Hn & _);
    [lia | by split |]. by exists t.
Qed.

(** * The claims *)

(** ** Example graphs are simple *)

Lemma simple_graph_of_edges (n : nat) (es : list (nat * nat)) :
  forallb (λ e, (e.1 <? n)%nat && (e.2 <? n)%nat && negb (e.1 =? e.2)%nat) es = true →
  simple_graph (graph_of_edges n es).
Proof.
  intros Hes. rewrite forallb_forall in Hes.
  assert (∀ u v, (u, v) ∈ es → (u < n)%nat ∧ (v < n)%nat ∧ u ≠ v) as Hin.
  { intros u v Huv%list_elem_of_In. specialize (Hes _ Huv). simpl in Hes.
    apply andb_true_iff in Hes as [[H1 H2]%andb_true_iff H3].
    apply Nat.ltb_lt in H1, H2. apply negb_true_iff, Nat.eqb_neq in H3. done. }
  split; simpl.
  - done.
  - apply NoDup_seq.
  - intros u v. apply orb_comm.
  - intros u. apply orb_false_iff. split; apply bool_decide_eq_false_2;
      intros Huu; by destruct (Hin u u Huu) as (_ & _ & ?).
  - intros u v [Huv | Huv]%orb_true_iff; apply bool_decide_eq_true_1, Hin in Huv;
      rewrite !elem_of_seq; lia.
Qed.

(** The path 0 - 1 - 2 - 3. *)
Definition path4 : Graph nat := graph_of_edges 4 [(0, 1); (1, 2); (2, 3)]%nat.

(** ** C1: the nested-tuple round trip *)

Definition round_trip_equivalent (t : Node pyval) : bool :=
  match nested_tuple_to_tree (tree_to_nested_tuple t) with
  | Ok t' => equivalent_trees t' t
  | _ => false
  end.

Definition series_1_2 : Node pyval :=
  Inner SERIES [Normal (PInt 1); Normal (PInt 2)].

(** C1 (found false on the code): decoding the encoding of the valid tree
    SERIES[1, 2] gives a SERIES node with the single leaf child [[1, 2]],
    which is not equivalent to the tree. *)
Lemma C1_round_trip_fails :
  tree_to_nested_tuple series_1_2 = PTuple [PType SERIES; PList [PInt 1; PInt 2]] ∧
  nested_tuple_to_tree (tree_to_nested_tuple series_1_2)
    = Ok (Inner SERIES [Normal (PList [PInt 1; PInt 2])]) ∧
  round_trip_equivalent series_1_2 = false.
Proof. repeat split; vm_compute; reflexivity. Qed.

(** ** C2: failure on directed input, totality otherwise *)

Section habib_maurer_total.
Context {V : Type} `{EqDecision V}.

(** The reference decomposer raises on a directed graph and returns a tree
    on every finite simple undirected one. *)
Lemma habib_maurer_raises_iff_directed (G : Graph V) :
  (is_directed G = true → habib_maurer G = Raise ValueError) ∧
  (simple_graph G → ∃ t, habib_maurer G = Ok t ∧ hm_spec G t).
Proof.
  split.
  - intros Hd. unfold habib_maurer. simpl. by rewrite Hd.
  - intros HG. apply hm_main; [lia | by split].
Qed.

Lemma module_all_or_none (G : Graph V) (M : list V) x :
  module G M → x ∈ vertices G → x ∉ M →
  (∀ u, u ∈ M → has_edge G u x = true) ∨ (∀ u, u ∈ M → has_edge G u x = false).
Proof.
  intros HM Hx Hnx. destruct M as [| u0 M]; [left; by intros u ?%elem_of_nil |].
  destruct (has_edge G u0 x) eqn:E; [left | right]; intros u Hu;
    rewrite (HM x u u0); try done; by left.
Qed.

Lemma module_either_connected (G : Graph V) (M : list V) x :
  module G M → M ≠ [] → x ∈ vertices G → x ∉ M →
  either_connected_or_not_connected x M G = Ok true.
Proof.
  intros HM Hne Hx Hnx. destruct M as [| u0 M]; [done |].
  unfold either_connected_or_not_connected. cbv zeta. f_equal.
  apply forallb_forall. intros u Hu%list_elem_of_In. apply bool_decide_eq_true_2.
  apply HM; try done. by left.
Qed.
End habib_maurer_total.

(** The graph on the vertices 0..7 with the edges 0-1, 0-4, 0-5, 0-7, 1-2,
    1-3, 1-7, 2-5, 2-6 and 3-4. *)
Definition graph8 : Graph nat :=
  graph_of_edges 8 [(0, 1); (0, 4); (0, 5); (0, 7); (1, 2); (1, 3); (1, 7); (2, 5);
                    (2, 6); (3, 4)]%nat.

(** C2 (the code departs from the claim): [graph8] is a finite simple
    undirected graph, the reference decomposer returns a tree on it, and the
    linear decomposer raises [AttributeError], with the bound on its loops
    the model uses and with a far larger one: in [delineate] the variable
    [left] is [None] when the prime branch reads [left.left_sibling]. *)
Theorem C2_tedder_raises_on_undirected :
  simple_graph graph8 ∧ is_directed graph8 = false ∧
  habib_maurer graph8 =
    Ok (Inner PRIME [Normal 1; Normal 4; Normal 5; Normal 7;
                     Normal 0; Normal 2; Normal 3; Normal 6]%nat) ∧
  tedder_algorithm graph8 = Raise AttributeError ∧
  tedder_algorithm_fuel 1000 graph8 = Raise AttributeError.
Proof.
  split; [apply simple_graph_of_edges; reflexivity |].
  repeat split; vm_compute; reflexivity.
Qed.

(** ** C3: the two decomposers on one graph *)

(** The graph on the vertices 0..6 with the edges 0-2, 0-3, 0-5, 0-6, 1-2,
    1-6, 2-3 and 2-4. *)
Definition graph7 : Graph nat :=
  graph_of_edges 7 [(0, 2); (0, 3); (0, 5); (0, 6); (1, 2); (1, 6); (2, 3); (2, 4)]%nat.

Definition trees_agree (graph : Graph nat) : bool :=
  match habib_maurer graph, tedder_algorithm graph with
  | Ok t1, Ok t2 => equivalent_trees t1 t2
  | _, _ => false
  end.

(** C3 (the code departs from the claim): on the finite simple undirected
    graph [graph7] the reference
    decomposer returns a PRIME root over the seven leaves, the linear one a
    tree that keeps 2, 3 and 5 under one PARALLEL node, and
    [equivalent_trees] tells them apart. *)
Lemma C3_decomposers_disagree :
  simple_graph graph7 ∧
  habib_maurer graph7
    = Ok (Inner PRIME [Normal 2; Normal 3; Normal 5; Normal 6; Normal 0; Normal 1;
                       Normal 4]%nat) ∧
  tedder_algorithm graph7
    = Ok (Inner PRIME [Normal 4;
                       Inner PARALLEL [Inner SERIES [Normal 2; Normal 3]; Normal 5];
                       Normal 0; Normal 1; Normal 6]%nat) ∧
  trees_agree graph7 = false.
Proof.
  split; [apply simple_graph_of_edges; reflexivity |].
  repeat split; vm_compute; reflexivity.
Qed.

(** The node over 2, 3 and 5 in the tree of the linear decomposer is not a
    module of [graph7]: the vertex 1 is adjacent to 2 and not to 5. *)
Lemma tedder_inner_node_not_a_module :
  ∃ t n, tedder_algorithm graph7 = Ok t ∧ n ∈ subtrees t ∧
         node_type n = PARALLEL ∧ get_vertices n = [2; 3; 5]%nat ∧
         has_edge graph7 2%nat 1%nat = true ∧ has_edge graph7 5%nat 1%nat = false.
Proof.
  eexists _, (Inner PARALLEL [Inner SERIES [Normal 2; Normal 3]; Normal 5]%nat).
  split; [vm_compute; reflexivity |]. split; [| by vm_compute].
  simpl. right. right. by left.
Qed.

(** ** C4: the inner nodes are modules *)

Section habib_maurer_claims.
Context {V : Type} `{EqDecision V}.

(** C4: on a finite simple undirected graph the decomposer
    [habib_maurer_algorithm] returns a tree, and for every inner node of the
    tree, every vertex of the graph outside the leaves below the node is
    adjacent to all of them or to none of them; [either_connected_or_not_connected]
    answers [True] for it. *)
Theorem C4_inner_nodes_are_modules (G : Graph V) :
  simple_graph G →
  ∃ t, habib_maurer G = Ok t ∧
    ∀ ty cs, Inner ty cs ∈ subtrees t →
      ∀ x, x ∈ vertices G → x ∉ get_vertices (Inner ty cs) →
        ((∀ u, u ∈ get_vertices (Inner ty cs) → has_edge G u x = true) ∨
         (∀ u, u ∈ get_vertices (Inner ty cs) → has_edge G u x = false)) ∧
        (get_vertices (Inner ty cs) ≠ [] →
         either_connected_or_not_connected x (get_vertices (Inner ty cs)) G = Ok true).
Proof.
  intros HG. destruct (proj2 (habib_maurer_raises_iff_directed G) HG)
    as (t & Ht & _ & Hmod & _).
  exists t. split; [done |]. intros ty cs Hin x Hx Hnx. split.
  - by apply module_all_or_none; [apply Hmod | |].
  - intros Hne. by apply module_either_connected; [apply Hmod | | |].
Qed.

(** C10: on a finite simple undirected graph, [get_vertices] of the tree
    the decomposer returns lists every vertex of the graph exactly once and
    nothing else. *)
Theorem C10_leaves_are_the_vertices (G : Graph V) :
  simple_graph G →
  ∃ t, habib_maurer G = Ok t ∧
       get_vertices t ≡ₚ vertices G ∧ NoDup (get_vertices t).
Proof.
  intros HG. destruct (proj2 (habib_maurer_raises_iff_directed G) HG)
    as (t & Ht & Hperm & _).
  exists t. split; [done |]. split; [done |]. rewrite Hperm. apply (sg_nodup _ HG).
Qed.

End habib_maurer_claims.

(** The path on four vertices is an instance. *)
Lemma C4_inner_nodes_are_modules_witness :
  simple_graph path4 ∧
  ∃ t, habib_maurer path4 = Ok t ∧
    ∀ ty cs, Inner ty cs ∈ subtrees t →
      ∀ x, x ∈ vertices path4 → x ∉ get_vertices (Inner ty cs) →
        ((∀ u, u ∈ get_vertices (Inner ty cs) → has_edge path4 u x = true) ∨
         (∀ u, u ∈ get_vertices (Inner ty cs) → has_edge path4 u x = false)) ∧
        (get_vertices (Inner ty cs) ≠ [] →
         either_connected_or_not_connected x (get_vertices (Inner ty cs)) path4 = Ok true).
Proof.
  split; [apply simple_graph_of_edges; reflexivity |].
  apply (C4_inner_nodes_are_modules path4).
  apply simple_graph_of_edges. reflexivity.
Defined.

Lemma C10_leaves_are_the_vertices_witness :
  simple_graph path4 ∧
  ∃ t, habib_maurer path4 = Ok t ∧
       get_vertices t ≡ₚ vertices path4 ∧ NoDup (get_vertices t).
Proof.
  split; [apply simple_graph_of_edges; reflexivity |].
  apply (C10_leaves_are_the_vertices path4).
  apply simple_graph_of_edges. reflexivity.
Defined.

(** ** C7: what [number_comps] returns *)

(** A leaf (its type is [PRIME]) numbered by [PARALLEL] from 5: the number
    returned and the [comp_number] the leaf ends with. *)
Definition number_comps_leaf : result (Z * Z) :=
  run (M_bind (new_MDLeafNode 0%nat) (λ leaf,
       M_bind (number_comps 10 leaf 5 PARALLEL) (λ k,
       M_bind (get_int leaf F_comp_number) (λ c, M_ret (k, c))))).

(** A [PARALLEL] node with the two leaf children [a], [b] numbered by
    [by_type] from 5: the number returned and the [comp_number] of the
    node, of [a] and of [b]. *)
Definition number_comps_parallel (by_type : NodeType) : result (Z * (Z * Z * Z)) :=
  run (M_bind (new_MDNode PARALLEL) (λ n,
       M_bind (new_MDLeafNode 1%nat) (λ b,
       M_bind (new_MDLeafNode 0%nat) (λ a,
       M_bind (add_child n b) (λ _,
       M_bind (add_child n a) (λ _,
       M_bind (number_comps 10 n 5 by_type) (λ k,
       M_bind (get_int n F_comp_number) (λ cn,
       M_bind (get_int a F_comp_number) (λ ca,
       M_bind (get_int b F_comp_number) (λ cb, M_ret (k, (cn, ca, cb)))))))))))).

(** C7 (the code departs from the claim): when the type of the node differs
    from [by_type] the whole subtree does get the one number [s], but the
    count returned is 0, not 1; when the types agree the children get
    consecutive numbers and the count is the number of children. *)
Lemma C7_number_comps_returns_zero :
  number_comps_leaf = Ok (0, 5) ∧
  number_comps_parallel SERIES = Ok (0, (5, 5, 5)) ∧
  number_comps_parallel PARALLEL = Ok (2, (-1, 5, 6)).
Proof. repeat split; vm_compute; reflexivity. Qed.

(** ** C8: relabelling the graph *)

Section relabel_claim.
Context {V : Type} `{EqDecision V}.

(** Modelled from the spec: [graph.relabel(perm, inplace=False)] of the
    host graph class, which is missing from the sources.  The vertex [v]
    becomes [perm v], in the place of [v]. *)
Definition relabel_graph (perm : V → V) (G : Graph V) : Graph V :=
  mkGraph (is_directed G) (map perm (vertices G))
          (λ x y, existsb (λ u, existsb (λ v,
                     bool_decide (perm u = x) && bool_decide (perm v = y) &&
                     has_edge G u v) (vertices G)) (vertices G)).

Lemma has_edge_relabel_graph (perm : V → V) (G : Graph V) x y :
  has_edge (relabel_graph perm G) x y = true ↔
  ∃ u v, u ∈ vertices G ∧ v ∈ vertices G ∧ perm u = x ∧ perm v = y ∧
         has_edge G u v = true.
Proof.
  simpl. rewrite existsb_exists. split.
  - intros (u & Hu%list_elem_of_In & (v & Hv%list_elem_of_In & Huv)%existsb_exists).
    apply andb_true_iff in Huv as [[Hx%bool_decide_eq_true_1 Hy%bool_decide_eq_true_1]%andb_true_iff He].
    by exists u, v.
  - intros (u & v & Hu & Hv & Hx & Hy & He). exists u. split; [by apply list_elem_of_In |].
    apply existsb_exists. exists v. split; [by apply list_elem_of_In |].
    by rewrite !bool_decide_eq_true_2, He.
Qed.

Section injective.
Context (perm : V → V) (G : Graph V) (HG : simple_graph G).
Context (Hinj : ∀ u v, u ∈ vertices G → v ∈ vertices G → perm u = perm v → u = v).

Lemma relabel_graph_edge u v :
  u ∈ vertices G → v ∈ vertices G →
  has_edge (relabel_graph perm G) (perm u) (perm v) = has_edge G u v.
Proof using HG Hinj.
  intros Hu Hv. apply eq_true_iff_eq. rewrite has_edge_relabel_graph. split.
  - intros (a & b & Ha & Hb & Hau & Hbv & He).
    apply Hinj in Hau, Hbv; try done. by subst.
  - intros He. by exists u, v.
Qed.

Lemma relabel_graph_simple : simple_graph (relabel_graph perm G).
Proof using HG Hinj.
  split.
  - apply (sg_undirected _ HG).
  - simpl. apply NoDup_fmap_2_strong; [done | apply (sg_nodup _ HG)].
  - intros x y. apply eq_true_iff_eq. rewrite !has_edge_relabel_graph.
    split; intros (u & v & Hu & Hv & Hx & Hy & He); exists v, u;
      by rewrite (sg_sym _ HG).
  - intros x. destruct (has_edge (relabel_graph perm G) x x) eqn:E; [| done].
    apply has_edge_relabel_graph in E as (u & v & Hu & Hv & Hx & Hy & He).
    assert (u = v) as -> by (apply Hinj; congruence).
    by rewrite (sg_irrefl _ HG) in He.
  - intros x y (u & v & Hu & Hv & <- & <- & He)%has_edge_relabel_graph. simpl.
    split; by apply list_elem_of_fmap_2.
Qed.

Lemma relabel_graph_relabels : relabels perm G (relabel_graph perm G).
Proof using HG Hinj.
  split.
  - done.
  - intros x. simpl. rewrite list_elem_of_fmap. split; intros (u & ? & ?); by exists u.
  - apply relabel_graph_edge.
Qed.
End injective.

(** C8: let [G] be a finite simple undirected graph and [G'] the graph [G]
    with every vertex [v] renamed to [perm v], [perm] being one-to-one on the
    vertices (a permutation of the vertices is) and the order in which [G']
    lists its vertices being any.  Then the decomposer returns a tree on
    both, [relabel_tree] returns a tree for the tree of [G] and [perm], and
    [equivalent_trees] holds of that tree and the tree of [G']. *)
Theorem C8_relabelling_equivariance (perm : V → V) (G G' : Graph V) :
  simple_graph G → simple_graph G' → relabels perm G G' →
  ∃ t t' t1, habib_maurer G = Ok t ∧ habib_maurer G' = Ok t' ∧
             relabel_tree t (PermCallable perm) = Ok t1 ∧
             equivalent_trees t1 t' = true.
Proof.
  intros HG HG' Hrl.
  destruct (hm_relabel perm (S (order G)) G G' None None) as (t & t' & Ht & Ht' & Heq);
    [lia | by split | by split | done |].
  exists t, t', (relabel perm t). split; [done |]. split.
  - unfold habib_maurer. by rewrite (rl_order perm G G' HG HG' Hrl).
  - split; [apply relabel_tree_callable | done].
Qed.

End relabel_claim.

(** The path 0 - 1 - 2 - 3 read backwards is an instance. *)
Definition reverse4 (v : nat) : nat := (3 - v)%nat.

Lemma C8_relabelling_equivariance_witness :
  simple_graph path4 ∧ simple_graph (relabel_graph reverse4 path4) ∧
  relabels reverse4 path4 (relabel_graph reverse4 path4) ∧
  ∃ t t' t1, habib_maurer path4 = Ok t ∧
             habib_maurer (relabel_graph reverse4 path4) = Ok t' ∧
             relabel_tree t (PermCallable reverse4) = Ok t1 ∧
             equivalent_trees t1 t' = true.
Proof.
  assert (simple_graph path4) as HG by (apply simple_graph_of_edges; reflexivity).
  assert (∀ u v, u ∈ vertices path4 → v ∈ vertices path4 →
            reverse4 u = reverse4 v → u = v) as Hinj.
  { intros u v Hu%elem_of_seq Hv%elem_of_seq. unfold reverse4. lia. }
  split; [exact HG |].
  split; [exact (relabel_graph_simple reverse4 path4 HG Hinj) |].
  split; [exact (relabel_graph_relabels reverse4 path4 HG Hinj) |].
  exact (C8_relabelling_equivariance reverse4 path4 (relabel_graph reverse4 path4) HG
           (relabel_graph_simple reverse4 path4 HG Hinj)
           (relabel_graph_relabels reverse4 path4 HG Hinj)).
Defined.

(** ** C9: the classes of edges *)

Section gamma_classes_claim.
Context {V : Type} `{EqDecision V}.

(** C9: on a finite simple undirected graph, [gamma_classes] splits the
    edges into classes: the classes together hold every edge of the graph
    exactly once, and every edge lies in exactly one entry; the key of an
    entry is the set of the ends of its edges; and the key of every entry is
    a module of the graph, which is what [test_gamma_modules] asserts with
    [either_connected_or_not_connected]. *)
Theorem C9_gamma_classes_partition (G : Graph V) :
  simple_graph G →
  concat (map snd (gamma_classes G)) ≡ₚ edge_list G ∧
  (∀ u w, has_edge G u w = true →
     ∃ kc, kc ∈ gamma_classes G ∧ cadj kc.2 u w ∧
           ∀ kc', kc' ∈ gamma_classes G → cadj kc'.2 u w → kc' = kc) ∧
  (∀ k C, (k, C) ∈ gamma_classes G →
     C ≠ [] ∧
     (∀ u w, cadj C u w → has_edge G u w = true) ∧
     (∀ v, v ∈ k ↔ ∃ e, e ∈ C ∧ (v = e.1 ∨ v = e.2)) ∧
     module G k ∧
     (∀ v, v ∈ vertices G → v ∉ k → either_connected_or_not_connected v k G = Ok true)).
Proof.
  intros HG. split; [| split].
  - rewrite (gamma_classes_eq G HG), map_map. simpl. rewrite map_id.
    by apply ds_sets_edge_list.
  - intros u w Huw. destruct (ds_sets_cover G HG u w Huw) as (C & HC & Hc).
    exists (class_vertices C, C). split; [by apply elem_of_gamma_classes |].
    split; [done |]. intros [k' C'] [-> HC']%elem_of_gamma_classes Hc'; [| done].
    simpl in Hc'. by rewrite (ds_sets_share G HG C' C u w).
  - intros k C Hin. destruct (gamma_classes_gclass G HG k C Hin) as [Hg Hne].
    apply elem_of_gamma_classes in Hin as [-> HC]; [| done].
    assert (∀ x u u', x ∉ class_vertices C → u ∈ class_vertices C →
              u' ∈ class_vertices C → has_edge G u x = has_edge G u' x) as Hmod.
    { intros x u u'. by apply gclass_span_module. }
    split; [done |]. split; [apply (gc_edges _ _ Hg) |]. split; [| split].
    + intros v. unfold class_vertices. rewrite list_elem_of_In, in_flat_map. split.
      * intros (e & He%list_elem_of_In & Hv). exists e. split; [done |].
        simpl in Hv. destruct Hv as [<- | [<- | []]]; [by left | by right].
      * intros (e & He%list_elem_of_In & Hv). exists e. split; [done |].
        simpl. destruct Hv as [-> | ->]; [by left | right; by left].
    + intros x u u' _. apply Hmod.
    + intros v _ Hv. destruct C as [| [a b] C]; [done |].
      set (k := class_vertices ((a, b) :: C)) in *.
      assert (∃ tl, k = a :: tl) as [tl Hk] by by eexists.
      unfold either_connected_or_not_connected. rewrite Hk. cbv beta iota zeta.
      rewrite <- Hk. f_equal. apply forallb_forall. intros u Hu%list_elem_of_In.
      apply bool_decide_eq_true_2. apply Hmod; [done | done |]. rewrite Hk. by left.
Qed.

End gamma_classes_claim.

(** The path on four vertices is an instance. *)
Lemma C9_gamma_classes_partition_witness :
  simple_graph path4 ∧
  concat (map snd (gamma_classes path4)) ≡ₚ edge_list path4 ∧
  (∀ u w, has_edge path4 u w = true →
     ∃ kc, kc ∈ gamma_classes path4 ∧ cadj kc.2 u w ∧
           ∀ kc', kc' ∈ gamma_classes path4 → cadj kc'.2 u w → kc' = kc) ∧
  (∀ k C, (k, C) ∈ gamma_classes path4 →
     C ≠ [] ∧
     (∀ u w, cadj C u w → has_edge path4 u w = true) ∧
     (∀ v, v ∈ k ↔ ∃ e, e ∈ C ∧ (v = e.1 ∨ v = e.2)) ∧
     module path4 k ∧
     (∀ v, v ∈ vertices path4 → v ∉ k →
        either_connected_or_not_connected v k path4 = Ok true)).
Proof.
  split; [apply simple_graph_of_edges; reflexivity |].
  apply (C9_gamma_classes_partition path4).
  apply simple_graph_of_edges. reflexivity.
Defined.

(** * Further properties of the code *)

(** ** The shape of the trees of the Habib-Maurer decomposer *)

Section hm_shape.
Context {V : Type} `{EqDecision V}.
Implicit Types (G H : Graph V) (u v w x y : V) (sg : list V) (C : list (V * V))
  (t : Node V).

Lemma hm_root_modules H ty (L : list (list V)) :
  simple_graph H → hm_root H ty L → ∀ sg, sg ∈ L → module H sg.
Proof.
  intros HH [(_ & _ & ->) | [(_ & _ & _ & ->) | (_ & _ & _ & C & HC & Hspan & ->)]] sg Hsg.
  - destruct (connected_components_spec H HH) as [_ Hall]. rewrite Forall_forall in Hall.
    destruct (Hall sg Hsg) as (r & Hr & ->). by apply component_module.
  - destruct (connected_components_spec (complement H) (simple_complement H HH)) as [_ Hall].
    rewrite Forall_forall in Hall.
    destruct (Hall sg Hsg) as (r & Hr & ->). by apply co_component_module.
  - by destruct (prime_bucket_module H C HH HC Hspan sg Hsg).
Qed.

(** Two vertices joined by an edge of the spanning class lie in different
    buckets, so there are at least two buckets. *)
Lemma prime_buckets_two H C :
  simple_graph H → gclass H C → (∀ x, x ∈ vertices H ↔ x ∈ class_vertices C) →
  (1 ≤ order H)%nat → (2 ≤ length (prime_buckets (subgraph_edges H C)))%nat.
Proof.
  intros HH HC Hspan Hord.
  pose proof (prime_buckets_perm H C HH HC Hspan) as Hperm.
  assert (∃ v0, v0 ∈ vertices H) as [v0 Hv0].
  { unfold order in Hord. destruct (vertices H) as [| v0 l]; [simpl in Hord; lia |].
    exists v0. by left. }
  destruct (proj1 (elem_of_class_vertices C v0) (proj1 (Hspan v0) Hv0)) as [w0 Hvw].
  assert (w0 ∈ vertices H) as Hw0.
  { apply Hspan, elem_of_class_vertices. exists v0. by apply cadj_sym. }
  destruct (prime_buckets (subgraph_edges H C)) as [| b [| b' rest]] eqn:E;
    [| | simpl; lia].
  - simpl in Hperm. rewrite <- Hperm in Hv0. by apply elem_of_nil in Hv0.
  - exfalso. simpl in Hperm. rewrite app_nil_r in Hperm.
    destruct (prime_buckets_mem H C HH HC Hspan b) as [K HK]; [rewrite E; by left |].
    assert (v0 ∈ b) as Hvb by by rewrite Hperm.
    assert (w0 ∈ b) as Hwb by by rewrite Hperm.
    apply HK in Hvb as [_ Hv]. apply HK in Hwb as [_ Hw].
    assert (cadj C w0 w0) as Hww by (apply Hw, Hv; by apply cadj_sym).
    apply (gc_edges _ _ HC) in Hww. by rewrite (sg_irrefl _ HH) in Hww.
Qed.

Lemma hm_root_two H ty (L : list (list V)) :
  simple_graph H → (1 ≤ order H)%nat → hm_root H ty L → (2 ≤ length L)%nat.
Proof.
  intros HH Hord [(_ & Hc & ->) | [(_ & _ & Hc & ->) | (_ & _ & _ & C & HC & Hspan & ->)]].
  - unfold is_connected in Hc. apply bool_decide_eq_false_1 in Hc. lia.
  - unfold is_connected in Hc. apply bool_decide_eq_false_1 in Hc. lia.
  - by apply prime_buckets_two.
Qed.

Lemma hm_root_type H ty (L : list (list V)) : hm_root H ty L → ty = get_module_type H.
Proof.
  unfold get_module_type.
  intros [(-> & Hc & _) | [(-> & Hc & Hcc & _) | (-> & Hc & Hcc & _)]];
    rewrite Hc; simpl; [done | |]; by rewrite Hcc.
Qed.

(** Induction along the calls of the decomposer. *)
Lemma hm_ind (P : Graph V → Node V → Prop) :
  (∀ H v, simple_graph H → vertices H = [v] → P H (Normal v)) →
  (∀ H ty (L : list (list V)) (ts : list (Node V)),
     simple_graph H → (2 ≤ order H)%nat → hm_root H ty L →
     concat L ≡ₚ vertices H → (∀ sg, sg ∈ L → sg ≠ []) →
     Forall2 (λ sg t, hm_spec (subgraph H sg) t ∧ P (subgraph H sg) t) L ts →
     hm_spec H (Inner ty ts) → P H (Inner ty ts)) →
  ∀ fuel H gc t, (order H < fuel)%nat → hm_inv H gc → (1 ≤ order H)%nat →
    habib_maurer_algorithm fuel H gc = Ok t → P H t.
Proof.
  intros Hleaf Hinner. induction fuel as [| fuel IH]; intros H gc t Hord Hinv Hpos Ht; [lia |].
  pose proof Hinv as [HH Hgc].
  assert ((∃ v, vertices H = [v]) ∨ (2 ≤ order H)%nat) as [[v E] | Hbig].
  { unfold order in *. destruct (vertices H) as [| v0 [| v1 rest]]; simpl in *;
      [lia | eauto | right; lia]. }
  - simpl in Ht. rewrite (sg_undirected _ HH), E in Ht. injection Ht as <-. by apply Hleaf.
  - destruct (hm_main (S fuel) H gc Hord Hinv) as (t' & Ht' & Hspec).
    rewrite Ht in Ht'. injection Ht' as <-.
    destruct (hm_step fuel H gc Hord Hinv Hbig) as (ty & L & gc1 & ts & Hrun & Hkids & Hroot).
    rewrite Ht in Hrun. injection Hrun as ->.
    destruct Hkids as (Hperm & Hsg & HF).
    apply (Hinner H ty L ts); try done.
    + intros sg Hin. by destruct (Hsg sg Hin).
    + apply Forall2_same_length_lookup. split; [by eapply Forall2_length |].
      intros i sg t Hi Hti. destruct (Forall2_lookup_lr _ _ _ _ _ _ HF Hi Hti) as [Hr Hs].
      split; [done |].
      destruct (Hsg sg) as (Hne & Hlt & Hinv'); [by eapply list_elem_of_lookup_2 |].
      apply (IH _ gc1); try done.
      assert (∃ x, x ∈ sg) as [x Hx] by (destruct sg as [| x ?]; [done | exists x; by left]).
      assert (x ∈ vertices (subgraph H sg)) as Hxs.
      { apply vertices_subgraph. split; [done |]. rewrite <- Hperm. apply elem_of_concat.
        exists sg. split; [done |]. by eapply list_elem_of_lookup_2. }
      unfold order. destruct (vertices (subgraph H sg)); [by apply elem_of_nil in Hxs |].
      simpl. lia.
Qed.

Lemma hm_root_inner H ty (L : list (list V)) : hm_root H ty L → ty ≠ NORMAL.
Proof. intros [(-> & _) | [(-> & _) | (-> & _)]]; done. Qed.

Lemma order_pos_elem G : (1 ≤ order G)%nat ↔ ∃ v, v ∈ vertices G.
Proof.
  unfold order. destruct (vertices G) as [| v l]; simpl; split.
  - lia.
  - by intros [v ?%elem_of_nil].
  - intros _. exists v. by left.
  - lia.
Qed.


Lemma hm_two_children fuel H gc t :
  (order H < fuel)%nat → hm_inv H gc → (1 ≤ order H)%nat →
  habib_maurer_algorithm fuel H gc = Ok t →
  ∀ ty cs, Inner ty cs ∈ subtrees t → (2 ≤ length cs)%nat.
Proof.
  apply (hm_ind (λ _ t, ∀ ty cs, Inner ty cs ∈ subtrees t → (2 ≤ length cs)%nat)).
  - intros _ v _ _ ty cs Hin. simpl in Hin. by apply list_elem_of_singleton in Hin.
  - clear. intros H ty L ts HH Hord Hroot _ _ HF _ ty' cs.
    intros [[= -> ->] | (c & Hc & Hin)]%elem_of_subtrees_Inner.
    + rewrite <- (Forall2_length _ _ _ HF). apply (hm_root_two H ty); [done | lia | done].
    + destruct (Forall2_child _ _ _ _ HF Hc) as (sg & _ & _ & HP). by apply (HP ty').
Qed.


(** In the tree of a finite simple undirected graph no [SERIES] node has a
    [SERIES] child and no [PARALLEL] node has a [PARALLEL] child. *)
Theorem habib_maurer_never_nests_degenerate G :
  simple_graph G →
  ∃ t, habib_maurer G = Ok t ∧
    ∀ ty cs c, Inner ty cs ∈ subtrees t → c ∈ cs →
      (ty = SERIES → node_type c ≠ SERIES) ∧ (ty = PARALLEL → node_type c ≠ PARALLEL).
Proof.
  intros HG. destruct (hm_main (S (order G)) G None) as (t & Ht & _ & _ & Hn & _);
    [lia | by split |]. by exists t.
Qed.

(** In the tree of a finite simple undirected graph that has a vertex every
    inner node has at least two children. *)
Theorem habib_maurer_inner_nodes_branch G :
  simple_graph G → (1 ≤ order G)%nat →
  ∃ t, habib_maurer G = Ok t ∧
    ∀ ty cs, Inner ty cs ∈ subtrees t → (2 ≤ length cs)%nat.
Proof.
  intros HG Hpos. destruct (hm_main (S (order G)) G None) as (t & Ht & _); [lia | by split |].
  exists t. split; [done |].
  eapply (hm_two_children _ G None); [| by split | done | exact Ht]. lia.
Qed.

(** The type of the root is the type [get_module_type] gives the graph,
    unless the graph has one vertex: its tree is a leaf. *)
Theorem habib_maurer_root_type G :
  simple_graph G →
  ∃ t, habib_maurer G = Ok t ∧
    (order G ≠ 1%nat → node_type t = get_module_type G) ∧
    (order G = 1%nat → node_type t = NORMAL ∧ get_module_type G = PRIME).
Proof.
  intros HG. pose proof (sg_undirected _ HG) as Hd.
  assert (vertices G = [] ∨ (∃ v, vertices G = [v]) ∨ (2 ≤ order G)%nat) as Hcases.
  { unfold order. destruct (vertices G) as [| v0 [| v1 rest]]; simpl; eauto with lia. }
  destruct Hcases as [E | [[v E] | Hbig]].
  - exists (Inner PRIME []). split; [by apply hm_empty |].
    split; [| unfold order; rewrite E; done]. intros _.
    unfold get_module_type, is_connected, connected_components, order. simpl. by rewrite E.
  - exists (Normal v). split; [by apply hm_single |].
    split; [unfold order; rewrite E; done |]. intros _. split; [done |].
    assert (∀ K : Graph V, vertices K = [v] → conn K) as Hconn.
    { intros K EK u w. rewrite EK. intros ->%list_elem_of_singleton ->%list_elem_of_singleton.
      apply rtc_refl. }
    unfold get_module_type.
    rewrite (conn_is_connected G HG (Hconn G E)).
    rewrite (conn_is_connected (complement G) (simple_complement G HG) (Hconn (complement G) E)). done.
  - destruct (hm_step (order G) G None) as (ty & L & gc1 & ts & Hrun & _ & Hroot);
      [lia | by split | done |].
    exists (Inner ty ts). split; [done |]. split; [| lia].
    intros _. simpl. by eapply hm_root_type.
Qed.

(** The classes of a graph serve for the subgraph on one of its modules:
    given them, the decomposer returns a tree for the subgraph, with the
    vertices of the subgraph as its leaves and modules of the subgraph as
    its inner nodes. *)
Theorem habib_maurer_with_classes_of_host G sg :
  simple_graph G → module G sg →
  ∃ t, habib_maurer_algorithm (S (order (subgraph G sg))) (subgraph G sg)
         (Some (gamma_classes G)) = Ok t ∧
       get_vertices t ≡ₚ vertices (subgraph G sg) ∧
       ∀ ty cs, Inner ty cs ∈ subtrees t →
         module (subgraph G sg) (get_vertices (Inner ty cs)).
Proof.
  intros HG Hsg.
  destruct (hm_main (S (order (subgraph G sg))) (subgraph G sg) (Some (gamma_classes G)))
    as (t & Ht & Hperm & Hmod & _); [lia | by apply hm_inv_child_own |].
  by exists t.
Qed.

End hm_shape.

Section hm_base.
Context {V : Type} `{EqDecision V}.

(** The base cases: no vertex, one vertex, no edge, every edge. *)
Theorem habib_maurer_base_cases (G : Graph V) :
  simple_graph G →
  (vertices G = [] → habib_maurer G = Ok (Inner PRIME [])) ∧
  (∀ v, vertices G = [v] → habib_maurer G = Ok (Normal v)) ∧
  ((2 ≤ order G)%nat → edgeless G →
     habib_maurer G = Ok (Inner PARALLEL (map Normal (vertices G)))) ∧
  ((2 ≤ order G)%nat → complete G →
     habib_maurer G = Ok (Inner SERIES (map Normal (vertices G)))).
Proof.
  intros HG. pose proof (sg_undirected _ HG) as Hd. repeat split.
  - by apply hm_empty.
  - intros v. by apply hm_single.
  - intros Hord He. by apply hm_edgeless.
  - intros Hord Hc. by apply hm_complete.
Qed.
End hm_base.

(** ** The module test *)

Section module_test.
Context {V : Type} `{EqDecision V}.
Implicit Types (G : Graph V) (u v w x y : V) (M : list V) (m c : Node V).

(** Adjacent to all of [M] or to none of it. *)
Definition uniform_to G M x : Prop :=
  (∀ u, u ∈ M → has_edge G u x = true) ∨ (∀ u, u ∈ M → has_edge G u x = false).

Lemma either_connected_cons G x u0 M :
  ∃ b, either_connected_or_not_connected x (u0 :: M) G = Ok b ∧
       (b = true ↔ ∀ u, u ∈ u0 :: M → has_edge G u x = has_edge G u0 x).
Proof.
  exists (forallb (λ u, bool_decide (has_edge G u x = has_edge G u0 x)) (u0 :: M)).
  split; [reflexivity |]. rewrite List.forallb_forall. split.
  - intros Hall u Hu%list_elem_of_In. specialize (Hall u Hu).
    by apply bool_decide_eq_true_1 in Hall.
  - intros Hall u Hu%list_elem_of_In. by apply bool_decide_eq_true_2, Hall.
Qed.

Lemma uniform_to_head G x u0 M :
  uniform_to G (u0 :: M) x ↔ ∀ u, u ∈ u0 :: M → has_edge G u x = has_edge G u0 x.
Proof.
  split.
  - intros [Hall | Hnone] u Hu; [rewrite (Hall u Hu), (Hall u0) | rewrite (Hnone u Hu), (Hnone u0)];
      done || by left.
  - intros Hsame. destruct (has_edge G u0 x) eqn:E; [left | right]; intros u Hu;
      by rewrite (Hsame u Hu).
Qed.

Lemma either_connected_nonempty G x M :
  M ≠ [] →
  ∃ b, either_connected_or_not_connected x M G = Ok b ∧
       (b = true ↔ uniform_to G M x).
Proof.
  intros Hne. destruct M as [| u0 M]; [done |].
  destruct (either_connected_cons G x u0 M) as (b & Hb & Hiff).
  exists b. split; [done |]. by rewrite Hiff, uniform_to_head.
Qed.

Lemma module_uniform G M :
  module G M ↔ ∀ x, x ∈ vertices G → x ∉ M → uniform_to G M x.
Proof.
  split.
  - intros HM x Hx Hnx. destruct M as [| u0 M]; [left; by intros u ?%elem_of_nil |].
    apply uniform_to_head. intros u Hu. apply HM; try done. by left.
  - intros HM x u u' Hx Hnx Hu Hu'.
    destruct (HM x Hx Hnx) as [Hall | Hnone];
      [by rewrite (Hall u), (Hall u') | by rewrite (Hnone u), (Hnone u')].
Qed.

(** [either_connected_or_not_connected] raises [IndexError] on the empty
    list; on any other list it answers whether the vertex is adjacent to all
    of the list or to none of it. *)
Theorem either_connected_or_not_connected_spec G x M :
  (M = [] → either_connected_or_not_connected x M G = Raise IndexError) ∧
  (M ≠ [] → ∃ b, either_connected_or_not_connected x M G = Ok b ∧
                 (b = true ↔ uniform_to G M x)).
Proof. split; [by intros -> | apply either_connected_nonempty]. Qed.

(** The loop over the vertices outside. *)
Lemma test_outside_nil_module (outside : list V) G :
  outside ≠ [] → test_outside outside [] G = Raise IndexError.
Proof. by destruct outside. Qed.

Lemma test_outside_spec (outside : list V) G M :
  M ≠ [] →
  ∃ b, test_outside outside M G = Ok b ∧
       (b = true ↔ ∀ x, x ∈ outside → uniform_to G M x).
Proof.
  intros Hne. induction outside as [| x outside IH]; simpl.
  - exists true. split; [done |]. split; [| done]. by intros _ x ?%elem_of_nil.
  - destruct (either_connected_nonempty G x M Hne) as (b & -> & Hb). simpl.
    destruct b.
    + destruct IH as (b' & -> & Hb'). exists b'. split; [done |]. rewrite Hb'.
      split.
      * intros Hall y [-> | Hy]%elem_of_cons; [by apply Hb | by apply Hall].
      * intros Hall y Hy. apply Hall. by right.
    + exists false. split; [done |]. split; [done |]. intros Hall.
      apply (proj2 Hb), Hall. by left.
Qed.

(** The nodes [test_module] turns down before it looks at the graph. *)
Definition well_shaped m : Prop :=
  num_children m ≠ 1%nat ∧
  (node_type m = SERIES → ∃ c, c ∈ children_of m ∧ node_type c ≠ SERIES) ∧
  (node_type m = PARALLEL → ∃ c, c ∈ children_of m ∧ node_type c ≠ PARALLEL).

Lemma forallb_false_iff {T} (f : T → bool) (l : list T) :
  forallb f l = false ↔ ∃ t, t ∈ l ∧ f t = false.
Proof.
  induction l as [| a l IH]; simpl.
  - split; [done | by intros [t [?%elem_of_nil _]]].
  - rewrite andb_false_iff, IH. split.
    + intros [Ha | (t & Ht & Hf)]; [exists a; split; [by left | done] |].
      exists t. split; [by right | done].
    + intros (t & [-> | Ht]%elem_of_cons & Hf); [by left | right; by exists t].
Qed.

Lemma children_node_type_Inner ty cs ty' :
  children_node_type (Inner ty cs : Node V) ty' = Ok true ∨
  (children_node_type (Inner ty cs : Node V) ty' = Ok false ∧
   ∃ c, c ∈ cs ∧ node_type c ≠ ty').
Proof.
  simpl. destruct (forallb _ cs) eqn:E; [by left | right].
  split; [done |]. apply forallb_false_iff in E as (c & Hc & Hf).
  exists c. split; [done |]. by apply bool_decide_eq_false_1 in Hf.
Qed.

Lemma children_node_type_true ty cs ty' :
  children_node_type (Inner ty cs : Node V) ty' = Ok true → ∀ c, c ∈ cs → node_type c = ty'.
Proof.
  simpl. intros [= Hall] c Hc%list_elem_of_In. rewrite List.forallb_forall in Hall.
  specialize (Hall c Hc). by apply bool_decide_eq_true_1 in Hall.
Qed.

Lemma elem_of_outside G M x :
  x ∈ filter (λ v, v ∉ M) (remove_dups (vertices G)) ↔ x ∈ vertices G ∧ x ∉ M.
Proof. rewrite list_elem_of_filter, elem_of_remove_dups. tauto. Qed.

Lemma outside_nil G M :
  filter (λ v, v ∉ M) (remove_dups (vertices G)) = [] → M = [] → vertices G = [].
Proof.
  intros Ho ->. destruct (vertices G) as [| x l]; [done |]. exfalso.
  assert (x ∈ filter (λ v, v ∉ []) (remove_dups (x :: l))) as Hx.
  { apply list_elem_of_filter. split; [by intros ?%elem_of_nil |].
    apply elem_of_remove_dups. by left. }
  rewrite Ho in Hx. by apply elem_of_nil in Hx.
Qed.

(** [test_module] on an inner node: the three outcomes. *)
Lemma test_module_Inner ty cs G :
  ty ≠ NORMAL →
  let m := Inner ty cs in
  let outside := filter (λ v, v ∉ get_vertices m) (remove_dups (vertices G)) in
  (¬ well_shaped m ∧ test_module m G = Ok false) ∨
  (well_shaped m ∧ test_module m G = test_outside outside (get_vertices m) G).
Proof.
  intros Hty m outside. unfold test_module, well_shaped. subst m. cbn [node_type num_children children_of].
  rewrite (bool_decide_eq_false_2 (ty = NORMAL)) by done.
  destruct (decide (length cs = 1%nat)) as [Hone | Hone].
  { rewrite (bool_decide_eq_true_2 _ Hone). left. split; [tauto | done]. }
  rewrite (bool_decide_eq_false_2 _ Hone).
  destruct (decide (ty = SERIES)) as [-> | Hs].
  - rewrite (bool_decide_eq_true_2 (SERIES = SERIES)) by done.
    rewrite (bool_decide_eq_false_2 (SERIES = PARALLEL)) by done.
    destruct (children_node_type_Inner SERIES cs SERIES) as [Hall | [Hsome Hex]].
    + left. rewrite Hall. simpl. split; [| done].
      intros (_ & Hser & _). destruct (Hser eq_refl) as (c & Hc & Hne).
      by apply Hne, (children_node_type_true SERIES cs SERIES).
    + rewrite Hsome. simpl. right. split; [| done]. split; [done |]. split; done.
  - rewrite (bool_decide_eq_false_2 (ty = SERIES)) by done. simpl.
    destruct (decide (ty = PARALLEL)) as [-> | Hp].
    + rewrite (bool_decide_eq_true_2 (PARALLEL = PARALLEL)) by done.
      destruct (children_node_type_Inner PARALLEL cs PARALLEL) as [Hall | [Hsome Hex]].
      * left. simpl in Hall. rewrite Hall. simpl. split; [| done].
        intros (_ & _ & Hpar). destruct (Hpar eq_refl) as (c & Hc & Hne).
        by apply Hne, (children_node_type_true PARALLEL cs PARALLEL).
      * simpl in Hsome. rewrite Hsome. simpl. right. split; [| done].
        split; [done |]. split; done.
    + rewrite (bool_decide_eq_false_2 (ty = PARALLEL)) by done. simpl.
      right. split; [| done]. split; [done |]. split; done.
Qed.

Lemma node_wf_Inner ty cs : node_wf (Inner ty cs : Node V) = true → ty ≠ NORMAL.
Proof.
  simpl. intros [Hn _]%andb_true_iff. by apply negb_true_iff, bool_decide_eq_false_1 in Hn.
Qed.

Lemma test_module_accepts m G :
  node_type m ≠ NORMAL → well_shaped m → module G (get_vertices m) →
  get_vertices m ≠ [] → test_module m G = Ok true.
Proof.
  intros Hty Hgood Hmod Hne. destruct m as [v | ty cs]; [done |].
  destruct (test_module_Inner ty cs G Hty) as [[Hbad _] | [_ ->]]; [done |].
  destruct (test_outside_spec
    (filter (λ v, v ∉ get_vertices (Inner ty cs)) (remove_dups (vertices G)))
    G (get_vertices (Inner ty cs)) Hne) as (b & -> & Hb).
  f_equal. apply Hb. intros x [Hx Hnx]%elem_of_outside. by apply module_uniform.
Qed.

Lemma test_module_sound m G :
  node_wf m = true → test_module m G = Ok true → module G (get_vertices m).
Proof.
  intros Hwf Ht. destruct m as [v | ty cs].
  { intros x u u' _ _ ->%list_elem_of_singleton ->%list_elem_of_singleton. done. }
  pose proof (node_wf_Inner ty cs Hwf) as Hty.
  destruct (test_module_Inner ty cs G Hty) as [[_ Hf] | [_ Hrun]]; [congruence |].
  rewrite Hrun in Ht.
  destruct (decide (get_vertices (Inner ty cs) = [])) as [E | Hne].
  { rewrite E. by intros x u u' _ _ ?%elem_of_nil. }
  destruct (test_outside_spec
    (filter (λ v, v ∉ get_vertices (Inner ty cs)) (remove_dups (vertices G)))
    G (get_vertices (Inner ty cs)) Hne) as (b & Hb' & Hb).
  rewrite Hb' in Ht. injection Ht as ->.
  apply module_uniform. intros x Hx Hnx. apply Hb; [done |]. by apply elem_of_outside.
Qed.

(** [test_module] answers [True] for a leaf, and for an inner node exactly
    when the node does not have a single child, is not a [SERIES] node over
    [SERIES] nodes only or a [PARALLEL] node over [PARALLEL] nodes only, and
    its vertices are a module of the graph; a node without vertices passes
    only if the graph has none. *)
Theorem test_module_true_iff m G :
  node_wf m = true →
  test_module m G = Ok true ↔
  (∃ v, m = Normal v) ∨
  (well_shaped m ∧ module G (get_vertices m) ∧
   (get_vertices m = [] → vertices G = [])).
Proof.
  intros Hwf. destruct m as [v | ty cs].
  { split; [intros _; left; by exists v | done]. }
  assert (ty ≠ NORMAL) as Hty.
  { simpl in Hwf. apply andb_true_iff in Hwf as [Hn _].
    by apply negb_true_iff, bool_decide_eq_false_1 in Hn. }
  destruct (test_module_Inner ty cs G Hty) as [[Hbad ->] | [Hgood ->]].
  { split; [done |]. intros [[v ?] | [? _]]; done. }
  set (M := get_vertices (Inner ty cs)).
  set (outside := filter (λ v, v ∉ M) (remove_dups (vertices G))).
  destruct (decide (M = [])) as [E | Hne].
  - rewrite E. destruct (decide (outside = [])) as [Eo | Hno].
    + rewrite Eo. simpl. split; [| done]. intros _. right. split; [done |].
      split; [by intros x u u' _ _ ?%elem_of_nil |]. intros _.
      by apply (outside_nil G M).
    + rewrite test_outside_nil_module by done. split; [done |].
      intros [[v ?] | (_ & _ & Hemp)]; [done |]. exfalso. apply Hno.
      unfold outside. by rewrite (Hemp eq_refl).
  - destruct (test_outside_spec outside G M Hne) as (b & -> & Hb). split.
    + intros [= ->]. right. split; [done |]. split; [| done].
      apply module_uniform. intros x Hx Hnx. apply Hb; [done |]. by apply elem_of_outside.
    + intros [[v ?] | (_ & Hmod & _)]; [done |]. f_equal. apply Hb.
      intros x [Hx Hnx]%elem_of_outside. by apply module_uniform.
Qed.

(** [test_module] raises only for a node without vertices checked against
    a graph with a vertex: the empty [PRIME] node is one. *)
Theorem test_module_raises_iff m G e :
  node_wf m = true →
  test_module m G = Raise e ↔
  e = IndexError ∧ well_shaped m ∧ node_type m ≠ NORMAL ∧
  get_vertices m = [] ∧ vertices G ≠ [].
Proof.
  intros Hwf. destruct m as [v | ty cs].
  { split; [done | by intros (_ & _ & ? & _)]. }
  assert (ty ≠ NORMAL) as Hty.
  { simpl in Hwf. apply andb_true_iff in Hwf as [Hn _].
    by apply negb_true_iff, bool_decide_eq_false_1 in Hn. }
  destruct (test_module_Inner ty cs G Hty) as [[Hbad ->] | [Hgood ->]].
  { split; [done |]. by intros (_ & ? & _). }
  set (M := get_vertices (Inner ty cs)).
  set (outside := filter (λ v, v ∉ M) (remove_dups (vertices G))).
  destruct (decide (M = [])) as [E | Hne].
  - rewrite E. destruct (decide (outside = [])) as [Eo | Hno].
    + rewrite Eo. simpl. split; [done |]. intros (_ & _ & _ & _ & Hv). exfalso.
      by apply Hv, (outside_nil G M).
    + rewrite test_outside_nil_module by done. split.
      * intros [= <-]. split; [done |]. split; [done |]. split; [done |].
        split; [done |]. intros Ev. apply Hno.
        unfold outside. by rewrite Ev.
      * by intros (-> & _).
  - destruct (test_outside_spec outside G M Hne) as (b & -> & Hb). split; [done |].
    by intros (_ & _ & _ & ? & _).
Qed.

End module_test.

(** ** The set [form_module] grows *)

Section form_module_facts.
Context {V : Type} `{EqDecision V}.
Implicit Types (G : Graph V) (u v w x y : V) (S verts : list V) (c : Node V)
  (cs : list (Node V)).

(** No edge leaves [S]. *)
Definition closed_in G S : Prop :=
  ∀ u x, u ∈ S → x ∈ vertices G → has_edge G u x = true → x ∈ S.

(** [S] holds all of a child or nothing of it. *)
Definition saturated cs S : Prop :=
  ∀ c x y, c ∈ cs → x ∈ get_vertices c → x ∈ S → y ∈ get_vertices c → y ∈ S.

Lemma frozenset_eqb_nil (l : list V) : frozenset_eqb l [] = true ↔ l = [].
Proof.
  rewrite frozenset_eqb_true. split; [| by intros ->].
  intros Hl. destruct l as [| x l]; [done |]. exfalso.
  apply (elem_of_nil x), Hl. by left.
Qed.

Lemma form_module_scan_fold G verts (l : list V) (a : list V) :
  let r := foldl (λ (acc : list V * list V) v,
             let neighbor_list := list_difference (remove_dups (neighbors G v)) verts in
             (list_union acc.1 neighbor_list, list_intersection acc.2 neighbor_list))
           (a, []) l in
  r.2 = [] ∧
  ∀ x, x ∈ r.1 ↔ x ∈ a ∨ ((x ∉ verts) ∧ ∃ v, v ∈ l ∧ x ∈ neighbors G v).
Proof.
  revert a. induction l as [| v l IH]; intros a; simpl.
  - split; [done |]. intros x. split; [by left |].
    intros [? | (_ & v & ?%elem_of_nil & _)]; done.
  - destruct (IH (list_union a (list_difference (remove_dups (neighbors G v)) verts)))
      as [Hc Ha].
    split; [exact Hc |]. intros x. rewrite Ha, list_elem_of_union, list_elem_of_difference,
      elem_of_remove_dups. split.
    + intros [[Hx | [Hx Hn]] | (Hn & w & Hw & Hx)]; [by left | |].
      * right. split; [done |]. exists v. split; [by left | done].
      * right. split; [done |]. exists w. split; [by right | done].
    + intros [Hx | (Hn & w & [-> | Hw]%elem_of_cons & Hx)]; [by left; left | |].
      * left. right. done.
      * right. split; [done |]. by exists w.
Qed.

Lemma form_module_scan_spec G verts (a : list V) :
  (form_module_scan G verts (a, [])).2 = [] ∧
  ∀ x, x ∈ (form_module_scan G verts (a, [])).1 ↔
       x ∈ a ∨ ((x ∉ verts) ∧ ∃ v, v ∈ verts ∧ x ∈ neighbors G v).
Proof. apply form_module_scan_fold. Qed.

Lemma find_child_Some cs y c :
  List.find (λ c, bool_decide (y ∈ get_vertices c)) cs = Some c →
  c ∈ cs ∧ y ∈ get_vertices c.
Proof.
  intros [Hin Hy]%find_some. split; [by apply list_elem_of_In |].
  by apply bool_decide_eq_true_1 in Hy.
Qed.

Lemma find_child_is_Some cs y c :
  c ∈ cs → y ∈ get_vertices c →
  ∃ c', List.find (λ c, bool_decide (y ∈ get_vertices c)) cs = Some c'.
Proof.
  intros Hc Hy.
  destruct (List.find (λ c, bool_decide (y ∈ get_vertices c)) cs) as [c' |] eqn:E;
    [by exists c' |].
  exfalso. pose proof (find_none _ _ E c (proj1 (list_elem_of_In _ _) Hc)) as Hf.
  simpl in Hf. by apply bool_decide_eq_false_1 in Hf.
Qed.

Lemma form_module_grow_spec cs verts (unc : list V) :
  (NoDup verts → NoDup (form_module_grow cs verts unc)) ∧
  ∀ x, x ∈ form_module_grow cs verts unc ↔
       x ∈ verts ∨ ∃ y c, y ∈ unc ∧
         List.find (λ c, bool_decide (y ∈ get_vertices c)) cs = Some c ∧
         x ∈ get_vertices c.
Proof.
  unfold form_module_grow. revert verts. induction unc as [| y unc IH]; intros verts; simpl.
  - split; [done |]. intros x. split; [by left |].
    intros [? | (y & c & ?%elem_of_nil & _)]; done.
  - destruct (List.find (λ c, bool_decide (y ∈ get_vertices c)) cs) as [c0 |] eqn:E.
    + destruct (IH (list_union verts (remove_dups (get_vertices c0)))) as [Hnd Hmem].
      split.
      * intros Hv. apply Hnd, NoDup_list_union; [done | apply NoDup_remove_dups].
      * intros x. rewrite Hmem, list_elem_of_union, elem_of_remove_dups. split.
        -- intros [[Hx | Hx] | (z & c & Hz & Hf & Hx)]; [by left | |].
           ++ right. exists y, c0. split; [by left | done].
           ++ right. exists z, c. split; [by right | done].
        -- intros [Hx | (z & c & [-> | Hz]%elem_of_cons & Hf & Hx)]; [by left; left | |].
           ++ rewrite E in Hf. injection Hf as <-. left. by right.
           ++ right. by exists z, c.
    + destruct (IH verts) as [Hnd Hmem]. split; [done |].
      intros x. rewrite Hmem. split.
      * intros [Hx | (z & c & Hz & Hf & Hx)]; [by left |].
        right. exists z, c. split; [by right | done].
      * intros [Hx | (z & c & [-> | Hz]%elem_of_cons & Hf & Hx)]; [by left | |].
        -- rewrite E in Hf. done.
        -- right. by exists z, c.
Qed.

Lemma list_difference_nil_l (k : list V) : list_difference [] k = [].
Proof. done. Qed.

(** The children that do not lie in the set yet. *)
Definition children_left cs verts : list (Node V) :=
  filter (λ c, ¬ Forall (λ x, x ∈ verts) (get_vertices c)) cs.

Section loop.
Context (G : Graph V) (cs : list (Node V)).
Context (Hcover : ∀ x, x ∈ vertices G → ∃ c, c ∈ cs ∧ x ∈ get_vertices c).

Lemma form_module_loop_returns (fuel : nat) :
  ∀ verts (all : list V),
    NoDup verts →
    (∀ x, x ∈ all → ∃ v, v ∈ verts ∧ x ∈ neighbors G v) →
    (length (children_left cs verts) < fuel)%nat →
    ∃ vs, form_module_loop fuel G cs verts [] all
            = Ok (negb (bool_decide (length vs = order G)), vs) ∧
          NoDup vs ∧ (∀ x, x ∈ verts → x ∈ vs) ∧ closed_in G vs ∧
          (∀ x, x ∈ vs → x ∈ verts ∨ ∃ c, c ∈ cs ∧ x ∈ get_vertices c) ∧
          (∀ S, (∀ x, x ∈ verts → x ∈ S) → closed_in G S → saturated cs S →
                ∀ x, x ∈ vs → x ∈ S).
Proof using Type*.
  induction fuel as [| fuel IH]; intros verts all Hnd Hall Hlt; [lia |].
  cbn [form_module_loop]. rewrite list_difference_nil_l.
  destruct (form_module_scan_spec G verts (list_difference all verts)) as [Hc Ha].
  rewrite Hc.
  set (all' := (form_module_scan G verts (list_difference all verts, [])).1) in *.
  assert (∀ x, x ∈ all' ↔ (x ∉ verts) ∧ ∃ v, v ∈ verts ∧ x ∈ neighbors G v) as Hbd.
  { intros x. rewrite Ha, list_elem_of_difference. split.
    - intros [[Hx Hn] | ?]; [| done]. split; [done |]. by apply Hall.
    - intros ?. by right. }
  destruct (frozenset_eqb all' []) eqn:Heq.
  - apply frozenset_eqb_nil in Heq. exists verts.
    split; [by destruct (bool_decide (length verts = order G)) |].
    split; [done |]. split; [done |]. split; [| split; [by left | auto]].
    intros u x Hu Hx Hux. destruct (decide (x ∈ verts)) as [? | Hn]; [done |]. exfalso.
    assert (x ∈ all') as Hin.
    { apply Hbd. split; [done |]. exists u. split; [done |]. by apply elem_of_neighbors. }
    rewrite Heq in Hin. by apply elem_of_nil in Hin.
  - set (verts' := form_module_grow cs verts (list_difference all' [])).
    destruct (form_module_grow_spec cs verts (list_difference all' [])) as [Hnd' Hmem].
    fold verts' in Hnd', Hmem.
    assert (∀ x, x ∈ verts → x ∈ verts') as Hmono by (intros x Hx; apply Hmem; by left).
    assert (∃ x0, x0 ∈ all') as [x0 Hx0].
    { destruct all' as [| x0 l]; [by rewrite frozenset_eqb_refl in Heq |]. exists x0. by left. }
    pose proof (proj1 (Hbd x0) Hx0) as (Hx0n & v0 & Hv0 & Hx0v).
    destruct (Hcover x0) as (c1 & Hc1 & Hx0c); [by apply elem_of_neighbors in Hx0v as [_ ?] |].
    destruct (find_child_is_Some cs x0 c1 Hc1 Hx0c) as [c0 Hfind].
    destruct (find_child_Some cs x0 c0 Hfind) as [Hc0 Hx0c0].
    destruct (IH verts' all') as (vs & Hrun & Hvs & Hsub & Hclosed & Hfrom & Hmin).
    + by apply Hnd'.
    + intros x Hx. apply Hbd in Hx as (_ & v & Hv & Hxv). exists v. split; [by apply Hmono | done].
    + assert (length (children_left cs verts') < length (children_left cs verts))%nat; [| lia].
      apply (filter_length_mono_lt _ _ cs c0); [| done | |].
      * intros c Hn Hall'. apply Hn. eapply Forall_impl; [exact Hall' | done].
      * intros Hall'. rewrite Forall_forall in Hall'. by apply Hx0n, Hall'.
      * intros Hn. apply Hn. apply Forall_forall. intros x Hx. apply Hmem. right.
        exists x0, c0. split; [| done]. apply list_elem_of_difference.
        split; [done | by intros ?%elem_of_nil].
    + exists vs. split; [done |]. split; [done |]. split; [auto |]. split; [done |]. split.
      * intros x Hx. destruct (Hfrom x Hx) as [Hx' | ?]; [| by right].
        apply Hmem in Hx' as [? | (y & c & _ & Hf & Hxc)]; [by left |].
        right. exists c. split; [| done]. by apply (find_child_Some cs y c).
      * intros S HS Hcl Hsat. apply Hmin; [| done | done].
        intros x [Hx | (y & c & Hy & Hf & Hxc)]%Hmem; [by apply HS |].
        apply list_elem_of_difference in Hy as [Hy _].
        apply Hbd in Hy as (_ & v & Hv & Hyv). apply elem_of_neighbors in Hyv as [Hvy HyG].
        destruct (find_child_Some cs y c Hf) as [Hc' Hyc].
        apply (Hsat c y x); try done. apply (Hcl v y); [by apply HS | done | done].
Qed.

End loop.

Lemma form_module_returns G ty cs (index other_index fuel : nat) c1 c2 :
  (∀ x, x ∈ vertices G → ∃ c, c ∈ cs ∧ x ∈ get_vertices c) →
  cs !! index = Some c1 → cs !! other_index = Some c2 → (length cs < fuel)%nat →
  ∃ vs, form_module fuel index other_index (Inner ty cs) G
          = Ok (negb (bool_decide (length vs = order G)), vs) ∧
        NoDup vs ∧
        (∀ x, x ∈ get_vertices c1 ∨ x ∈ get_vertices c2 → x ∈ vs) ∧
        closed_in G vs ∧
        (∀ x, x ∈ vs → ∃ c, c ∈ cs ∧ x ∈ get_vertices c) ∧
        (∀ S, (∀ x, x ∈ get_vertices c1 ∨ x ∈ get_vertices c2 → x ∈ S) →
              closed_in G S → saturated cs S → ∀ x, x ∈ vs → x ∈ S).
Proof.
  intros Hcover H1 H2 Hfuel. unfold form_module. simpl. rewrite H1, H2. simpl.
  set (verts := list_union (remove_dups (get_vertices c1)) (remove_dups (get_vertices c2))).
  assert (∀ x, x ∈ verts ↔ x ∈ get_vertices c1 ∨ x ∈ get_vertices c2) as Hverts.
  { intros x. unfold verts. by rewrite list_elem_of_union, !elem_of_remove_dups. }
  destruct (form_module_loop_returns G cs Hcover fuel verts [])
    as (vs & Hrun & Hnd & Hsub & Hclosed & Hfrom & Hmin).
  - apply NoDup_list_union; apply NoDup_remove_dups.
  - by intros x ?%elem_of_nil.
  - unfold children_left. pose proof (length_filter
      (λ c, ¬ Forall (λ x, x ∈ verts) (get_vertices c)) cs). lia.
  - exists vs. split; [done |]. split; [done |]. split; [| split; [done | split]].
    + intros x Hx. by apply Hsub, Hverts.
    + intros x Hx. destruct (Hfrom x Hx) as [[Hx' | Hx']%Hverts | ?]; [| | done].
      * exists c1. split; [by eapply list_elem_of_lookup_2 | done].
      * exists c2. split; [by eapply list_elem_of_lookup_2 | done].
    + intros S HS. apply Hmin. intros x Hx. by apply HS, Hverts.
Qed.


End form_module_facts.

(** ** When [form_module] does not return *)

Section form_module_loops.
Context {V : Type} `{EqDecision V}.
Implicit Types (G : Graph V) (u v w x y : V) (S verts : list V) (c : Node V)
  (cs : list (Node V)).

Lemma form_module_loop_runs_on G cs u x (fuel : nat) :
  x ∈ neighbors G u → (∀ c, c ∈ cs → x ∉ get_vertices c) →
  ∀ verts (all : list V),
    u ∈ verts → (∀ y, y ∈ verts → ∃ c, c ∈ cs ∧ y ∈ get_vertices c) →
    form_module_loop fuel G cs verts [] all = OutOfFuel.
Proof.
  intros Hx Hout. induction fuel as [| fuel IH]; intros verts all Hu Hin; [done |].
  cbn [form_module_loop]. rewrite list_difference_nil_l.
  destruct (form_module_scan_spec G verts (list_difference all verts)) as [Hc Ha].
  rewrite Hc.
  set (all' := (form_module_scan G verts (list_difference all verts, [])).1) in *.
  assert (x ∉ verts) as Hxv.
  { intros Hxv. destruct (Hin x Hxv) as (c & Hc' & Hxc). by apply (Hout c Hc'). }
  assert (x ∈ all') as Hxa.
  { apply Ha. right. split; [done |]. by exists u. }
  destruct (frozenset_eqb all' []) eqn:Heq.
  { apply frozenset_eqb_nil in Heq. rewrite Heq in Hxa. by apply elem_of_nil in Hxa. }
  destruct (form_module_grow_spec cs verts (list_difference all' [])) as [_ Hmem].
  apply IH.
  - apply Hmem. by left.
  - intros y [Hy | (z & c & _ & Hf & Hyc)]%Hmem; [by apply Hin |].
    exists c. split; [| done]. by apply (find_child_Some cs z c).
Qed.

(** [form_module] does not return when a neighbour of one of the two
    children lies in no child of the root: the set it grows never takes the
    neighbour in, and its loop has no other way out. *)
Theorem form_module_never_returns G ty cs (index other_index : nat) c1 c2 u x :
  cs !! index = Some c1 → cs !! other_index = Some c2 →
  u ∈ get_vertices c1 ∨ u ∈ get_vertices c2 →
  x ∈ neighbors G u → (∀ c, c ∈ cs → x ∉ get_vertices c) →
  ∀ fuel, form_module fuel index other_index (Inner ty cs) G = OutOfFuel.
Proof.
  intros H1 H2 Hu Hx Hout fuel. unfold form_module. simpl. rewrite H1, H2. simpl.
  apply (form_module_loop_runs_on G cs u x fuel Hx Hout).
  - apply list_elem_of_union. rewrite !elem_of_remove_dups. done.
  - intros y [Hy | Hy]%list_elem_of_union; rewrite elem_of_remove_dups in Hy.
    + exists c1. split; [by eapply list_elem_of_lookup_2 | done].
    + exists c2. split; [by eapply list_elem_of_lookup_2 | done].
Qed.

End form_module_loops.

(** ** The maximality test *)

Section maximal_test.
Context {V : Type} `{EqDecision V}.
Implicit Types (G : Graph V) (u v w x y : V) (S verts : list V) (c : Node V)
  (cs : list (Node V)).

Lemma elem_of_index_pairs (n i j : nat) :
  (i, j) ∈ index_pairs n ↔ (i < j)%nat ∧ (j < n)%nat.
Proof.
  unfold index_pairs. rewrite list_elem_of_In, in_flat_map. split.
  - intros (a & Ha%list_elem_of_In & Hin%list_elem_of_In).
    apply list_elem_of_fmap in Hin as (b & [= -> ->] & Hb).
    apply elem_of_seq in Ha, Hb. lia.
  - intros [Hij Hjn]. exists i. split; apply list_elem_of_In.
    + apply elem_of_seq. lia.
    + apply list_elem_of_fmap. exists j. split; [done |]. apply elem_of_seq. lia.
Qed.

Lemma test_pairs_true (fuel : nat) (pairs : list (nat * nat)) (root : Node V) G :
  (∀ p, p ∈ pairs →
     ∃ r, form_module fuel p.1 p.2 root G = Ok r ∧
          (r.1 = true →
           get_module_type (subgraph G r.2) = node_type root ∧
           (node_type root = PARALLEL ∨ node_type root = SERIES))) →
  test_pairs fuel pairs root G = Ok true.
Proof.
  induction pairs as [| [i j] pairs IH]; intros Hall; [done |]. simpl.
  destruct (Hall (i, j)) as ([flag vs] & Hrun & Hflag); [by left |].
  simpl in Hrun. rewrite Hrun. simpl.
  assert (test_pairs fuel pairs root G = Ok true) as Hrest.
  { apply IH. intros p Hp. apply Hall. by right. }
  destruct flag; [| done]. destruct (Hflag eq_refl) as [Hty Hdeg]. simpl in Hty.
  rewrite (bool_decide_eq_true_2 _ Hty). simpl.
  destruct Hdeg as [Hd | Hd]; rewrite Hd; simpl; done.
Qed.

(** A path does not leave a set that no edge leaves. *)
Lemma closed_in_path G S a b :
  closed_in G S → a ∈ S → path G a b → b ∈ S.
Proof.
  intros Hcl Ha Hp. induction Hp as [| a b c [Hab Hb] _ IH]; [done |].
  apply IH. by apply (Hcl a b).
Qed.

Lemma conn_closed_all G S a :
  conn G → closed_in G S → a ∈ S → a ∈ vertices G → ∀ b, b ∈ vertices G → b ∈ S.
Proof.
  intros Hc Hcl Ha HaG b Hb. apply (closed_in_path G S a b); [done | done |].
  by apply Hc.
Qed.

Lemma children_cover G cs x :
  concat (map get_vertices cs) ≡ₚ vertices G →
  x ∈ vertices G ↔ ∃ c, c ∈ cs ∧ x ∈ get_vertices c.
Proof.
  intros Hperm. rewrite <- Hperm, elem_of_concat. split.
  - intros (l & Hx & (c & -> & Hc)%list_elem_of_fmap). by exists c.
  - intros (c & Hc & Hx). exists (get_vertices c). split; [done |].
    by apply list_elem_of_fmap_2.
Qed.

Lemma children_disjoint G cs (i j : nat) c1 c2 x :
  NoDup (vertices G) → concat (map get_vertices cs) ≡ₚ vertices G →
  cs !! i = Some c1 → cs !! j = Some c2 →
  x ∈ get_vertices c1 → x ∈ get_vertices c2 → i = j.
Proof.
  intros Hnd Hperm Hi Hj H1 H2.
  apply (blocks_disjoint (map get_vertices cs) i j (get_vertices c1) (get_vertices c2) x);
    try done.
  - by rewrite Hperm.
  - by rewrite list_lookup_fmap, Hi.
  - by rewrite list_lookup_fmap, Hj.
Qed.

(** The maximality test passes when the children split the vertices of the
    graph into sets that are not empty, and the graph is connected or the
    root is [PARALLEL] and no edge leaves a child. *)
Lemma test_maximal_modules_accepts G ty cs :
  simple_graph G →
  concat (map get_vertices cs) ≡ₚ vertices G →
  (∀ c, c ∈ cs → get_vertices c ≠ []) →
  is_connected G = true ∨
    (ty = PARALLEL ∧ ∀ c, c ∈ cs → closed_in G (get_vertices c)) →
  test_maximal_modules (Inner ty cs) G = Ok true.
Proof.
  intros HG Hperm Hne Hcase. pose proof (sg_nodup _ HG) as Hnd.
  unfold test_maximal_modules. cbn [node_type num_children].
  case_bool_decide as Hty; [done |].
  apply test_pairs_true. intros [i j] [Hij Hjn]%elem_of_index_pairs. cbn [fst snd node_type].
  destruct (lookup_lt_is_Some_2 cs i) as [c1 H1]; [lia |].
  destruct (lookup_lt_is_Some_2 cs j) as [c2 H2]; [lia |].
  destruct (form_module_returns G ty cs i j (S (length cs)) c1 c2)
    as (vs & Hrun & Hvs & Hsub & Hclosed & Hfrom & Hmin); try done.
  { intros x Hx. by apply (children_cover G cs x). }
  { lia. }
  eexists. split; [exact Hrun |]. cbn [fst snd]. intros Hflag.
  apply negb_true_iff, bool_decide_eq_false_1 in Hflag.
  assert (∀ x, x ∈ vs → x ∈ vertices G) as HvsG.
  { intros x Hx. apply (children_cover G cs x Hperm). by apply Hfrom. }
  assert (c1 ∈ cs) as Hc1 by by eapply list_elem_of_lookup_2.
  assert (c2 ∈ cs) as Hc2 by by eapply list_elem_of_lookup_2.
  assert (∃ a, a ∈ get_vertices c1) as [a Ha].
  { pose proof (Hne c1 Hc1). destruct (get_vertices c1) as [| a l]; [done |]. exists a. by left. }
  assert (∃ b, b ∈ get_vertices c2) as [b Hb].
  { pose proof (Hne c2 Hc2). destruct (get_vertices c2) as [| b l]; [done |]. exists b. by left. }
  destruct Hcase as [Hconn | [-> Hcl]].
  - exfalso. apply Hflag. unfold order. apply Permutation_length.
    apply NoDup_Permutation; [done | done |]. intros x. split; [apply HvsG |].
    apply (conn_closed_all G vs a); [by apply is_connected_conn | done | | ].
    + apply Hsub. by left.
    + apply HvsG, Hsub. by left.
  - split; [| by left].
    assert (∀ x, x ∈ vs → x ∈ get_vertices c1 ∨ x ∈ get_vertices c2) as Hvs12.
    { intros x Hx. apply elem_of_app. revert x Hx.
      apply (Hmin (get_vertices c1 ++ get_vertices c2)).
      - intros x Hx. by apply elem_of_app.
      - intros u x [Hu | Hu]%elem_of_app Hx Hux; apply elem_of_app.
        + left. by apply (Hcl c1 Hc1 u x).
        + right. by apply (Hcl c2 Hc2 u x).
      - intros c x y Hc Hxc [Hx | Hx]%elem_of_app Hy; apply elem_of_app.
        + left. apply list_elem_of_lookup in Hc as [k Hk].
          assert (k = i) as -> by by eapply (children_disjoint G cs k i c c1 x).
          rewrite H1 in Hk. by injection Hk as <-.
        + right. apply list_elem_of_lookup in Hc as [k Hk].
          assert (k = j) as -> by by eapply (children_disjoint G cs k j c c2 x).
          rewrite H2 in Hk. by injection Hk as <-. }
    unfold get_module_type.
    destruct (is_connected (subgraph G vs)) eqn:Hcon; [exfalso | done].
    apply is_connected_conn in Hcon; [| by apply simple_subgraph].
    assert (a ∈ vs) as Hav by (apply Hsub; by left).
    assert (b ∈ vs) as Hbv by (apply Hsub; by right).
    assert (path G a b) as Hp.
    { apply (path_ext (subgraph G vs) G).
      - by intros v [_ ?]%vertices_subgraph.
      - by intros u w (_ & _ & ?)%has_edge_subgraph.
      - apply Hcon; apply vertices_subgraph; split; auto. }
    pose proof (closed_in_path G (get_vertices c1) a b (Hcl c1 Hc1) Ha Hp) as Hb1.
    assert (i = j) by by eapply (children_disjoint G cs i j c1 c2 b). lia.
Qed.

(** On a connected graph the maximality test turns no tree down whose
    children split the vertices into sets that are not empty: the set
    [form_module] grows from two children always reaches every vertex. *)
Theorem test_maximal_modules_connected G ty cs :
  simple_graph G → is_connected G = true →
  concat (map get_vertices cs) ≡ₚ vertices G →
  (∀ c, c ∈ cs → get_vertices c ≠ []) →
  test_maximal_modules (Inner ty cs) G = Ok true.
Proof.
  intros HG Hc Hperm Hne. apply test_maximal_modules_accepts; try done. by left.
Qed.

End maximal_test.

(** ** The checker of a whole tree *)

Section tree_test.
Context {V : Type} `{EqDecision V}.
Implicit Types (G H : Graph V) (u v w x y : V) (S sg : list V) (c t n : Node V)
  (cs ts : list (Node V)).

(** Two graphs with the same vertices, in the same order, and the same
    edges. *)
Definition same_graph G G' : Prop :=
  is_directed G = is_directed G' ∧ vertices G = vertices G' ∧
  ∀ u v, has_edge G u v = has_edge G' u v.

Lemma same_graph_simple G G' : same_graph G G' → simple_graph G → simple_graph G'.
Proof.
  intros (Hd & Hv & He) [H1 H2 H3 H4 H5]. split.
  - by rewrite <- Hd.
  - by rewrite <- Hv.
  - intros u v. by rewrite <- !He.
  - intros u. by rewrite <- He.
  - intros u v. rewrite <- He, <- Hv. apply H5.
Qed.

Lemma same_graph_module G G' S : same_graph G G' → module G S → module G' S.
Proof.
  intros (_ & Hv & He) HM x u u' Hx Hnx Hu Hu'. rewrite <- !He. apply HM; try done.
  by rewrite Hv.
Qed.

Lemma same_graph_closed_in G G' S : same_graph G G' → closed_in G S → closed_in G' S.
Proof.
  intros (_ & Hv & He) Hcl u x Hu Hx Hux. apply (Hcl u x); [done | by rewrite Hv |].
  by rewrite He.
Qed.

Lemma same_graph_connected G G' :
  same_graph G G' → simple_graph G → is_connected G = true → is_connected G' = true.
Proof.
  intros Hs HG Hc. pose proof Hs as (_ & Hv & He).
  apply conn_is_connected; [by apply (same_graph_simple G G') |].
  apply (conn_ext G G'); [by intros v; rewrite Hv | by intros a b; rewrite He |].
  by apply is_connected_conn.
Qed.

Lemma same_graph_subgraph G G' (A B : list V) :
  same_graph G G' → (∀ x, x ∈ A ↔ x ∈ B) →
  same_graph (subgraph G A) (subgraph G' B).
Proof.
  intros (Hd & Hv & He) HAB. split; [done |]. split; simpl.
  - rewrite Hv. apply list_filter_iff. intros x. apply HAB.
  - intros u v. rewrite He. unfold mem.
    rewrite (bool_decide_ext (u ∈ A) (u ∈ B)) by apply HAB.
    by rewrite (bool_decide_ext (v ∈ A) (v ∈ B)) by apply HAB.
Qed.

(** The loop of [test_modular_decomposition] over the children. *)
Lemma test_modular_decomposition_Inner ty cs G :
  ty ≠ NORMAL →
  test_modular_decomposition (Inner ty cs) G = Ok true ↔
  (∀ c, c ∈ cs → test_module c G = Ok true ∧
                 test_modular_decomposition c (subgraph G (get_vertices c)) = Ok true) ∧
  test_maximal_modules (Inner ty cs) G = Ok true.
Proof.
  intros Hty. cbn [test_modular_decomposition].
  rewrite (bool_decide_eq_false_2 (ty = NORMAL)) by done.
  set (go := fix go (l : list (Node V)) : result bool :=
               match l with
               | [] => Ok true
               | module :: l' =>
                   b1 ← test_module module G;
                   if negb (b1 : bool) then Ok false
                   else
                     b2 ← test_modular_decomposition module
                            (subgraph G (get_vertices module));
                     if negb (b2 : bool) then Ok false else go l'
               end).
  assert (∀ l, go l = Ok true ↔
               ∀ c, c ∈ l → test_module c G = Ok true ∧
                    test_modular_decomposition c (subgraph G (get_vertices c)) = Ok true)
    as Hgo.
  { induction l as [| c l IH]; simpl.
    - split; [by intros _ c ?%elem_of_nil | done].
    - split.
      + intros Hrun.
        destruct (test_module c G) as [[|] | |] eqn:E1; simpl in Hrun; try done.
        destruct (test_modular_decomposition c (subgraph G (get_vertices c)))
          as [[|] | |] eqn:E2; simpl in Hrun; try done.
        intros c' [-> | Hc']%elem_of_cons; [done |]. by apply IH.
      + intros Hall. destruct (Hall c) as [-> ->]; [by left |]. simpl.
        apply IH. intros c' Hc'. apply Hall. by right. }
  split.
  - intros Hrun. destruct (go cs) as [[|] | |] eqn:E; simpl in Hrun; try done.
    split; [by apply Hgo |].
    destruct (test_maximal_modules (Inner ty cs) G) as [[|] | |]; simpl in Hrun; done.
  - intros [Hall Hmax]. apply Hgo in Hall. rewrite Hall. simpl. by rewrite Hmax.
Qed.

(** The shape of the trees the Habib-Maurer decomposer returns. *)
Definition branching t : Prop :=
  ∀ ty cs, Inner ty cs ∈ subtrees t → (2 ≤ length cs)%nat.

Lemma branching_well_shaped t :
  node_type t ≠ NORMAL → branching t → no_degenerate_nesting t → well_shaped t.
Proof.
  intros Hty Hb Hn. destruct t as [v | ty cs]; [done |].
  pose proof (Hb ty cs (subtrees_self _)) as Hlen. cbn [length] in Hlen.
  assert (∃ c, c ∈ cs) as [c Hc].
  { destruct cs as [| c cs]; [simpl in Hlen; lia |]. exists c. by left. }
  destruct (Hn ty cs c (subtrees_self _) Hc) as [Hs Hp].
  split; [simpl; lia |]. split; intros Hty2; exists c; split; auto.
Qed.

Lemma subgraph_vertices_set H (L : list (list V)) sg t :
  NoDup (vertices H) → concat L ≡ₚ vertices H → sg ∈ L →
  get_vertices t ≡ₚ vertices (subgraph H sg) →
  ∀ x, x ∈ get_vertices t ↔ x ∈ sg.
Proof.
  intros Hnd Hperm Hsg Ht x. rewrite Ht, vertices_subgraph. split; [tauto |].
  intros Hx. split; [done |]. rewrite <- Hperm. apply elem_of_concat. by exists sg.
Qed.

Lemma hm_accepted fuel H gc t :
  (order H < fuel)%nat → hm_inv H gc → (1 ≤ order H)%nat →
  habib_maurer_algorithm fuel H gc = Ok t →
  (node_wf t = true ∧ branching t) ∧
  ∀ H', same_graph H H' → test_modular_decomposition t H' = Ok true.
Proof.
  apply (hm_ind (λ H t, (node_wf t = true ∧ branching t) ∧
                        ∀ H', same_graph H H' → test_modular_decomposition t H' = Ok true)).
  { intros H0 v _ _. split; [| done]. split; [done |].
    intros ty cs Hin. simpl in Hin. by apply list_elem_of_singleton in Hin. }
  clear. intros H ty L ts HH Hbig Hroot Hperm Hne HF Hspec.
  pose proof (hm_root_inner H ty L Hroot) as Hty.
  pose proof (sg_nodup _ HH) as Hnd.
  assert (node_wf (Inner ty ts) = true ∧ branching (Inner ty ts)) as Hshape.
  { split.
    - simpl. rewrite bool_decide_eq_false_2 by done. simpl.
      apply forallb_forall. intros c Hc%list_elem_of_In.
      destruct (Forall2_child _ _ _ _ HF Hc) as (sg & _ & _ & [Hwf _] & _). done.
    - intros ty' cs [[= -> ->] | (c & Hc & Hin)]%elem_of_subtrees_Inner.
      + rewrite <- (Forall2_length _ _ _ HF). apply (hm_root_two H ty); [done | lia | done].
      + destruct (Forall2_child _ _ _ _ HF Hc) as (sg & _ & _ & [_ Hb] & _). by apply (Hb ty'). }
  split; [done |]. intros H' Hsame. pose proof Hsame as (_ & Hv & He).
  pose proof (same_graph_simple H H' Hsame HH) as HH'.
  apply test_modular_decomposition_Inner; [done |]. split.
  - intros c Hc. destruct (Forall2_child _ _ _ _ HF Hc)
      as (sg & Hsg & (Hcv & _ & Hnest & _) & [Hwf Hb] & Hrec).
    pose proof (subgraph_vertices_set H L sg c Hnd Hperm Hsg Hcv) as Hset. split.
    + destruct (decide (node_type c = NORMAL)) as [Hn | Hn].
      { unfold test_module. by rewrite (bool_decide_eq_true_2 _ Hn). }
      apply test_module_accepts; [done | by apply branching_well_shaped | |].
      * apply (same_graph_module H H'); [done |].
        apply (module_ext H sg); [by intros x; rewrite Hset |].
        by apply (hm_root_modules H ty L).
      * pose proof (Hne sg Hsg) as Hsgne. destruct sg as [| x sg]; [done |].
        intros E. assert (x ∈ get_vertices c) as Hx by (apply Hset; by left).
        rewrite E in Hx. by apply elem_of_nil in Hx.
    + apply Hrec. apply same_graph_subgraph; [done |]. intros x. by rewrite Hset.
  - destruct Hspec as (Hall & _).
    apply test_maximal_modules_accepts; [done | by rewrite <- Hv | |].
    + intros c Hc. destruct (Forall2_child _ _ _ _ HF Hc)
        as (sg & Hsg & (Hcv & _) & _).
      pose proof (subgraph_vertices_set H L sg c Hnd Hperm Hsg Hcv) as Hset.
      pose proof (Hne sg Hsg) as Hsgne. destruct sg as [| x sg]; [done |].
      intros E. assert (x ∈ get_vertices c) as Hx by (apply Hset; by left).
      rewrite E in Hx. by apply elem_of_nil in Hx.
    + destruct Hroot as [(-> & Hc & ->) | [(_ & Hc & _) | (_ & Hc & _)]];
        [right | left; by apply (same_graph_connected H H') ..].
      split; [done |]. intros c Hcin.
      destruct (Forall2_child _ _ _ _ HF Hcin) as (sg & Hsg & (Hcv & _) & _).
      pose proof (subgraph_vertices_set H _ sg c Hnd Hperm Hsg Hcv) as Hset.
      apply (same_graph_closed_in H H'); [done |].
      destruct (connected_components_spec H HH) as [_ Hcomp].
      rewrite Forall_forall in Hcomp. destruct (Hcomp sg Hsg) as (r & Hr & ->).
      intros u x Hu Hx Hux. apply Hset. apply (reach_closed H r u x); try done.
      by apply Hset.
Qed.

Lemma same_graph_refl G : same_graph G G.
Proof. by split. Qed.

Lemma hm_accepted_top G :
  simple_graph G →
  ∃ t, habib_maurer G = Ok t ∧ test_modular_decomposition t G = Ok true.
Proof.
  intros HG. destruct (hm_main (S (order G)) G None) as (t & Ht & _); [lia | by split |].
  exists t. split; [done |].
  destruct (decide (order G = 0%nat)) as [E | Hpos].
  - unfold order in E. apply length_zero_iff_nil in E.
    unfold habib_maurer in Ht. simpl in Ht. rewrite (sg_undirected _ HG), E in Ht.
    by injection Ht as <-.
  - eapply (hm_accepted _ G None); [| by split | lia | exact Ht | apply same_graph_refl]. lia.
Qed.

(** The checker accepts the tree the Habib-Maurer decomposer returns, for
    every finite simple undirected graph. *)
Theorem test_modular_decomposition_accepts_habib_maurer G :
  simple_graph G →
  ∃ t, habib_maurer G = Ok t ∧ test_modular_decomposition t G = Ok true.
Proof. apply hm_accepted_top. Qed.

(** If the checker accepts a tree whose leaves are vertices of the graph,
    every node below the root spans a module of the graph. *)
Theorem test_modular_decomposition_sound G t :
  simple_graph G → node_wf t = true →
  (∀ x, x ∈ get_vertices t → x ∈ vertices G) →
  test_modular_decomposition t G = Ok true →
  ∀ c n, c ∈ children_of t → n ∈ subtrees c → module G (get_vertices n).
Proof.
  revert G. induction t as [v | ty cs IH] using Node_ind'; intros G HG Hwf Hsub Hrun c n Hc Hn.
  { by apply elem_of_nil in Hc. }
  pose proof (node_wf_Inner ty cs Hwf) as Hty.
  apply test_modular_decomposition_Inner in Hrun as [Hall _]; [| done].
  simpl in Hc. destruct (Hall c Hc) as [Hmod Hrec].
  assert (node_wf c = true) as Hwfc.
  { simpl in Hwf. apply andb_true_iff in Hwf as [_ Hcs]. rewrite forallb_forall in Hcs.
    by apply Hcs, list_elem_of_In. }
  pose proof (test_module_sound c G Hwfc Hmod) as Hmc.
  assert (∀ x, x ∈ get_vertices c → x ∈ vertices G) as Hcsub.
  { intros x Hx. apply Hsub. simpl. apply elem_of_concat. exists (get_vertices c).
    split; [done | by apply list_elem_of_fmap_2]. }
  destruct c as [v | ty' cs'].
  { simpl in Hn. apply list_elem_of_singleton in Hn as ->. done. }
  apply elem_of_subtrees_Inner in Hn as [-> | (c' & Hc' & Hn)]; [done |].
  rewrite Forall_forall in IH.
  apply (module_trans G (get_vertices (Inner ty' cs'))); try done.
  - apply (IH (Inner ty' cs') Hc (subgraph G (get_vertices (Inner ty' cs')))) with (c := c');
      try done.
    + by apply simple_subgraph.
    + intros x Hx. apply vertices_subgraph. split; [done | by apply Hcsub].
  - intros x Hx. apply (subtrees_vertices (Inner ty' cs') n); [| done].
    apply elem_of_subtrees_Inner. right. by exists c'.
Qed.

End tree_test.

(** ** The randomised tests, one round at a time *)

Section rounds.
Context {V : Type} `{EqDecision V}.
Implicit Types (G g : Graph V) (u v w x y : V) (t : Node V).

Lemma foldl_Ok_tt {T} (f : T → result unit) (l : list T) :
  (∀ a, a ∈ l → f a = Ok tt) →
  foldl (λ (r : result unit) a, _ ← r; f a) (Ok tt) l = Ok tt.
Proof.
  induction l as [| a l IH]; intros Hall; [done |]. simpl.
  rewrite (Hall a) by by left. apply IH. intros b Hb. apply Hall. by right.
Qed.

Lemma foldl_result_ext {S T} (f g : result S → T → result S) (l : list T) r :
  (∀ r a, a ∈ l → f r a = g r a) → foldl f r l = foldl g r l.
Proof.
  revert r. induction l as [| a l IH]; intros r Hfg; [done |]. simpl.
  rewrite Hfg by by left. apply IH. intros r' b Hb. apply Hfg. by right.
Qed.

(** A round of [test_gamma_modules] never fails: on every finite simple
    undirected graph each vertex outside the vertex set of a class of
    [gamma_classes] is adjacent to all of the set or to none of it. *)
Theorem test_gamma_modules_round_passes g :
  simple_graph g → test_gamma_modules_round g = Ok tt.
Proof.
  intros Hg. unfold test_gamma_modules_round.
  assert (∀ kv, kv ∈ gamma_classes g →
            foldl (λ (r : result unit) v,
                     _ ← r;
                     if bool_decide (v ∈ kv.1) then Ok tt
                     else
                       b ← either_connected_or_not_connected v (remove_dups kv.1) g;
                       if (b : bool) then Ok tt else Raise AssertionError)
                  (Ok tt) (vertices g) = Ok tt) as Hinner.
  { intros [k C] Hin. simpl.
    apply (foldl_Ok_tt (λ v, if bool_decide (v ∈ k) then Ok tt
                            else b ← either_connected_or_not_connected v (remove_dups k) g;
                                 if (b : bool) then Ok tt else Raise AssertionError)).
    intros v Hv. case_bool_decide as Hvk; [done |].
    destruct (gamma_classes_gclass g Hg k C Hin) as [HC Hne].
    apply elem_of_gamma_classes in Hin as [-> _]; [| done].
    rewrite (module_either_connected g (remove_dups (class_vertices C)) v); [done | | | done |].
    - intros x u u' Hx Hnx Hu Hu'. rewrite elem_of_remove_dups in Hnx, Hu, Hu'.
      by apply (gclass_span_module g C).
    - destruct C as [| [a b] C]; [done |]. intros E.
      assert (a ∈ remove_dups (class_vertices ((a, b) :: C))) as Ha.
      { apply elem_of_remove_dups. simpl. by left. }
      rewrite E in Ha. by apply elem_of_nil in Ha.
    - by rewrite elem_of_remove_dups. }
  induction (gamma_classes g) as [| kv l IH] using rev_ind; [done |].
  rewrite foldl_app. simpl. rewrite IH.
  - apply Hinner. apply elem_of_app. right. by left.
  - intros kv' Hkv'. apply Hinner. apply elem_of_app. by left.
Qed.

(** One round of [permute_decomposition], for the graph [g1], the
    permutation [random_perm] of its vertices and the decomposer
    [algorithm]: the two trees are checked against their graphs and
    compared after the first is relabelled. *)
Definition permute_decomposition_round (algorithm : Graph V → result (Node V))
    (g1 : Graph V) (random_perm : V → V) : result unit :=
  let g2 := relabel_graph random_perm g1 in
  t1 ← algorithm g1;
  t2 ← algorithm g2;
  b1 ← test_modular_decomposition t1 g1;
  if negb (b1 : bool) then Raise AssertionError
  else
    b2 ← test_modular_decomposition t2 g2;
    if negb (b2 : bool) then Raise AssertionError
    else
      t1p ← relabel_tree t1 (PermCallable random_perm);
      if negb (equivalent_trees t1p t2) then Raise AssertionError else Ok tt.

(** A round of [permute_decomposition] with the Habib-Maurer decomposer
    never fails, whatever the finite simple undirected graph and the
    permutation of its vertices: none of its three assertions is violated
    and nothing raises. *)
Theorem permute_decomposition_round_passes g1 (random_perm : V → V) :
  simple_graph g1 →
  (∀ u v, u ∈ vertices g1 → v ∈ vertices g1 → random_perm u = random_perm v → u = v) →
  permute_decomposition_round habib_maurer g1 random_perm = Ok tt.
Proof.
  intros Hg Hinj. unfold permute_decomposition_round.
  pose proof (relabel_graph_simple random_perm g1 Hg Hinj) as Hg2.
  pose proof (relabel_graph_relabels random_perm g1 Hg Hinj) as Hrl.
  destruct (hm_accepted_top g1 Hg) as (t1 & Ht1 & Hok1).
  destruct (hm_accepted_top _ Hg2) as (t2 & Ht2 & Hok2).
  destruct (hm_relabel random_perm (S (order g1)) g1 (relabel_graph random_perm g1) None None)
    as (t & t' & Ht & Ht' & Heq); [lia | by split | by split | done |].
  assert (t = t1 ∧ t' = t2) as [-> ->].
  { unfold habib_maurer in Ht1, Ht2. rewrite Ht in Ht1.
    rewrite (rl_order random_perm g1 _ Hg Hg2 Hrl), Ht' in Ht2.
    split; congruence. }
  rewrite Ht1. cbn [mbind result_bind]. rewrite Ht2. cbn [mbind result_bind].
  rewrite Hok1. cbn [mbind result_bind negb]. rewrite Hok2. cbn [mbind result_bind negb].
  rewrite relabel_tree_callable. cbn [mbind result_bind]. by rewrite Heq.
Qed.

End rounds.

(** ** Relabelled trees *)

Section relabel_facts.
Context {V : Type} `{EqDecision V}.
Implicit Types (u v w x y : V) (t n c : Node V) (cs : list (Node V)) (d : list (V * V)).

Lemma perm_lookup_Ok d v x : perm_lookup d v = Ok x → (v, x) ∈ d.
Proof.
  induction d as [| [k x'] d IH]; simpl; [done |].
  case_bool_decide as Hk; [intros [= ->]; subst; by left |].
  intros Hx. right. by apply IH.
Qed.

Lemma perm_lookup_key d v : v ∈ d.*1 ↔ ∃ x, perm_lookup d v = Ok x.
Proof.
  induction d as [| [k x'] d IH]; simpl.
  - split; [by intros ?%elem_of_nil | by intros [x ?]].
  - rewrite elem_of_cons, IH. case_bool_decide as Hk.
    + split; [intros _; by exists x' | intros _; by left].
    + split; [by intros [? | ?] | by right].
Qed.

Lemma perm_lookup_missing d v : v ∉ d.*1 ↔ perm_lookup d v = Raise KeyError.
Proof.
  induction d as [| [k x'] d IH]; simpl.
  - split; [done | by intros _ ?%elem_of_nil].
  - rewrite not_elem_of_cons, IH. case_bool_decide as Hk.
    + split; [by intros [? _] | done].
    + split; [by intros [_ ?] | done].
Qed.

(** The value the dictionary gives a vertex, and the vertex itself when it
    gives none. *)
Definition dict_value d v : V :=
  match perm_lookup d v with
  | Ok x => x
  | _ => v
  end.

Lemma relabel_with_outcome d t :
  relabel_with d t =
  if bool_decide (Forall (λ v, v ∈ d.*1) (get_vertices t))
  then Ok (relabel (dict_value d) t) else Raise KeyError.
Proof.
  induction t as [v | ty cs IH] using Node_ind'.
  - simpl. case_bool_decide as Hall.
    + apply Forall_singleton, perm_lookup_key in Hall as [x Hx].
      unfold dict_value. by rewrite Hx.
    + rewrite Forall_singleton in Hall. apply perm_lookup_missing in Hall. by rewrite Hall.
  - cbn [relabel_with get_vertices relabel].
    set (go := fix go (l : list (Node V)) : result (list (Node V)) :=
                 match l with
                 | [] => Ok []
                 | c :: l' => c' ← relabel_with d c; cs' ← go l'; Ok (c' :: cs')
                 end).
    assert (go cs = if bool_decide (Forall (λ v, v ∈ d.*1) (concat (map get_vertices cs)))
                    then Ok (map (relabel (dict_value d)) cs) else Raise KeyError) as ->.
    { induction cs as [| c cs IHcs].
      - by rewrite bool_decide_eq_true_2.
      - apply Forall_cons in IH as [Hc Hcs].
        change (go (c :: cs)) with (c' ← relabel_with d c; cs' ← go cs; Ok (c' :: cs')).
        change (concat (map get_vertices (c :: cs)))
          with (get_vertices c ++ concat (map get_vertices cs)).
        rewrite Hc, (IHcs Hcs).
        destruct (decide (Forall (λ v, v ∈ d.*1) (get_vertices c))) as [H1 | H1].
        + rewrite (bool_decide_eq_true_2 _ H1). simpl.
          destruct (decide (Forall (λ v, v ∈ d.*1) (concat (map get_vertices cs))))
            as [H2 | H2].
          * rewrite (bool_decide_eq_true_2 _ H2). simpl.
            rewrite bool_decide_eq_true_2; [done |]. by apply Forall_app.
          * rewrite (bool_decide_eq_false_2 _ H2). simpl.
            rewrite bool_decide_eq_false_2; [done |]. by intros [_ ?]%Forall_app.
        + rewrite (bool_decide_eq_false_2 _ H1). simpl.
          rewrite bool_decide_eq_false_2; [done |]. by intros [? _]%Forall_app. }
    by case_bool_decide.
Qed.


(** [relabel_tree] with a dictionary: [KeyError] as soon as some leaf is not
    a key; otherwise the same tree with every leaf replaced by the value it
    has in the dictionary, the first to last leaves in the same places. *)
Theorem relabel_tree_dict_outcome d t :
  (Forall (λ v, v ∈ d.*1) (get_vertices t) ∧
   relabel_tree t (PermDict d) = Ok (relabel (dict_value d) t) ∧
   get_vertices (relabel (dict_value d) t) = map (dict_value d) (get_vertices t) ∧
   Forall (λ v, (v, dict_value d v) ∈ d) (get_vertices t)) ∨
  (Exists (λ v, v ∉ d.*1) (get_vertices t) ∧
   relabel_tree t (PermDict d) = Raise KeyError).
Proof.
  unfold relabel_tree. rewrite relabel_with_outcome.
  destruct (decide (Forall (λ v, v ∈ d.*1) (get_vertices t))) as [Hall | Hno].
  - left. rewrite (bool_decide_eq_true_2 _ Hall). split; [done |]. split; [done |].
    split; [apply get_vertices_relabel |].
    eapply Forall_impl; [exact Hall |]. intros v [x Hx]%perm_lookup_key.
    unfold dict_value. rewrite Hx. by apply perm_lookup_Ok.
  - right. rewrite (bool_decide_eq_false_2 _ Hno). split; [| done].
    apply not_Forall_Exists in Hno; [| apply _].
    eapply Exists_impl; [exact Hno | done].
Qed.


End relabel_facts.

(** ** Equivalent trees *)

Section equivalence_facts.
Context {V : Type} `{EqDecision V}.
Implicit Types (u v w x y : V) (t n c : Node V) (cs : list (Node V)).

(** Every node of the tree has a leaf below it. *)
Definition leafy t : Prop := ∀ n, n ∈ subtrees t → get_vertices n ≠ [].

Lemma node_id_eqb_true (i1 i2 : NodeType * list V) :
  node_id_eqb i1 i2 = true ↔ i1.1 = i2.1 ∧ ∀ x, x ∈ i1.2 ↔ x ∈ i2.2.
Proof.
  unfold node_id_eqb. rewrite andb_true_iff, bool_decide_eq_true, frozenset_eqb_true. done.
Qed.

Lemma node_id_eqb_refl (i : NodeType * list V) : node_id_eqb i i = true.
Proof. by apply node_id_eqb_true. Qed.

Lemma node_id_eqb_sym (i1 i2 : NodeType * list V) :
  node_id_eqb i1 i2 = true → node_id_eqb i2 i1 = true.
Proof. rewrite !node_id_eqb_true. intros [-> Hx]. split; [done |]. intros x. by rewrite Hx. Qed.

Lemma node_id_eqb_trans (i1 i2 i3 : NodeType * list V) :
  node_id_eqb i1 i2 = true → node_id_eqb i2 i3 = true → node_id_eqb i1 i3 = true.
Proof.
  rewrite !node_id_eqb_true. intros [-> H1] [-> H2]. split; [done |].
  intros x. by rewrite H1, H2.
Qed.

Lemma equivalent_trees_Inner_inv t1 t2 :
  equivalent_trees t1 t2 = true →
  (∃ v, t1 = Normal v ∧ t2 = Normal v) ∨
  (∃ ty cs1 cs2, t1 = Inner ty cs1 ∧ t2 = Inner ty cs2 ∧ length cs1 = length cs2 ∧
     ∀ c, c ∈ cs1 → ∃ c2, child_map_lookup (node_id c) cs2 = Some c2 ∧
                          equivalent_trees c c2 = true).
Proof.
  destruct t1 as [v1 | ty1 cs1], t2 as [v2 | ty2 cs2]; simpl.
  - repeat case_bool_decide; try done. intros _. left. exists v1. by subst.
  - repeat case_bool_decide; done.
  - repeat case_bool_decide; done.
  - case_bool_decide as Hty; [| done]. case_bool_decide as Hlen; [| done]. simpl.
    intros Hall. right. exists ty1, cs1, cs2. subst. split; [done |]. split; [done |].
    split; [done |]. intros c Hc%list_elem_of_In. rewrite forallb_forall in Hall.
    specialize (Hall c Hc). simpl in Hall.
    destruct (child_map_lookup (node_id c) cs2) as [c2 |]; [| done]. by exists c2.
Qed.

Section distinct_children.
Context (cs : list (Node V)).
Context (Hnd : NoDup (concat (map get_vertices cs))).
Context (Hne : ∀ c, c ∈ cs → get_vertices c ≠ []).

Lemma same_id_same_index (i j : nat) c c' (id : NodeType * list V) :
  cs !! i = Some c → cs !! j = Some c' →
  node_id_eqb (node_id c) id = true → node_id_eqb (node_id c') id = true → i = j.
Proof using Hnd Hne.
  intros Hi Hj H1 H2.
  pose proof (node_id_eqb_trans _ _ _ H1 (node_id_eqb_sym _ _ H2)) as H12.
  apply node_id_eqb_true in H12 as [_ Hset]. simpl in Hset.
  assert (∃ x, x ∈ get_vertices c) as [x Hx].
  { pose proof (Hne c (list_elem_of_lookup_2 _ _ _ Hi)).
    destruct (get_vertices c) as [| x l]; [done |]. exists x. by left. }
  apply (blocks_disjoint (map get_vertices cs) i j (get_vertices c) (get_vertices c') x);
    try done.
  - by rewrite list_lookup_fmap, Hi.
  - by rewrite list_lookup_fmap, Hj.
  - by apply Hset.
Qed.

Lemma child_map_lookup_own (i : nat) c (id : NodeType * list V) :
  cs !! i = Some c → node_id_eqb (node_id c) id = true →
  child_map_lookup id cs = Some c.
Proof using Hnd Hne.
  intros Hi Hid. apply (child_map_lookup_unique id cs i c); [done | done |].
  intros j c' Hj Hid'. by apply (same_id_same_index j i c' c id).
Qed.
End distinct_children.

Lemma NoDup_children ty cs c :
  NoDup (get_vertices (Inner ty cs)) → c ∈ cs → NoDup (get_vertices c).
Proof.
  simpl. intros Hnd Hc. apply (NoDup_concat_elem (map get_vertices cs)); [done |].
  by apply list_elem_of_fmap_2.
Qed.

Lemma leafy_children ty cs :
  leafy (Inner ty cs) → ∀ c, c ∈ cs → leafy c ∧ get_vertices c ≠ [].
Proof.
  intros Hl c Hc. split.
  - intros n Hn. apply Hl. apply elem_of_subtrees_Inner. right. by exists c.
  - apply Hl. apply elem_of_subtrees_Inner. right. exists c. split; [done |].
    apply subtrees_self.
Qed.

Lemma equivalent_trees_refl_aux t :
  NoDup (get_vertices t) → leafy t → equivalent_trees t t = true.
Proof.
  induction t as [v | ty cs IH] using Node_ind'; intros Hnd Hl.
  - simpl. by rewrite !bool_decide_eq_true_2.
  - apply equivalent_trees_Inner; [done |]. intros c Hc. exists c.
    rewrite Forall_forall in IH. destruct (leafy_children ty cs Hl c Hc) as [Hlc _].
    split; [| apply IH; [done | by eapply NoDup_children | done]].
    apply list_elem_of_lookup in Hc as [i Hi].
    apply (child_map_lookup_own cs Hnd (λ c Hc, proj2 (leafy_children ty cs Hl c Hc)) i c);
      [done | apply node_id_eqb_refl].
Qed.

(** An injection of a list of indices below [n] that has [n] entries
    reaches every index. *)
Lemma indices_onto (js : list nat) (n : nat) :
  NoDup js → (∀ j, j ∈ js → (j < n)%nat) → length js = n →
  ∀ j, (j < n)%nat → j ∈ js.
Proof.
  intros Hnd Hlt Hlen j Hj.
  assert (js ≡ₚ seq 0 n) as Hperm.
  { apply submseteq_length_Permutation.
    - apply NoDup_submseteq; [done |]. intros k Hk. apply elem_of_seq. specialize (Hlt k Hk). lia.
    - rewrite length_seq. lia. }
  rewrite Hperm. apply elem_of_seq. lia.
Qed.

Lemma Forall_exists_Forall2 {S T} (P : S → T → Prop) (l : list S) :
  (∀ a, a ∈ l → ∃ b, P a b) → ∃ k, Forall2 P l k.
Proof.
  induction l as [| a l IH]; intros Hall; [by exists [] |].
  destruct (Hall a) as [b Hb]; [by left |].
  destruct IH as [k Hk]; [intros a' Ha'; apply Hall; by right |].
  exists (b :: k). by constructor.
Qed.

Lemma equivalent_trees_sym_aux t1 :
  ∀ t2, NoDup (get_vertices t1) → leafy t1 → equivalent_trees t1 t2 = true →
    equivalent_trees t2 t1 = true ∧ ∀ x, x ∈ get_vertices t1 ↔ x ∈ get_vertices t2.
Proof.
  induction t1 as [v | ty cs1 IH] using Node_ind'; intros t2 Hnd Hl Heq.
  - apply equivalent_trees_Inner_inv in Heq as [(v' & [= <-] & ->) | (? & ? & ? & ? & _)];
      [| done].
    split; [| done]. simpl. by rewrite !bool_decide_eq_true_2.
  - apply equivalent_trees_Inner_inv in Heq
      as [(v' & ? & _) | (ty' & cs1' & cs2 & [= <- <-] & -> & Hlen & Hall)]; [done |].
    rewrite Forall_forall in IH.
    assert (∀ c, c ∈ cs1 → get_vertices c ≠ []) as Hne1
      by (intros c Hc; by apply (leafy_children ty cs1 Hl c Hc)).
    (* the child of the second tree matched with each child of the first *)
    destruct (Forall_exists_Forall2
      (λ c (j : nat), ∃ c2, cs2 !! j = Some c2 ∧
                      node_id_eqb (node_id c2) (node_id c) = true ∧
                      equivalent_trees c c2 = true) cs1) as [js Hjs].
    { intros c Hc. destruct (Hall c Hc) as (c2 & Hlook & Hce).
      destruct (child_map_lookup_elem _ _ _ Hlook) as (j & Hj & Hid). by exists j, c2. }
    assert (NoDup js) as Hndjs.
    { apply NoDup_alt. intros i i' j Hi Hi'.
      destruct (Forall2_lookup_r _ _ _ _ _ Hjs Hi) as (c & Hc & c2 & Hc2 & Hid & _).
      destruct (Forall2_lookup_r _ _ _ _ _ Hjs Hi') as (c' & Hc' & c2' & Hc2' & Hid' & _).
      rewrite Hc2 in Hc2'. injection Hc2' as <-.
      apply (same_id_same_index cs1 Hnd Hne1 i i' c c' (node_id c2)); try done;
        by apply node_id_eqb_sym. }
    assert (∀ c2, c2 ∈ cs2 → ∃ i c, cs1 !! i = Some c ∧
              node_id_eqb (node_id c2) (node_id c) = true ∧
              equivalent_trees c c2 = true) as Honto.
    { intros c2 [j Hj]%list_elem_of_lookup.
      assert (j ∈ js) as [i Hi]%list_elem_of_lookup.
      { apply (indices_onto js (length cs2)); [done | | | by eapply lookup_lt_Some].
        - intros k [i Hi]%list_elem_of_lookup.
          destruct (Forall2_lookup_r _ _ _ _ _ Hjs Hi) as (c & _ & c2' & Hc2' & _).
          by eapply lookup_lt_Some.
        - rewrite <- Hlen. symmetry. by eapply Forall2_length. }
      destruct (Forall2_lookup_r _ _ _ _ _ Hjs Hi) as (c & Hc & c2' & Hc2' & Hid & Hce).
      rewrite Hj in Hc2'. injection Hc2' as <-. by exists i, c. }
    split.
    + apply equivalent_trees_Inner; [done |]. intros c2 Hc2.
      destruct (Honto c2 Hc2) as (i & c & Hc & Hid & Hce). exists c. split.
      * apply (child_map_lookup_own cs1 Hnd Hne1 i c); [done | by apply node_id_eqb_sym].
      * assert (c ∈ cs1) as Hcin by by eapply list_elem_of_lookup_2.
        apply (IH c Hcin c2); [by eapply NoDup_children | | done].
        by apply (leafy_children ty cs1 Hl c Hcin).
    + intros x. simpl. rewrite !elem_of_concat. split.
      * intros (l & Hx & (c & -> & Hc)%list_elem_of_fmap).
        destruct (Hall c Hc) as (c2 & Hlook & _).
        destruct (child_map_lookup_elem _ _ _ Hlook) as (j & Hj & Hid).
        apply node_id_eqb_true in Hid as [_ Hset]. simpl in Hset.
        exists (get_vertices c2). split; [by apply Hset |].
        apply list_elem_of_fmap_2. by eapply list_elem_of_lookup_2.
      * intros (l & Hx & (c2 & -> & Hc2)%list_elem_of_fmap).
        destruct (Honto c2 Hc2) as (i & c & Hc & Hid & _).
        apply node_id_eqb_true in Hid as [_ Hset]. simpl in Hset.
        exists (get_vertices c). split; [by apply Hset |].
        apply list_elem_of_fmap_2. by eapply list_elem_of_lookup_2.
Qed.

(** On trees whose leaves are pairwise distinct and whose nodes all have a
    leaf below them, [equivalent_trees] is reflexive and symmetric, and
    equivalent trees have the same leaves. *)
Theorem equivalent_trees_reflexive_symmetric t1 t2 :
  NoDup (get_vertices t1) → leafy t1 →
  equivalent_trees t1 t1 = true ∧
  (equivalent_trees t1 t2 = true →
   equivalent_trees t2 t1 = true ∧ ∀ x, x ∈ get_vertices t1 ↔ x ∈ get_vertices t2).
Proof.
  intros Hnd Hl. split; [by apply equivalent_trees_refl_aux |].
  by apply equivalent_trees_sym_aux.
Qed.

(** Whatever the trees, equivalent ones have the same type at the root, the
    same number of children, and every leaf of the first is a leaf of the
    second. *)
Theorem equivalent_trees_sound t1 t2 :
  equivalent_trees t1 t2 = true →
  node_type t1 = node_type t2 ∧ num_children t1 = num_children t2 ∧
  ∀ x, x ∈ get_vertices t1 → x ∈ get_vertices t2.
Proof.
  intros [(v & -> & ->) | (ty & cs1 & cs2 & -> & -> & Hlen & Hall)]%equivalent_trees_Inner_inv;
    [done |].
  split; [done |]. split; [done |]. intros x. simpl. rewrite !elem_of_concat.
  intros (l & Hx & (c & -> & Hc)%list_elem_of_fmap).
  destruct (Hall c Hc) as (c2 & Hlook & _).
  destruct (child_map_lookup_elem _ _ _ Hlook) as (j & Hj & Hid).
  apply node_id_eqb_true in Hid as [_ Hset]. simpl in Hset.
  exists (get_vertices c2). split; [by apply Hset |].
  apply list_elem_of_fmap_2. by eapply list_elem_of_lookup_2.
Qed.

End equivalence_facts.

(** ** The split marks of a node *)

(** [set_node_split] only ever adds to the marks of a node: a mark that is
    there stays; after [LEFT_SPLIT] is set the node has a left split, after
    [RIGHT_SPLIT] a right one; and once both have been set, in either
    order and whatever came before, the node is at [BOTH_SPLIT].  Setting
    [NO_SPLIT] or [BOTH_SPLIT] on a node that has a mark changes nothing. *)
Theorem set_node_split_accumulates (s a : NodeSplit) :
  (has_left_split s = true → has_left_split (set_node_split s a) = true) ∧
  (has_right_split s = true → has_right_split (set_node_split s a) = true) ∧
  has_left_split (set_node_split s LEFT_SPLIT) = true ∧
  has_right_split (set_node_split s RIGHT_SPLIT) = true ∧
  set_node_split (set_node_split s LEFT_SPLIT) RIGHT_SPLIT = BOTH_SPLIT ∧
  set_node_split (set_node_split s RIGHT_SPLIT) LEFT_SPLIT = BOTH_SPLIT ∧
  (s ≠ NO_SPLIT → a = NO_SPLIT ∨ a = BOTH_SPLIT → set_node_split s a = s).
Proof. destruct s, a; repeat split; try done; intros ? [? | ?]; done. Qed.

(** ** Nested tuples *)

Lemma nested_tuple_of_leaf (v : pyval) :
  (∀ items, v ≠ PTuple items) → nested_tuple_to_tree v = Ok (Normal v).
Proof. intros Hv. destruct v; try done. by destruct (Hv items). Qed.

(** Decoding what [tree_to_nested_tuple] makes of an inner node gives a node
    of the same type over a single leaf, the list of the encoded children;
    [equivalent_trees] tells it from the tree as soon as the node does not
    have exactly one child. *)
Theorem nested_tuple_round_trip_of_inner_node (ty : NodeType) (cs : list (Node pyval)) :
  ty ≠ NORMAL →
  nested_tuple_to_tree (tree_to_nested_tuple (Inner ty cs))
    = Ok (Inner ty [Normal (PList (map tree_to_nested_tuple cs))]) ∧
  (length cs ≠ 1%nat →
   equivalent_trees (Inner ty [Normal (PList (map tree_to_nested_tuple cs))]) (Inner ty cs)
     = false).
Proof.
  intros Hty. split.
  - simpl. by rewrite bool_decide_eq_false_2.
  - intros Hlen. simpl. rewrite (bool_decide_eq_true_2 (ty = ty)) by done. simpl.
    rewrite bool_decide_eq_false_2; [done |]. intros E. by apply Hlen.
Qed.

(** ** The graph made from a tree *)

Section tree_graph.
Context {V : Type} `{EqDecision V}.
Implicit Types (u v w x y : V) (t n c : Node V) (cs : list (Node V)).

Lemma elem_of_product (l1 l2 : list V) u v :
  (u, v) ∈ product l1 l2 ↔ u ∈ l1 ∧ v ∈ l2.
Proof.
  unfold product. rewrite list_elem_of_In, in_flat_map. split.
  - intros (a & Ha%list_elem_of_In & Hin%list_elem_of_In).
    apply list_elem_of_fmap in Hin as (b & [= -> ->] & Hb). done.
  - intros [Hu Hv]. exists u. split; apply list_elem_of_In; [done |].
    by apply (list_elem_of_fmap_2 (λ v2, (u, v2))).
Qed.

Lemma elem_of_zip_tail {T} (l : list T) (a b : T) :
  (a, b) ∈ zip l (tail l) ↔ ∃ i, l !! i = Some a ∧ l !! S i = Some b.
Proof.
  induction l as [| x l IH]; simpl.
  - split; [by intros ?%elem_of_nil | by intros (i & ? & _)].
  - destruct l as [| y l]; simpl in *.
    + split; [by intros ?%elem_of_nil |]. intros ([| i] & _ & Hb); done.
    + rewrite elem_of_cons, IH. split.
      * intros [[= -> ->] | (i & Hi & Hsi)]; [by exists 0%nat |]. by exists (S i).
      * intros ([| i] & Hi & Hsi); simpl in *.
        -- left. congruence.
        -- right. by exists i.
Qed.

Lemma elem_of_combinations {T} (l : list T) (a b : T) :
  (a, b) ∈ combinations l ↔ ∃ i j, (i < j)%nat ∧ l !! i = Some a ∧ l !! j = Some b.
Proof.
  induction l as [| x l IH]; simpl.
  - split; [by intros ?%elem_of_nil | by intros (i & j & _ & ? & _)].
  - rewrite elem_of_app, IH, list_elem_of_fmap. split.
    + intros [(y & [= -> ->] & [j Hj]%list_elem_of_lookup) | (i & j & Hij & Hi & Hj)].
      * exists 0%nat, (S j). split; [lia | done].
      * exists (S i), (S j). split; [lia | done].
    + intros ([| i] & [| j] & Hij & Hi & Hj); simpl in *; try lia.
      * left. exists b. split; [congruence | by eapply list_elem_of_lookup_2].
      * right. exists i, j. split; [lia | done].
Qed.

(** The vertices are the leaves, in their order. *)
Lemma tree_vertices t : (tree_to_vertices_and_edges t).1 = get_vertices t.
Proof.
  induction t as [v | ty cs IH] using Node_ind'; [done |]. simpl. f_equal.
  rewrite map_map. apply map_ext_Forall. exact IH.
Qed.

Lemma tree_vertex_lists cs :
  map fst (map tree_to_vertices_and_edges cs) = map get_vertices cs.
Proof. rewrite map_map. apply map_ext. intros c. apply tree_vertices. Qed.

(** Which children of a node of type [ty] are joined: the child at [i] with
    the child at [j] to its right. *)
Definition joined (ty : NodeType) (i j : nat) : Prop :=
  match ty with
  | PRIME => j = S i
  | SERIES => (i < j)%nat
  | _ => False
  end.

Lemma tree_edges_Inner ty cs u x :
  (u, x) ∈ (tree_to_vertices_and_edges (Inner ty cs)).2 ↔
  (∃ c, c ∈ cs ∧ (u, x) ∈ (tree_to_vertices_and_edges c).2) ∨
  (∃ i j c1 c2, cs !! i = Some c1 ∧ cs !! j = Some c2 ∧ joined ty i j ∧
                u ∈ get_vertices c1 ∧ x ∈ get_vertices c2).
Proof.
  cbn [tree_to_vertices_and_edges snd]. rewrite elem_of_app, tree_vertex_lists.
  assert ((u, x) ∈ concat (map snd (map tree_to_vertices_and_edges cs)) ↔
          ∃ c, c ∈ cs ∧ (u, x) ∈ (tree_to_vertices_and_edges c).2) as ->.
  { rewrite elem_of_concat. split.
    - intros (l & Hin & Hl). apply list_elem_of_fmap in Hl as (p & -> & Hp).
      apply list_elem_of_fmap in Hp as (c & -> & Hc). by exists c.
    - intros (c & Hc & Hin). exists (tree_to_vertices_and_edges c).2. split; [done |].
      apply (list_elem_of_fmap_2 snd), (list_elem_of_fmap_2 tree_to_vertices_and_edges). done. }
  apply or_iff_compat_l.
  rewrite list_elem_of_In, in_flat_map. split.
  - intros ([l1 l2] & Hp%list_elem_of_In & [Hu Hx]%list_elem_of_In%elem_of_product).
    simpl in Hu, Hx. destruct ty; try (by apply elem_of_nil in Hp).
    + apply elem_of_zip_tail in Hp as (i & Hi & Hsi).
      rewrite list_lookup_fmap in Hi, Hsi.
      destruct (cs !! i) as [c1 |] eqn:E1; [| done].
      destruct (cs !! S i) as [c2 |] eqn:E2; [| done].
      injection Hi as <-. injection Hsi as <-. by exists i, (S i), c1, c2.
    + apply elem_of_combinations in Hp as (i & j & Hij & Hi & Hj).
      rewrite list_lookup_fmap in Hi, Hj.
      destruct (cs !! i) as [c1 |] eqn:E1; [| done].
      destruct (cs !! j) as [c2 |] eqn:E2; [| done].
      injection Hi as <-. injection Hj as <-. by exists i, j, c1, c2.
  - intros (i & j & c1 & c2 & H1 & H2 & Hj & Hu & Hx).
    exists (get_vertices c1, get_vertices c2). split; apply list_elem_of_In.
    + destruct ty; try done; simpl in Hj.
      * subst j. apply elem_of_zip_tail. exists i.
        by rewrite !list_lookup_fmap, H1, H2.
      * apply elem_of_combinations. exists i, j.
        by rewrite !list_lookup_fmap, H1, H2.
    + by apply elem_of_product.
Qed.

(** An edge joins two leaves. *)
Lemma tree_edge_leaves t u x :
  (u, x) ∈ (tree_to_vertices_and_edges t).2 → u ∈ get_vertices t ∧ x ∈ get_vertices t.
Proof.
  induction t as [v | ty cs IH] using Node_ind'; [by intros ?%elem_of_nil |].
  rewrite Forall_forall in IH.
  assert (∀ c y, c ∈ cs → y ∈ get_vertices c → y ∈ get_vertices (Inner ty cs)) as Hup.
  { intros c y Hc Hy. simpl. apply elem_of_concat. exists (get_vertices c).
    split; [done | by apply list_elem_of_fmap_2]. }
  intros [(c & Hc & Hin) | (i & j & c1 & c2 & H1 & H2 & _ & Hu & Hx)]%tree_edges_Inner.
  - destruct (IH c Hc Hin). split; by apply (Hup c).
  - split; [apply (Hup c1) | apply (Hup c2)]; try done; by eapply list_elem_of_lookup_2.
Qed.

(** Adjacency in the graph made from the tree: an edge of the list in one
    direction or the other. *)
Definition tree_adjacent t u x : Prop :=
  (u, x) ∈ (tree_to_vertices_and_edges t).2 ∨ (x, u) ∈ (tree_to_vertices_and_edges t).2.

Section distinct_leaves.
Context (ty : NodeType) (cs : list (Node V)).
Context (Hnd : NoDup (get_vertices (Inner ty cs))).

Lemma child_index_unique (i j : nat) c1 c2 y :
  cs !! i = Some c1 → cs !! j = Some c2 →
  y ∈ get_vertices c1 → y ∈ get_vertices c2 → i = j.
Proof using Hnd.
  intros H1 H2 Hy1 Hy2.
  apply (blocks_disjoint (map get_vertices cs) i j (get_vertices c1) (get_vertices c2) y);
    try done; by rewrite list_lookup_fmap, ?H1, ?H2.
Qed.

(** Between leaves of two different children. *)
Lemma tree_edge_across (i j : nat) c1 c2 u x :
  cs !! i = Some c1 → cs !! j = Some c2 → i ≠ j →
  u ∈ get_vertices c1 → x ∈ get_vertices c2 →
  (u, x) ∈ (tree_to_vertices_and_edges (Inner ty cs)).2 ↔ joined ty i j.
Proof using Hnd.
  intros H1 H2 Hij Hu Hx. rewrite tree_edges_Inner. split.
  - intros [(c & [k Hk]%list_elem_of_lookup & Hin) | (i' & j' & c1' & c2' & H1' & H2' & Hj & Hu' & Hx')].
    + apply tree_edge_leaves in Hin as [Hu' Hx'].
      assert (k = i) by by eapply (child_index_unique k i c c1 u).
      assert (k = j) by by eapply (child_index_unique k j c c2 x). congruence.
    + assert (i' = i) as -> by by eapply (child_index_unique i' i c1' c1 u).
      assert (j' = j) as -> by by eapply (child_index_unique j' j c2' c2 x). done.
  - intros Hj. right. by exists i, j, c1, c2.
Qed.

(** Between leaves of one child. *)
Lemma tree_edge_within (i : nat) c u x :
  cs !! i = Some c → u ∈ get_vertices c → x ∈ get_vertices c →
  (u, x) ∈ (tree_to_vertices_and_edges (Inner ty cs)).2 ↔
  (u, x) ∈ (tree_to_vertices_and_edges c).2.
Proof using Hnd.
  intros Hi Hu Hx. rewrite tree_edges_Inner. split.
  - intros [(c' & [k Hk]%list_elem_of_lookup & Hin) | (i' & j' & c1' & c2' & H1' & H2' & Hj & Hu' & Hx')].
    + pose proof (tree_edge_leaves _ _ _ Hin) as [Hu' Hx'].
      assert (k = i) as -> by by eapply (child_index_unique k i c' c u).
      rewrite Hi in Hk. by injection Hk as <-.
    + assert (i' = i) as -> by by eapply (child_index_unique i' i c1' c u).
      assert (j' = i) as -> by by eapply (child_index_unique j' i c2' c x).
      destruct ty; simpl in Hj; try done; lia.
  - intros Hin. left. exists c. split; [by eapply list_elem_of_lookup_2 | done].
Qed.

End distinct_leaves.

Lemma tree_modules_aux t :
  NoDup (get_vertices t) →
  ∀ n, n ∈ subtrees t →
    ∀ x u u', x ∈ get_vertices t → x ∉ get_vertices n →
      u ∈ get_vertices n → u' ∈ get_vertices n →
      tree_adjacent t u x → tree_adjacent t u' x.
Proof.
  induction t as [v | ty cs IH] using Node_ind'; intros Hnd n Hn x u u' Hx Hnx Hu Hu'.
  { simpl in Hn. apply list_elem_of_singleton in Hn as ->. done. }
  apply elem_of_subtrees_Inner in Hn as [-> | (c & Hc & Hn)]; [done |].
  rewrite Forall_forall in IH.
  pose proof Hc as [k Hk]%list_elem_of_lookup.
  pose proof (subtrees_vertices c n Hn u Hu) as Huc.
  pose proof (subtrees_vertices c n Hn u' Hu') as Huc'.
  simpl in Hx. apply elem_of_concat in Hx as (l & Hxl & (c' & -> & Hc')%list_elem_of_fmap).
  pose proof Hc' as [j Hj]%list_elem_of_lookup.
  destruct (decide (j = k)) as [-> | Hjk].
  - rewrite Hk in Hj. injection Hj as <-. unfold tree_adjacent.
    rewrite !(tree_edge_within ty cs Hnd k c) by done.
    assert (NoDup (get_vertices c)) as Hndc.
    { apply (NoDup_concat_elem (map get_vertices cs)); [done | by apply list_elem_of_fmap_2]. }
    apply (IH c Hc Hndc n Hn x u u'); done.
  - unfold tree_adjacent.
    rewrite (tree_edge_across ty cs Hnd k j c c' u x) by done.
    rewrite (tree_edge_across ty cs Hnd j k c' c x u) by done.
    rewrite (tree_edge_across ty cs Hnd k j c c' u' x) by done.
    by rewrite (tree_edge_across ty cs Hnd j k c' c x u') by done.
Qed.

(** The lists [tree_to_vertices_and_edges] returns for a tree with pairwise
    distinct leaves: the vertices are the leaves; an edge joins two
    different leaves; two leaves under different children of the root are
    joined exactly when the root is [SERIES], or [PRIME] with the two
    children next to each other; two leaves under one child are joined as
    in the graph of that child. *)
Theorem tree_to_vertices_and_edges_spec ty cs :
  NoDup (get_vertices (Inner ty cs)) →
  (tree_to_vertices_and_edges (Inner ty cs)).1 = get_vertices (Inner ty cs) ∧
  (∀ u x, (u, x) ∈ (tree_to_vertices_and_edges (Inner ty cs)).2 →
          u ∈ get_vertices (Inner ty cs) ∧ x ∈ get_vertices (Inner ty cs) ∧ u ≠ x) ∧
  (∀ i j c1 c2 u x, cs !! i = Some c1 → cs !! j = Some c2 → i ≠ j →
     u ∈ get_vertices c1 → x ∈ get_vertices c2 →
     tree_adjacent (Inner ty cs) u x ↔
     ty = SERIES ∨ (ty = PRIME ∧ (j = S i ∨ i = S j))) ∧
  (∀ i c u x, cs !! i = Some c → u ∈ get_vertices c → x ∈ get_vertices c →
     tree_adjacent (Inner ty cs) u x ↔ tree_adjacent c u x).
Proof.
  intros Hnd. split; [apply tree_vertices |]. split; [| split].
  - intros u x Hin. destruct (tree_edge_leaves _ _ _ Hin) as [Hu Hx].
    split; [done |]. split; [done |]. intros <-.
    revert Hin. generalize (Inner ty cs) Hnd Hu. clear.
    intros t. induction t as [v | ty cs IH] using Node_ind'; intros Hnd Hu;
      [by intros ?%elem_of_nil |].
    rewrite Forall_forall in IH.
    intros [(c & Hc & Hin) | (i & j & c1 & c2 & H1 & H2 & Hj & Hu1 & Hu2)]%tree_edges_Inner.
    + apply (IH c Hc); [| by apply (tree_edge_leaves c u u) | done].
      apply (NoDup_concat_elem (map get_vertices cs)); [done | by apply list_elem_of_fmap_2].
    + assert (i = j) as -> by by eapply (child_index_unique ty cs Hnd i j c1 c2 u).
      destruct ty; simpl in Hj; try done; lia.
  - intros i j c1 c2 u x H1 H2 Hij Hu Hx. unfold tree_adjacent.
    rewrite (tree_edge_across ty cs Hnd i j c1 c2 u x) by done.
    rewrite (tree_edge_across ty cs Hnd j i c2 c1 x u) by done.
    destruct ty; simpl; intuition (congruence || lia).
  - intros i c u x Hi Hu Hx. unfold tree_adjacent.
    by rewrite !(tree_edge_within ty cs Hnd i c) by done.
Qed.

(** In the graph made from a tree with pairwise distinct leaves, the leaves
    below any node are a module: a leaf outside is adjacent to all of them
    or to none. *)
Theorem tree_to_vertices_and_edges_modules t n x u u' :
  NoDup (get_vertices t) → n ∈ subtrees t →
  x ∈ get_vertices t → x ∉ get_vertices n →
  u ∈ get_vertices n → u' ∈ get_vertices n →
  tree_adjacent t u x ↔ tree_adjacent t u' x.
Proof.
  intros Hnd Hn Hx Hnx Hu Hu'.
  split; [apply (tree_modules_aux t Hnd n Hn x u u') | apply (tree_modules_aux t Hnd n Hn x u' u)];
    done.
Qed.

End tree_graph.

(** ** The class the prime case looks up *)

Section spanning.
Context {V : Type} `{EqDecision V}.
Implicit Types (G : Graph V) (u v w x y : V) (C : list (V * V)).

(** On a connected graph with a connected complement and at least two
    vertices, [gamma_classes] has a class whose edges reach every vertex,
    stored under the vertex set of the graph, and it has one such class
    only. *)
Theorem gamma_classes_spanning_class G :
  simple_graph G → is_connected G = true → is_connected (complement G) = true →
  (2 ≤ order G)%nat →
  ∃ C, fdict_get (vertices G) (gamma_classes G) = Some C ∧ C ≠ [] ∧
       (∀ x, x ∈ vertices G ↔ x ∈ class_vertices C) ∧
       ∀ k C', (k, C') ∈ gamma_classes G → (∀ x, x ∈ k ↔ x ∈ vertices G) → C' = C.
Proof.
  intros HG Hc Hco Hord.
  destruct (hm_prime_lookup G None) as (C & Hget & HgC & Hspan);
    [by split | by apply is_connected_conn
     | apply is_connected_conn; [by apply simple_complement | done] | done |].
  simpl in Hget. exists C. split; [done |].
  destruct (fdict_get_Some _ _ _ Hget) as (k' & Hin & Hk').
  pose proof (gamma_classes_gclass G HG k' C Hin) as [_ Hne].
  apply (elem_of_gamma_classes G HG) in Hin as [-> HC].
  split; [done |]. split; [done |].
  intros k C' Hin' Hk. apply (elem_of_gamma_classes G HG) in Hin' as [-> HC'].
  apply (ds_sets_same_span G HG); [done | done |].
  apply frozenset_eqb_true. intros x. by rewrite Hk, Hspan.
Qed.

End spanning.

(** ** The linked trees of the linear decomposer *)

Section linked_trees.
Context {V : Type} `{EqDecision V}.
Implicit Types (h : heap V) (l self child : loc) (f g : field) (v : value V).

(** What the field [f] of the object at [l] holds. *)
Definition field_of h l f : option (value V) :=
  match h !! l with
  | Some o => assoc_get f (obj_fields o)
  | None => None
  end.

Lemma assoc_get_set {A} f g (a : A) (fs : list (field * A)) :
  is_Some (assoc_get g fs) ∨ g = f →
  assoc_get g (assoc_set f a fs) = if bool_decide (g = f) then Some a else assoc_get g fs.
Proof.
  induction fs as [| [k b] fs IH]; simpl; intros Hg.
  - case_bool_decide as E; [done |]. destruct Hg as [[? ?] | ?]; done.
  - destruct (decide (f = k)) as [-> | Hfk].
    + rewrite (bool_decide_eq_true_2 (k = k)) by done. simpl.
      destruct (decide (g = k)) as [-> | Hgk];
        [by rewrite !bool_decide_eq_true_2 | by rewrite !(bool_decide_eq_false_2 (g = k))].
    + rewrite (bool_decide_eq_false_2 (f = k)) by done. simpl.
      destruct (decide (g = k)) as [-> | Hgk].
      * rewrite (bool_decide_eq_true_2 (k = k)) by done.
        by rewrite (bool_decide_eq_false_2 (k = f)).
      * rewrite (bool_decide_eq_false_2 (g = k)) by done. apply IH.
        destruct Hg as [Hs | ?]; [left | by right].
        by rewrite (bool_decide_eq_false_2 (g = k)) in Hs.
Qed.

Lemma assoc_get_set_ne {A} f g (a : A) (fs : list (field * A)) :
  g ≠ f → assoc_get g (assoc_set f a fs) = assoc_get g fs.
Proof.
  intros Hne. induction fs as [| [k b] fs IH]; simpl.
  - by rewrite bool_decide_eq_false_2.
  - destruct (decide (f = k)) as [-> | Hfk].
    + rewrite (bool_decide_eq_true_2 (k = k)) by done. simpl.
      by rewrite !(bool_decide_eq_false_2 (g = k)).
    + rewrite (bool_decide_eq_false_2 (f = k)) by done. simpl.
      by rewrite IH.
Qed.

Lemma assoc_get_set_eq {A} f (a : A) (fs : list (field * A)) :
  assoc_get f (assoc_set f a fs) = Some a.
Proof.
  induction fs as [| [k b] fs IH]; simpl.
  - by rewrite bool_decide_eq_true_2.
  - destruct (decide (f = k)) as [-> | Hfk].
    + rewrite (bool_decide_eq_true_2 (k = k)) by done. simpl.
      by rewrite bool_decide_eq_true_2.
    + rewrite (bool_decide_eq_false_2 (f = k)) by done. simpl.
      by rewrite (bool_decide_eq_false_2 (f = k)).
Qed.

Lemma bind_Ok {A B} (m : M V A) (k : A → M V B) h (b : B) h' :
  M_bind m k h = Ok (b, h') ↔ ∃ a h1, m h = Ok (a, h1) ∧ k a h1 = Ok (b, h').
Proof.
  unfold M_bind. split.
  - destruct (m h) as [[a h1] | |]; [| done | done]. intros Hk. by exists a, h1.
  - intros (a & h1 & -> & Hk). done.
Qed.

Lemma getattr_Ok l f h v h' :
  getattr l f h = Ok (v, h') ↔ h' = h ∧ field_of h l f = Some v.
Proof.
  unfold getattr, field_of. destruct (h !! l) as [o |]; [| by split; [| intros [_ ?]]].
  destruct (assoc_get f (obj_fields o)); split; try done.
  - by intros [= -> ->].
  - by intros [-> [= ->]].
  - by intros [_ ?].
Qed.

Lemma setattr_Ok l f v h (u : unit) h' :
  setattr l f v h = Ok (u, h') →
  length h' = length h ∧
  ∀ l' g, field_of h' l' g =
          if bool_decide (l' = l ∧ g = f) then Some v else field_of h l' g.
Proof.
  unfold setattr. destruct (h !! l) as [o |] eqn:E; [| done]. intros [= _ <-].
  split; [apply length_insert |]. intros l' g. unfold field_of, heap in *.
  destruct (decide (l' = l)) as [-> | Hl].
  - rewrite list_lookup_insert_eq by by eapply lookup_lt_Some. rewrite E. simpl.
    destruct (decide (g = f)) as [-> | Hg].
    + rewrite bool_decide_eq_true_2 by done. apply assoc_get_set_eq.
    + rewrite bool_decide_eq_false_2 by by intros [_ ?]. by apply assoc_get_set_ne.
  - rewrite list_lookup_insert_ne by done.
    by rewrite bool_decide_eq_false_2 by by intros [? _].
Qed.

Lemma get_ref_Ok l f h (r : option loc) h' :
  get_ref l f h = Ok (r, h') → h' = h ∧ field_of h l f = Some (to_value r).
Proof.
  unfold get_ref. intros (v & h1 & [-> Hv]%getattr_Ok & Hr)%bind_Ok.
  destruct v; try done; injection Hr as <- <-; done.
Qed.

Lemma get_int_Ok l f h (z : Z) h' :
  get_int l f h = Ok (z, h') → h' = h ∧ field_of h l f = Some (VInt z).
Proof.
  unfold get_int. intros (v & h1 & [-> Hv]%getattr_Ok & Hr)%bind_Ok.
  destruct v; try done; injection Hr as <- <-; done.
Qed.

Lemma deref_Ok (x : option loc) h l h' : deref x h = Ok (l, h') → x = Some l ∧ h' = h.
Proof. destruct x; [| done]. by intros [= -> ->]. Qed.

Lemma M_ret_Ok {A} (a b : A) h h' : M_ret a h = Ok (b, h') → b = a ∧ h' = h.
Proof. by intros [= -> ->]. Qed.

End linked_trees.

(** Taking a run of heap operations apart, one operation at a time. *)
Ltac heap_inv H :=
  lazymatch type of H with
  | M_bind _ _ _ = Ok _ =>
      let a := fresh "a" in
      let h1 := fresh "h" in
      let H1 := fresh "H" in
      apply bind_Ok in H as (a & h1 & H1 & H); heap_inv H1; heap_inv H
  | get_ref _ _ _ = Ok _ => apply get_ref_Ok in H as [-> H]
  | get_int _ _ _ = Ok _ => apply get_int_Ok in H as [-> H]
  | getattr _ _ _ = Ok _ => apply getattr_Ok in H as [-> H]
  | deref _ _ = Ok _ => apply deref_Ok in H as [-> ->]
  | set_ref _ _ _ _ = Ok _ => unfold set_ref in H; heap_inv H
  | set_int _ _ _ _ = Ok _ => unfold set_int in H; heap_inv H
  | setattr _ _ _ _ = Ok _ =>
      let Hl := fresh "Hlen" in apply setattr_Ok in H as [Hl H]
  | M_ret _ _ = Ok _ => apply M_ret_Ok in H as [? ?]; subst
  | when ?b _ _ = Ok _ =>
      let E := fresh "Ewhen" in destruct b eqn:E; unfold when in H; heap_inv H
  | (match ?x with Some _ => _ | None => _ end) _ = Ok _ =>
      let E := fresh "Eopt" in destruct x eqn:E; heap_inv H
  | _ => idtac
  end.

(** Reading a field through the writes of a run. *)
Ltac heap_read :=
  repeat match goal with
         | H : ∀ l g, field_of ?hh l g = _ |- context [field_of ?hh _ _] => rewrite H
         | H : ∀ l g, field_of ?hh l g = _, H' : context [field_of ?hh _ _] |- _ =>
             rewrite H in H'
         end.

(** Deciding which write a read meets. *)
Ltac heap_case :=
  match goal with
  | |- context [bool_decide (?x = ?y ∧ ?f = ?g)] =>
      first
        [ rewrite (bool_decide_eq_false_2 (x = y ∧ f = g)) by (intros [_ ?]; congruence)
        | rewrite (bool_decide_eq_true_2 (x = y ∧ f = g)) by (split; reflexivity)
        | rewrite (bool_decide_eq_false_2 (x = y ∧ f = g)) by (intros [? _]; congruence)
        | destruct (decide (x = y));
            [ subst; rewrite (bool_decide_eq_true_2 (_ = _ ∧ f = g)) by (split; reflexivity)
            | rewrite (bool_decide_eq_false_2 (x = y ∧ f = g)) by (by intros [? _]) ]
        | let Hn := fresh "Hn" in
          destruct (decide (x = y ∧ f = g)) as [[? ?] | Hn];
            [ subst; rewrite (bool_decide_eq_true_2 (_ = _ ∧ _ = _)) by (split; reflexivity)
            | rewrite (bool_decide_eq_false_2 (x = y ∧ f = g)) by exact Hn ] ]
  | H : context [bool_decide (?x = ?y ∧ ?f = ?g)] |- _ =>
      first
        [ rewrite (bool_decide_eq_false_2 (x = y ∧ f = g)) in H
            by (intros [_ ?]; congruence)
        | rewrite (bool_decide_eq_true_2 (x = y ∧ f = g)) in H by (split; reflexivity)
        | rewrite (bool_decide_eq_false_2 (x = y ∧ f = g)) in H
            by (intros [? _]; congruence)
        | destruct (decide (x = y));
            [ subst; rewrite (bool_decide_eq_true_2 (_ = _ ∧ f = g)) in H
                by (split; reflexivity)
            | rewrite (bool_decide_eq_false_2 (x = y ∧ f = g)) in H
                by (by intros [? _]) ]
        | let Hn := fresh "Hn" in
          destruct (decide (x = y ∧ f = g)) as [[? ?] | Hn];
            [ subst; rewrite (bool_decide_eq_true_2 (_ = _ ∧ _ = _)) in H
                by (split; reflexivity)
            | rewrite (bool_decide_eq_false_2 (x = y ∧ f = g)) in H by exact Hn ] ]
  end.

Ltac heap_done :=
  unfold same in *;
  repeat match goal with
         | H : bool_decide _ = true |- _ => apply bool_decide_eq_true_1 in H
         | H : bool_decide _ = false |- _ => apply bool_decide_eq_false_1 in H
         | a : option loc |- _ => destruct a
         end;
  simpl in *; try congruence.

Ltac heap_solve :=
  heap_read; repeat heap_case; simpl in *; try congruence; heap_done.

Section tree_node.
Context {V : Type} `{EqDecision V}.
Implicit Types (h : heap V) (l self child : loc) (f g : field) (v : value V).

Lemma remove_detached self h h' :
  remove self h = Ok (tt, h') →
  field_of h' self F_parent = Some VNone ∧
  field_of h' self F_left_sibling = Some VNone ∧
  field_of h' self F_right_sibling = Some VNone ∧
  length h' = length h.
Proof.
  intros Hrun. unfold remove in Hrun. heap_inv Hrun.
  all: split; [by heap_solve |]; split; [by heap_solve |]; split; [by heap_solve |];
    congruence.
Qed.

Lemma remove_left_neighbour self h h' ls :
  remove self h = Ok (tt, h') →
  field_of h self F_left_sibling = Some (VRef ls) → ls ≠ self →
  field_of h' ls F_right_sibling = field_of h self F_right_sibling.
Proof.
  intros Hrun Hls Hne. unfold remove in Hrun. heap_inv Hrun.
  all: heap_solve.
Qed.

Lemma remove_right_neighbour self h h' rs :
  remove self h = Ok (tt, h') →
  field_of h self F_right_sibling = Some (VRef rs) → rs ≠ self →
  field_of h' rs F_left_sibling = field_of h self F_left_sibling.
Proof.
  intros Hrun Hrs Hne. unfold remove in Hrun. heap_inv Hrun.
  all: heap_solve.
Qed.

Lemma remove_parent_count self h h' p n :
  remove self h = Ok (tt, h') →
  field_of h self F_parent = Some (VRef p) →
  field_of h p F_num_children = Some (VInt n) →
  field_of h' p F_num_children = Some (VInt (n - 1)).
Proof.
  intros Hrun Hp Hn. unfold remove in Hrun. heap_inv Hrun.
  all: heap_solve.
Qed.

Lemma remove_parent_first self h h' p :
  remove self h = Ok (tt, h') →
  field_of h self F_parent = Some (VRef p) →
  field_of h p F_first_child = Some (VRef self) →
  field_of h' p F_first_child = field_of h self F_right_sibling.
Proof.
  intros Hrun Hp Hfc. unfold remove in Hrun. heap_inv Hrun.
  all: heap_solve.
Qed.

Lemma remove_other_fields self h h' l g :
  remove self h = Ok (tt, h') →
  g ∉ [F_parent; F_first_child; F_left_sibling; F_right_sibling; F_num_children] →
  field_of h' l g = field_of h l g.
Proof.
  intros Hrun Hg. rewrite !not_elem_of_cons in Hg. destruct Hg as (? & ? & ? & ? & ? & _).
  unfold remove in Hrun. heap_inv Hrun.
  all: heap_solve.
Qed.

Lemma remove_other_objects self h h' l g :
  remove self h = Ok (tt, h') →
  l ≠ self →
  field_of h self F_parent ≠ Some (VRef l) →
  field_of h self F_left_sibling ≠ Some (VRef l) →
  field_of h self F_right_sibling ≠ Some (VRef l) →
  field_of h' l g = field_of h l g.
Proof.
  intros Hrun Hne Hp Hl Hr. unfold remove in Hrun. heap_inv Hrun.
  all: heap_solve.
Qed.

(** A node with no parent and no siblings. *)
Definition detached h self : Prop :=
  field_of h self F_parent = Some VNone ∧
  field_of h self F_left_sibling = Some VNone ∧
  field_of h self F_right_sibling = Some VNone.

Lemma remove_detached_same self h h' :
  detached h self → remove self h = Ok (tt, h') →
  ∀ l g, field_of h' l g = field_of h l g.
Proof.
  intros (Hp & Hl & Hr) Hrun l g. unfold remove in Hrun. heap_inv Hrun.
  all: heap_solve.
Qed.

(** [remove] takes the node out of the list of its siblings: the node ends
    with no parent and no siblings; its left sibling gets its right sibling
    as right sibling and the other way round; its parent has one child
    less, and the right sibling as first child if the node was the first
    child.  The objects other than the node, its parent and its two
    siblings are as they were, so is every attribute that is not one of the
    five of a tree node, and no object is made. *)
Theorem remove_splices_out self h h' :
  remove self h = Ok (tt, h') →
  (field_of h' self F_parent = Some VNone ∧
   field_of h' self F_left_sibling = Some VNone ∧
   field_of h' self F_right_sibling = Some VNone ∧
   length h' = length h) ∧
  (∀ ls, field_of h self F_left_sibling = Some (VRef ls) → ls ≠ self →
         field_of h' ls F_right_sibling = field_of h self F_right_sibling) ∧
  (∀ rs, field_of h self F_right_sibling = Some (VRef rs) → rs ≠ self →
         field_of h' rs F_left_sibling = field_of h self F_left_sibling) ∧
  (∀ p n, field_of h self F_parent = Some (VRef p) →
          field_of h p F_num_children = Some (VInt n) →
          field_of h' p F_num_children = Some (VInt (n - 1))) ∧
  (∀ p, field_of h self F_parent = Some (VRef p) →
        field_of h p F_first_child = Some (VRef self) →
        field_of h' p F_first_child = field_of h self F_right_sibling) ∧
  (∀ l g, g ∉ [F_parent; F_first_child; F_left_sibling; F_right_sibling; F_num_children] →
          field_of h' l g = field_of h l g) ∧
  (∀ l g, l ≠ self →
          field_of h self F_parent ≠ Some (VRef l) →
          field_of h self F_left_sibling ≠ Some (VRef l) →
          field_of h self F_right_sibling ≠ Some (VRef l) →
          field_of h' l g = field_of h l g).
Proof.
  intros Hrun. split; [by apply remove_detached |].
  split; [intros ls; by apply (remove_left_neighbour self h h') |].
  split; [intros rs; by apply (remove_right_neighbour self h h') |].
  split; [intros p n; by apply (remove_parent_count self h h') |].
  split; [intros p; by apply (remove_parent_first self h h') |].
  split; [intros l g; by apply (remove_other_fields self h h') |].
  intros l g. by apply (remove_other_objects self h h').
Qed.

(** [add_child] makes the child the first child: it is the first child of
    the node and has the node as parent; unless it was the first child
    already, it has no left sibling, the former first child is its right
    sibling and has it as left sibling; and the node counts one child more
    unless the child was a child of the node before. *)
Theorem add_child_links self child h h' :
  add_child self child h = Ok (tt, h') →
  (field_of h' self F_first_child = Some (VRef child) ∧
   field_of h' child F_parent = Some (VRef self) ∧
   length h' = length h) ∧
  (field_of h self F_first_child ≠ Some (VRef child) →
   field_of h' child F_left_sibling = Some VNone ∧
   field_of h' child F_right_sibling = field_of h self F_first_child) ∧
  (∀ c, field_of h self F_first_child = Some (VRef c) → c ≠ child →
        field_of h' c F_left_sibling = Some (VRef child)) ∧
  (∀ n, field_of h self F_num_children = Some (VInt n) →
        field_of h child F_parent ≠ Some (VRef self) →
        field_of h' self F_num_children = Some (VInt (n + 1))).
Proof.
  intros Hrun. unfold add_child, remove in Hrun. heap_inv Hrun.
  all: split; [split; [by heap_solve |]; split; [by heap_solve | congruence] |].
  all: split; [intros Hfc; split; heap_solve |].
  all: split; [intros c Hfc Hne; heap_solve | intros n Hn Hp; heap_solve].
Qed.

(** [insert_before] of a node that has no parent and no siblings: the node
    stands between the former left sibling of [just_before] and
    [just_before], under the parent of [just_before], which counts one child
    more and has the node as first child if [just_before] was the first. *)
Theorem insert_before_links self just_before h h' :
  insert_before self just_before h = Ok (tt, h') →
  detached h self → self ≠ just_before →
  (field_of h' self F_right_sibling = Some (VRef just_before) ∧
   field_of h' just_before F_left_sibling = Some (VRef self) ∧
   field_of h' self F_left_sibling = field_of h just_before F_left_sibling ∧
   field_of h' self F_parent = field_of h just_before F_parent ∧
   length h' = length h) ∧
  (∀ ls, field_of h just_before F_left_sibling = Some (VRef ls) → ls ≠ self →
         field_of h' ls F_right_sibling = Some (VRef self)) ∧
  (∀ p n, field_of h just_before F_parent = Some (VRef p) →
          field_of h p F_num_children = Some (VInt n) →
          field_of h' p F_num_children = Some (VInt (n + 1))) ∧
  (∀ p, field_of h just_before F_parent = Some (VRef p) →
        field_of h p F_first_child = Some (VRef just_before) →
        field_of h' p F_first_child = Some (VRef self)).
Proof.
  intros Hrun Hdet Hne. unfold insert_before in Hrun.
  apply bind_Ok in Hrun as ([] & h1 & Hrem & Hrun).
  pose proof (remove_detached_same self h h1 Hdet Hrem) as Hsame.
  assert (length h1 = length h) as Hlen1
    by (by destruct (remove_detached self h h1 Hrem) as (_ & _ & _ & ?)).
  destruct Hdet as (Hp & Hl & Hr). clear Hrem.
  heap_inv Hrun.
  all: split; [split; [by heap_solve |]; split; [by heap_solve |]; split; [by heap_solve |];
               split; [by heap_solve | congruence] |].
  all: split; [intros ls Hls Hlsne; heap_solve |].
  all: split; [intros p n Hjp Hn; heap_solve | intros p Hjp Hfc; heap_solve].
Qed.

(** [insert_after] of a node that has no parent and no siblings: the node
    stands between [just_after] and its former right sibling, under the
    parent of [just_after], which counts one child more. *)
Theorem insert_after_links self just_after h h' :
  insert_after self just_after h = Ok (tt, h') →
  detached h self → self ≠ just_after →
  (field_of h' self F_left_sibling = Some (VRef just_after) ∧
   field_of h' just_after F_right_sibling = Some (VRef self) ∧
   field_of h' self F_right_sibling = field_of h just_after F_right_sibling ∧
   field_of h' self F_parent = field_of h just_after F_parent ∧
   length h' = length h) ∧
  (∀ rs, field_of h just_after F_right_sibling = Some (VRef rs) → rs ≠ self →
         field_of h' rs F_left_sibling = Some (VRef self)) ∧
  (∀ p n, field_of h just_after F_parent = Some (VRef p) →
          field_of h p F_num_children = Some (VInt n) →
          field_of h' p F_num_children = Some (VInt (n + 1))) ∧
  (∀ p, field_of h just_after F_parent = Some (VRef p) →
          field_of h' p F_first_child = field_of h p F_first_child).
Proof.
  intros Hrun Hdet Hne. unfold insert_after in Hrun.
  apply bind_Ok in Hrun as ([] & h1 & Hrem & Hrun).
  pose proof (remove_detached_same self h h1 Hdet Hrem) as Hsame.
  assert (length h1 = length h) as Hlen1
    by (by destruct (remove_detached self h h1 Hrem) as (_ & _ & _ & ?)).
  destruct Hdet as (Hp & Hl & Hr). clear Hrem.
  heap_inv Hrun.
  all: split; [split; [by heap_solve |]; split; [by heap_solve |]; split; [by heap_solve |];
               split; [by heap_solve | congruence] |].
  all: split; [intros rs Hrs Hrsne; heap_solve |].
  all: split; [intros p n Hjp Hn; heap_solve | intros p Hjp; heap_solve].
Qed.

End tree_node.

(** ** Heaps of tree nodes *)

Section linked.
Context {V : Type} `{EqDecision V}.
Implicit Types (h : heap V) (l self child : loc) (f g : field) (v : value V).

(** The four attributes of a tree node that hold a node or [None]. *)
Definition is_link f : bool :=
  match f with
  | F_parent | F_first_child | F_left_sibling | F_right_sibling => true
  | _ => false
  end.

(** [None] or an object of the heap. *)
Definition link_ok (n : nat) v : Prop :=
  match v with
  | VNone => True
  | VRef l => (l < n)%nat
  | _ => False
  end.

(** The object at [l] has the attributes [_TedderTreeNode.__init__] sets,
    the links holding [None] or an object of the heap and [num_children] an
    integer. *)
Definition node_ok h l : Prop :=
  (∀ f, is_link f = true → ∃ v, field_of h l f = Some v ∧ link_ok (length h) v) ∧
  ∃ n, field_of h l F_num_children = Some (VInt n).

Definition linked h : Prop := ∀ l, (l < length h)%nat → node_ok h l.

(** The run [m] from [h] returns, with a result and a heap in [Q]. *)
Definition returns {A} (m : M V A) h (Q : A → heap V → Prop) : Prop :=
  ∃ a h', m h = Ok (a, h') ∧ Q a h'.

Definition inv (n : nat) h : Prop := linked h ∧ length h = n.

Lemma returns_bind {A B} (m : M V A) (k : A → M V B) h Q :
  returns m h (λ a h1, returns (k a) h1 Q) → returns (M_bind m k) h Q.
Proof.
  intros (a & h1 & Hm & b & h' & Hk & HQ). exists b, h'. split; [| done].
  unfold M_bind. by rewrite Hm.
Qed.

Lemma returns_ret {A} (a : A) h (Q : A → heap V → Prop) : Q a h → returns (M_ret a) h Q.
Proof. intros HQ. by exists a, h. Qed.

Lemma returns_weaken {A} (m : M V A) h (P Q : A → heap V → Prop) :
  returns m h P → (∀ a h', P a h' → Q a h') → returns m h Q.
Proof. intros (a & h' & Hm & HP) HPQ. exists a, h'. split; [done | by apply HPQ]. Qed.

Lemma getattr_linked n h l f :
  inv n h → (l < n)%nat → is_link f = true →
  returns (getattr l f) h (λ v h', h' = h ∧ link_ok n v ∧ field_of h l f = Some v).
Proof.
  intros [Hh Hn] Hl Hf. destruct (Hh l) as [Hlinks _]; [lia |].
  destruct (Hlinks f Hf) as (v & Hv & Hok). exists v, h. split; [| by subst n].
  by apply getattr_Ok.
Qed.

Lemma get_ref_linked n h l f :
  inv n h → (l < n)%nat → is_link f = true →
  returns (get_ref l f) h
    (λ x h', h' = h ∧ (∀ l', x = Some l' → (l' < n)%nat) ∧
             field_of h l f = Some (to_value x)).
Proof.
  intros Hh Hl Hf. unfold get_ref. apply returns_bind.
  eapply returns_weaken; [by apply (getattr_linked n) |].
  intros v h' (-> & Hv & Hget). destruct v; try done; simpl in Hv.
  - apply returns_ret. split; [done |]. split; [by intros l' [=] | done].
  - apply returns_ret. split; [done |]. split; [by intros l' [= <-] | done].
Qed.

Lemma get_int_linked n h l :
  inv n h → (l < n)%nat →
  returns (get_int l F_num_children) h (λ _ h', h' = h).
Proof.
  intros [Hh Hn] Hl. destruct (Hh l) as [_ [z Hz]]; [lia |].
  exists z, h. split; [| done]. unfold get_int, M_bind.
  by rewrite (proj2 (getattr_Ok l F_num_children h (VInt z) h)).
Qed.

Lemma setattr_returns l f v h :
  (l < length h)%nat → ∃ h', setattr l f v h = Ok (tt, h').
Proof.
  intros Hl. unfold setattr. destruct (h !! l) as [o |] eqn:E; [by eexists |].
  apply lookup_ge_None in E. unfold heap in *. lia.
Qed.

Lemma setattr_linked n h l f v :
  inv n h → (l < n)%nat →
  (is_link f = true ∧ link_ok n v) ∨ (f = F_num_children ∧ ∃ z, v = VInt z) →
  returns (setattr l f v) h
    (λ _ h', inv n h' ∧
             ∀ l' g, field_of h' l' g =
                     if bool_decide (l' = l ∧ g = f) then Some v else field_of h l' g).
Proof.
  intros [Hh Hn] Hl Hf. destruct (setattr_returns l f v h) as [h' Hrun]; [lia |].
  exists tt, h'. split; [done |]. apply setattr_Ok in Hrun as [Hlen Hfr].
  split; [| done]. split; [| congruence]. intros l' Hl'. destruct (Hh l') as [Hlinks [z Hz]]; [lia |].
  split.
  - intros g Hg. rewrite Hfr. case_bool_decide as E.
    + destruct E as [-> ->]. exists v. split; [done |].
      destruct Hf as [[_ Hv] | [-> _]]; [| done].
      by rewrite Hlen, Hn.
    + destruct (Hlinks g Hg) as (w & Hw & Hok). exists w. split; [done |].
      by rewrite Hlen.
  - rewrite Hfr. case_bool_decide as E; [| by exists z].
    destruct E as [-> <-]. destruct Hf as [[Hl2 _] | [_ [z2 ->]]]; [done | by exists z2].
Qed.

Lemma set_ref_linked n h l f x :
  inv n h → (l < n)%nat → is_link f = true → (∀ l', x = Some l' → (l' < n)%nat) →
  returns (set_ref l f x) h
    (λ _ h', inv n h' ∧
             ∀ l' g, field_of h' l' g =
                     if bool_decide (l' = l ∧ g = f) then Some (to_value x)
                     else field_of h l' g).
Proof.
  intros Hh Hl Hf Hx. apply (setattr_linked n); [done | done |]. left. split; [done |].
  destruct x as [l' |]; simpl; [| done]. by apply Hx.
Qed.

Lemma set_int_linked n h l z :
  inv n h → (l < n)%nat →
  returns (set_int l F_num_children z) h
    (λ _ h', inv n h' ∧
             ∀ l' g, field_of h' l' g =
                     if bool_decide (l' = l ∧ g = F_num_children) then Some (VInt z)
                     else field_of h l' g).
Proof. intros Hh Hl. apply (setattr_linked n); [done | done |]. right. by eauto. Qed.

End linked.

(** A node read from a heap of tree nodes is a node of the heap. *)
Ltac loc_bound :=
  first
    [ assumption
    | match goal with
      | H : ∀ l', Some ?l = Some l' → _ |- _ => exact (H l eq_refl)
      end
    | by intros ? [=]
    | intros ? [= <-]; loc_bound ].

(** One operation of a run on a heap of tree nodes. *)
Ltac linked_step n :=
  lazymatch goal with
  | |- returns (M_bind _ _) _ _ => apply returns_bind
  | |- returns (get_ref _ _) _ _ =>
      eapply returns_weaken;
      [ apply (get_ref_linked n); [assumption | loc_bound | reflexivity]
      | let x := fresh "x" in let h := fresh "h" in let Hx := fresh "Hx" in
        let Hr := fresh "Hread" in intros x h (-> & Hx & Hr) ]
  | |- returns (getattr _ _) _ _ =>
      eapply returns_weaken;
      [ apply (getattr_linked n); [assumption | loc_bound | reflexivity]
      | let x := fresh "v" in let h := fresh "h" in let Hx := fresh "Hv" in
        let Hr := fresh "Hread" in intros x h (-> & Hx & Hr) ]
  | |- returns (get_int _ F_num_children) _ _ =>
      eapply returns_weaken;
      [ apply (get_int_linked n); [assumption | loc_bound]
      | let x := fresh "z" in let h := fresh "h" in intros x h -> ]
  | |- returns (set_ref _ _ _) _ _ =>
      eapply returns_weaken;
      [ apply (set_ref_linked n);
        [assumption | loc_bound | reflexivity | loc_bound]
      | let h := fresh "h" in let Hh := fresh "Hh" in let Hw := fresh "Hwrite" in intros ? h [Hh Hw] ]
  | |- returns (set_int _ F_num_children _) _ _ =>
      eapply returns_weaken;
      [ apply (set_int_linked n); [assumption | loc_bound]
      | let h := fresh "h" in let Hh := fresh "Hh" in let Hw := fresh "Hwrite" in intros ? h [Hh Hw] ]
  | |- returns (setattr _ _ _) _ _ =>
      eapply returns_weaken;
      [ apply (setattr_linked n);
        [assumption | loc_bound | left; split; [reflexivity | assumption]]
      | let h := fresh "h" in let Hh := fresh "Hh" in let Hw := fresh "Hwrite" in intros ? h [Hh Hw] ]
  | |- returns (M_ret _) _ _ => apply returns_ret
  | |- returns (when ?b _) _ _ => destruct b; unfold when
  | |- returns (deref ?x) _ _ => destruct x; simpl
  | |- returns (match ?x with Some _ => _ | None => _ end) _ _ =>
      let E := fresh "E" in destruct x eqn:E
  end.

Section linked_ops.
Context {V : Type} `{EqDecision V}.
Implicit Types (h : heap V) (l self child : loc) (f g : field) (v : value V).

Lemma remove_linked n h self :
  inv n h → (self < n)%nat → returns (remove self) h (λ _ h', inv n h').
Proof.
  intros Hh Hs. unfold remove. repeat linked_step n. all: done.
Qed.

End linked_ops.

Ltac linked_run n :=
  repeat first
    [ linked_step n
    | lazymatch goal with
      | |- returns (remove _) _ _ =>
          eapply returns_weaken;
          [ apply (remove_linked n); [assumption | loc_bound]
          | let h := fresh "h" in let Hh := fresh "Hh" in intros ? h Hh; simpl in Hh ]
      end ].

Section linked_ops2.
Context {V : Type} `{EqDecision V}.
Implicit Types (h : heap V) (l self child : loc) (f g : field) (v : value V).

Lemma add_child_linked n h self child :
  inv n h → (self < n)%nat → (child < n)%nat →
  returns (add_child self child) h (λ _ h', inv n h').
Proof.
  intros Hh Hs Hc. unfold add_child. linked_run n. all: done.
Qed.

Lemma replace_with_linked n h self replacement :
  inv n h → (self < n)%nat → (replacement < n)%nat →
  returns (replace_with self replacement) h (λ _ h', inv n h').
Proof.
  intros Hh Hs Hc. unfold replace_with. linked_run n. all: done.
Qed.

Lemma insert_after_linked n h self just_after :
  inv n h → (self < n)%nat → (just_after < n)%nat →
  returns (insert_after self just_after) h (λ _ h', inv n h').
Proof.
  intros Hh Hs Hc. unfold insert_after. linked_run n. all: done.
Qed.

Lemma insert_before_linked n h self just_before :
  inv n h → (self < n)%nat → (just_before < n)%nat →
  returns (insert_before self just_before) h (λ _ h', inv n h').
Proof.
  intros Hh Hs Hc. unfold insert_before. linked_run n. all: try done.
  all: exfalso; heap_solve.
Qed.

End linked_ops2.

Section linked_ops3.
Context {V : Type} `{EqDecision V}.
Implicit Types (h : heap V) (l self other : loc).

(** On a heap whose objects all have the links of a tree node, each holding
    [None] or an object of the heap, the operations that rewire a node
    return, whatever the two nodes are, and leave such a heap with the same
    objects. *)
Theorem tree_operations_keep_links h self other :
  linked h → (self < length h)%nat → (other < length h)%nat →
  (∃ h', remove self h = Ok (tt, h') ∧ linked h' ∧ length h' = length h) ∧
  (∃ h', add_child self other h = Ok (tt, h') ∧ linked h' ∧ length h' = length h) ∧
  (∃ h', replace_with self other h = Ok (tt, h') ∧ linked h' ∧ length h' = length h) ∧
  (∃ h', insert_before self other h = Ok (tt, h') ∧ linked h' ∧ length h' = length h) ∧
  (∃ h', insert_after self other h = Ok (tt, h') ∧ linked h' ∧ length h' = length h).
Proof.
  intros Hh Hs Ho.
  assert (inv (length h) h) as Hinv by done.
  assert (∀ m : M V unit, returns m h (λ _ h', inv (length h) h') →
            ∃ h', m h = Ok (tt, h') ∧ linked h' ∧ length h' = length h) as Hret.
  { intros m ([] & h' & Hrun & Hl & Hn). by exists h'. }
  split; [by apply Hret, remove_linked |].
  split; [by apply Hret, add_child_linked |].
  split; [by apply Hret, replace_with_linked |].
  split; [by apply Hret, insert_before_linked | by apply Hret, insert_after_linked].
Qed.

End linked_ops3.

(** ** Instances *)

(** The path on three vertices with its middle vertex numbered 2: the
    vertices 0 and 1 have the same neighbour. *)
Definition twins3 : Graph nat := graph_of_edges 3 [(0, 2); (1, 2)]%nat.

(** The tree of [twins3]. *)
Definition twins3_tree : Node nat :=
  Inner SERIES [Inner PARALLEL [Normal 0; Normal 1]; Normal 2]%nat.

(** The four vertices of [path4] as leaves. *)
Definition leaves4 : list (Node nat) := [Normal 0; Normal 1; Normal 2; Normal 3]%nat.

(** The tree of the example of [md_tree_to_graph]. *)
Definition example_tree : Node nat :=
  Inner PRIME [Normal 1; Inner SERIES [Normal 2; Normal 3];
               Inner PARALLEL [Normal 4; Normal 5]; Normal 6]%nat.

Lemma simple_path4 : simple_graph path4.
Proof. apply simple_graph_of_edges. reflexivity. Defined.

Lemma simple_twins3 : simple_graph twins3.
Proof. apply simple_graph_of_edges. reflexivity. Defined.


Lemma habib_maurer_never_nests_degenerate_witness :
  simple_graph twins3 ∧
  ∃ t, habib_maurer twins3 = Ok t ∧
    ∀ ty cs c, Inner ty cs ∈ subtrees t → c ∈ cs →
      (ty = SERIES → node_type c ≠ SERIES) ∧ (ty = PARALLEL → node_type c ≠ PARALLEL).
Proof.
  split; [exact simple_twins3 |].
  apply (habib_maurer_never_nests_degenerate twins3). exact simple_twins3.
Defined.

Lemma habib_maurer_inner_nodes_branch_witness :
  simple_graph twins3 ∧ (1 ≤ order twins3)%nat ∧
  ∃ t, habib_maurer twins3 = Ok t ∧
    ∀ ty cs, Inner ty cs ∈ subtrees t → (2 ≤ length cs)%nat.
Proof.
  split; [exact simple_twins3 |]. split; [cbv; lia |].
  apply (habib_maurer_inner_nodes_branch twins3); [exact simple_twins3 | cbv; lia].
Defined.

Lemma habib_maurer_root_type_witness :
  simple_graph path4 ∧
  ∃ t, habib_maurer path4 = Ok t ∧
    (order path4 ≠ 1%nat → node_type t = get_module_type path4) ∧
    (order path4 = 1%nat → node_type t = NORMAL ∧ get_module_type path4 = PRIME).
Proof.
  split; [exact simple_path4 |].
  apply (habib_maurer_root_type path4). exact simple_path4.
Defined.

Lemma twins3_module : module twins3 [0; 1]%nat.
Proof.
  intros x u u' Hx Hnx Hu Hu'.
  assert (x = 2%nat) as ->.
  { simpl in Hx. rewrite !elem_of_cons in Hx. rewrite !not_elem_of_cons in Hnx.
    destruct Hx as [-> | [-> | [-> | Hx]]]; [tauto | tauto | done |].
    by apply elem_of_nil in Hx. }
  rewrite !elem_of_cons in Hu, Hu'.
  destruct Hu as [-> | [-> | Hu]]; [| | by apply elem_of_nil in Hu];
    destruct Hu' as [-> | [-> | Hu']]; try reflexivity; by apply elem_of_nil in Hu'.
Defined.

Lemma habib_maurer_with_classes_of_host_witness :
  simple_graph twins3 ∧ module twins3 [0; 1]%nat ∧
  ∃ t, habib_maurer_algorithm (S (order (subgraph twins3 [0; 1]%nat)))
         (subgraph twins3 [0; 1]%nat) (Some (gamma_classes twins3)) = Ok t ∧
       get_vertices t ≡ₚ vertices (subgraph twins3 [0; 1]%nat) ∧
       ∀ ty cs, Inner ty cs ∈ subtrees t →
         module (subgraph twins3 [0; 1]%nat) (get_vertices (Inner ty cs)).
Proof.
  split; [exact simple_twins3 |]. split; [exact twins3_module |].
  apply (habib_maurer_with_classes_of_host twins3 [0; 1]%nat);
    [exact simple_twins3 | exact twins3_module].
Defined.

Lemma simple_complete3 : simple_graph (complete_graph 3).
Proof. apply simple_graph_of_edges. reflexivity. Defined.

Lemma habib_maurer_base_cases_witness :
  simple_graph (complete_graph 3) ∧
  (vertices (complete_graph 3) = [] → habib_maurer (complete_graph 3) = Ok (Inner PRIME [])) ∧
  (∀ v, vertices (complete_graph 3) = [v] → habib_maurer (complete_graph 3) = Ok (Normal v)) ∧
  ((2 ≤ order (complete_graph 3))%nat → edgeless (complete_graph 3) →
     habib_maurer (complete_graph 3)
       = Ok (Inner PARALLEL (map Normal (vertices (complete_graph 3))))) ∧
  ((2 ≤ order (complete_graph 3))%nat → complete (complete_graph 3) →
     habib_maurer (complete_graph 3)
       = Ok (Inner SERIES (map Normal (vertices (complete_graph 3))))).
Proof.
  split; [exact simple_complete3 |].
  apply (habib_maurer_base_cases (complete_graph 3)). exact simple_complete3.
Defined.

Lemma test_module_true_iff_witness :
  node_wf twins3_tree = true ∧
  (test_module twins3_tree twins3 = Ok true ↔
   (∃ v, twins3_tree = Normal v) ∨
   (well_shaped twins3_tree ∧ module twins3 (get_vertices twins3_tree) ∧
    (get_vertices twins3_tree = [] → vertices twins3 = []))).
Proof.
  split; [reflexivity |]. apply (test_module_true_iff twins3_tree twins3). reflexivity.
Defined.

Lemma test_module_raises_iff_witness :
  node_wf (Inner PRIME [] : Node nat) = true ∧
  (test_module (Inner PRIME []) path4 = Raise IndexError ↔
   IndexError = IndexError ∧ well_shaped (Inner PRIME [] : Node nat) ∧
   node_type (Inner PRIME [] : Node nat) ≠ NORMAL ∧
   get_vertices (Inner PRIME [] : Node nat) = [] ∧ vertices path4 ≠ []).
Proof.
  split; [reflexivity |].
  apply (test_module_raises_iff (Inner PRIME []) path4 IndexError). reflexivity.
Defined.



Lemma form_module_never_returns_witness :
  [Normal 0; Normal 1]%nat !! 0%nat = Some (Normal 0%nat) ∧
  [Normal 0; Normal 1]%nat !! 1%nat = Some (Normal 1%nat) ∧
  (1%nat ∈ get_vertices (Normal 0%nat) ∨ 1%nat ∈ get_vertices (Normal 1%nat)) ∧
  2%nat ∈ neighbors path4 1%nat ∧
  (∀ c, c ∈ [Normal 0; Normal 1]%nat → 2%nat ∉ get_vertices c) ∧
  ∀ fuel, form_module fuel 0 1 (Inner PRIME [Normal 0; Normal 1]%nat) path4 = OutOfFuel.
Proof.
  assert (1%nat ∈ get_vertices (Normal 0%nat) ∨ 1%nat ∈ get_vertices (Normal 1%nat)) as Hu
    by (right; by left).
  assert (2%nat ∈ neighbors path4 1%nat) as Hx by (right; by left).
  assert (∀ c, c ∈ [Normal 0; Normal 1]%nat → 2%nat ∉ get_vertices c) as Hout.
  { apply Forall_forall. repeat constructor; by intros [=]%list_elem_of_singleton. }
  split; [reflexivity |]. split; [reflexivity |]. split; [exact Hu |].
  split; [exact Hx |]. split; [exact Hout |].
  apply (form_module_never_returns path4 PRIME [Normal 0; Normal 1]%nat 0 1
           (Normal 0%nat) (Normal 1%nat) 1%nat 2%nat);
    [reflexivity | reflexivity | exact Hu | exact Hx | exact Hout].
Defined.

Lemma leaves4_nonempty : ∀ c, c ∈ leaves4 → get_vertices c ≠ [].
Proof. apply Forall_forall. repeat constructor; done. Defined.

Lemma test_maximal_modules_connected_witness :
  simple_graph path4 ∧ is_connected path4 = true ∧
  concat (map get_vertices leaves4) ≡ₚ vertices path4 ∧
  (∀ c, c ∈ leaves4 → get_vertices c ≠ []) ∧
  test_maximal_modules (Inner PRIME leaves4) path4 = Ok true.
Proof.
  split; [exact simple_path4 |]. split; [reflexivity |]. split; [reflexivity |].
  split; [exact leaves4_nonempty |].
  apply (test_maximal_modules_connected path4 PRIME leaves4);
    [exact simple_path4 | reflexivity | reflexivity | exact leaves4_nonempty].
Defined.

Lemma test_modular_decomposition_accepts_habib_maurer_witness :
  simple_graph twins3 ∧
  ∃ t, habib_maurer twins3 = Ok t ∧ test_modular_decomposition t twins3 = Ok true.
Proof.
  split; [exact simple_twins3 |].
  apply (test_modular_decomposition_accepts_habib_maurer twins3). exact simple_twins3.
Defined.

Lemma test_modular_decomposition_sound_witness :
  simple_graph twins3 ∧ node_wf twins3_tree = true ∧
  (∀ x, x ∈ get_vertices twins3_tree → x ∈ vertices twins3) ∧
  test_modular_decomposition twins3_tree twins3 = Ok true ∧
  ∀ c n, c ∈ children_of twins3_tree → n ∈ subtrees c → module twins3 (get_vertices n).
Proof.
  split; [exact simple_twins3 |]. split; [reflexivity |]. split; [exact (λ x Hx, Hx) |].
  split; [reflexivity |].
  apply (test_modular_decomposition_sound twins3 twins3_tree);
    [exact simple_twins3 | reflexivity | exact (λ x Hx, Hx) | reflexivity].
Defined.

Lemma test_gamma_modules_round_passes_witness :
  simple_graph path4 ∧ test_gamma_modules_round path4 = Ok tt.
Proof.
  split; [exact simple_path4 |].
  apply (test_gamma_modules_round_passes path4). exact simple_path4.
Defined.

Lemma reverse4_injective :
  ∀ u v, u ∈ vertices path4 → v ∈ vertices path4 → reverse4 u = reverse4 v → u = v.
Proof. intros u v Hu%elem_of_seq Hv%elem_of_seq. unfold reverse4. lia. Defined.

Lemma permute_decomposition_round_passes_witness :
  simple_graph path4 ∧
  (∀ u v, u ∈ vertices path4 → v ∈ vertices path4 → reverse4 u = reverse4 v → u = v) ∧
  permute_decomposition_round habib_maurer path4 reverse4 = Ok tt.
Proof.
  split; [exact simple_path4 |]. split; [exact reverse4_injective |].
  apply (permute_decomposition_round_passes path4 reverse4);
    [exact simple_path4 | exact reverse4_injective].
Defined.

Lemma twins3_tree_leafy : leafy twins3_tree.
Proof.
  intros n Hn. simpl in Hn. rewrite !elem_of_cons in Hn.
  destruct Hn as [-> | [-> | [-> | [-> | [-> | Hn]]]]]; try done.
  by apply elem_of_nil in Hn.
Defined.

Lemma equivalent_trees_reflexive_symmetric_witness :
  NoDup (get_vertices twins3_tree) ∧ leafy twins3_tree ∧
  equivalent_trees twins3_tree twins3_tree = true ∧
  (equivalent_trees twins3_tree
     (Inner SERIES [Normal 2; Inner PARALLEL [Normal 1; Normal 0]]%nat) = true →
   equivalent_trees (Inner SERIES [Normal 2; Inner PARALLEL [Normal 1; Normal 0]]%nat)
     twins3_tree = true ∧
   ∀ x, x ∈ get_vertices twins3_tree ↔
        x ∈ get_vertices (Inner SERIES [Normal 2; Inner PARALLEL [Normal 1; Normal 0]]%nat)).
Proof.
  split; [exact (NoDup_seq 0 3) |]. split; [exact twins3_tree_leafy |].
  apply (equivalent_trees_reflexive_symmetric twins3_tree);
    [exact (NoDup_seq 0 3) | exact twins3_tree_leafy].
Defined.

Lemma equivalent_trees_sound_witness :
  equivalent_trees twins3_tree
    (Inner SERIES [Normal 2; Inner PARALLEL [Normal 1; Normal 0]]%nat) = true ∧
  node_type twins3_tree
    = node_type (Inner SERIES [Normal 2; Inner PARALLEL [Normal 1; Normal 0]]%nat) ∧
  num_children twins3_tree
    = num_children (Inner SERIES [Normal 2; Inner PARALLEL [Normal 1; Normal 0]]%nat) ∧
  ∀ x, x ∈ get_vertices twins3_tree →
       x ∈ get_vertices (Inner SERIES [Normal 2; Inner PARALLEL [Normal 1; Normal 0]]%nat).
Proof.
  split; [reflexivity |].
  apply (equivalent_trees_sound twins3_tree
           (Inner SERIES [Normal 2; Inner PARALLEL [Normal 1; Normal 0]]%nat)).
  reflexivity.
Defined.

Lemma nested_tuple_round_trip_of_inner_node_witness :
  SERIES ≠ NORMAL ∧
  nested_tuple_to_tree (tree_to_nested_tuple (Inner SERIES [Normal (PInt 1); Normal (PInt 2)]))
    = Ok (Inner SERIES
            [Normal (PList (map tree_to_nested_tuple [Normal (PInt 1); Normal (PInt 2)]))]) ∧
  (length [Normal (PInt 1); Normal (PInt 2)] ≠ 1%nat →
   equivalent_trees
     (Inner SERIES
        [Normal (PList (map tree_to_nested_tuple [Normal (PInt 1); Normal (PInt 2)]))])
     (Inner SERIES [Normal (PInt 1); Normal (PInt 2)]) = false).
Proof.
  split; [discriminate |].
  apply (nested_tuple_round_trip_of_inner_node SERIES [Normal (PInt 1); Normal (PInt 2)]).
  discriminate.
Defined.

Lemma tree_to_vertices_and_edges_spec_witness :
  let ty := PRIME in
  let cs := [Normal 1; Inner SERIES [Normal 2; Normal 3];
             Inner PARALLEL [Normal 4; Normal 5]; Normal 6]%nat in
  NoDup (get_vertices (Inner ty cs)) ∧
  (tree_to_vertices_and_edges (Inner ty cs)).1 = get_vertices (Inner ty cs) ∧
  (∀ u x, (u, x) ∈ (tree_to_vertices_and_edges (Inner ty cs)).2 →
          u ∈ get_vertices (Inner ty cs) ∧ x ∈ get_vertices (Inner ty cs) ∧ u ≠ x) ∧
  (∀ i j c1 c2 u x, cs !! i = Some c1 → cs !! j = Some c2 → i ≠ j →
     u ∈ get_vertices c1 → x ∈ get_vertices c2 →
     tree_adjacent (Inner ty cs) u x ↔
     ty = SERIES ∨ (ty = PRIME ∧ (j = S i ∨ i = S j))) ∧
  (∀ i c u x, cs !! i = Some c → u ∈ get_vertices c → x ∈ get_vertices c →
     tree_adjacent (Inner ty cs) u x ↔ tree_adjacent c u x).
Proof.
  intros ty cs. split; [exact (NoDup_seq 1 6) |].
  apply (tree_to_vertices_and_edges_spec ty cs). exact (NoDup_seq 1 6).
Defined.

Lemma tree_to_vertices_and_edges_modules_witness :
  NoDup (get_vertices example_tree) ∧
  Inner SERIES [Normal 2; Normal 3]%nat ∈ subtrees example_tree ∧
  1%nat ∈ get_vertices example_tree ∧
  (1%nat ∉ get_vertices (Inner SERIES [Normal 2; Normal 3]%nat)) ∧
  2%nat ∈ get_vertices (Inner SERIES [Normal 2; Normal 3]%nat) ∧
  3%nat ∈ get_vertices (Inner SERIES [Normal 2; Normal 3]%nat) ∧
  (tree_adjacent example_tree 2%nat 1%nat ↔ tree_adjacent example_tree 3%nat 1%nat).
Proof.
  assert (Inner SERIES [Normal 2; Normal 3]%nat ∈ subtrees example_tree) as Hn
    by (right; right; by left).
  assert (1%nat ∉ get_vertices (Inner SERIES [Normal 2; Normal 3]%nat)) as Hnx.
  { simpl. rewrite !not_elem_of_cons. repeat split; try done. apply not_elem_of_nil. }
  assert (2%nat ∈ get_vertices (Inner SERIES [Normal 2; Normal 3]%nat)) as Hu by by left.
  assert (3%nat ∈ get_vertices (Inner SERIES [Normal 2; Normal 3]%nat)) as Hu'
    by (right; by left).
  assert (1%nat ∈ get_vertices example_tree) as Hx by by left.
  split; [exact (NoDup_seq 1 6) |]. split; [exact Hn |]. split; [exact Hx |].
  split; [exact Hnx |]. split; [exact Hu |]. split; [exact Hu' |].
  exact (tree_to_vertices_and_edges_modules example_tree
           (Inner SERIES [Normal 2; Normal 3]%nat) 1%nat 2%nat 3%nat
           (NoDup_seq 1 6) Hn Hx Hnx Hu Hu').
Defined.

(** Three tree nodes as [_TedderTreeNode()] makes them. *)
Definition three_nodes : heap nat :=
  [mkObject TedderTreeNode tree_fields; mkObject TedderTreeNode tree_fields;
   mkObject TedderTreeNode tree_fields].

(** Node 0 after [add_child] of node 2 and then of node 1: its children are
    1 and 2 in this order. *)
Definition family : heap nat :=
  Eval vm_compute in
    match M_bind (add_child 0%nat 2%nat) (λ _, add_child 0%nat 1%nat) three_nodes with
    | Ok (_, h) => h
    | _ => []
    end.

Definition family_less : heap nat :=
  Eval vm_compute in
    match remove 1%nat family with Ok (_, h) => h | _ => [] end.

(** [family] and one more node, which has no parent and no siblings. *)
Definition family_and_one : heap nat :=
  family ++ [mkObject TedderTreeNode tree_fields].

Definition family_more : heap nat :=
  Eval vm_compute in
    match add_child 0%nat 3%nat family_and_one with Ok (_, h) => h | _ => [] end.

Definition family_before : heap nat :=
  Eval vm_compute in
    match insert_before 3%nat 1%nat family_and_one with Ok (_, h) => h | _ => [] end.

Definition family_after : heap nat :=
  Eval vm_compute in
    match insert_after 3%nat 1%nat family_and_one with Ok (_, h) => h | _ => [] end.

Lemma gamma_classes_spanning_class_witness :
  simple_graph path4 ∧ is_connected path4 = true ∧
  is_connected (complement path4) = true ∧ (2 ≤ order path4)%nat ∧
  ∃ C, fdict_get (vertices path4) (gamma_classes path4) = Some C ∧ C ≠ [] ∧
       (∀ x, x ∈ vertices path4 ↔ x ∈ class_vertices C) ∧
       ∀ k C', (k, C') ∈ gamma_classes path4 → (∀ x, x ∈ k ↔ x ∈ vertices path4) → C' = C.
Proof.
  split; [exact simple_path4 |]. split; [reflexivity |]. split; [reflexivity |].
  split; [cbv; lia |].
  apply (gamma_classes_spanning_class path4);
    [exact simple_path4 | reflexivity | reflexivity | cbv; lia].
Defined.

Lemma remove_splices_out_witness :
  remove 1%nat family = Ok (tt, family_less) ∧
  field_of family_less 0%nat F_num_children = Some (VInt 1) ∧
  field_of family_less 0%nat F_first_child = Some (VRef 2%nat) ∧
  field_of family_less 2%nat F_left_sibling = Some VNone ∧
  field_of family_less 1%nat F_parent = Some VNone.
Proof.
  split; [reflexivity |].
  destruct (remove_splices_out 1%nat family family_less eq_refl)
    as ((Hp & _) & _ & Hr & Hn & Hf & _).
  split; [exact (Hn 0%nat 2 eq_refl eq_refl) |].
  split; [exact (Hf 0%nat eq_refl eq_refl) |].
  split; [| exact Hp].
  apply (Hr 2%nat); [reflexivity | lia].
Defined.

Lemma add_child_links_witness :
  add_child 0%nat 3%nat family_and_one = Ok (tt, family_more) ∧
  field_of family_more 0%nat F_first_child = Some (VRef 3%nat) ∧
  field_of family_more 3%nat F_parent = Some (VRef 0%nat) ∧
  field_of family_more 3%nat F_right_sibling = Some (VRef 1%nat) ∧
  field_of family_more 1%nat F_left_sibling = Some (VRef 3%nat) ∧
  field_of family_more 0%nat F_num_children = Some (VInt 3).
Proof.
  split; [reflexivity |].
  destruct (add_child_links 0%nat 3%nat family_and_one family_more eq_refl)
    as ((Hf & Hp & _) & Hs & Hc & Hn).
  split; [exact Hf |]. split; [exact Hp |].
  split; [apply Hs; discriminate |].
  split; [apply (Hc 1%nat); [reflexivity | lia] |].
  apply (Hn 2); [reflexivity | discriminate].
Defined.

Lemma insert_before_links_witness :
  insert_before 3%nat 1%nat family_and_one = Ok (tt, family_before) ∧
  detached family_and_one 3%nat ∧
  field_of family_before 3%nat F_right_sibling = Some (VRef 1%nat) ∧
  field_of family_before 1%nat F_left_sibling = Some (VRef 3%nat) ∧
  field_of family_before 3%nat F_parent = Some (VRef 0%nat) ∧
  field_of family_before 0%nat F_num_children = Some (VInt 3) ∧
  field_of family_before 0%nat F_first_child = Some (VRef 3%nat).
Proof.
  split; [reflexivity |].
  assert (detached family_and_one 3%nat) as Hd by (repeat split).
  split; [exact Hd |].
  destruct (insert_before_links 3%nat 1%nat family_and_one family_before eq_refl Hd)
    as ((Hr & Hl & _ & Hp & _) & _ & Hn & Hf); [lia |].
  split; [exact Hr |]. split; [exact Hl |]. split; [exact Hp |].
  split; [exact (Hn 0%nat 2 eq_refl eq_refl) | exact (Hf 0%nat eq_refl eq_refl)].
Defined.

Lemma insert_after_links_witness :
  insert_after 3%nat 1%nat family_and_one = Ok (tt, family_after) ∧
  detached family_and_one 3%nat ∧
  field_of family_after 3%nat F_left_sibling = Some (VRef 1%nat) ∧
  field_of family_after 1%nat F_right_sibling = Some (VRef 3%nat) ∧
  field_of family_after 3%nat F_right_sibling = Some (VRef 2%nat) ∧
  field_of family_after 2%nat F_left_sibling = Some (VRef 3%nat) ∧
  field_of family_after 0%nat F_num_children = Some (VInt 3).
Proof.
  split; [reflexivity |].
  assert (detached family_and_one 3%nat) as Hd by (repeat split).
  split; [exact Hd |].
  destruct (insert_after_links 3%nat 1%nat family_and_one family_after eq_refl Hd)
    as ((Hl & Hr & Hrs & _) & Hn & Hc & _); [lia |].
  split; [exact Hl |]. split; [exact Hr |]. split; [exact Hrs |].
  split; [apply (Hn 2%nat); [reflexivity | lia] | exact (Hc 0%nat 2 eq_refl eq_refl)].
Defined.

Lemma linked_family_and_one : linked family_and_one.
Proof.
  intros l Hl.
  destruct l as [| [| [| [| l]]]]; [| | | | simpl in Hl; lia].
  all: split; [| eexists; reflexivity].
  all: intros f Hf; destruct f; try discriminate Hf.
  all: eexists; (split; [reflexivity | simpl; lia || exact I]).
Defined.

Lemma tree_operations_keep_links_witness :
  linked family_and_one ∧ (3 < length family_and_one)%nat ∧ (1 < length family_and_one)%nat ∧
  (∃ h', remove 3%nat family_and_one = Ok (tt, h') ∧ linked h' ∧
         length h' = length family_and_one) ∧
  (∃ h', add_child 3%nat 1%nat family_and_one = Ok (tt, h') ∧ linked h' ∧
         length h' = length family_and_one) ∧
  (∃ h', replace_with 3%nat 1%nat family_and_one = Ok (tt, h') ∧ linked h' ∧
         length h' = length family_and_one) ∧
  (∃ h', insert_before 3%nat 1%nat family_and_one = Ok (tt, h') ∧ linked h' ∧
         length h' = length family_and_one) ∧
  (∃ h', insert_after 3%nat 1%nat family_and_one = Ok (tt, h') ∧ linked h' ∧
         length h' = length family_and_one).
Proof.
  split; [exact linked_family_and_one |]. split; [simpl; lia |]. split; [simpl; lia |].
  apply (tree_operations_keep_links family_and_one 3%nat 1%nat);
    [exact linked_family_and_one | simpl; lia | simpl; lia].
Defined.
